(** * SCIP-SDP: the SDP interface layer (src/sdpi/sdpi.c)

    A shallow embedding of the problem model, the mutation and query
    operations, the LP preprocessing pass, the constant-matrix folding, the
    all-fixed feasibility check and the solve orchestrator of [sdpi.c],
    of the clock of the interface ([sdpiclock.c]) and of the map between
    SCIP variables and SDP indices ([SdpVarmapper.c]), followed by the
    properties proved about them.

    Conventions.
    - A C [int] is a [Z]; signed overflow is undefined in C and no wrap-around
      is modelled.
    - A [SCIP_Real] is a rational [Q] with exact arithmetic; the compensated
      ("QUAD") sums of [tightenRowCoefs] are exact sums.
    - A C array is a [list]; its length is the allocated capacity.  Reading
      outside the list yields the default value and writing outside is
      ignored (both are undefined in C).
    - Row/column/value triple arrays of the SDP data are lists of [Entry].
    - Allocation failures ([SCIP_NOMEMORY]) and error codes of the backend
      are not modelled: every [SCIP_CALL] on a collaborator succeeds. *)

From Stdlib Require Import ZArith QArith Qabs Qpower Qround List Bool Lia Lqa.
Import ListNotations.

Set Implicit Arguments.
Open Scope Z_scope.

(** ** C arrays *)

Module Arr.

Definition get {A : Type} (d : A) (a : list A) (i : Z) : A :=
  if i <? 0 then d else nth (Z.to_nat i) a d.

Fixpoint set_nat {A : Type} (a : list A) (n : nat) (v : A) : list A :=
  match a, n with
  | [], _ => []
  | _ :: t, O => v :: t
  | x :: t, S n' => x :: set_nat t n' v
  end.

Definition set {A : Type} (a : list A) (i : Z) (v : A) : list A :=
  if i <? 0 then a else set_nat a (Z.to_nat i) v.

(** [ensure d a n]: the array has room for at least [n] entries afterwards
    (the growth policy [calcGrowSize] is not modelled, only its effect). *)
Definition ensure {A : Type} (d : A) (a : list A) (n : Z) : list A :=
  a ++ repeat d (Z.to_nat n - length a).

(** [for_loop n i body s] runs [body i], [body (i+1)], ... [n] times. *)
Fixpoint for_loop {S : Type} (n : nat) (i : Z) (body : Z -> S -> S) (s : S) : S :=
  match n with
  | O => s
  | S n' => for_loop n' (i + 1) body (body i s)
  end.

(** [for (i = lo; i < hi; ++i) body] *)
Definition for_range {S : Type} (lo hi : Z) (body : Z -> S -> S) (s : S) : S :=
  for_loop (Z.to_nat (hi - lo)) lo body s.

(** [BMScopyMemoryArray(&dst[off], src, n)] *)
Definition copy {A : Type} (d : A) (dst : list A) (off : Z) (src : list A) (n : Z) : list A :=
  for_range 0 n (fun i acc => set acc (off + i) (get d src i)) dst.

End Arr.

(** ** Comparisons and helpers on [SCIP_Real] *)

Definition Qltb (x y : Q) : bool := negb (Qle_bool y x).
Definition Qleb (x y : Q) : bool := Qle_bool x y.

Infix "<?" := Qltb : Q_scope.
Infix "<=?" := Qleb : Q_scope.

(** [REALABS] and [MAX] of scip/def.h *)
Definition REALABS (x : Q) : Q := Qabs x.
Definition MAX (x y : Q) : Q := if (y <=? x)%Q then x else y.
Definition MIN (x y : Q) : Q := if (x <=? y)%Q then x else y.

Definition SCIP_INVALID : Q := inject_Z (10 ^ 99).
Definition MIN_GAPTOL : Q := 1 # 10000000000.

(** ** Data model *)

Inductive SCIP_RETCODE := SCIP_OKAY | SCIP_LPERROR | SCIP_NOMEMORY | SCIP_PARAMETERUNKNOWN.

Inductive SCIP_ONEVAR_STATUS := SCIP_ONEVAR_UNSOLVED | SCIP_ONEVAR_OPTIMAL | SCIP_ONEVAR_INFEASIBLE.

Inductive SCIP_SDPSLATER :=
  SCIP_SDPSLATER_NOINFO | SCIP_SDPSLATER_NOT | SCIP_SDPSLATER_HOLDS | SCIP_SDPSLATER_INF.

(** one nonzero of a sparse symmetric matrix: [row[i]], [col[i]], [val[i]] *)
Record Entry := mkEntry { e_row : Z; e_col : Z; e_val : Q }.

(** the [v]-th variable of a block: [sdpvar[b][v]] and its
    [sdpnblockvarnonz[b][v]] nonzeros [sdprow/sdpcol/sdpval[b][v][.]] *)
Record BlockVar := mkBlockVar { sdpvar : Z; sdpnonz : list Entry }.

(** an SDP block: [sdpblocksizes[b]], its variables, and its constant matrix
    [sdpconstrow/col/val[b][.]] *)
Record Block := mkBlock { sdpblocksize : Z; sdpblockvars : list BlockVar; sdpconst : list Entry }.

Record VARS := mkVARS {
  nvars : Z;
  obj : list Q;
  lb : list Q;
  ub : list Q;
  isintegral : list bool }.

Record LPDATA := mkLPDATA {
  nlpcons : Z;
  lplhs : list Q;
  lprhs : list Q;
  nactivelpcons : Z;
  lpnnonz : Z;
  lpbeg : list Z;
  lpind : list Z;
  lpval : list Q }.

(** preprocessing data *)
Record PREP := mkPREP {
  sdpilpindchanges : list Z;
  sdpilplhs : list Q;
  sdpilprhs : list Q;
  sdpilb : list Q;
  sdpiub : list Q;
  sdpilbrowidx : list Z;
  sdpiubrowidx : list Z;
  sdpilpbeg : list Z;
  sdpilpind : list Z;
  sdpilpval : list Q }.

Record STATUS := mkSTATUS {
  solved : bool;
  penalty : bool;
  infeasible : bool;
  allfixed : bool;
  bestbound : Q;
  primalslater : SCIP_SDPSLATER;
  dualslater : SCIP_SDPSLATER;
  solvedonevarsdp : SCIP_ONEVAR_STATUS;
  onevarsdpobjval : Q;
  onevarsdpoptval : Q;
  onevarsdpidx : Z;
  onevarsdpcertval : Q }.

Record STATS := mkSTATS {
  ninfeasible : Z;
  nallfixed : Z;
  nonevarsdp : Z;
  sdpid : Z;
  niterations : Z;
  opttime : Q;
  nsdpcalls : Z }.

Record PARAMS := mkPARAMS {
  slatercheck : Z;
  epsilon : Q;
  gaptol : Q;
  feastol : Q;
  penaltyparam : Q;
  maxpenaltyparam : Q;
  npenaltyincr : Z;
  peninfeasadjust : Q }.

(** what the interface hands to a backend solve: the variables with the
    working bounds, the blocks, the constant matrices after fixings, the
    prepared LP rows and the time limit *)
Record SolverInput := mkSolverInput {
  in_vars : VARS;
  in_blocks : list Block;
  in_const : list (list Entry);
  in_lp : LPDATA;
  in_prep : PREP;
  in_lpnnonz : Z;
  in_timelimit : Q }.

(** ** The collaborators

    The backend ([sdpi/sdpisolver.h]), LAPACK ([sdpi/lapack_interface.h]),
    the one-variable solver ([sdpi/solveonevarsdp.h]), [pow] of the C library
    and the debug macro of SCIP are consumed through their interfaces. *)
Record SDPISOLVER := mkSDPISOLVER {
  solver : Type;
  SCIPsdpiSolverInfinity : solver -> Q;
  SCIPsdpiSolverLoadAndSolve : solver -> SolverInput -> solver;
  (** arguments: penalty parameter, [withobj], [rbound]; results: the solver,
      [feasorig] and [penaltybound] *)
  SCIPsdpiSolverLoadAndSolveWithPenalty :
    solver -> Q -> bool -> bool -> SolverInput -> solver * bool * bool;
  SCIPsdpiSolverIncreaseCounter : solver -> solver;
  SCIPsdpiSolverSetGaptol : solver -> Q -> solver;
  SCIPsdpiSolverWasSolved : solver -> bool;
  SCIPsdpiSolverIsAcceptable : solver -> bool;
  SCIPsdpiSolverIsTimelimExc : solver -> bool;
  SCIPsdpiSolverIsOptimal : solver -> bool;
  SCIPsdpiSolverIsDualInfeasible : solver -> bool;
  SCIPsdpiSolverGetObjval : solver -> Q;
  SCIPsdpiSolverGetDualSol : solver -> Q * list Q;
  SCIPsdpiSolverGetTime : solver -> Q;
  SCIPsdpiSolverGetIterations : solver -> Z;
  SCIPsdpiSolverGetSdpCalls : solver -> Z;
  (** the two Slater verdicts [checkSlaterCondition] stores, and the solver
      after its auxiliary solves *)
  checkSlaterSolves : solver -> SolverInput -> solver * SCIP_SDPSLATER * SCIP_SDPSLATER;
  (** smallest eigenvalue of the dense [size] x [size] matrix *)
  SCIPlapackComputeIthEigenvalue : Z -> list Q -> Q;
  (** results [objval], [optval] and [certval] of the one-variable solver *)
  SCIPsolveOneVarSDP : Q -> Q -> Q -> Z -> list Entry -> list Entry -> Q -> Q -> Q * Q * Q;
  (** [pow] of math.h *)
  pow : Q -> Q -> Q;
  (** whether SCIP_DEBUG is defined: only then does [SCIPdebugMessage]
      evaluate its arguments *)
  SCIP_DEBUG : bool }.

Section Interface.

Variable B : SDPISOLVER.

(** data for SDPI ([struct SCIP_SDPi]) *)
Record SCIP_SDPI := mkSDPI {
  sdpisolver : solver B;
  vars : VARS;
  blocks : list Block;
  lp : LPDATA;
  prep : PREP;
  status : STATUS;
  stats : STATS;
  par : PARAMS }.

(** *** Field updates *)

Definition with_vars (f : VARS -> VARS) (s : SCIP_SDPI) : SCIP_SDPI :=
  mkSDPI (sdpisolver s) (f (vars s)) (blocks s) (lp s) (prep s) (status s) (stats s) (par s).
Definition with_lp (f : LPDATA -> LPDATA) (s : SCIP_SDPI) : SCIP_SDPI :=
  mkSDPI (sdpisolver s) (vars s) (blocks s) (f (lp s)) (prep s) (status s) (stats s) (par s).
Definition with_prep (f : PREP -> PREP) (s : SCIP_SDPI) : SCIP_SDPI :=
  mkSDPI (sdpisolver s) (vars s) (blocks s) (lp s) (f (prep s)) (status s) (stats s) (par s).
Definition with_status (f : STATUS -> STATUS) (s : SCIP_SDPI) : SCIP_SDPI :=
  mkSDPI (sdpisolver s) (vars s) (blocks s) (lp s) (prep s) (f (status s)) (stats s) (par s).
Definition with_stats (f : STATS -> STATS) (s : SCIP_SDPI) : SCIP_SDPI :=
  mkSDPI (sdpisolver s) (vars s) (blocks s) (lp s) (prep s) (status s) (f (stats s)) (par s).
Definition with_solver (f : solver B -> solver B) (s : SCIP_SDPI) : SCIP_SDPI :=
  mkSDPI (f (sdpisolver s)) (vars s) (blocks s) (lp s) (prep s) (status s) (stats s) (par s).

Definition set_solved (v : bool) (t : STATUS) : STATUS :=
  mkSTATUS v (penalty t) (infeasible t) (allfixed t) (bestbound t) (primalslater t)
    (dualslater t) (solvedonevarsdp t) (onevarsdpobjval t) (onevarsdpoptval t)
    (onevarsdpidx t) (onevarsdpcertval t).
Definition set_penalty (v : bool) (t : STATUS) : STATUS :=
  mkSTATUS (solved t) v (infeasible t) (allfixed t) (bestbound t) (primalslater t)
    (dualslater t) (solvedonevarsdp t) (onevarsdpobjval t) (onevarsdpoptval t)
    (onevarsdpidx t) (onevarsdpcertval t).
Definition set_infeasible (v : bool) (t : STATUS) : STATUS :=
  mkSTATUS (solved t) (penalty t) v (allfixed t) (bestbound t) (primalslater t)
    (dualslater t) (solvedonevarsdp t) (onevarsdpobjval t) (onevarsdpoptval t)
    (onevarsdpidx t) (onevarsdpcertval t).
Definition set_allfixed (v : bool) (t : STATUS) : STATUS :=
  mkSTATUS (solved t) (penalty t) (infeasible t) v (bestbound t) (primalslater t)
    (dualslater t) (solvedonevarsdp t) (onevarsdpobjval t) (onevarsdpoptval t)
    (onevarsdpidx t) (onevarsdpcertval t).
Definition set_bestbound (v : Q) (t : STATUS) : STATUS :=
  mkSTATUS (solved t) (penalty t) (infeasible t) (allfixed t) v (primalslater t)
    (dualslater t) (solvedonevarsdp t) (onevarsdpobjval t) (onevarsdpoptval t)
    (onevarsdpidx t) (onevarsdpcertval t).
Definition set_slater (p d : SCIP_SDPSLATER) (t : STATUS) : STATUS :=
  mkSTATUS (solved t) (penalty t) (infeasible t) (allfixed t) (bestbound t) p
    d (solvedonevarsdp t) (onevarsdpobjval t) (onevarsdpoptval t)
    (onevarsdpidx t) (onevarsdpcertval t).
Definition set_onevar (o : SCIP_ONEVAR_STATUS) (objval optval : Q) (idx : Z) (certval : Q)
    (t : STATUS) : STATUS :=
  mkSTATUS (solved t) (penalty t) (infeasible t) (allfixed t) (bestbound t) (primalslater t)
    (dualslater t) o objval optval idx certval.

(** [nsdpcalls = 0; niterations = 0; opttime = 0.0] *)
Definition reset_counts (t : STATS) : STATS :=
  mkSTATS (ninfeasible t) (nallfixed t) (nonevarsdp t) (sdpid t) 0 0%Q 0.
Definition set_sdpid (v : Z) (t : STATS) : STATS :=
  mkSTATS (ninfeasible t) (nallfixed t) (nonevarsdp t) v (niterations t) (opttime t) (nsdpcalls t).
Definition incr_ninfeasible (t : STATS) : STATS :=
  mkSTATS (ninfeasible t + 1) (nallfixed t) (nonevarsdp t) (sdpid t) (niterations t) (opttime t)
    (nsdpcalls t).
Definition incr_nallfixed (t : STATS) : STATS :=
  mkSTATS (ninfeasible t) (nallfixed t + 1) (nonevarsdp t) (sdpid t) (niterations t) (opttime t)
    (nsdpcalls t).
Definition incr_nonevarsdp (t : STATS) : STATS :=
  mkSTATS (ninfeasible t) (nallfixed t) (nonevarsdp t + 1) (sdpid t) (niterations t) (opttime t)
    (nsdpcalls t).
(** the "add time, iterations and sdpcalls" block after a backend call *)
Definition add_solver_counts (sv : solver B) (t : STATS) : STATS :=
  mkSTATS (ninfeasible t) (nallfixed t) (nonevarsdp t) (sdpid t)
    (niterations t + SCIPsdpiSolverGetIterations B sv)
    (opttime t + SCIPsdpiSolverGetTime B sv)%Q
    (nsdpcalls t + SCIPsdpiSolverGetSdpCalls B sv).

(** *** Problem mutation ([SCIPsdpiAddLPRows] ... [SCIPsdpiChgLPLhRhSides]) *)

(** [ensureLPDataMemory]: grows the row arrays to [nlpcons] and the nonzero
    arrays to [nlpnonz] entries *)
Definition ensureLPDataMemory (s : SCIP_SDPI) (nlpcons' nlpnonz : Z) : SCIP_SDPI :=
  let l := lp s in
  let p := prep s in
  mkSDPI (sdpisolver s) (vars s) (blocks s)
    (mkLPDATA (nlpcons l) (Arr.ensure 0%Q (lplhs l) nlpcons') (Arr.ensure 0%Q (lprhs l) nlpcons')
       (nactivelpcons l) (lpnnonz l) (Arr.ensure 0 (lpbeg l) nlpcons')
       (Arr.ensure 0 (lpind l) nlpnonz) (Arr.ensure 0%Q (lpval l) nlpnonz))
    (mkPREP (Arr.ensure 0 (sdpilpindchanges p) nlpcons') (Arr.ensure 0%Q (sdpilplhs p) nlpcons')
       (Arr.ensure 0%Q (sdpilprhs p) nlpcons') (sdpilb p) (sdpiub p) (sdpilbrowidx p)
       (sdpiubrowidx p) (Arr.ensure 0 (sdpilpbeg p) nlpcons')
       (Arr.ensure 0 (sdpilpind p) nlpnonz) (Arr.ensure 0%Q (sdpilpval p) nlpnonz))
    (status s) (stats s) (par s).

Definition SCIPsdpiAddLPRows (s : SCIP_SDPI) (nrows : Z) (lhs rhs : list Q) (nnonz : Z)
    (beg ind : list Z) (val : list Q) : SCIP_SDPI :=
  if nrows =? 0 then s (* nothing to do in this case *)
  else
    let s1 :=
      if nlpcons (lp s) =? 0 then
        (* speed up things if LP part is empty *)
        let s0 := ensureLPDataMemory s nrows nnonz in
        with_lp (fun l =>
          mkLPDATA nrows
            (Arr.copy 0%Q (lplhs l) 0 lhs nrows)
            (Arr.copy 0%Q (lprhs l) 0 rhs nrows)
            (-1) nnonz
            (Arr.copy 0 (lpbeg l) 0 beg nrows)
            (Arr.copy 0 (lpind l) 0 ind nnonz)
            (Arr.copy 0%Q (lpval l) 0 val nnonz)) s0
      else
        let s0 := ensureLPDataMemory s (nlpcons (lp s) + nrows) (lpnnonz (lp s) + nnonz) in
        with_lp (fun l =>
          mkLPDATA (nlpcons l + nrows)
            (Arr.copy 0%Q (lplhs l) (nlpcons l) lhs nrows)
            (Arr.copy 0%Q (lprhs l) (nlpcons l) rhs nrows)
            (-1) (lpnnonz l + nnonz)
            (Arr.copy 0 (lpbeg l) (nlpcons l) beg nrows)
            (Arr.for_range 0 nnonz
               (fun i a => Arr.set a (lpnnonz l + i) (Arr.get 0 ind i)) (lpind l))
            (Arr.for_range 0 nnonz
               (fun i a => Arr.set a (lpnnonz l + i) (Arr.get 0%Q val i)) (lpval l))) s0
    in
    with_stats reset_counts
      (with_status (fun t => set_infeasible false (set_solved false t)) s1).

(** the flag resets shared by the remaining mutators *)
Definition invalidate (s : SCIP_SDPI) : SCIP_SDPI :=
  with_stats reset_counts
    (with_status (fun t => set_allfixed false (set_infeasible false (set_solved false t))) s).

Definition SCIPsdpiDelLPRows (s : SCIP_SDPI) (firstrow lastrow : Z) : SCIP_SDPI :=
  let l := lp s in
  if (firstrow =? 0) && (lastrow =? nlpcons l - 1) then
    (* shorten the procedure if the whole LP-part is to be deleted *)
    invalidate
      (with_lp (fun l => mkLPDATA 0 (lplhs l) (lprhs l) (-1) 0 (lpbeg l) (lpind l) (lpval l)) s)
  else
    let deletedrows := lastrow - firstrow + 1 in
    (* first delete the left- and right-hand-sides *)
    let shifted :=
      Arr.for_range (lastrow + 1) (nlpcons l)
        (fun i '(lhs, rhs, beg) =>
           (Arr.set lhs (i - deletedrows) (Arr.get 0%Q lhs i),
            Arr.set rhs (i - deletedrows) (Arr.get 0%Q rhs i),
            Arr.set beg (i - deletedrows) (Arr.get 0 beg i)))
        (lplhs l, lprhs l, lpbeg l) in
    let '(lhs1, rhs1, beg1) := shifted in
    let nextbeg := if lastrow =? nlpcons l then lpnnonz l else Arr.get 0 beg1 (lastrow + 1) in
    let deletednonz := nextbeg - Arr.get 0 beg1 firstrow + 1 in
    let ind1 :=
      Arr.for_range nextbeg (lpnnonz l)
        (fun i a => Arr.set a (i - deletednonz) (Arr.get 0 a i)) (lpind l) in
    invalidate
      (with_lp (fun _ =>
         mkLPDATA (nlpcons l - deletedrows) lhs1 rhs1 (-1) (lpnnonz l - deletednonz)
           beg1 ind1 (lpval l)) s).

(** [dstat] is an in/out array: the result holds the updated [dstat] *)
Definition SCIPsdpiDelLPRowset (s : SCIP_SDPI) (dstat : list Z) : SCIP_SDPI * list Z :=
  let oldnlpcons := nlpcons (lp s) in
  let '(s1, dstat1, _) :=
    Arr.for_range 0 oldnlpcons
      (fun i '(s, dstat, deletedrows) =>
         if Arr.get 0 dstat i =? 1 then
           (SCIPsdpiDelLPRows s (i - deletedrows) (i - deletedrows),
            Arr.set dstat i (-1), deletedrows + 1)
         else (s, Arr.set dstat i (i - deletedrows), deletedrows))
      (s, dstat, 0) in
  (invalidate s1, dstat1).

Definition SCIPsdpiChgObj (s : SCIP_SDPI) (nvars' : Z) (ind : list Z) (obj' : list Q)
    : SCIP_SDPI :=
  let s1 :=
    with_vars (fun v =>
      mkVARS (nvars v)
        (Arr.for_range 0 nvars'
           (fun i a => Arr.set a (Arr.get 0 ind i) (Arr.get 0%Q obj' i)) (obj v))
        (lb v) (ub v) (isintegral v)) s in
  with_stats reset_counts (with_status (set_solved false) s1).

Definition SCIPsdpiChgBounds (s : SCIP_SDPI) (nvars' : Z) (ind : list Z) (lb' ub' : list Q)
    : SCIP_SDPI :=
  let s1 :=
    with_vars (fun v =>
      mkVARS (nvars v) (obj v)
        (Arr.for_range 0 nvars'
           (fun i a => Arr.set a (Arr.get 0 ind i) (Arr.get 0%Q lb' i)) (lb v))
        (Arr.for_range 0 nvars'
           (fun i a => Arr.set a (Arr.get 0 ind i) (Arr.get 0%Q ub' i)) (ub v))
        (isintegral v)) s in
  invalidate s1.

Definition SCIPsdpiChgLPLhRhSides (s : SCIP_SDPI) (nrows : Z) (ind : list Z) (lhs rhs : list Q)
    : SCIP_SDPI :=
  let s1 :=
    with_lp (fun l =>
      mkLPDATA (nlpcons l)
        (Arr.for_range 0 nrows
           (fun i a => Arr.set a (Arr.get 0 ind i) (Arr.get 0%Q lhs i)) (lplhs l))
        (Arr.for_range 0 nrows
           (fun i a => Arr.set a (Arr.get 0 ind i) (Arr.get 0%Q rhs i)) (lprhs l))
        (nactivelpcons l) (lpnnonz l) (lpbeg l) (lpind l) (lpval l)) s in
  invalidate s1.

(** the calls of the problem mutation API, with their arguments *)
Inductive Mutation :=
| MutAddLPRows (nrows : Z) (lhs rhs : list Q) (nnonz : Z) (beg ind : list Z) (val : list Q)
| MutDelLPRows (firstrow lastrow : Z)
| MutDelLPRowset (dstat : list Z)
| MutChgObj (nvars' : Z) (ind : list Z) (obj' : list Q)
| MutChgBounds (nvars' : Z) (ind : list Z) (lb' ub' : list Q)
| MutChgLPLhRhSides (nrows : Z) (ind : list Z) (lhs rhs : list Q).

Definition mutate (m : Mutation) (s : SCIP_SDPI) : SCIP_SDPI :=
  match m with
  | MutAddLPRows nrows lhs rhs nnonz beg ind val =>
      SCIPsdpiAddLPRows s nrows lhs rhs nnonz beg ind val
  | MutDelLPRows firstrow lastrow => SCIPsdpiDelLPRows s firstrow lastrow
  | MutDelLPRowset dstat => fst (SCIPsdpiDelLPRowset s dstat)
  | MutChgObj n ind o => SCIPsdpiChgObj s n ind o
  | MutChgBounds n ind l u => SCIPsdpiChgBounds s n ind l u
  | MutChgLPLhRhSides n ind l r => SCIPsdpiChgLPLhRhSides s n ind l r
  end.

End Interface.

Arguments mutate {B} m s.
Arguments SCIPsdpiDelLPRows {B} s firstrow lastrow.

(** ** Reading the stored LP part row by row

    Row [i] owns the nonzeros [lpbeg[i] .. nextbeg-1], where [nextbeg] is
    [lpnnonz] for the last row and [lpbeg[i+1]] otherwise (as in
    [prepareLPData]). *)

Definition lp_nextbeg (l : LPDATA) (i : Z) : Z :=
  if i =? nlpcons l - 1 then lpnnonz l else Arr.get 0 (lpbeg l) (i + 1).

Record LPRow := mkLPRow { row_lhs : Q; row_rhs : Q; row_nonz : list (Z * Q) }.

Definition lp_row (l : LPDATA) (i : Z) : LPRow :=
  mkLPRow (Arr.get 0%Q (lplhs l) i) (Arr.get 0%Q (lprhs l) i)
    (rev (Arr.for_range (Arr.get 0 (lpbeg l) i) (lp_nextbeg l i)
            (fun j acc => (Arr.get 0 (lpind l) j, Arr.get 0%Q (lpval l) j) :: acc) [])).

Definition lp_rows (l : LPDATA) : list LPRow :=
  rev (Arr.for_range 0 (nlpcons l) (fun i acc => lp_row l i :: acc) []).

(** ** Preprocessing of the LP part ([tightenRowCoefs], [prepareLPData]) *)

(** [isFixed]: the upper bound is at most [epsilon] above the lower bound *)
Definition isFixed_in (eps : Q) (lbs ubs : list Q) (v : Z) : bool :=
  (Arr.get 0%Q ubs v - Arr.get 0%Q lbs v <=? eps)%Q.

Record Activity := mkActivity {
  minactquad : Q;
  maxactquad : Q;
  minactinf : bool;
  maxactinf : bool;
  maxintabsval : Q;
  hasintvar : bool }.

Record TightenState := mkTightenState {
  t_vals : list Q;
  t_inds : list Z;
  t_nnonz : Z;
  t_lhs : Q;
  t_rhs : Q;
  t_minact : Q;
  t_maxact : Q;
  t_minactquad : Q;
  t_maxactquad : Q;
  t_nchgcoefs : Z }.

Record TightenResult := mkTightenResult {
  rowvals : list Q;
  rowinds : list Z;
  rownnonz : Z;
  rowlhs : Q;
  rowrhs : Q;
  lhsredundant : bool;
  rhsredundant : bool;
  nchgcoefs : Z }.

Section TightenRowCoefs.

(** [SCIPsdpiInfinity(sdpi)], [sdpi->epsilon], [sdpi->isintegral] and the
    current bounds *)
Variables (inf eps : Q) (isint : list bool) (lbs ubs : list Q).

(** the row occupies [vals[off .. off+nnonz-1]] and [inds[off .. off+nnonz-1]]
    (the pointers [rowvals], [rowinds] of the source) *)
Variable off : Z.

(** compute activities *)
Definition activity_step (vals : list Q) (inds : list Z) (i : Z) (a : Activity) : Activity :=
  let idx := Arr.get 0 inds (off + i) in
  let v := Arr.get 0%Q vals (off + i) in
  let lb := Arr.get 0%Q lbs idx in
  let ub := Arr.get 0%Q ubs idx in
  let isi := Arr.get false isint idx in
  let mia := if isi then MAX (maxintabsval a) (REALABS v) else maxintabsval a in
  let hiv := if isi then true else hasintvar a in
  if (0 <? v)%Q then
    mkActivity
      (if (- inf <? lb)%Q then (minactquad a + v * lb)%Q else minactquad a)
      (if (ub <? inf)%Q then (maxactquad a + v * ub)%Q else maxactquad a)
      (if (- inf <? lb)%Q then minactinf a else true)
      (if (ub <? inf)%Q then maxactinf a else true)
      mia hiv
  else
    mkActivity
      (if (ub <? inf)%Q then (minactquad a + v * ub)%Q else minactquad a)
      (if (- inf <? lb)%Q then (maxactquad a + v * lb)%Q else maxactquad a)
      (if (ub <? inf)%Q then minactinf a else true)
      (if (- inf <? lb)%Q then maxactinf a else true)
      mia hiv.

(** one coefficient was tightened to [newval]; [lbnd] and [ubnd] are the
    bounds multiplying the change on the left and on the right side, and
    [keep] tells whether the new coefficient is still a nonzero *)
Definition tighten_apply (t : TightenState) (i : Z) (newval lbnd ubnd : Q) (keep : bool)
    : TightenState * bool :=
  let a := Arr.get 0%Q (t_vals t) (off + i) in
  let lhsdeltaquad := ((newval + - a) * lbnd)%Q in
  let rhsdeltaquad := ((newval + - a) * ubnd)%Q in
  let newlhs := if (- inf <? t_lhs t)%Q then (lhsdeltaquad + t_lhs t)%Q else t_lhs t in
  let newrhs := if (t_rhs t <? inf)%Q then (rhsdeltaquad + t_rhs t)%Q else t_rhs t in
  if keep then
    let minq := if (- inf <? newlhs)%Q then (t_minactquad t + lhsdeltaquad)%Q
                else t_minactquad t in
    let maxq := if (newrhs <? inf)%Q then (t_maxactquad t + rhsdeltaquad)%Q
                else t_maxactquad t in
    (mkTightenState (Arr.set (t_vals t) (off + i) newval) (t_inds t) (t_nnonz t)
       newlhs newrhs
       (if (- inf <? newlhs)%Q then minq else t_minact t)
       (if (newrhs <? inf)%Q then maxq else t_maxact t)
       minq maxq (t_nchgcoefs t + 1), true)
  else
    let n' := t_nnonz t - 1 in
    (mkTightenState
       (Arr.set (t_vals t) (off + i) (Arr.get 0%Q (t_vals t) (off + n')))
       (Arr.set (t_inds t) (off + i) (Arr.get 0 (t_inds t) (off + n')))
       n' newlhs newrhs (t_minact t) (t_maxact t) (t_minactquad t) (t_maxactquad t)
       (t_nchgcoefs t + 1), false).

(** body of the loop over the integral variables; the boolean tells whether
    [i] is advanced *)
Definition tighten_step (t : TightenState) (i : Z) : TightenState * bool :=
  let idx := Arr.get 0 (t_inds t) (off + i) in
  if negb (Arr.get false isint idx) then (t, true) (* skip continuous variables *)
  else
    let lb := Arr.get 0%Q lbs idx in
    let ub := Arr.get 0%Q ubs idx in
    let a := Arr.get 0%Q (t_vals t) (off + i) in
    if (0 <? a)%Q && (t_lhs t - eps <=? t_minact t + a)%Q && (t_maxact t - a <=? t_rhs t + eps)%Q
    then
      let newval := MAX (t_lhs t - t_minact t) (t_maxact t - t_rhs t) in
      if (eps <? REALABS (newval - a))%Q
      then tighten_apply t i newval lb ub (eps <? newval)%Q
      else (t, true)
    else if (a <? 0)%Q && (t_lhs t - eps <=? t_minact t - a)%Q
            && (t_maxact t + a <=? t_rhs t + eps)%Q
    then
      let newval := MIN (t_minact t - t_lhs t) (t_rhs t - t_maxact t) in
      if (eps <? REALABS (newval - a))%Q
      then tighten_apply t i newval ub lb (newval <? - eps)%Q
      else (t, true)
    else (t, true).

(** [for (i = 0; i < *rownnonz;)]: every pass either advances [i] or removes
    the last nonzero, so [k = *rownnonz - i] passes are made *)
Fixpoint tighten_loop (k : nat) (i : Z) (t : TightenState) : TightenState :=
  match k with
  | O => t
  | S k' =>
      let '(t', advance) := tighten_step t i in
      tighten_loop k' (if advance then i + 1 else i) t'
  end.

Definition tightenRowCoefs (vals : list Q) (inds : list Z) (nnonz : Z) (lhs rhs : Q)
    : TightenResult :=
  let unchanged lr rr := mkTightenResult vals inds nnonz lhs rhs lr rr 0 in
  (* do nothing for equations *)
  if (REALABS (lhs - rhs) <? eps)%Q then unchanged false false
  else
    let a := Arr.for_range 0 nnonz (activity_step vals inds)
               (mkActivity 0%Q 0%Q false false 0%Q false) in
    if negb (hasintvar a) then unchanged false false
    else if minactinf a && maxactinf a then unchanged false false
    else
      let minact := if minactinf a then (- inf)%Q else minactquad a in
      let maxact := if maxactinf a then inf else maxactquad a in
      let lr := if (lhs <=? - inf)%Q then true else (lhs - eps <=? minact)%Q in
      let rr := if (inf <=? rhs)%Q then true else (maxact <=? rhs + eps)%Q in
      if lr && rr then unchanged lr rr
      else if (minact + maxintabsval a <? lhs - eps)%Q
              || (rhs + eps <? maxact - maxintabsval a)%Q
      then unchanged lr rr
      else
        let t := tighten_loop (Z.to_nat nnonz) 0
                   (mkTightenState vals inds nnonz lhs rhs minact maxact
                      (minactquad a) (maxactquad a) 0) in
        mkTightenResult (t_vals t) (t_inds t) (t_nnonz t) (t_lhs t) (t_rhs t) lr rr
          (t_nchgcoefs t).

End TightenRowCoefs.

Record RowScan := mkRowScan {
  sc_ind : list Z;
  sc_val : list Q;
  sc_nlpnonz : Z;
  sc_nrownonz : Z;
  sc_nonzind : Z;
  sc_rowconst : Q }.

(** the working data [prepareLPData] writes, its out-parameters
    [*nsdpilpcons], [*sdpilpnnonz], [*fixingsfound], the flag
    [sdpi->infeasible], and whether the function has returned *)
Record PassState := mkPassState {
  p_prep : PREP;
  p_nsdpilpcons : Z;
  p_sdpilpnnonz : Z;
  p_fixingsfound : bool;
  p_infeasible : bool;
  p_returned : bool }.

Section PrepareLPData.

(** [SCIPsdpiInfinity(sdpi)], [sdpi->epsilon], [sdpi->feastol],
    [sdpi->isintegral] and the stored LP part *)
Variables (inf eps ftol : Q) (isint : list bool) (l : LPDATA).

(** one nonzero [j] of the row: count the active variables, move the fixed
    ones into the row constant *)
Definition scan_step (lbs ubs : list Q) (j : Z) (c : RowScan) : RowScan :=
  let col := Arr.get 0 (lpind l) j in
  if negb (isFixed_in eps lbs ubs col) then
    mkRowScan (Arr.set (sc_ind c) (sc_nlpnonz c) col)
      (Arr.set (sc_val c) (sc_nlpnonz c) (Arr.get 0%Q (lpval l) j))
      (sc_nlpnonz c + 1) (sc_nrownonz c + 1) j (sc_rowconst c)
  else
    mkRowScan (sc_ind c) (sc_val c) (sc_nlpnonz c) (sc_nrownonz c) (sc_nonzind c)
      (sc_rowconst c + Arr.get 0%Q (lpval l) j * Arr.get 0%Q lbs col)%Q.

Definition scan_row (w : PREP) (nnz : Z) (i : Z) : RowScan :=
  Arr.for_range (Arr.get 0 (lpbeg l) i) (lp_nextbeg l i) (scan_step (sdpilb w) (sdpiub w))
    (mkRowScan (sdpilpind w) (sdpilpval w) nnz 0 (-1) 0%Q).

Definition row_lhs_after (i : Z) (rowconst : Q) : Q :=
  if (- inf <? Arr.get 0%Q (lplhs l) i)%Q then (Arr.get 0%Q (lplhs l) i - rowconst)%Q
  else (- inf)%Q.

Definition row_rhs_after (i : Z) (rowconst : Q) : Q :=
  if (Arr.get 0%Q (lprhs l) i <? inf)%Q then (Arr.get 0%Q (lprhs l) i - rowconst)%Q
  else inf.

(** the candidate bounds of a row with the single active nonzero [lpval'] *)
Definition singleton_lb (lpval' lhs rhs : Q) : Q :=
  if (0 <? lpval')%Q then (if (- inf <? lhs)%Q then (lhs / lpval')%Q else (- inf)%Q)
  else (if (rhs <? inf)%Q then (rhs / lpval')%Q else (- inf)%Q).

Definition singleton_ub (lpval' lhs rhs : Q) : Q :=
  if (0 <? lpval')%Q then (if (rhs <? inf)%Q then (rhs / lpval')%Q else inf)
  else (if (- inf <? lhs)%Q then (lhs / lpval')%Q else inf).

(** rows with at least two active variables *)
Definition prepare_row_many (i : Z) (p : PassState) (w : PREP) (c : RowScan) (lhs rhs : Q)
    : PassState :=
  let r := tightenRowCoefs inf eps isint (sdpilb w) (sdpiub w) (p_nsdpilpcons p)
             (sc_val c) (sc_ind c) (sc_nrownonz c) lhs rhs in
  if negb (lhsredundant r) || negb (rhsredundant r) then
    mkPassState
      (mkPREP (Arr.set (sdpilpindchanges w) i (i - p_nsdpilpcons p))
         (Arr.set (sdpilplhs w) i (rowlhs r)) (Arr.set (sdpilprhs w) i (rowrhs r))
         (sdpilb w) (sdpiub w) (sdpilbrowidx w) (sdpiubrowidx w) (sdpilpbeg w)
         (rowinds r) (rowvals r))
      (p_nsdpilpcons p + 1) (p_sdpilpnnonz p + rownnonz r)
      (p_fixingsfound p) (p_infeasible p) false
  else
    mkPassState
      (mkPREP (sdpilpindchanges w) (sdpilplhs w) (sdpilprhs w)
         (sdpilb w) (sdpiub w) (sdpilbrowidx w) (sdpiubrowidx w) (sdpilpbeg w)
         (rowinds r) (rowvals r))
      (p_nsdpilpcons p) (p_sdpilpnnonz p) (p_fixingsfound p) (p_infeasible p) false.

(** rows with exactly one active variable become bounds *)
Definition prepare_row_single (i : Z) (p : PassState) (w : PREP) (c : RowScan) (lhs rhs : Q)
    : PassState :=
  let lpcol := Arr.get 0 (lpind l) (sc_nonzind c) in
  let lpval' := Arr.get 0%Q (lpval l) (sc_nonzind c) in
  let lb' := singleton_lb lpval' lhs rhs in
  let ub' := singleton_ub lpval' lhs rhs in
  let lbstronger := (Arr.get 0%Q (sdpilb w) lpcol + eps <? lb')%Q in
  let ubstronger := (ub' <? Arr.get 0%Q (sdpiub w) lpcol - eps)%Q in
  let lbs := if lbstronger then Arr.set (sdpilb w) lpcol lb' else sdpilb w in
  let lbidx := if lbstronger
               then Arr.set (sdpilbrowidx w) lpcol (if (lpval' <? 0)%Q then i + 1 else - i - 1)
               else sdpilbrowidx w in
  let ubs := if ubstronger then Arr.set (sdpiub w) lpcol ub' else sdpiub w in
  let ubidx := if ubstronger
               then Arr.set (sdpiubrowidx w) lpcol (if (0 <? lpval')%Q then i + 1 else - i - 1)
               else sdpiubrowidx w in
  let w' := mkPREP (sdpilpindchanges w) (sdpilplhs w) (sdpilprhs w) lbs ubs lbidx ubidx
              (sdpilpbeg w) (sc_ind c) (sc_val c) in
  if (Arr.get 0%Q ubs lpcol <? Arr.get 0%Q lbs lpcol - eps)%Q then
    (* this makes the problem infeasible *)
    mkPassState w' (p_nsdpilpcons p) (p_sdpilpnnonz p) (p_fixingsfound p) true true
  else if (REALABS (Arr.get 0%Q lbs lpcol - Arr.get 0%Q ubs lpcol) <? eps)%Q then
    (* this leads to a fixing of this variable *)
    mkPassState w' (p_nsdpilpcons p) (p_sdpilpnnonz p) true (p_infeasible p) false
  else
    mkPassState w' (p_nsdpilpcons p) (p_sdpilpnnonz p) (p_fixingsfound p) (p_infeasible p) false.

(** rows with no entries: [lhs <= 0 <= rhs] *)
Definition prepare_row_empty (p : PassState) (w : PREP) (c : RowScan) (lhs rhs : Q)
    : PassState :=
  let w' := mkPREP (sdpilpindchanges w) (sdpilplhs w) (sdpilprhs w) (sdpilb w) (sdpiub w)
              (sdpilbrowidx w) (sdpiubrowidx w) (sdpilpbeg w) (sc_ind c) (sc_val c) in
  if (ftol <? lhs)%Q || (rhs <? - ftol)%Q then
    mkPassState w' (p_nsdpilpcons p) (p_sdpilpnnonz p) (p_fixingsfound p) true true
  else
    mkPassState w' (p_nsdpilpcons p) (p_sdpilpnnonz p) (p_fixingsfound p) (p_infeasible p) false.

(** init constraint to be removed, initialize the sides for debugging, and
    store the start of the row *)
Definition init_row (w0 : PREP) (i nnz : Z) : PREP :=
  mkPREP (Arr.set (sdpilpindchanges w0) i (-1))
    (Arr.set (sdpilplhs w0) i SCIP_INVALID) (Arr.set (sdpilprhs w0) i SCIP_INVALID)
    (sdpilb w0) (sdpiub w0) (sdpilbrowidx w0) (sdpiubrowidx w0)
    (Arr.set (sdpilpbeg w0) i nnz) (sdpilpind w0) (sdpilpval w0).

(** body of the loop over the LP rows *)
Definition prepare_row (i : Z) (p : PassState) : PassState :=
  if p_returned p then p
  else
    let w := init_row (p_prep p) i (p_sdpilpnnonz p) in
    let c := scan_row w (p_sdpilpnnonz p) i in
    let lhs := row_lhs_after i (sc_rowconst c) in
    let rhs := row_rhs_after i (sc_rowconst c) in
    if 2 <=? sc_nrownonz c then prepare_row_many i p w c lhs rhs
    else if sc_nrownonz c =? 1 then prepare_row_single i p w c lhs rhs
    else prepare_row_empty p w c lhs rhs.

(** [prepareLPData] on the working data; [nv] is [sdpi->nvars] and
    [infeas0] the value of [sdpi->infeasible] on entry *)
Definition prepare_pass (nv : Z) (w : PREP) (infeas0 : bool) : PassState :=
  if (nlpcons l =? 0) || (lpnnonz l =? 0) then
    (* if there is no LP-part, there is nothing to do *)
    mkPassState w 0 0 false infeas0 true
  else
    (* init row indices *)
    let w1 := mkPREP (sdpilpindchanges w) (sdpilplhs w) (sdpilprhs w) (sdpilb w) (sdpiub w)
                (Arr.for_range 0 nv (fun i a => Arr.set a i 0) (sdpilbrowidx w))
                (Arr.for_range 0 nv (fun i a => Arr.set a i 0) (sdpiubrowidx w))
                (sdpilpbeg w) (sdpilpind w) (sdpilpval w) in
    Arr.for_range 0 (nlpcons l) prepare_row (mkPassState w1 0 0 false infeas0 false).

End PrepareLPData.

Section Prepare.

Variable B : SDPISOLVER.

Definition SCIPsdpiInfinity (s : SCIP_SDPI B) : Q := SCIPsdpiSolverInfinity B (sdpisolver s).

Definition SCIPsdpiIsInfinity (s : SCIP_SDPI B) (val : Q) : bool :=
  (val <=? - SCIPsdpiInfinity s)%Q || (SCIPsdpiInfinity s <=? val)%Q.

Definition isFixed (s : SCIP_SDPI B) (v : Z) : bool :=
  isFixed_in (epsilon (par s)) (sdpilb (prep s)) (sdpiub (prep s)) v.

(** [prepareLPData(sdpi, sdpi->sdpilb, sdpi->sdpiub, ...)] as called by
    [SCIPsdpiSolve]: all array arguments are the fields of [sdpi] itself and
    [nsdpilpcons] points to [sdpi->nactivelpcons].  The results are the
    interface and the out-parameters [*sdpilpnnonz] and [*fixingsfound]. *)
Definition prepareLPData (s : SCIP_SDPI B) : SCIP_SDPI B * Z * bool :=
  let p := prepare_pass (SCIPsdpiInfinity s) (epsilon (par s)) (feastol (par s))
             (isintegral (vars s)) (lp s) (nvars (vars s)) (prep s)
             (infeasible (status s)) in
  (mkSDPI B (sdpisolver s) (vars s) (blocks s)
     (let l := lp s in
      mkLPDATA (nlpcons l) (lplhs l) (lprhs l) (p_nsdpilpcons p) (lpnnonz l) (lpbeg l)
        (lpind l) (lpval l))
     (p_prep p) (set_infeasible (p_infeasible p) (status s)) (stats s) (par s),
   p_sdpilpnnonz p, p_fixingsfound p).

End Prepare.

(** *** The effect of a row with a single free variable *)

(** what a row with one free variable does to the bounds of its column
    [col], to the provenance arrays and to the flags *)
Definition singleton_effect (eps : Q) (i : Z) (p p' : PassState) (col : Z) (a candlb candub : Q) : Prop :=
  let w := p_prep p in
  let w' := p_prep p' in
  let oldlb := Arr.get 0%Q (sdpilb w) col in
  let oldub := Arr.get 0%Q (sdpiub w) col in
  let newlb := Arr.get 0%Q (sdpilb w') col in
  let newub := Arr.get 0%Q (sdpiub w') col in
  (* the row is removed *)
  Arr.get 0 (sdpilpindchanges w') i = -1 /\
  p_nsdpilpcons p' = p_nsdpilpcons p /\
  p_sdpilpnnonz p' = p_sdpilpnnonz p /\
  (* a stronger lower bound is recorded, with the row and side that gave it *)
  ((oldlb + eps < candlb)%Q ->
     newlb = candlb /\
     ((a < 0)%Q -> Arr.get 0 (sdpilbrowidx w') col = i + 1) /\
     ((0 <= a)%Q -> Arr.get 0 (sdpilbrowidx w') col = - i - 1)) /\
  ((candlb <= oldlb + eps)%Q ->
     newlb = oldlb /\ Arr.get 0 (sdpilbrowidx w') col = Arr.get 0 (sdpilbrowidx w) col) /\
  (* a stronger upper bound is recorded, with the row and side that gave it *)
  ((candub < oldub - eps)%Q ->
     newub = candub /\
     ((0 < a)%Q -> Arr.get 0 (sdpiubrowidx w') col = i + 1) /\
     ((a <= 0)%Q -> Arr.get 0 (sdpiubrowidx w') col = - i - 1)) /\
  ((oldub - eps <= candub)%Q ->
     newub = oldub /\ Arr.get 0 (sdpiubrowidx w') col = Arr.get 0 (sdpiubrowidx w) col) /\
  (* the other columns keep their bounds *)
  (forall v, v <> col ->
     Arr.get 0%Q (sdpilb w') v = Arr.get 0%Q (sdpilb w) v /\
     Arr.get 0%Q (sdpiub w') v = Arr.get 0%Q (sdpiub w) v) /\
  (* infeasibility, tested with epsilon, ends the pass *)
  (p_returned p' = true <-> (newub < newlb - eps)%Q) /\
  (p_infeasible p' = true <-> p_infeasible p = true \/ (newub < newlb - eps)%Q) /\
  (* a fixing is reported when the bounds are closer than epsilon *)
  (p_fixingsfound p' = true <->
     p_fixingsfound p = true \/
     (~ (newub < newlb - eps)%Q /\ (Qabs (newlb - newub) < eps)%Q)).

(** ** Constant matrices after fixings ([compConstMatAfterFixings]) *)

Definition same_pos (e e' : Entry) : bool :=
  (e_row e =? e_row e') && (e_col e =? e_col e').

(** Modelled from the spec: [SCIPsdpVarfixerMergeArraysIntoNew] is declared
    in scipsdp/SdpVarfixer.h but its body (SdpVarfixer.c) is not part of the
    sources at hand.  Following its documentation, an entry of the second
    array is added to the entry of the target with the same row and column,
    or appended if there is none; the first array has unique positions. *)
Fixpoint merge_entry (e : Entry) (t : list Entry) : list Entry :=
  match t with
  | [] => [e]
  | x :: t' =>
      if same_pos x e then mkEntry (e_row x) (e_col x) (e_val x + e_val e) :: t'
      else x :: merge_entry e t'
  end.

(** Modelled from the spec: [SCIPsdpVarfixerMergeArraysIntoNew] (body not in
    the sources at hand), "entries at the same (row,col) sum; entries that
    cancel to zero are dropped", where "only values bigger than [epsilon] are
    counted as nonzeros". *)
Definition SCIPsdpVarfixerMergeArraysIntoNew (eps : Q) (first second : list Entry)
    : list Entry :=
  filter (fun e => (eps <? REALABS (e_val e))%Q)
    (fold_left (fun t e => merge_entry e t) second first).

Section Solve.

Variable B : SDPISOLVER.
Implicit Type s : SCIP_SDPI B.

(** whether the nonzeros of a block variable are moved to the constant matrix *)
Definition moved_to_const s (bv : BlockVar) : bool :=
  isFixed s (sdpvar bv)
  && (epsilon (par s) <? REALABS (Arr.get 0%Q (sdpilb (prep s)) (sdpvar bv)))%Q.

(** [fixedrows], [fixedcols], [fixedvals] of a block: the nonzeros of the fixed
    variables, times minus the fixed value *)
Definition fixed_nonzeros s (b : Block) : list Entry :=
  flat_map
    (fun bv =>
       if moved_to_const s bv then
         map (fun e => mkEntry (e_row e) (e_col e)
                         (- e_val e * Arr.get 0%Q (sdpilb (prep s)) (sdpvar bv))%Q)
           (sdpnonz bv)
       else [])
    (sdpblockvars b).

(** the results [*sdpconstnnonz] and, per block, [sdpconstrow/col/val[b]] *)
Definition compConstMatAfterFixings s : Z * list (list Entry) :=
  let mats :=
    map (fun b => SCIPsdpVarfixerMergeArraysIntoNew (epsilon (par s)) (sdpconst b)
                    (fixed_nonzeros s b))
      (blocks s) in
  (fold_left (fun n m => n + Z.of_nat (length m)) mats 0, mats).

(** ** The all-fixed feasibility check ([checkFixedFeasibilitySdp]) *)

(** [fullmatrix[r * size + c] = x] and its mirror image *)
Definition fullmatrix_assign (size : Z) (m : list Q) (r c : Z) (x : Q) : list Q :=
  let m1 := Arr.set m (r * size + c) x in
  if negb (r =? c) then Arr.set m1 (c * size + r) x else m1.

(** [fullmatrix[r * size + c] += x] and its mirror image *)
Definition fullmatrix_add (size : Z) (m : list Q) (r c : Z) (x : Q) : list Q :=
  let m1 := Arr.set m (r * size + c) (Arr.get 0%Q m (r * size + c) + x)%Q in
  if negb (r =? c) then Arr.set m1 (c * size + r) (Arr.get 0%Q m1 (c * size + r) + x)%Q
  else m1.

(** the dense matrix handed to LAPACK for block [b] *)
Definition fullmatrix s (b : Block) : list Q :=
  let size := sdpblocksize b in
  (* initialize the matrix with zero *)
  let m0 := repeat 0%Q (Z.to_nat (size * size)) in
  (* add the constant matrix (with negative sign) *)
  let m1 := fold_left (fun m e => fullmatrix_assign size m (e_row e) (e_col e) (- e_val e)%Q)
              (sdpconst b) m0 in
  (* add the contributions of the fixed variables *)
  fold_left
    (fun m bv =>
       let fixedval := Arr.get 0%Q (sdpilb (prep s)) (sdpvar bv) in
       if (REALABS fixedval <? epsilon (par s))%Q then m
       else fold_left (fun m e => fullmatrix_add size m (e_row e) (e_col e)
                                    (fixedval * e_val e)%Q)
              (sdpnonz bv) m)
    (sdpblockvars b) m1.

(** the loop over the blocks, left at the first block with a smallest
    eigenvalue below [- feastol] *)
Fixpoint some_block_infeasible s (bs : list Block) : bool :=
  match bs with
  | [] => false
  | b :: bs' =>
      if (SCIPlapackComputeIthEigenvalue B (sdpblocksize b) (fullmatrix s b)
            <? - feastol (par s))%Q
      then true
      else some_block_infeasible s bs'
  end.

Definition checkFixedFeasibilitySdp s : SCIP_SDPI B :=
  let maxsize := fold_left (fun m b => if m <? sdpblocksize b then sdpblocksize b else m)
                   (blocks s) (-1) in
  if maxsize <? 0 then s
  else if some_block_infeasible s (blocks s) then with_status (set_infeasible true) s
  else s.

(** ** The penalty escalation of [SCIPsdpiSolve] *)

Definition solver_input s (mats : list (list Entry)) (lpnnonz' : Z) (timelimit : Q)
    : SolverInput :=
  mkSolverInput
    (mkVARS (nvars (vars s)) (obj (vars s)) (sdpilb (prep s)) (sdpiub (prep s))
       (isintegral (vars s)))
    (blocks s) mats (lp s) (prep s) lpnnonz' timelimit.

(** the factors by which the penalty parameter grows and the gap tolerance
    shrinks *)
Definition penaltyparamfact s : Q :=
  if 0 <? npenaltyincr (par s) then
    pow B (maxpenaltyparam (par s) / penaltyparam (par s))%Q
      (1 / inject_Z (npenaltyincr (par s)))%Q
  else (2 * maxpenaltyparam (par s) / penaltyparam (par s))%Q.

Definition gaptolfact s : Q :=
  if 0 <? npenaltyincr (par s) then
    pow B (MIN_GAPTOL / gaptol (par s))%Q (1 / inject_Z (npenaltyincr (par s)))%Q
  else ((1 # 2) * MIN_GAPTOL / gaptol (par s))%Q.

(** the variables of the loop: the interface (solver, best bound, counters),
    [penaltyparam], [gaptol], [feasorig], [penaltybound], and the number of
    backend calls made by the loop *)
Record PenaltyState := mkPenaltyState {
  pl_sdpi : SCIP_SDPI B;
  pl_penaltyparam : Q;
  pl_gaptol : Q;
  pl_feasorig : bool;
  pl_penaltybound : bool;
  pl_calls : nat }.

Definition penalty_continue (st : PenaltyState) : bool :=
  let s := pl_sdpi st in
  (negb (SCIPsdpiSolverIsAcceptable B (sdpisolver s)) || negb (pl_feasorig st))
  && (pl_penaltyparam st <? maxpenaltyparam (par s) + epsilon (par s))%Q
  && ((99 # 100) * MIN_GAPTOL <? pl_gaptol st)%Q
  && negb (SCIPsdpiSolverIsTimelimExc B (sdpisolver s)).

(** one pass through the body of the loop *)
Definition penalty_step (input : SolverInput) (fact gfact : Q) (st : PenaltyState)
    : PenaltyState :=
  let s := pl_sdpi st in
  let '(sv, feasorig, penaltybound) :=
    SCIPsdpiSolverLoadAndSolveWithPenalty B (sdpisolver s) (pl_penaltyparam st) true true
      input in
  let s1 := with_stats (add_solver_counts B sv) (with_solver (fun _ => sv) s) in
  if negb (SCIPsdpiSolverIsAcceptable B sv) then
    (* the solver did not converge: increase the penalty parameter *)
    mkPenaltyState s1 (pl_penaltyparam st * fact)%Q (pl_gaptol st) feasorig penaltybound
      (S (pl_calls st))
  else
    (* update the bound *)
    let objbound := SCIPsdpiSolverGetObjval B sv in
    let s2 := if (bestbound (status s1) + gaptol (par s1) <? objbound)%Q
              then with_status (set_bestbound objbound) s1 else s1 in
    if negb feasorig then
      if penaltybound then
        mkPenaltyState s2 (pl_penaltyparam st * fact)%Q (pl_gaptol st) feasorig penaltybound
          (S (pl_calls st))
      else
        let g := (pl_gaptol st * gfact)%Q in
        mkPenaltyState (with_solver (fun sv' => SCIPsdpiSolverSetGaptol B sv' g) s2)
          (pl_penaltyparam st) g feasorig penaltybound (S (pl_calls st))
    else
      mkPenaltyState s2 (pl_penaltyparam st) (pl_gaptol st) feasorig penaltybound
        (S (pl_calls st)).

(** the while loop; [None] when [fuel] passes do not suffice *)
Fixpoint penalty_loop (input : SolverInput) (fact gfact : Q) (fuel : nat) (st : PenaltyState)
    : option PenaltyState :=
  if penalty_continue st then
    match fuel with
    | O => None
    | S fuel' => penalty_loop input fact gfact fuel' (penalty_step input fact gfact st)
    end
  else Some st.

(** the loop is entered with the parameters of [s], [feasorig = FALSE] and
    [penaltybound = TRUE] *)
Definition penalty_start s : PenaltyState :=
  mkPenaltyState s (penaltyparam (par s)) (gaptol (par s)) false true 0.

End Solve.

(** how a call ends: it returns a code and the values of its output
    arguments, or an assertion fails, or a null pointer is written through *)
Inductive Outcome (A : Type) :=
| Returns (code : SCIP_RETCODE) (out : A)
| AssertionFails
| NullWrite.

Arguments Returns {A} code out.
Arguments AssertionFails {A}.
Arguments NullWrite {A}.

(** ** The solve orchestrator ([SCIPsdpiSolve]) *)

Section Orchestrator.

Variable B : SDPISOLVER.
Implicit Type s : SCIP_SDPI B.

(** the assignments at the start of [SCIPsdpiSolve] *)
Definition solve_reset s : SCIP_SDPI B :=
  with_stats reset_counts
    (with_status
       (fun t => mkSTATUS false false false false (- SCIPsdpiSolverInfinity B (sdpisolver s))%Q
                   (primalslater t) (dualslater t) SCIP_ONEVAR_UNSOLVED SCIP_INVALID
                   SCIP_INVALID (-1) SCIP_INVALID) s).

(** copy bounds, stopping at the first variable whose bounds cross by more
    than [feastol] *)
Definition copy_bounds s : SCIP_SDPI B :=
  Arr.for_range 0 (nvars (vars s))
    (fun v s =>
       if infeasible (status s) then s
       else
         let lbv := Arr.get 0%Q (lb (vars s)) v in
         let ubv := Arr.get 0%Q (ub (vars s)) v in
         let s1 := with_prep (fun w =>
                     mkPREP (sdpilpindchanges w) (sdpilplhs w) (sdpilprhs w)
                       (Arr.set (sdpilb w) v lbv) (Arr.set (sdpiub w) v ubv)
                       (sdpilbrowidx w) (sdpiubrowidx w) (sdpilpbeg w) (sdpilpind w)
                       (sdpilpval w)) s in
         if (ubv <? lbv - feastol (par s))%Q then with_status (set_infeasible true) s1 else s1)
    s.

(** [sdpi->sdpid++] written as an argument of [SCIPdebugMessage] *)
Definition debug_incr_sdpid s : SCIP_SDPI B :=
  if SCIP_DEBUG B then with_stats (fun t => set_sdpid (sdpid t + 1) t) s else s.

(** "exit if infeasible" *)
Definition exit_infeasible s : SCIP_SDPI B :=
  with_stats incr_ninfeasible
    (with_status
       (fun t => set_slater SCIP_SDPSLATER_NOINFO SCIP_SDPSLATER_NOINFO (set_solved true t))
       (with_solver (SCIPsdpiSolverIncreaseCounter B) (debug_incr_sdpid s))).

(** [do prepareLPData while ( fixingfound && ! sdpi->infeasible )]; the result
    is the interface and [sdpilpnnonz], or [None] when [fuel] passes do not
    suffice *)
Fixpoint prepare_loop (fuel : nat) s : option (SCIP_SDPI B * Z) :=
  match fuel with
  | O => None
  | S fuel' =>
      let '(s1, nnz, fixingfound) := prepareLPData s in
      if fixingfound && negb (infeasible (status s1)) then prepare_loop fuel' s1
      else Some (s1, nnz)
  end.

(** [nactivevars], [activevaridx] and [fixedvarsobjcontr] *)
Definition count_active s : Z * Z * Q :=
  Arr.for_range 0 (nvars (vars s))
    (fun v '(n, idx, contr) =>
       if negb (isFixed s v) then (n + 1, v, contr)
       else (n, idx,
             (contr + Arr.get 0%Q (obj (vars s)) v * Arr.get 0%Q (sdpilb (prep s)) v)%Q))
    (0, -1, 0%Q).

(** all variables are fixed: check the SDP constraints and return *)
Definition exit_allfixed s : SCIP_SDPI B :=
  let s1 := checkFixedFeasibilitySdp (with_status (set_allfixed true) s) in
  with_stats incr_nallfixed
    (with_status
       (fun t => set_slater SCIP_SDPSLATER_NOINFO SCIP_SDPSLATER_NOINFO (set_solved true t))
       (with_solver (SCIPsdpiSolverIncreaseCounter B) (debug_incr_sdpid s1))).

(** the problem with one variable and at most one SDP block *)
Definition solve_onevar s (mats : list (list Entry)) (activevaridx : Z)
    (fixedvarsobjcontr : Q) : SCIP_SDPI B :=
  let lbv := Arr.get 0%Q (sdpilb (prep s)) activevaridx in
  let ubv := Arr.get 0%Q (sdpiub (prep s)) activevaridx in
  let objv := Arr.get 0%Q (obj (vars s)) activevaridx in
  let solved_with o objval optval certval s :=
    with_stats incr_nonevarsdp
      (with_status
         (fun t => set_onevar o objval optval activevaridx certval
                     (set_slater SCIP_SDPSLATER_NOINFO SCIP_SDPSLATER_NOINFO
                        (set_solved true t))) s) in
  match blocks s with
  | [] =>
      (* an LP with one variable *)
      if negb (SCIPsdpiIsInfinity s lbv) && negb (SCIPsdpiIsInfinity s ubv) then
        if (0 <=? objv)%Q
        then solved_with SCIP_ONEVAR_OPTIMAL (objv * lbv + fixedvarsobjcontr)%Q lbv SCIP_INVALID s
        else solved_with SCIP_ONEVAR_OPTIMAL (objv * ubv + fixedvarsobjcontr)%Q ubv SCIP_INVALID s
      else s
  | b :: _ =>
      (* search for the matrix of the active variable *)
      let nonz := match find (fun bv => sdpvar bv =? activevaridx) (sdpblockvars b) with
                  | Some bv => sdpnonz bv
                  | None => []
                  end in
      let '(objval, optval, certval) :=
        SCIPsolveOneVarSDP B objv lbv ubv (sdpblocksize b) (nth 0 mats []) nonz
          (SCIPsdpiInfinity s) (feastol (par s)) in
      let s1 := with_status
                  (fun t => set_onevar (solvedonevarsdp t) (onevarsdpobjval t)
                              (onevarsdpoptval t) (onevarsdpidx t) certval t) s in
      if negb (Qeq_bool objval SCIP_INVALID) then
        if SCIPsdpiIsInfinity s objval
        then solved_with SCIP_ONEVAR_INFEASIBLE objval optval certval s1
        else solved_with SCIP_ONEVAR_OPTIMAL (objval + fixedvarsobjcontr)%Q optval certval s1
      else s1
  end.

(** [checkSlaterCondition]: its auxiliary solves go through the backend and
    it stores the two verdicts *)
Definition checkSlaterCondition s (input : SolverInput) : SCIP_SDPI B :=
  let '(sv, primal, dual) := checkSlaterSolves B (sdpisolver s) input in
  with_status (set_slater primal dual) (with_solver (fun _ => sv) s).

(** "solve SDP if not yet done": the primary solve and, if its result is not
    acceptable, the penalty formulation.  ([findEmptyRowColsSDP] only
    computes index maps for the backend and is not modelled.) *)
Definition solve_with_backend (fuel : nat) s (mats : list (list Entry)) (lpnnonz' : Z)
    (enforceslatercheck : bool) (timelimit : Q) : option (SCIP_SDPI B) :=
  let input := solver_input s mats lpnnonz' timelimit in
  let s1 := if negb (slatercheck (par s) =? 0) then checkSlaterCondition s input else s in
  (* try to solve the problem *)
  let sv := SCIPsdpiSolverLoadAndSolve B (sdpisolver s1) input in
  let s2 := with_stats (add_solver_counts B sv)
              (with_status (set_solved true) (with_solver (fun _ => sv) s1)) in
  if negb (SCIPsdpiSolverIsAcceptable B sv) && negb (SCIPsdpiSolverIsTimelimExc B sv) then
    (* first check feasibility using the penalty approach *)
    let '(sv3, _, _) :=
      SCIPsdpiSolverLoadAndSolveWithPenalty B sv 1%Q false false input in
    let s3 := with_stats (add_solver_counts B sv3) (with_solver (fun _ => sv3) s2) in
    let objval := if SCIPsdpiSolverWasSolved B sv3 then SCIPsdpiSolverGetObjval B sv3
                  else (- SCIPsdpiInfinity s3)%Q in
    if (SCIPsdpiSolverIsOptimal B sv3
        && (peninfeasadjust (par s3) * MAX (feastol (par s3)) (gaptol (par s3)) <? objval)%Q)
       || (SCIPsdpiSolverWasSolved B sv3 && SCIPsdpiSolverIsDualInfeasible B sv3)
    then Some (with_status (fun t => set_infeasible true (set_penalty true t)) s3)
    else
      match penalty_loop input (penaltyparamfact s3) (gaptolfact s3) fuel (penalty_start s3)
      with
      | None => None
      | Some st =>
          let s4 := pl_sdpi st in
          (* reset the tolerance in the SDP-solver *)
          let s5 := if (gaptol (par s4) <? pl_gaptol st)%Q
                    then with_solver (fun sv' => SCIPsdpiSolverSetGaptol B sv' (gaptol (par s4)))
                           s4
                    else s4 in
          (* check if we were able to solve the problem in the end *)
          let s6 := if SCIPsdpiSolverIsAcceptable B (sdpisolver s5) && pl_feasorig st
                    then with_status (fun t => set_solved true (set_penalty true t)) s5
                    else with_status (fun t => set_penalty true (set_solved false t)) s5 in
          Some (if negb (solved (status s6)) && enforceslatercheck
                then checkSlaterCondition s6 input else s6)
      end
  else Some s2.

(** [SCIPsdpiSolve] from the test for fixed variables on *)
Definition solve_after_preprocessing (fuel : nat) s (lpnnonz' : Z)
    (enforceslatercheck : bool) (timelimit : Q) : option (SCIP_SDPI B) :=
  let '(nactivevars, activevaridx, fixedvarsobjcontr) := count_active s in
  let s1 := if nactivevars =? 0 then with_status (set_allfixed true) s else s in
  if allfixed (status s1) then Some (exit_allfixed s)
  else
    (* compute constant matrix after fixings *)
    let mats := snd (compConstMatAfterFixings s1) in
    (* check whether problem contains one variable and one SDP block *)
    let s2 := if (nactivevars =? 1) && (Z.of_nat (length (blocks s1)) <=? 1)
              then solve_onevar s1 mats activevaridx fixedvarsobjcontr else s1 in
    (* solve SDP if not yet done *)
    let r := if negb (solved (status s2))
             then solve_with_backend fuel s2 mats lpnnonz' enforceslatercheck timelimit
             else Some s2 in
    match r with
    | None => None
    | Some s3 => Some (with_stats (fun t => set_sdpid (sdpid t + 1) t) s3)
    end.

(** [SCIPsdpiSolve]; the starting point and the start settings are handed
    through to the backend and not modelled; [None] when [fuel] does not
    suffice for one of the two loops *)
Definition SCIPsdpiSolve (fuel : nat) s (enforceslatercheck : bool) (timelimit : Q)
    : option (SCIP_SDPI B) :=
  let s0 := solve_reset s in
  if (timelimit <=? 0)%Q then Some s0
  else
    let s1 := copy_bounds s0 in
    if infeasible (status s1) then Some (exit_infeasible s1)
    else
      match prepare_loop fuel s1 with
      | None => None
      | Some (s2, lpnnonz') =>
          if infeasible (status s2) then Some (exit_infeasible s2)
          else solve_after_preprocessing fuel s2 lpnnonz' enforceslatercheck timelimit
      end.

(** ** Solution information ([SCIPsdpiGetObjval], [SCIPsdpiGetDualSol]) *)

(** [objval] is the value stored behind the pointer before the call *)
Definition SCIPsdpiGetObjval s (objval : Q) : Outcome Q :=
  (* CHECK_IF_SOLVED *)
  if negb (solved (status s)) then Returns SCIP_LPERROR objval
  else if infeasible (status s) then Returns SCIP_OKAY (SCIPsdpiInfinity s)
  else if allfixed (status s) then
    Returns SCIP_OKAY
      (Arr.for_range 0 (nvars (vars s))
         (fun v acc => (acc + Arr.get 0%Q (sdpilb (prep s)) v * Arr.get 0%Q (obj (vars s)) v)%Q)
         0%Q)
  else
    match solvedonevarsdp (status s) with
    | SCIP_ONEVAR_UNSOLVED => Returns SCIP_OKAY (SCIPsdpiSolverGetObjval B (sdpisolver s))
    | _ =>
        if Qeq_bool (onevarsdpobjval (status s)) SCIP_INVALID then AssertionFails
        else Returns SCIP_OKAY (onevarsdpobjval (status s))
    end.

(** [objval] and [dualsol] may be NULL ([None]); otherwise they hold what is
    stored behind the pointers before the call *)
Definition SCIPsdpiGetDualSol s (objval : option Q) (dualsol : option (list Q))
    : Outcome (option Q * option (list Q)) :=
  (* CHECK_IF_SOLVED *)
  if negb (solved (status s)) then Returns SCIP_LPERROR (objval, dualsol)
  else if infeasible (status s) then
    match objval with
    | None => NullWrite
    | Some _ => Returns SCIP_OKAY (Some (SCIPsdpiInfinity s), dualsol)
    end
  else
    let fixedvalues d :=
      Arr.for_range 0 (nvars (vars s))
        (fun v a => Arr.set a v (Arr.get 0%Q (sdpilb (prep s)) v)) d in
    let with_objval (k : option Q -> Outcome (option Q * option (list Q))) :=
      match objval with
      | None => k None
      | Some o =>
          match SCIPsdpiGetObjval s o with
          | Returns SCIP_OKAY o' => k (Some o')
          | Returns code o' => Returns code (Some o', dualsol)
          | AssertionFails => AssertionFails
          | NullWrite => NullWrite
          end
      end in
    if allfixed (status s) then
      with_objval (fun o =>
        match dualsol with
        | None => NullWrite
        | Some d => Returns SCIP_OKAY (o, Some (fixedvalues d))
        end)
    else
      match solvedonevarsdp (status s) with
      | SCIP_ONEVAR_UNSOLVED =>
          let '(o, d) := SCIPsdpiSolverGetDualSol B (sdpisolver s) in
          Returns SCIP_OKAY (option_map (fun _ => o) objval, option_map (fun _ => d) dualsol)
      | _ =>
          with_objval (fun o =>
            match dualsol with
            | None => NullWrite
            | Some d =>
                Returns SCIP_OKAY
                  (o, Some (Arr.set (fixedvalues d) (onevarsdpidx (status s))
                              (onevarsdpoptval (status s))))
            end)
      end.

End Orchestrator.

(** *** Comparing two runs of the pass *)

(** two scans agree on what the row classification uses *)
Definition scan_agree (c c' : RowScan) : Prop :=
  sc_nrownonz c = sc_nrownonz c' /\ sc_nonzind c = sc_nonzind c' /\
  sc_rowconst c = sc_rowconst c'.

(** the bounds of [w'] are at least as tight as those of [w] *)
Definition bounds_le (w w' : PREP) : Prop :=
  forall v, (Arr.get 0%Q (sdpilb w) v <= Arr.get 0%Q (sdpilb w') v)%Q /\
            (Arr.get 0%Q (sdpiub w') v <= Arr.get 0%Q (sdpiub w) v)%Q.

(** [isFixed] on the working bounds [w] *)
Definition fixed_in (eps : Q) (w : PREP) (v : Z) : bool :=
  isFixed_in eps (sdpilb w) (sdpiub w) v.

(** the variables fixed in [w] have the same bounds in [w'] *)
Definition frozen (eps : Q) (w w' : PREP) : Prop :=
  forall v, fixed_in eps w v = true ->
    Arr.get 0%Q (sdpilb w') v = Arr.get 0%Q (sdpilb w) v /\
    Arr.get 0%Q (sdpiub w') v = Arr.get 0%Q (sdpiub w) v.

(** [p'] is a later state of the pass than [p] *)
Definition pass_le (eps : Q) (p p' : PassState) : Prop :=
  (length (sdpilb (p_prep p')) = length (sdpilb (p_prep p)) /\
   length (sdpiub (p_prep p')) = length (sdpiub (p_prep p))) /\
  bounds_le (p_prep p) (p_prep p') /\ frozen eps (p_prep p) (p_prep p') /\
  (p_infeasible p = true -> p_infeasible p' = true) /\
  (p_fixingsfound p = true -> p_fixingsfound p' = true) /\
  (p_returned p' = true -> p_returned p = true \/ p_infeasible p' = true).

(** *** What the stages of a solve leave unchanged *)

(** the problem identifier and the flags [penalty] and [allfixed] are the
    same in [s] and [s'] *)
Definition same_id (B : SDPISOLVER) (s s' : SCIP_SDPI B) : Prop :=
  sdpid (stats s') = sdpid (stats s) /\
  penalty (status s') = penalty (status s) /\
  allfixed (status s') = allfixed (status s).

(** the problem identifier, the flags and the parameters are the same in [s]
    and [s'] *)
Definition loop_keeps (B : SDPISOLVER) (s s' : SCIP_SDPI B) : Prop :=
  sdpid (stats s') = sdpid (stats s) /\
  allfixed (status s') = allfixed (status s) /\
  infeasible (status s') = infeasible (status s) /\
  penalty (status s') = penalty (status s) /\
  solved (status s') = solved (status s) /\
  par s' = par s.

(** *** Counting the steps of the penalty escalation *)

Fixpoint Qpow_nat (x : Q) (n : nat) : Q :=
  match n with
  | O => 1%Q
  | S k => (x * Qpow_nat x k)%Q
  end.

(** starting from [pen0] and [gap0], the penalty parameter has been increased
    [i] times and the gap tolerance decreased [j] times *)
Definition escalated (B : SDPISOLVER) (fact gfact : Q) (P : PARAMS) (pen0 gap0 : Q)
    (i j : nat) (st : PenaltyState B) : Prop :=
  par (pl_sdpi st) = P /\
  (pen0 * Qpow_nat fact i <= pl_penaltyparam st)%Q /\
  (pl_gaptol st <= gap0 * Qpow_nat gfact j)%Q.

(** *** Sparse matrices as functions of the position *)

Definition entry_pos (e : Entry) : Z * Z := (e_row e, e_col e).

Definition at_pos (e : Entry) (r c : Z) : bool := (e_row e =? r) && (e_col e =? c).

(** the value of the matrix at [(r, c)]: the sum of the entries stored there *)
Fixpoint dense (m : list Entry) (r c : Z) : Q :=
  match m with
  | [] => 0%Q
  | e :: m' => ((if at_pos e r c then e_val e else 0) + dense m' r c)%Q
  end.

Definition unique_positions (m : list Entry) : Prop := NoDup (map entry_pos m).

(** values of magnitude at most [eps] are not nonzeros *)
Definition drop_small (eps x : Q) : Q := if (eps <? REALABS x)%Q then x else 0%Q.

Section FoldingSpec.
Variable B : SDPISOLVER.
Implicit Type s : SCIP_SDPI B.

(** the sum over the variables of the block that are fixed to a value of
    magnitude above [epsilon] of (fixed value times coefficient matrix) *)
Fixpoint fixed_contributions s (bvs : list BlockVar) (r c : Z) : Q :=
  match bvs with
  | [] => 0%Q
  | bv :: bvs' =>
      ((if isFixed s (sdpvar bv)
           && (epsilon (par s) <? REALABS (Arr.get 0%Q (sdpilb (prep s)) (sdpvar bv)))%Q
        then Arr.get 0%Q (sdpilb (prep s)) (sdpvar bv) * dense (sdpnonz bv) r c
        else 0)
       + fixed_contributions s bvs' r c)%Q
  end.

(** the constant matrix after fixings as the specification words it: the
    original constant matrix minus the contributions of the fixed variables *)
Definition folded_constant s (b : Block) (r c : Z) : Q :=
  (dense (sdpconst b) r c - fixed_contributions s (sdpblockvars b) r c)%Q.

End FoldingSpec.

(** *** Dense symmetric matrices *)

(** the entry is stored at [(r, c)] or at its mirror image *)
Definition sym_at (e : Entry) (r c : Z) : bool := at_pos e r c || at_pos e c r.

(** the value at [(r, c)] of the symmetric matrix given by its stored
    triangle *)
Fixpoint sym_dense (m : list Entry) (r c : Z) : Q :=
  match m with
  | [] => 0%Q
  | e :: m' => ((if sym_at e r c then e_val e else 0) + sym_dense m' r c)%Q
  end.

(** the position of an entry up to mirroring *)
Definition sym_pos (e : Entry) : Z * Z := (Z.max (e_row e) (e_col e), Z.min (e_row e) (e_col e)).

Definition entry_in_range (size : Z) (e : Entry) : Prop :=
  0 <= e_row e < size /\ 0 <= e_col e < size.

(** the indices of the block lie within its size and the constant matrix has
    no two entries for the same position *)
Definition block_well_formed (b : Block) : Prop :=
  0 <= sdpblocksize b /\
  Forall (entry_in_range (sdpblocksize b)) (sdpconst b) /\
  Forall (fun bv => Forall (entry_in_range (sdpblocksize b)) (sdpnonz bv)) (sdpblockvars b) /\
  NoDup (map sym_pos (sdpconst b)).

(** a dense [size] times [size] matrix stored row by row *)
Definition cell_ok (size : Z) (m : list Q) : Prop := Z.of_nat (length m) = size * size.

Section Reconstruction.
Variable B : SDPISOLVER.
Implicit Type s : SCIP_SDPI B.

(** the sum over the variables of the block whose fixed value has magnitude
    at least [epsilon] of (fixed value times coefficient matrix) *)
Fixpoint kept_contributions s (bvs : list BlockVar) (r c : Z) : Q :=
  match bvs with
  | [] => 0%Q
  | bv :: bvs' =>
      ((if (REALABS (Arr.get 0%Q (sdpilb (prep s)) (sdpvar bv)) <? epsilon (par s))%Q then 0
        else Arr.get 0%Q (sdpilb (prep s)) (sdpvar bv) * sym_dense (sdpnonz bv) r c)
       + kept_contributions s bvs' r c)%Q
  end.

(** minus the constant matrix plus the contributions of the variables *)
Definition reconstructed s (b : Block) (r c : Z) : Q :=
  (- sym_dense (sdpconst b) r c + kept_contributions s (sdpblockvars b) r c)%Q.

(** the matrix as the specification words it: every variable contributes *)
Fixpoint all_contributions s (bvs : list BlockVar) (r c : Z) : Q :=
  match bvs with
  | [] => 0%Q
  | bv :: bvs' =>
      (Arr.get 0%Q (sdpilb (prep s)) (sdpvar bv) * sym_dense (sdpnonz bv) r c
       + all_contributions s bvs' r c)%Q
  end.

Definition reconstructed_spec s (b : Block) (r c : Z) : Q :=
  (- sym_dense (sdpconst b) r c + all_contributions s (sdpblockvars b) r c)%Q.

(** the dense matrix of the specification, row by row *)
Definition reconstructed_spec_matrix s (b : Block) : list Q :=
  let size := sdpblocksize b in
  map (fun i => reconstructed_spec s b (Z.of_nat i / size) (Z.of_nat i mod size))
    (seq 0 (Z.to_nat (size * size))).

(** the smallest eigenvalue of some block, as computed by LAPACK, lies below
    [- feastol] *)
Definition negative_block s (matrix : Block -> list Q) : Prop :=
  Exists (fun b => (SCIPlapackComputeIthEigenvalue B (sdpblocksize b) (matrix b)
                    < - feastol (par s))%Q) (blocks s).

End Reconstruction.

(** ** Concrete instances used in examples *)

(** [pow] for integral exponents, where it is exact; the examples only use
    the exponent 1 *)
Definition pow_integer (x y : Q) : Q := Qpower x (Qfloor y).

(** a backend that never converges and never runs out of time *)
Definition failing_backend : SDPISOLVER :=
  mkSDPISOLVER (solver := unit)
    (fun _ => inject_Z (10 ^ 20))
    (fun s _ => s)
    (fun s _ _ _ _ => (s, false, true))
    (fun s => s) (fun s _ => s)
    (fun _ => false) (fun _ => false) (fun _ => false) (fun _ => false) (fun _ => false)
    (fun _ => 0%Q) (fun _ => (0%Q, []))
    (fun _ => 0%Q) (fun _ => 0) (fun _ => 0)
    (fun s _ => (s, SCIP_SDPSLATER_NOINFO, SCIP_SDPSLATER_NOINFO))
    (fun _ m => Arr.get 0%Q m 0)
    (fun _ _ _ _ _ _ _ _ => (SCIP_INVALID, 0%Q, 0%Q))
    pow_integer
    false.

Definition default_params : PARAMS :=
  mkPARAMS 0 (1 # 1000000000) (1 # 10000) (1 # 1000000) (100000 # 1) (10000000000 # 1) 8 (50 # 1).

Definition fresh_status : STATUS :=
  mkSTATUS false false false false 0%Q SCIP_SDPSLATER_NOINFO SCIP_SDPSLATER_NOINFO
    SCIP_ONEVAR_UNSOLVED SCIP_INVALID SCIP_INVALID (-1) SCIP_INVALID.

Definition fresh_stats : STATS := mkSTATS 0 0 0 1 0 0%Q 0.

Definition empty_prep (nv nrows nnz : nat) : PREP :=
  mkPREP (repeat 0 nrows) (repeat 0%Q nrows) (repeat 0%Q nrows) (repeat 0%Q nv) (repeat 0%Q nv)
    (repeat 0 nv) (repeat 0 nv) (repeat 0 nrows) (repeat 0 nnz) (repeat 0%Q nnz).

(** two variables in [0,10], no SDP block, and the three rows
    [1 <= x0 <= 10], [2 <= 2 x0 + 3 x1 <= 20], [3 <= 4 x1 <= 30] *)
Definition three_rows : SCIP_SDPI failing_backend :=
  mkSDPI failing_backend tt
    (mkVARS 2 [1%Q; 1%Q] [0%Q; 0%Q] [10 # 1; 10 # 1] [false; false])
    []
    (mkLPDATA 3 [1 # 1; 2 # 1; 3 # 1] [10 # 1; 20 # 1; 30 # 1] (-1) 4
       [0; 1; 3] [0; 0; 1; 1] [1 # 1; 2 # 1; 3 # 1; 4 # 1])
    (empty_prep 2 3 4) fresh_status fresh_stats default_params.

(** the same problem after a successful solve *)
Definition three_rows_solved : SCIP_SDPI failing_backend :=
  with_status (fun t => set_penalty true (set_solved true t)) three_rows.

(** the row [x0 + x1 >= 3] with [x1] fixed to 1 and [x0] in [0,10], after
    the bounds have been copied into the working arrays *)
Definition one_row_lp : LPDATA :=
  mkLPDATA 1 [3 # 1] [inject_Z (10 ^ 20)] (-1) 2 [0] [0; 1] [1 # 1; 1 # 1].

Definition one_row_prep : PREP :=
  mkPREP [0] [0%Q] [0%Q] [0%Q; 1 # 1] [10 # 1; 1 # 1] [0; 0] [0; 0] [0] [0; 0] [0%Q; 0%Q].

Definition one_row : SCIP_SDPI failing_backend :=
  mkSDPI failing_backend tt
    (mkVARS 2 [1%Q; 1%Q] [0%Q; 1 # 1] [10 # 1; 1 # 1] [false; false])
    [] one_row_lp one_row_prep fresh_status fresh_stats default_params.

(** [x0] in [5,10] and the single row [x0 <= rhs] *)
Definition upper_row_lp (rhs : Q) : LPDATA :=
  mkLPDATA 1 [(- inject_Z (10 ^ 20))%Q] [rhs] (-1) 1 [0] [0] [1 # 1].

Definition upper_row_prep : PREP :=
  mkPREP [0] [0%Q] [0%Q] [5 # 1] [10 # 1] [0] [0] [0] [0] [0%Q].

(** two integral variables in [0,10] and the rows [x0 + x1 <= 5], [x0 <= 2],
    [x1 <= 2], after the bounds have been copied into the working arrays *)
Definition redundant_row : SCIP_SDPI failing_backend :=
  mkSDPI failing_backend tt
    (mkVARS 2 [1%Q; 1%Q] [0%Q; 0%Q] [10 # 1; 10 # 1] [true; true])
    []
    (mkLPDATA 3 (repeat (- inject_Z (10 ^ 20))%Q 3) [5 # 1; 2 # 1; 2 # 1] (-1) 4
       [0; 2; 3] [0; 1; 0; 1] (repeat (1 # 1) 4))
    (mkPREP [0; 0; 0] (repeat 0%Q 3) (repeat 0%Q 3) [0%Q; 0%Q] [10 # 1; 10 # 1]
       [0; 0] [0; 0] [0; 0; 0] [0; 0; 0; 0] (repeat 0%Q 4))
    fresh_status fresh_stats default_params.

(** two continuous variables in [0,10] and the rows [x0 + x1 <= 5] and
    [x0 <= epsilon] *)
Definition silent_fixing : SCIP_SDPI failing_backend :=
  mkSDPI failing_backend tt
    (mkVARS 2 [1%Q; 1%Q] [0%Q; 0%Q] [10 # 1; 10 # 1] [false; false])
    []
    (mkLPDATA 2 (repeat (- inject_Z (10 ^ 20))%Q 2) [5 # 1; 1 # 1000000000] (-1) 3
       [0; 2] [0; 1; 0] (repeat (1 # 1) 3))
    (mkPREP [0; 0] (repeat 0%Q 2) (repeat 0%Q 2) [0%Q; 0%Q] [10 # 1; 10 # 1]
       [0; 0] [0; 0] [0; 0] [0; 0; 0] (repeat 0%Q 3))
    fresh_status fresh_stats default_params.

(** a backend whose primary solve fails and whose penalty formulation
    reports an optimal slack of 1: the state tells whether the penalty
    formulation has been solved *)
Definition infeasible_backend : SDPISOLVER :=
  mkSDPISOLVER (solver := bool)
    (fun _ => inject_Z (10 ^ 20))
    (fun _ _ => false)
    (fun _ _ _ _ _ => (true, false, false))
    (fun s => s) (fun s _ => s)
    (fun s => s) (fun _ => false) (fun _ => false) (fun s => s) (fun _ => false)
    (fun _ => 1%Q) (fun _ => (0%Q, []))
    (fun _ => 0%Q) (fun _ => 0) (fun _ => 0)
    (fun s _ => (s, SCIP_SDPSLATER_NOINFO, SCIP_SDPSLATER_NOINFO))
    (fun _ m => Arr.get 0%Q m 0)
    (fun _ _ _ _ _ _ _ _ => (SCIP_INVALID, 0%Q, 0%Q))
    pow_integer
    false.

(** two free variables in [0,10] and the row [2 <= 2 x0 + 3 x1 <= 20], after
    preprocessing, for the backend above *)
Definition two_free_vars : SCIP_SDPI infeasible_backend :=
  mkSDPI infeasible_backend false
    (mkVARS 2 [1%Q; 1%Q] [0%Q; 0%Q] [10 # 1; 10 # 1] [false; false])
    []
    (mkLPDATA 1 [2 # 1] [20 # 1] 1 2 [0] [0; 1] [2 # 1; 3 # 1])
    (mkPREP [0] [2 # 1] [20 # 1] [0%Q; 0%Q] [10 # 1; 10 # 1] [0; 0] [0; 0] [0] [0; 1]
       [2 # 1; 3 # 1])
    fresh_status fresh_stats default_params.

(** the default tolerances with one penalty increase from 1e5 to 1e10 *)
Definition one_increase : SCIP_SDPI failing_backend :=
  mkSDPI failing_backend tt
    (mkVARS 2 [1%Q; 1%Q] [0%Q; 0%Q] [10 # 1; 10 # 1] [false; false])
    [] (lp three_rows) (prep three_rows) fresh_status fresh_stats
    (mkPARAMS 0 (1 # 1000000000) (1 # 10000) (1 # 1000000) (100000 # 1) (10000000000 # 1) 1
       (50 # 1)).

(** the same with the maximal penalty parameter equal to the starting one *)
Definition equal_penalties : SCIP_SDPI failing_backend :=
  mkSDPI failing_backend tt
    (mkVARS 2 [1%Q; 1%Q] [0%Q; 0%Q] [10 # 1; 10 # 1] [false; false])
    [] (lp three_rows) (prep three_rows) fresh_status fresh_stats
    (mkPARAMS 0 (1 # 1000000000) (1 # 10000) (1 # 1000000) (100000 # 1) (100000 # 1) 1
       (50 # 1)).

(** the scenario of the specification: two variables fixed to 1 and a
    1 x 1 block with constant matrix [-1] and the matrix [2] for [x0] *)
Definition fixed_block : SCIP_SDPI failing_backend :=
  mkSDPI failing_backend tt
    (mkVARS 2 [1%Q; 1%Q] [1%Q; 1%Q] [1%Q; 1%Q] [false; false])
    [mkBlock 1 [mkBlockVar 0 [mkEntry 0 0 (2 # 1)]] [mkEntry 0 0 (- (1 # 1))]]
    (mkLPDATA 0 [] [] (-1) 0 [] [] [])
    (mkPREP [] [] [] [1%Q; 1%Q] [1%Q; 1%Q] [0; 0] [0; 0] [] [] [])
    fresh_status fresh_stats default_params.

(** one variable fixed to [5e-10], which is below [epsilon = 1e-9], with the
    coefficient matrix [(-4000)] in a block of size one without constant
    part: the matrix of the block is [(-2e-6)] *)
Definition tiny_fixing : SCIP_SDPI failing_backend :=
  mkSDPI failing_backend tt
    (mkVARS 1 [1%Q] [1 # 2000000000] [1 # 2000000000] [false])
    [mkBlock 1 [mkBlockVar 0 [mkEntry 0 0 (- (4000 # 1))]] []]
    (mkLPDATA 0 [] [] (-1) 0 [] [] [])
    (mkPREP [] [] [] [1 # 2000000000] [1 # 2000000000] [0] [0] [] [] [])
    fresh_status fresh_stats default_params.

(** ** Further collaborators of the backend

    The enumerations are those of sdpi/type_sdpi.h as far as [sdpi.c] names
    their values. *)

Inductive SCIP_SDPSOLVERSETTING :=
| SCIP_SDPSOLVERSETTING_UNSOLVED
| SCIP_SDPSOLVERSETTING_PENALTY
| SCIP_SDPSOLVERSETTING_FAST
| SCIP_SDPSOLVERSETTING_MEDIUM
| SCIP_SDPSOLVERSETTING_STABLE.

Inductive SCIP_SDPSLATERSETTING :=
| SCIP_SDPSLATERSETTING_NOINFO
| SCIP_SDPSLATERSETTING_STABLEWSLATER
| SCIP_SDPSLATERSETTING_UNSTABLEWSLATER
| SCIP_SDPSLATERSETTING_PENALTYWSLATER
| SCIP_SDPSLATERSETTING_BOUNDEDWSLATER
| SCIP_SDPSLATERSETTING_UNSOLVEDWSLATER
| SCIP_SDPSLATERSETTING_STABLENOSLATER
| SCIP_SDPSLATERSETTING_UNSTABLENOSLATER
| SCIP_SDPSLATERSETTING_PENALTYNOSLATER
| SCIP_SDPSLATERSETTING_BOUNDEDNOSLATER
| SCIP_SDPSLATERSETTING_UNSOLVEDNOSLATER
| SCIP_SDPSLATERSETTING_STABLEINFEASIBLE
| SCIP_SDPSLATERSETTING_UNSTABLEINFEASIBLE
| SCIP_SDPSLATERSETTING_PENALTYINFEASIBLE
| SCIP_SDPSLATERSETTING_BOUNDEDINFEASIBLE
| SCIP_SDPSLATERSETTING_UNSOLVEDINFEASIBLE.

Inductive SCIP_SDPPARAM :=
| SCIP_SDPPAR_EPSILON
| SCIP_SDPPAR_GAPTOL
| SCIP_SDPPAR_FEASTOL
| SCIP_SDPPAR_SDPSOLVERFEASTOL
| SCIP_SDPPAR_OBJLIMIT
| SCIP_SDPPAR_PENALTYPARAM
| SCIP_SDPPAR_MAXPENALTYPARAM
| SCIP_SDPPAR_LAMBDASTAR
| SCIP_SDPPAR_WARMSTARTPOGAP
| SCIP_SDPPAR_PENINFEASADJUST
| SCIP_SDPPAR_SDPINFO
| SCIP_SDPPAR_NTHREADS
| SCIP_SDPPAR_USEPRESOLVING
| SCIP_SDPPAR_USESCALING
| SCIP_SDPPAR_SCALEOBJ
| SCIP_SDPPAR_SLATERCHECK
| SCIP_SDPPAR_NPENALTYINCR.

(** the remaining functions of sdpi/sdpisolver.h that [sdpi.c] calls; a
    function with an output argument takes the value stored there before the
    call *)
Record SDPISOLVER_INFO (B : SDPISOLVER) := mkSDPISOLVER_INFO {
  SCIPsdpiSolverFeasibilityKnown : solver B -> bool;
  (** [primalfeasible] and [dualfeasible] *)
  SCIPsdpiSolverGetSolFeasibility : solver B -> bool * bool;
  SCIPsdpiSolverIsPrimalUnbounded : solver B -> bool;
  SCIPsdpiSolverIsPrimalInfeasible : solver B -> bool;
  SCIPsdpiSolverIsPrimalFeasible : solver B -> bool;
  SCIPsdpiSolverIsDualUnbounded : solver B -> bool;
  SCIPsdpiSolverIsDualFeasible : solver B -> bool;
  SCIPsdpiSolverIsConverged : solver B -> bool;
  SCIPsdpiSolverIsObjlimExc : solver B -> bool;
  SCIPsdpiSolverIsIterlimExc : solver B -> bool;
  SCIPsdpiSolverGetInternalStatus : solver B -> Z;
  SCIPsdpiSolverSettingsUsed : solver B -> SCIP_SDPSOLVERSETTING;
  SCIPsdpiSolverGetRealpar : solver B -> SCIP_SDPPARAM -> Q -> SCIP_RETCODE * Q;
  SCIPsdpiSolverSetRealpar : solver B -> SCIP_SDPPARAM -> Q -> SCIP_RETCODE * solver B;
  SCIPsdpiSolverGetIntpar : solver B -> SCIP_SDPPARAM -> Z -> SCIP_RETCODE * Z;
  SCIPsdpiSolverSetIntpar : solver B -> SCIP_SDPPARAM -> Z -> SCIP_RETCODE * solver B;
  (** argument [maxcoeff], result [*penaltyparam] *)
  SCIPsdpiSolverComputePenaltyparam : solver B -> Q -> solver B * Q;
  (** argument [penaltyparam], result [*maxpenaltyparam] *)
  SCIPsdpiSolverComputeMaxPenaltyparam : solver B -> Q -> solver B * Q;
  SCIPsdpiSolverResetCounter : solver B -> solver B }.

(** ** Solution information of the interface *)

Section Queries.

Variable B : SDPISOLVER.
Variable I : SDPISOLVER_INFO B.
Implicit Type s : SCIP_SDPI B.

(** [sdpi->solvedonevarsdp > SCIP_ONEVAR_UNSOLVED] *)
Definition onevar_solved (t : STATUS) : bool :=
  match solvedonevarsdp t with
  | SCIP_ONEVAR_UNSOLVED => false
  | _ => true
  end.

Definition SCIPsdpiWasSolved s : bool := solved (status s).

Definition SCIPsdpiSolvedOrig s : bool := solved (status s) && negb (penalty (status s)).

Definition SCIPsdpiHavePrimalSol s : bool :=
  if negb (solved (status s)) then false
  else if allfixed (status s) then true
  else if infeasible (status s) then false
  else if onevar_solved (status s) then true
  else if SCIPsdpiSolverIsPrimalInfeasible I (sdpisolver s) then false
  else true.

(** the test of the one-variable case compares the objective value
    [onevarsdpobjval] with [SCIP_ONEVAR_UNSOLVED = 0] *)
Definition SCIPsdpiFeasibilityKnown s : bool :=
  (* CHECK_IF_SOLVED_BOOL *)
  if negb (solved (status s)) then false
  else if infeasible (status s) || allfixed (status s)
          || (inject_Z 0 <? onevarsdpobjval (status s))%Q then true
  else SCIPsdpiSolverFeasibilityKnown I (sdpisolver s).

(** [pf] and [df] are the values stored behind [primalfeasible] and
    [dualfeasible] before the call *)
Definition SCIPsdpiGetSolFeasibility s (pf df : bool) : SCIP_RETCODE * (bool * bool) :=
  (* CHECK_IF_SOLVED *)
  if negb (solved (status s)) then (SCIP_LPERROR, (pf, df))
  else if infeasible (status s) then
    (SCIP_OKAY, (if allfixed (status s) then true else false, false))
  else if allfixed (status s) then (SCIP_OKAY, (true, true))
  else
    match solvedonevarsdp (status s) with
    | SCIP_ONEVAR_OPTIMAL => (SCIP_OKAY, (true, true))
    | SCIP_ONEVAR_INFEASIBLE => (SCIP_OKAY, (true, false))
    | SCIP_ONEVAR_UNSOLVED => (SCIP_OKAY, SCIPsdpiSolverGetSolFeasibility I (sdpisolver s))
    end.

Definition SCIPsdpiIsPrimalUnbounded s : bool :=
  if negb (solved (status s)) then false
  else if infeasible (status s) then (if allfixed (status s) then true else false)
  else if allfixed (status s) then false
  else
    match solvedonevarsdp (status s) with
    | SCIP_ONEVAR_OPTIMAL => false
    | SCIP_ONEVAR_INFEASIBLE => true
    | SCIP_ONEVAR_UNSOLVED => SCIPsdpiSolverIsPrimalUnbounded I (sdpisolver s)
    end.

Definition SCIPsdpiIsPrimalInfeasible s : bool :=
  if negb (solved (status s)) then false
  else if infeasible (status s) then false
  else if allfixed (status s) then false
  else if onevar_solved (status s) then false
  else SCIPsdpiSolverIsPrimalInfeasible I (sdpisolver s).

Definition SCIPsdpiIsPrimalFeasible s : bool :=
  if negb (solved (status s)) then false
  else if infeasible (status s) then (if allfixed (status s) then true else false)
  else if allfixed (status s) then true
  else if onevar_solved (status s) then true
  else SCIPsdpiSolverIsPrimalFeasible I (sdpisolver s).

Definition SCIPsdpiIsDualUnbounded s : bool :=
  if negb (solved (status s)) then false
  else if infeasible (status s) then false
  else if allfixed (status s) then false
  else if onevar_solved (status s) then false
  else SCIPsdpiSolverIsDualUnbounded I (sdpisolver s).

Definition SCIPsdpiIsDualInfeasible s : bool :=
  if negb (solved (status s)) then false
  else if infeasible (status s) then true
  else if allfixed (status s) then false
  else
    match solvedonevarsdp (status s) with
    | SCIP_ONEVAR_OPTIMAL => false
    | SCIP_ONEVAR_INFEASIBLE => true
    | SCIP_ONEVAR_UNSOLVED => SCIPsdpiSolverIsDualInfeasible B (sdpisolver s)
    end.

Definition SCIPsdpiIsDualFeasible s : bool :=
  if negb (solved (status s)) then false
  else if infeasible (status s) then false
  else if allfixed (status s) then true
  else
    match solvedonevarsdp (status s) with
    | SCIP_ONEVAR_OPTIMAL => true
    | SCIP_ONEVAR_INFEASIBLE => false
    | SCIP_ONEVAR_UNSOLVED => SCIPsdpiSolverIsDualFeasible I (sdpisolver s)
    end.

Definition SCIPsdpiIsConverged s : bool :=
  if negb (solved (status s)) then false
  else if infeasible (status s) then true
  else if allfixed (status s) then true
  else if onevar_solved (status s) then true
  else SCIPsdpiSolverIsConverged I (sdpisolver s).

Definition SCIPsdpiIsObjlimExc s : bool :=
  if negb (solved (status s)) then false
  else if infeasible (status s) then false
  else if allfixed (status s) then false
  else if onevar_solved (status s) then false
  else SCIPsdpiSolverIsObjlimExc I (sdpisolver s).

Definition SCIPsdpiIsIterlimExc s : bool :=
  if negb (solved (status s)) then false
  else if infeasible (status s) then false
  else if allfixed (status s) then false
  else if onevar_solved (status s) then false
  else SCIPsdpiSolverIsIterlimExc I (sdpisolver s).

(** no CHECK_IF_SOLVED_BOOL here: the flags are tested first *)
Definition SCIPsdpiIsTimelimExc s : bool :=
  if infeasible (status s) then false
  else if allfixed (status s) then false
  else if negb (solved (status s)) then false
  else if onevar_solved (status s) then false
  else SCIPsdpiSolverIsTimelimExc B (sdpisolver s).

Definition SCIPsdpiGetInternalStatus s : Z :=
  if negb (solved (status s)) then -1
  else if infeasible (status s) then 0
  else if allfixed (status s) then 0
  else if onevar_solved (status s) then 0
  else SCIPsdpiSolverGetInternalStatus I (sdpisolver s).

Definition SCIPsdpiIsOptimal s : bool :=
  if negb (solved (status s)) then false
  else if infeasible (status s) then false
  else if allfixed (status s) then true
  else
    match solvedonevarsdp (status s) with
    | SCIP_ONEVAR_OPTIMAL => true
    | SCIP_ONEVAR_INFEASIBLE => false
    | SCIP_ONEVAR_UNSOLVED => SCIPsdpiSolverIsOptimal B (sdpisolver s)
    end.

(** no CHECK_IF_SOLVED_BOOL here: the flags are tested first *)
Definition SCIPsdpiIsAcceptable s : bool :=
  if infeasible (status s) then true
  else if allfixed (status s) then true
  else if negb (solved (status s)) then false
  else if onevar_solved (status s) then true
  else SCIPsdpiSolverIsAcceptable B (sdpisolver s).

(** [objlb] is the value stored behind the pointer before the call *)
Definition SCIPsdpiGetLowerObjbound s (objlb : Q) : Outcome Q :=
  (* if we could successfully solve the problem, the best bound is the
     optimal objective *)
  if solved (status s) then
    if infeasible (status s) then Returns SCIP_OKAY (SCIPsdpiInfinity s)
    else if allfixed (status s) then
      Returns SCIP_OKAY
        (Arr.for_range 0 (nvars (vars s))
           (fun v acc => (acc + Arr.get 0%Q (sdpilb (prep s)) v * Arr.get 0%Q (obj (vars s)) v)%Q)
           0%Q)
    else if onevar_solved (status s) then
      if Qeq_bool (onevarsdpobjval (status s)) SCIP_INVALID then AssertionFails
      else Returns SCIP_OKAY (onevarsdpobjval (status s))
    else Returns SCIP_OKAY (SCIPsdpiSolverGetObjval B (sdpisolver s))
  else if penalty (status s) then
    (* the best bound computed by the penalty approach *)
    Returns SCIP_OKAY (bestbound (status s))
  else Returns SCIP_OKAY (- SCIPsdpiInfinity s)%Q.

Definition SCIPsdpiSettingsUsed s : SCIP_SDPSOLVERSETTING :=
  if negb (solved (status s)) then SCIP_SDPSOLVERSETTING_UNSOLVED
  else if infeasible (status s) && negb (penalty (status s))
  then SCIP_SDPSOLVERSETTING_UNSOLVED
  else if allfixed (status s) then SCIP_SDPSOLVERSETTING_UNSOLVED
  else if onevar_solved (status s) then SCIP_SDPSOLVERSETTING_UNSOLVED
  else if penalty (status s) then SCIP_SDPSOLVERSETTING_PENALTY
  else SCIPsdpiSolverSettingsUsed I (sdpisolver s).

(** the three verdicts [fast], [notfast] and [other] of the switch over the
    setting the backend used *)
Definition by_usedsetting s (fast notfast : SCIP_SDPSLATERSETTING) : SCIP_SDPSLATERSETTING :=
  match SCIPsdpiSolverSettingsUsed I (sdpisolver s) with
  | SCIP_SDPSOLVERSETTING_FAST => fast
  | SCIP_SDPSOLVERSETTING_MEDIUM | SCIP_SDPSOLVERSETTING_STABLE => notfast
  | _ => SCIP_SDPSLATERSETTING_NOINFO
  end.

Definition slater_eqb (x y : SCIP_SDPSLATER) : bool :=
  match x, y with
  | SCIP_SDPSLATER_NOINFO, SCIP_SDPSLATER_NOINFO => true
  | SCIP_SDPSLATER_NOT, SCIP_SDPSLATER_NOT => true
  | SCIP_SDPSLATER_HOLDS, SCIP_SDPSLATER_HOLDS => true
  | SCIP_SDPSLATER_INF, SCIP_SDPSLATER_INF => true
  | _, _ => false
  end.

(** the two-level switch over [primalslater] and [dualslater] of the unsolved
    case, with the verdicts of the family "bounded" or "unsolved" *)
Definition slater_unsolved (p d : SCIP_SDPSLATER)
    (infeas noslater wslater : SCIP_SDPSLATERSETTING) : SCIP_SDPSLATERSETTING :=
  if slater_eqb d SCIP_SDPSLATER_INF then infeas
  else
    match p with
    | SCIP_SDPSLATER_NOINFO =>
        if slater_eqb d SCIP_SDPSLATER_NOT then noslater else SCIP_SDPSLATERSETTING_NOINFO
    | SCIP_SDPSLATER_NOT => noslater
    | SCIP_SDPSLATER_HOLDS =>
        match d with
        | SCIP_SDPSLATER_NOINFO => SCIP_SDPSLATERSETTING_NOINFO
        | SCIP_SDPSLATER_NOT => noslater
        | SCIP_SDPSLATER_HOLDS => wslater
        | _ => SCIP_SDPSLATERSETTING_NOINFO
        end
    | _ => SCIP_SDPSLATERSETTING_NOINFO
    end.

(** [r0] is the value stored behind [slatersetting] before the call *)
Definition SCIPsdpiSlaterSettings s (r0 : SCIP_SDPSLATERSETTING) : SCIP_SDPSLATERSETTING :=
  let p := primalslater (status s) in
  let d := dualslater (status s) in
  if negb (solved (status s)) then
    if (- SCIPsdpiSolverInfinity B (sdpisolver s) <? bestbound (status s))%Q then
      (* we could at least compute a lower bound *)
      slater_unsolved p d SCIP_SDPSLATERSETTING_BOUNDEDINFEASIBLE
        SCIP_SDPSLATERSETTING_BOUNDEDNOSLATER SCIP_SDPSLATERSETTING_BOUNDEDWSLATER
    else
      slater_unsolved p d SCIP_SDPSLATERSETTING_UNSOLVEDINFEASIBLE
        SCIP_SDPSLATERSETTING_UNSOLVEDNOSLATER SCIP_SDPSLATERSETTING_UNSOLVEDWSLATER
  else if infeasible (status s) && negb (penalty (status s))
  then SCIP_SDPSLATERSETTING_NOINFO
  else if allfixed (status s) then SCIP_SDPSLATERSETTING_NOINFO
  else if onevar_solved (status s) then SCIP_SDPSLATERSETTING_NOINFO
  else if penalty (status s) then
    match p with
    | SCIP_SDPSLATER_NOINFO =>
        if slater_eqb d SCIP_SDPSLATER_NOT then SCIP_SDPSLATERSETTING_PENALTYNOSLATER
        else if slater_eqb d SCIP_SDPSLATER_INF then SCIP_SDPSLATERSETTING_PENALTYINFEASIBLE
        else SCIP_SDPSLATERSETTING_NOINFO
    | SCIP_SDPSLATER_NOT =>
        if slater_eqb d SCIP_SDPSLATER_INF then SCIP_SDPSLATERSETTING_PENALTYINFEASIBLE
        else SCIP_SDPSLATERSETTING_PENALTYNOSLATER
    | SCIP_SDPSLATER_HOLDS =>
        match d with
        | SCIP_SDPSLATER_NOINFO => SCIP_SDPSLATERSETTING_NOINFO
        | SCIP_SDPSLATER_NOT => SCIP_SDPSLATERSETTING_PENALTYNOSLATER
        | SCIP_SDPSLATER_HOLDS => SCIP_SDPSLATERSETTING_PENALTYWSLATER
        | SCIP_SDPSLATER_INF => SCIP_SDPSLATERSETTING_PENALTYINFEASIBLE
        end
    | _ => SCIP_SDPSLATERSETTING_NOINFO
    end
  else
    match p with
    | SCIP_SDPSLATER_NOINFO =>
        (* the first [if] has no [else]: its verdict is overwritten by the
           second statement *)
        let r1 := if slater_eqb d SCIP_SDPSLATER_NOT
                  then by_usedsetting s SCIP_SDPSLATERSETTING_STABLENOSLATER
                         SCIP_SDPSLATERSETTING_UNSTABLENOSLATER
                  else r0 in
        let r2 := if slater_eqb d SCIP_SDPSLATER_INF
                  then by_usedsetting s SCIP_SDPSLATERSETTING_STABLEINFEASIBLE
                         SCIP_SDPSLATERSETTING_UNSTABLEINFEASIBLE
                  else SCIP_SDPSLATERSETTING_NOINFO in
        let _ := r1 in r2
    | SCIP_SDPSLATER_NOT =>
        if slater_eqb d SCIP_SDPSLATER_INF
        then by_usedsetting s SCIP_SDPSLATERSETTING_STABLEINFEASIBLE
               SCIP_SDPSLATERSETTING_UNSTABLEINFEASIBLE
        else by_usedsetting s SCIP_SDPSLATERSETTING_STABLENOSLATER
               SCIP_SDPSLATERSETTING_UNSTABLENOSLATER
    | SCIP_SDPSLATER_HOLDS =>
        match d with
        | SCIP_SDPSLATER_NOINFO => SCIP_SDPSLATERSETTING_NOINFO
        | SCIP_SDPSLATER_NOT =>
            by_usedsetting s SCIP_SDPSLATERSETTING_STABLENOSLATER
              SCIP_SDPSLATERSETTING_UNSTABLENOSLATER
        | SCIP_SDPSLATER_INF =>
            by_usedsetting s SCIP_SDPSLATERSETTING_STABLEINFEASIBLE
              SCIP_SDPSLATERSETTING_UNSTABLEINFEASIBLE
        | SCIP_SDPSLATER_HOLDS =>
            by_usedsetting s SCIP_SDPSLATERSETTING_STABLEWSLATER
              SCIP_SDPSLATERSETTING_UNSTABLEWSLATER
        end
    | _ => SCIP_SDPSLATERSETTING_NOINFO
    end.

(** [*primalslater] and [*dualslater] *)
Definition SCIPsdpiSlater s : SCIP_SDPSLATER * SCIP_SDPSLATER :=
  if infeasible (status s) then (SCIP_SDPSLATER_NOINFO, dualslater (status s))
  else if allfixed (status s) then (SCIP_SDPSLATER_NOINFO, SCIP_SDPSLATER_NOINFO)
  else if onevar_solved (status s) then (SCIP_SDPSLATER_NOINFO, SCIP_SDPSLATER_NOINFO)
  else (primalslater (status s), dualslater (status s)).

(** [*ninfeasible], [*nallfixed] and [*nonevarsdp] *)
Definition SCIPsdpiGetStatistics s : Z * Z * Z :=
  (ninfeasible (stats s), nallfixed (stats s), nonevarsdp (stats s)).

End Queries.

(** ** Parameters ([SCIPsdpiGetRealpar] ... [SCIPsdpiComputeMaxPenaltyparam]) *)

Section Parameters.

Variable B : SDPISOLVER.
Variable I : SDPISOLVER_INFO B.
Implicit Type s : SCIP_SDPI B.

Definition with_par (f : PARAMS -> PARAMS) s : SCIP_SDPI B :=
  mkSDPI B (sdpisolver s) (vars s) (blocks s) (lp s) (prep s) (status s) (stats s) (f (par s)).

Definition set_slatercheck (v : Z) (p : PARAMS) : PARAMS :=
  mkPARAMS v (epsilon p) (gaptol p) (feastol p) (penaltyparam p) (maxpenaltyparam p)
    (npenaltyincr p) (peninfeasadjust p).
Definition set_epsilon (v : Q) (p : PARAMS) : PARAMS :=
  mkPARAMS (slatercheck p) v (gaptol p) (feastol p) (penaltyparam p) (maxpenaltyparam p)
    (npenaltyincr p) (peninfeasadjust p).
Definition set_gaptol (v : Q) (p : PARAMS) : PARAMS :=
  mkPARAMS (slatercheck p) (epsilon p) v (feastol p) (penaltyparam p) (maxpenaltyparam p)
    (npenaltyincr p) (peninfeasadjust p).
Definition set_feastol (v : Q) (p : PARAMS) : PARAMS :=
  mkPARAMS (slatercheck p) (epsilon p) (gaptol p) v (penaltyparam p) (maxpenaltyparam p)
    (npenaltyincr p) (peninfeasadjust p).
Definition set_penaltyparam (v : Q) (p : PARAMS) : PARAMS :=
  mkPARAMS (slatercheck p) (epsilon p) (gaptol p) (feastol p) v (maxpenaltyparam p)
    (npenaltyincr p) (peninfeasadjust p).
Definition set_maxpenaltyparam (v : Q) (p : PARAMS) : PARAMS :=
  mkPARAMS (slatercheck p) (epsilon p) (gaptol p) (feastol p) (penaltyparam p) v
    (npenaltyincr p) (peninfeasadjust p).
Definition set_npenaltyincr (v : Z) (p : PARAMS) : PARAMS :=
  mkPARAMS (slatercheck p) (epsilon p) (gaptol p) (feastol p) (penaltyparam p)
    (maxpenaltyparam p) v (peninfeasadjust p).
Definition set_peninfeasadjust (v : Q) (p : PARAMS) : PARAMS :=
  mkPARAMS (slatercheck p) (epsilon p) (gaptol p) (feastol p) (penaltyparam p)
    (maxpenaltyparam p) (npenaltyincr p) v.

(** [SCIP_CALL_PARAM(x)]: [SCIP_PARAMETERUNKNOWN] is returned, any other
    error aborts, and on success [k] goes on; [out] holds the output
    arguments at the time of the call *)
Definition SCIP_CALL_PARAM (A : Type) (r : SCIP_RETCODE) (out : A) (k : Outcome A)
    : Outcome A :=
  match r with
  | SCIP_OKAY => k
  | SCIP_PARAMETERUNKNOWN => Returns SCIP_PARAMETERUNKNOWN out
  | _ => AssertionFails
  end.

(** [SCIP_CALL_PARAM_IGNORE_UNKNOWN(x)] *)
Definition SCIP_CALL_PARAM_IGNORE_UNKNOWN (A : Type) (r : SCIP_RETCODE) (k : Outcome A)
    : Outcome A :=
  match r with
  | SCIP_OKAY | SCIP_PARAMETERUNKNOWN => k
  | _ => AssertionFails
  end.

(** [dval] is the value stored behind the pointer before the call *)
Definition SCIPsdpiGetRealpar s (type : SCIP_SDPPARAM) (dval : Q) : Outcome Q :=
  let from_solver :=
    let '(r, v) := SCIPsdpiSolverGetRealpar I (sdpisolver s) type dval in
    SCIP_CALL_PARAM r v (Returns SCIP_OKAY v) in
  match type with
  | SCIP_SDPPAR_EPSILON => Returns SCIP_OKAY (epsilon (par s))
  | SCIP_SDPPAR_GAPTOL => Returns SCIP_OKAY (gaptol (par s))
  | SCIP_SDPPAR_FEASTOL => Returns SCIP_OKAY (feastol (par s))
  | SCIP_SDPPAR_SDPSOLVERFEASTOL => from_solver
  | SCIP_SDPPAR_OBJLIMIT => from_solver
  | SCIP_SDPPAR_PENALTYPARAM => Returns SCIP_OKAY (penaltyparam (par s))
  | SCIP_SDPPAR_MAXPENALTYPARAM => Returns SCIP_OKAY (maxpenaltyparam (par s))
  | SCIP_SDPPAR_LAMBDASTAR => from_solver
  | SCIP_SDPPAR_WARMSTARTPOGAP => from_solver
  | SCIP_SDPPAR_PENINFEASADJUST => Returns SCIP_OKAY (peninfeasadjust (par s))
  | _ => Returns SCIP_PARAMETERUNKNOWN dval
  end.

Definition SCIPsdpiSetRealpar s (type : SCIP_SDPPARAM) (dval : Q) : Outcome (SCIP_SDPI B) :=
  (* the call of the backend after the interface [s1] has stored the value *)
  let checked (s1 : SCIP_SDPI B) :=
    let '(r, sv) := SCIPsdpiSolverSetRealpar I (sdpisolver s1) type dval in
    let s2 := with_solver (fun _ => sv) s1 in
    SCIP_CALL_PARAM r s2 (Returns SCIP_OKAY s2) in
  let ignoring_unknown (s1 : SCIP_SDPI B) :=
    let '(r, sv) := SCIPsdpiSolverSetRealpar I (sdpisolver s1) type dval in
    let s2 := with_solver (fun _ => sv) s1 in
    SCIP_CALL_PARAM_IGNORE_UNKNOWN r (Returns SCIP_OKAY s2) in
  match type with
  | SCIP_SDPPAR_EPSILON => checked (with_par (set_epsilon dval) s)
  | SCIP_SDPPAR_GAPTOL => checked (with_par (set_gaptol dval) s)
  | SCIP_SDPPAR_FEASTOL => checked (with_par (set_feastol dval) s)
  | SCIP_SDPPAR_SDPSOLVERFEASTOL => checked s
  | SCIP_SDPPAR_OBJLIMIT => checked s
  | SCIP_SDPPAR_PENALTYPARAM =>
      ignoring_unknown (with_par (set_penaltyparam dval) s)
  | SCIP_SDPPAR_MAXPENALTYPARAM => Returns SCIP_OKAY (with_par (set_maxpenaltyparam dval) s)
  | SCIP_SDPPAR_LAMBDASTAR => checked s
  | SCIP_SDPPAR_WARMSTARTPOGAP => checked s
  | SCIP_SDPPAR_PENINFEASADJUST => Returns SCIP_OKAY (with_par (set_peninfeasadjust dval) s)
  | _ => Returns SCIP_PARAMETERUNKNOWN s
  end.

(** [ival] is the value stored behind the pointer before the call *)
Definition SCIPsdpiGetIntpar s (type : SCIP_SDPPARAM) (ival : Z) : Outcome Z :=
  match type with
  | SCIP_SDPPAR_SDPINFO | SCIP_SDPPAR_NTHREADS | SCIP_SDPPAR_USEPRESOLVING
  | SCIP_SDPPAR_USESCALING | SCIP_SDPPAR_SCALEOBJ =>
      let '(r, v) := SCIPsdpiSolverGetIntpar I (sdpisolver s) type ival in
      SCIP_CALL_PARAM r v (Returns SCIP_OKAY v)
  | SCIP_SDPPAR_SLATERCHECK => Returns SCIP_OKAY (slatercheck (par s))
  | SCIP_SDPPAR_NPENALTYINCR => Returns SCIP_OKAY (npenaltyincr (par s))
  | _ => Returns SCIP_PARAMETERUNKNOWN ival
  end.

Definition SCIPsdpiSetIntpar s (type : SCIP_SDPPARAM) (ival : Z) : Outcome (SCIP_SDPI B) :=
  let checked :=
    let '(r, sv) := SCIPsdpiSolverSetIntpar I (sdpisolver s) type ival in
    let s2 := with_solver (fun _ => sv) s in
    SCIP_CALL_PARAM r s2 (Returns SCIP_OKAY s2) in
  match type with
  | SCIP_SDPPAR_SDPINFO | SCIP_SDPPAR_USEPRESOLVING | SCIP_SDPPAR_USESCALING
  | SCIP_SDPPAR_SCALEOBJ =>
      (* this is a boolean parameter *)
      if (ival =? 0) || (ival =? 1) then checked else AssertionFails
  | SCIP_SDPPAR_NTHREADS => checked
  | SCIP_SDPPAR_SLATERCHECK => Returns SCIP_OKAY (with_par (set_slatercheck ival) s)
  | SCIP_SDPPAR_NPENALTYINCR => Returns SCIP_OKAY (with_par (set_npenaltyincr ival) s)
  | _ => Returns SCIP_PARAMETERUNKNOWN s
  end.

(** compute and set the penalty parameter; the result is the interface and
    [*penaltyparam] *)
Definition SCIPsdpiComputePenaltyparam s (maxcoeff : Q) : SCIP_SDPI B * Q :=
  let '(sv, p) := SCIPsdpiSolverComputePenaltyparam I (sdpisolver s) maxcoeff in
  (with_par (set_penaltyparam p) (with_solver (fun _ => sv) s), p).

(** compute and set the maximal penalty parameter; the result is the
    interface and [*maxpenaltyparam] *)
Definition SCIPsdpiComputeMaxPenaltyparam s (penaltyparam' : Q) : SCIP_SDPI B * Q :=
  let '(sv, m) := SCIPsdpiSolverComputeMaxPenaltyparam I (sdpisolver s) penaltyparam' in
  let s1 := with_par (set_maxpenaltyparam m) (with_solver (fun _ => sv) s) in
  (* if the maximal penalty parameter is smaller than the initial penalty
     parameter, we decrease the initial one correspondingly *)
  (if (m <? penaltyparam (par s1))%Q then with_par (set_penaltyparam m) s1 else s1, m).

End Parameters.

(** ** Data access ([SCIPsdpiGetNLPRows] ... [SCIPsdpiGetRhSides]) and
    [SCIPsdpiClear] *)

Section DataAccess.

Variable B : SDPISOLVER.
Variable I : SDPISOLVER_INFO B.
Implicit Type s : SCIP_SDPI B.

Definition SCIPsdpiGetNLPRows s : Z := nlpcons (lp s).
Definition SCIPsdpiGetNSDPBlocks s : Z := Z.of_nat (length (blocks s)).
Definition SCIPsdpiGetNVars s : Z := nvars (vars s).
Definition SCIPsdpiGetLPNNonz s : Z := lpnnonz (lp s).

(** the assertions on the range of the variables or rows asked for *)
Definition range_ok (first last n : Z) : bool :=
  (0 <=? first) && (first <=? last) && (last <? n).

(** [vals] is the array handed in, of size [lastvar - firstvar + 1] *)
Definition SCIPsdpiGetObj s (firstvar lastvar : Z) (vals : list Q) : Outcome (list Q) :=
  if negb (range_ok firstvar lastvar (nvars (vars s))) then AssertionFails
  else
    Returns SCIP_OKAY
      (Arr.for_range 0 (lastvar - firstvar + 1)
         (fun i a => Arr.set a i (Arr.get 0%Q (obj (vars s)) (firstvar + i))) vals).

(** [lbs] and [ubs] are asserted not to be NULL *)
Definition SCIPsdpiGetBounds s (firstvar lastvar : Z) (lbs ubs : list Q)
    : Outcome (list Q * list Q) :=
  if negb (range_ok firstvar lastvar (nvars (vars s))) then AssertionFails
  else
    Returns SCIP_OKAY
      (Arr.for_range 0 (lastvar - firstvar + 1)
         (fun i '(l, u) =>
            (Arr.set l i (Arr.get 0%Q (lb (vars s)) (firstvar + i)),
             Arr.set u i (Arr.get 0%Q (ub (vars s)) (firstvar + i))))
         (lbs, ubs)).

(** [lhss[firstrow + i] = sdpi->lplhs[i]] *)
Definition SCIPsdpiGetLhSides s (firstrow lastrow : Z) (lhss : list Q) : Outcome (list Q) :=
  if negb (range_ok firstrow lastrow (nlpcons (lp s))) then AssertionFails
  else
    Returns SCIP_OKAY
      (Arr.for_range 0 (lastrow - firstrow + 1)
         (fun i a => Arr.set a (firstrow + i) (Arr.get 0%Q (lplhs (lp s)) i)) lhss).

(** [rhss[firstrow + i] = sdpi->lprhs[i]] *)
Definition SCIPsdpiGetRhSides s (firstrow lastrow : Z) (rhss : list Q) : Outcome (list Q) :=
  if negb (range_ok firstrow lastrow (nlpcons (lp s))) then AssertionFails
  else
    Returns SCIP_OKAY
      (Arr.for_range 0 (lastrow - firstrow + 1)
         (fun i a => Arr.set a (firstrow + i) (Arr.get 0%Q (lprhs (lp s)) i)) rhss).

(** clears the whole SDP: the counters are reset, the arrays stay allocated
    (a block list of length [nsdpblocks = 0] is the empty list) *)
Definition SCIPsdpiClear s : SCIP_SDPI B :=
  mkSDPI B (SCIPsdpiSolverResetCounter I (sdpisolver s))
    (let v := vars s in mkVARS 0 (obj v) (lb v) (ub v) (isintegral v))
    []
    (let l := lp s in
     mkLPDATA 0 (lplhs l) (lprhs l) (-1) 0 (lpbeg l) (lpind l) (lpval l))
    (prep s) (status s) (set_sdpid 1 (stats s)) (par s).

End DataAccess.

(** the mutation changes the problem: every call but [SCIPsdpiAddLPRows] with
    no row *)
Definition changes_problem (m : Mutation) : Prop :=
  match m with
  | MutAddLPRows nrows _ _ _ _ _ _ => nrows <> 0
  | _ => True
  end.

(** the interface itself has decided the result of the solve: infeasibility
    found while preparing, all variables fixed, or one variable left *)
Definition decided (B : SDPISOLVER) (s : SCIP_SDPI B) : bool :=
  solved (status s)
  && (infeasible (status s) || allfixed (status s) || onevar_solved (status s)).

(** the families of verdicts of [SCIPsdpiSlaterSettings] *)
Definition verdict_wslater (r : SCIP_SDPSLATERSETTING) : bool :=
  match r with
  | SCIP_SDPSLATERSETTING_STABLEWSLATER | SCIP_SDPSLATERSETTING_UNSTABLEWSLATER
  | SCIP_SDPSLATERSETTING_PENALTYWSLATER | SCIP_SDPSLATERSETTING_BOUNDEDWSLATER
  | SCIP_SDPSLATERSETTING_UNSOLVEDWSLATER => true
  | _ => false
  end.

Definition verdict_noslater (r : SCIP_SDPSLATERSETTING) : bool :=
  match r with
  | SCIP_SDPSLATERSETTING_STABLENOSLATER | SCIP_SDPSLATERSETTING_UNSTABLENOSLATER
  | SCIP_SDPSLATERSETTING_PENALTYNOSLATER | SCIP_SDPSLATERSETTING_BOUNDEDNOSLATER
  | SCIP_SDPSLATERSETTING_UNSOLVEDNOSLATER => true
  | _ => false
  end.

Definition verdict_infeasible (r : SCIP_SDPSLATERSETTING) : bool :=
  match r with
  | SCIP_SDPSLATERSETTING_STABLEINFEASIBLE | SCIP_SDPSLATERSETTING_UNSTABLEINFEASIBLE
  | SCIP_SDPSLATERSETTING_PENALTYINFEASIBLE | SCIP_SDPSLATERSETTING_BOUNDEDINFEASIBLE
  | SCIP_SDPSLATERSETTING_UNSOLVEDINFEASIBLE => true
  | _ => false
  end.

(** a backend description that answers every further query with "no" *)
Definition silent_info (B : SDPISOLVER) : SDPISOLVER_INFO B :=
  mkSDPISOLVER_INFO B
    (fun _ => false) (fun _ => (false, false))
    (fun _ => false) (fun _ => false) (fun _ => false) (fun _ => false) (fun _ => false)
    (fun _ => false) (fun _ => false) (fun _ => false)
    (fun _ => 7) (fun _ => SCIP_SDPSOLVERSETTING_FAST)
    (fun _ _ v => (SCIP_PARAMETERUNKNOWN, v)) (fun sv _ _ => (SCIP_PARAMETERUNKNOWN, sv))
    (fun _ _ v => (SCIP_PARAMETERUNKNOWN, v)) (fun sv _ _ => (SCIP_PARAMETERUNKNOWN, sv))
    (fun sv c => (sv, c)) (fun sv p => (sv, (p * inject_Z 1000)%Q))
    (fun sv => sv).

(** the floating point parameters stored in the interface itself *)
Definition interface_realpar (type : SCIP_SDPPARAM) : bool :=
  match type with
  | SCIP_SDPPAR_EPSILON | SCIP_SDPPAR_GAPTOL | SCIP_SDPPAR_FEASTOL
  | SCIP_SDPPAR_PENALTYPARAM | SCIP_SDPPAR_MAXPENALTYPARAM
  | SCIP_SDPPAR_PENINFEASADJUST => true
  | _ => false
  end.

(** the integer parameters stored in the interface itself *)
Definition interface_intpar (type : SCIP_SDPPARAM) : bool :=
  match type with
  | SCIP_SDPPAR_SLATERCHECK | SCIP_SDPPAR_NPENALTYINCR => true
  | _ => false
  end.

(** the floating point parameters handed on to the backend only *)
Definition solver_realpar (type : SCIP_SDPPARAM) : bool :=
  match type with
  | SCIP_SDPPAR_SDPSOLVERFEASTOL | SCIP_SDPPAR_OBJLIMIT | SCIP_SDPPAR_LAMBDASTAR
  | SCIP_SDPPAR_WARMSTARTPOGAP => true
  | _ => false
  end.

Definition param_eqb (x y : SCIP_SDPPARAM) : bool :=
  match x, y with
  | SCIP_SDPPAR_EPSILON, SCIP_SDPPAR_EPSILON
  | SCIP_SDPPAR_GAPTOL, SCIP_SDPPAR_GAPTOL
  | SCIP_SDPPAR_FEASTOL, SCIP_SDPPAR_FEASTOL
  | SCIP_SDPPAR_SDPSOLVERFEASTOL, SCIP_SDPPAR_SDPSOLVERFEASTOL
  | SCIP_SDPPAR_OBJLIMIT, SCIP_SDPPAR_OBJLIMIT
  | SCIP_SDPPAR_PENALTYPARAM, SCIP_SDPPAR_PENALTYPARAM
  | SCIP_SDPPAR_MAXPENALTYPARAM, SCIP_SDPPAR_MAXPENALTYPARAM
  | SCIP_SDPPAR_LAMBDASTAR, SCIP_SDPPAR_LAMBDASTAR
  | SCIP_SDPPAR_WARMSTARTPOGAP, SCIP_SDPPAR_WARMSTARTPOGAP
  | SCIP_SDPPAR_PENINFEASADJUST, SCIP_SDPPAR_PENINFEASADJUST
  | SCIP_SDPPAR_SDPINFO, SCIP_SDPPAR_SDPINFO
  | SCIP_SDPPAR_NTHREADS, SCIP_SDPPAR_NTHREADS
  | SCIP_SDPPAR_USEPRESOLVING, SCIP_SDPPAR_USEPRESOLVING
  | SCIP_SDPPAR_USESCALING, SCIP_SDPPAR_USESCALING
  | SCIP_SDPPAR_SCALEOBJ, SCIP_SDPPAR_SCALEOBJ
  | SCIP_SDPPAR_SLATERCHECK, SCIP_SDPPAR_SLATERCHECK
  | SCIP_SDPPAR_NPENALTYINCR, SCIP_SDPPAR_NPENALTYINCR => true
  | _, _ => false
  end.

(** *** What a solve leaves of the problem and of its statistics *)

(** the problem data (variables, blocks, LP rows, parameters) are the same
    in [s] and [s']; of the LP part only [nactivelpcons] may differ *)
Definition same_problem (B : SDPISOLVER) (s s' : SCIP_SDPI B) : Prop :=
  vars s' = vars s /\ blocks s' = blocks s /\ par s' = par s /\
  nlpcons (lp s') = nlpcons (lp s) /\ lplhs (lp s') = lplhs (lp s) /\
  lprhs (lp s') = lprhs (lp s) /\ lpnnonz (lp s') = lpnnonz (lp s) /\
  lpbeg (lp s') = lpbeg (lp s) /\ lpind (lp s') = lpind (lp s) /\
  lpval (lp s') = lpval (lp s).

(** the result of the one-variable solver and the three counters of the
    statistics are the same in [s] and [s'] *)
Definition same_counts (B : SDPISOLVER) (s s' : SCIP_SDPI B) : Prop :=
  solvedonevarsdp (status s') = solvedonevarsdp (status s) /\
  onevarsdpobjval (status s') = onevarsdpobjval (status s) /\
  ninfeasible (stats s') = ninfeasible (stats s) /\
  nallfixed (stats s') = nallfixed (stats s) /\
  nonevarsdp (stats s') = nonevarsdp (stats s).

Definition solve_frame (B : SDPISOLVER) (s s' : SCIP_SDPI B) : Prop :=
  same_problem s s' /\ same_counts s s'.

(** the stages before the backend is called leave the backend, the
    statistics and all of the status but [infeasible] as they are *)
Definition same_backend (B : SDPISOLVER) (s s' : SCIP_SDPI B) : Prop :=
  sdpisolver s' = sdpisolver s /\ stats s' = stats s /\
  solved (status s') = solved (status s) /\ penalty (status s') = penalty (status s) /\
  allfixed (status s') = allfixed (status s) /\
  solvedonevarsdp (status s') = solvedonevarsdp (status s) /\
  onevarsdpobjval (status s') = onevarsdpobjval (status s).

(** how a call of [SCIPsdpiSolve] that takes [s] to [s'] has ended *)
Inductive SolveEnd (B : SDPISOLVER) (s s' : SCIP_SDPI B) : Prop :=
| EndTimelimit :
    (* no time left: the result is reset and nothing is attempted *)
    stats s' = reset_counts (stats s) ->
    sdpisolver s' = sdpisolver s ->
    solved (status s') = false -> infeasible (status s') = false ->
    allfixed (status s') = false -> penalty (status s') = false ->
    solvedonevarsdp (status s') = SCIP_ONEVAR_UNSOLVED ->
    onevarsdpobjval (status s') = SCIP_INVALID ->
    SolveEnd s s'
| EndInfeasible :
    (* crossing bounds or an infeasible LP row found while preparing *)
    ninfeasible (stats s') = ninfeasible (stats s) + 1 ->
    nallfixed (stats s') = nallfixed (stats s) ->
    nonevarsdp (stats s') = nonevarsdp (stats s) ->
    sdpisolver s' = SCIPsdpiSolverIncreaseCounter B (sdpisolver s) ->
    solved (status s') = true -> infeasible (status s') = true ->
    allfixed (status s') = false -> penalty (status s') = false ->
    solvedonevarsdp (status s') = SCIP_ONEVAR_UNSOLVED ->
    onevarsdpobjval (status s') = SCIP_INVALID ->
    SolveEnd s s'
| EndAllFixed :
    ninfeasible (stats s') = ninfeasible (stats s) ->
    nallfixed (stats s') = nallfixed (stats s) + 1 ->
    nonevarsdp (stats s') = nonevarsdp (stats s) ->
    sdpisolver s' = SCIPsdpiSolverIncreaseCounter B (sdpisolver s) ->
    solved (status s') = true -> allfixed (status s') = true ->
    penalty (status s') = false ->
    solvedonevarsdp (status s') = SCIP_ONEVAR_UNSOLVED ->
    onevarsdpobjval (status s') = SCIP_INVALID ->
    SolveEnd s s'
| EndOneVar :
    ninfeasible (stats s') = ninfeasible (stats s) ->
    nallfixed (stats s') = nallfixed (stats s) ->
    nonevarsdp (stats s') = nonevarsdp (stats s) + 1 ->
    sdpisolver s' = sdpisolver s ->
    solved (status s') = true -> infeasible (status s') = false ->
    allfixed (status s') = false -> penalty (status s') = false ->
    solvedonevarsdp (status s') <> SCIP_ONEVAR_UNSOLVED ->
    SolveEnd s s'
| EndBackend :
    ninfeasible (stats s') = ninfeasible (stats s) ->
    nallfixed (stats s') = nallfixed (stats s) ->
    nonevarsdp (stats s') = nonevarsdp (stats s) ->
    allfixed (status s') = false ->
    solvedonevarsdp (status s') = SCIP_ONEVAR_UNSOLVED ->
    onevarsdpobjval (status s') = SCIP_INVALID ->
    SolveEnd s s'.

(** the state [x] of a call on [s] after the reset and the preparation *)
Definition prepared (B : SDPISOLVER) (s x : SCIP_SDPI B) : Prop :=
  same_problem s x /\
  ninfeasible (stats x) = ninfeasible (stats s) /\
  nallfixed (stats x) = nallfixed (stats s) /\
  nonevarsdp (stats x) = nonevarsdp (stats s) /\
  sdpisolver x = sdpisolver s /\
  solved (status x) = false /\ allfixed (status x) = false /\ penalty (status x) = false /\
  solvedonevarsdp (status x) = SCIP_ONEVAR_UNSOLVED /\
  onevarsdpobjval (status x) = SCIP_INVALID.

(** the objective value of the point [x]: the sum of [obj[v] * x[v]] over the
    variables *)
Definition objective_at (B : SDPISOLVER) (s : SCIP_SDPI B) (x : list Q) : Q :=
  Arr.for_range 0 (nvars (vars s))
    (fun v acc => (acc + Arr.get 0%Q (obj (vars s)) v * Arr.get 0%Q x v)%Q) 0%Q.

(** [fixed_block] after the solve that found all variables fixed *)
Definition fixed_block_solved : SCIP_SDPI failing_backend := exit_allfixed fixed_block.

(** a backend that accepts every solve *)
Definition accepting_backend : SDPISOLVER :=
  mkSDPISOLVER (solver := unit)
    (fun _ => inject_Z (10 ^ 20))
    (fun s _ => s)
    (fun s _ _ _ _ => (s, true, false))
    (fun s => s) (fun s _ => s)
    (fun _ => true) (fun _ => true) (fun _ => false) (fun _ => true) (fun _ => false)
    (fun _ => 0%Q) (fun _ => (0%Q, []))
    (fun _ => 0%Q) (fun _ => 0) (fun _ => 0)
    (fun s _ => (s, SCIP_SDPSLATER_NOINFO, SCIP_SDPSLATER_NOINFO))
    (fun _ m => Arr.get 0%Q m 0)
    (fun _ _ _ _ _ _ _ _ => (SCIP_INVALID, 0%Q, 0%Q))
    pow_integer
    false.

(** the three-row problem for the accepting backend *)
Definition three_rows_accepting : SCIP_SDPI accepting_backend :=
  mkSDPI accepting_backend tt (vars three_rows) [] (lp three_rows) (prep three_rows)
    fresh_status fresh_stats default_params.

(** the bounds of the variable [v] cross by more than [feastol] *)
Definition crossing (B : SDPISOLVER) (s : SCIP_SDPI B) (v : Z) : Prop :=
  (Arr.get 0%Q (ub (vars s)) v < Arr.get 0%Q (lb (vars s)) v - feastol (par s))%Q.

(** one variable with the bounds [3, 2] *)
Definition crossing_bounds : SCIP_SDPI failing_backend :=
  mkSDPI failing_backend tt
    (mkVARS 1 [1%Q] [3 # 1] [2 # 1] [false])
    [] (mkLPDATA 0 [] [] (-1) 0 [] [] [])
    (mkPREP [] [] [] [0%Q] [0%Q] [0] [0] [] [] [])
    fresh_status fresh_stats default_params.

(** what the loops over the variables of [count_active] and of
    [objective_at] have computed together before the variable [i]: with no
    active variable so far the two sums agree, with one they differ by the
    term of that variable *)
Definition count_invariant (B : SDPISOLVER) (s : SCIP_SDPI B) (y : list Q) (i : Z)
    (st : Z * Z * Q * Q) : Prop :=
  let '(n, idx, contr, acc) := st in
  (n = 0 /\ (acc == contr)%Q) \/
  (n = 1 /\ 0 <= idx < i /\ isFixed s idx = false /\
   (acc == contr + Arr.get 0%Q (obj (vars s)) idx * Arr.get 0%Q y idx)%Q) \/
  2 <= n.

(** two variables without SDP block and LP row: [x0] in [1, 4] with
    objective coefficient 2 and [x1] fixed to 3 with coefficient 5, after the
    bounds have been copied *)
Definition one_free_variable : SCIP_SDPI failing_backend :=
  mkSDPI failing_backend tt
    (mkVARS 2 [2 # 1; 5 # 1] [1 # 1; 3 # 1] [4 # 1; 3 # 1] [false; false])
    [] (mkLPDATA 0 [] [] 0 0 [] [] [])
    (mkPREP [] [] [] [1 # 1; 3 # 1] [4 # 1; 3 # 1] [0; 0] [0; 0] [] [] [])
    fresh_status fresh_stats default_params.

(** the LP part described by the arguments of [SCIPsdpiAddLPRows] *)
Definition rows_given (nrows : Z) (lhs rhs : list Q) (nnonz : Z) (beg ind : list Z)
    (val : list Q) : LPDATA :=
  mkLPDATA nrows lhs rhs (-1) nnonz beg ind val.

(** the number of rows below [i] that [dstat] marks for deletion *)
Definition marked_before (dstat : list Z) (i : Z) : Z :=
  Arr.for_range 0 i (fun j n => if Arr.get 0 dstat j =? 1 then n + 1 else n) 0.

(** ** The clock of the interface ([sdpiclock.c])

    The code for POSIX systems is modelled.  The readings of
    [gettimeofday] and [times] are arguments of the functions that take
    them.  The two members of the union [data] are modelled side by side; a
    clock uses the member of its type only. *)

Inductive SDPI_CLOCKTYPE := SDPI_CLOCKTYPE_WALL | SDPI_CLOCKTYPE_CPU.

Record SDPI_CLOCK := mkSDPI_CLOCK {
  clocktype : SDPI_CLOCKTYPE;
  cpuclock_user : Z;
  wallclock_sec : Z;
  wallclock_usec : Z;
  nruns : Z }.

(** [struct timeval] *)
Record timeval := mkTimeval { tv_sec : Z; tv_usec : Z }.

(** [cputime2sec]; [clocks_per_second] is [sysconf(_SC_CLK_TCK)] *)
Definition cputime2sec (clocks_per_second : Z) (cputime : Z) : Q :=
  (inject_Z cputime / inject_Z clocks_per_second)%Q.

Definition walltime2sec (sec usec : Z) : Q :=
  (inject_Z sec + (1 # 1000000) * inject_Z usec)%Q.

(** [SDPIclockCreate]: the timers are not initialised *)
Definition SDPIclockCreate (user sec usec : Z) : SDPI_CLOCK :=
  mkSDPI_CLOCK SDPI_CLOCKTYPE_WALL user sec usec 0.

Definition SDPIclockSetType (clck : SDPI_CLOCK) (t : SDPI_CLOCKTYPE) : SDPI_CLOCK :=
  mkSDPI_CLOCK t (cpuclock_user clck) (wallclock_sec clck) (wallclock_usec clck) (nruns clck).

Definition SDPIclockStart (clck : SDPI_CLOCK) (tp : timeval) (tms_utime : Z) : SDPI_CLOCK :=
  match clocktype clck with
  | SDPI_CLOCKTYPE_CPU =>
      mkSDPI_CLOCK (clocktype clck) (- tms_utime) (wallclock_sec clck) (wallclock_usec clck)
        (nruns clck + 1)
  | SDPI_CLOCKTYPE_WALL =>
      if 0 <? tv_usec tp then
        mkSDPI_CLOCK (clocktype clck) (cpuclock_user clck) (- (tv_sec tp + 1))
          (1000000 - tv_usec tp) (nruns clck + 1)
      else
        mkSDPI_CLOCK (clocktype clck) (cpuclock_user clck) (- tv_sec tp) (- tv_usec tp)
          (nruns clck + 1)
  end.

Definition SDPIclockStop (clck : SDPI_CLOCK) (tp : timeval) (tms_utime : Z) : SDPI_CLOCK :=
  match clocktype clck with
  | SDPI_CLOCKTYPE_CPU =>
      mkSDPI_CLOCK (clocktype clck) (cpuclock_user clck + tms_utime) (wallclock_sec clck)
        (wallclock_usec clck) (nruns clck - 1)
  | SDPI_CLOCKTYPE_WALL =>
      if 1000000 <? tv_usec tp + wallclock_usec clck then
        mkSDPI_CLOCK (clocktype clck) (cpuclock_user clck)
          (wallclock_sec clck + (tv_sec tp + 1))
          (wallclock_usec clck - (1000000 - tv_usec tp)) (nruns clck - 1)
      else
        mkSDPI_CLOCK (clocktype clck) (cpuclock_user clck) (wallclock_sec clck + tv_sec tp)
          (wallclock_usec clck + tv_usec tp) (nruns clck - 1)
  end.

Definition SDPIclockGetTime (clocks_per_second : Z) (clck : SDPI_CLOCK) (tp : timeval)
    (tms_utime : Z) : Q :=
  if nruns clck =? 0 then
    (* the clock is not running: convert the clocks timer into seconds *)
    match clocktype clck with
    | SDPI_CLOCKTYPE_CPU => cputime2sec clocks_per_second (cpuclock_user clck)
    | SDPI_CLOCKTYPE_WALL => walltime2sec (wallclock_sec clck) (wallclock_usec clck)
    end
  else
    (* the clock is currently running: add the current time to the clocks timer *)
    match clocktype clck with
    | SDPI_CLOCKTYPE_CPU => cputime2sec clocks_per_second (cpuclock_user clck + tms_utime)
    | SDPI_CLOCKTYPE_WALL =>
        if 1000000 <? tv_usec tp + wallclock_usec clck then
          walltime2sec (wallclock_sec clck + tv_sec tp + 1)
            ((wallclock_usec clck - 1000000) + tv_usec tp)
        else
          walltime2sec (wallclock_sec clck + tv_sec tp) (wallclock_usec clck + tv_usec tp)
    end.

(** the time of day in seconds *)
Definition timeval_seconds (tp : timeval) : Q := walltime2sec (tv_sec tp) (tv_usec tp).

(** a reading of [gettimeofday] *)
Definition timeval_ok (tp : timeval) : Prop := 0 <= tv_usec tp < 1000000.

(** ** Empty rows and columns of the SDP blocks ([findEmptyRowColsSDP])

    The index maps are computed for the backend, which is handed the
    problem as a whole above; they are modelled here on their own. *)

(** the fields [indchanges], [nremovedinds], [blockindchanges] and
    [nremovedblocks] of the interface *)
Record IndexMaps := mkIndexMaps {
  indchanges : list (list Z);
  nremovedinds : list Z;
  blockindchanges : list Z;
  nremovedblocks : Z }.

Section EmptyRowCols.

Variable B : SDPISOLVER.
Implicit Type s : SCIP_SDPI B.

(** [if ( indchanges[b][k] == -1 ) { indchanges[b][k] = 1; ++nfoundinds; }] *)
Definition mark_index (st : list Z * Z) (k : Z) : list Z * Z :=
  if Arr.get 0 (fst st) k =? -1 then (Arr.set (fst st) k 1, snd st + 1) else st.

(** the loop over the nonzeros of a matrix, left when all indices of the
    block have been found *)
Fixpoint mark_nonzeros (size : Z) (es : list Entry) (st : list Z * Z) : list Z * Z :=
  match es with
  | [] => st
  | e :: t =>
      let st' := mark_index (mark_index st (e_row e)) (e_col e) in
      if snd st' =? size then st' (* we're done for this block *)
      else mark_nonzeros size t st'
  end.

(** the loop over the variables of a block *)
Fixpoint mark_blockvars s (size : Z) (bvs : list BlockVar) (st : list Z * Z) : list Z * Z :=
  match bvs with
  | [] => st
  | bv :: t =>
      let st' := if negb (isFixed s (sdpvar bv)) then mark_nonzeros size (sdpnonz bv) st
                 else st in
      if snd st' =? size then st' (* we're done for this block *)
      else mark_blockvars s size t st'
  end.

(** the final values of [indchanges[b]] and [nremovedinds[b]] *)
Definition number_indices (size : Z) (ind : list Z) : list Z * Z :=
  Arr.for_range 0 size
    (fun i '(ind, nremoved) =>
       if Arr.get 0 ind i =? -1 then (ind, nremoved + 1)
       else (Arr.set ind i nremoved, nremoved))
    (ind, 0).

(** the pass of the loop over the blocks for the block [b] *)
Definition find_block s (sdpconst : list (list Entry)) (b : Z) (m : IndexMaps) : IndexMaps :=
  let blk := nth (Z.to_nat b) (blocks s) (mkBlock 0 [] []) in
  let size := sdpblocksize blk in
  let st1 := mark_blockvars s size (sdpblockvars blk) (Arr.get [] (indchanges m) b, 0) in
  let st2 :=
    if snd st1 <? size then
      (* if some indices haven't been found yet, look in the constant matrix for them *)
      mark_nonzeros size (Arr.get [] sdpconst b) st1
    else st1 in
  let '(ind, nremoved) := number_indices size (fst st2) in
  (* check if the block became empty *)
  if nremoved =? size then
    mkIndexMaps (Arr.set (indchanges m) b ind) (Arr.set (nremovedinds m) b nremoved)
      (Arr.set (blockindchanges m) b (-1)) (nremovedblocks m + 1)
  else
    mkIndexMaps (Arr.set (indchanges m) b ind) (Arr.set (nremovedinds m) b nremoved)
      (Arr.set (blockindchanges m) b (nremovedblocks m)) (nremovedblocks m).

(** [sdpconst] are the constant matrices after fixings *)
Definition findEmptyRowColsSDP s (sdpconst : list (list Entry)) (m : IndexMaps) : IndexMaps :=
  let nsdpblocks := Z.of_nat (length (blocks s)) in
  if nsdpblocks <=? 0 then m
  else
    (* initialize indchanges with -1 *)
    let ind0 :=
      Arr.for_range 0 nsdpblocks
        (fun b ind =>
           Arr.set ind b
             (Arr.for_range 0 (sdpblocksize (nth (Z.to_nat b) (blocks s) (mkBlock 0 [] [])))
                (fun i a => Arr.set a i (-1)) (Arr.get [] ind b)))
        (indchanges m) in
    Arr.for_range 0 nsdpblocks (find_block s sdpconst)
      (mkIndexMaps ind0 (nremovedinds m) (blockindchanges m) 0).

(** the nonzeros of the variables of a block that are not fixed, and the
    nonzeros of its constant matrix *)
Definition active_nonzeros s (blk : Block) (const : list Entry) : list Entry :=
  flat_map (fun bv => if isFixed s (sdpvar bv) then [] else sdpnonz bv) (sdpblockvars blk)
  ++ const.

End EmptyRowCols.

(** the row or column [i] holds the entry [e] *)
Definition touches (i : Z) (e : Entry) : bool := (e_row e =? i) || (e_col e =? i).

(** the number of [j] in [0 .. n-1] with [f j] *)
Fixpoint count_below (f : Z -> bool) (n : nat) : Z :=
  match n with
  | O => 0
  | S n' => count_below f n' + (if f (Z.of_nat n') then 1 else 0)
  end.

(** the number of indices below [i] that no nonzero of [es] uses *)
Definition unused_before (es : list Entry) (i : Z) : Z :=
  count_below (fun j => negb (existsb (touches j) es)) (Z.to_nat i).

(** the number of blocks below [b] all of whose indices are unused *)
Definition empty_blocks_before (B : SDPISOLVER) (s : SCIP_SDPI B) (sdpconst : list (list Entry))
    (b : Z) : Z :=
  count_below
    (fun b' =>
       let blk := nth (Z.to_nat b') (blocks s) (mkBlock 0 [] []) in
       unused_before (active_nonzeros s blk (Arr.get [] sdpconst b')) (sdpblocksize blk)
       =? sdpblocksize blk)
    (Z.to_nat b).

(** a block of size 3 with the variable [x0] in [0, 10] at position (0,0);
    the constant matrix after fixings has its entry at (2,2) *)
Definition sparse_block : SCIP_SDPI failing_backend :=
  mkSDPI failing_backend tt
    (mkVARS 1 [1%Q] [0%Q] [10 # 1] [false])
    [mkBlock 3 [mkBlockVar 0 [mkEntry 0 0 (1 # 1)]] [mkEntry 2 2 (1 # 1)]]
    (mkLPDATA 0 [] [] (-1) 0 [] [] [])
    (mkPREP [] [] [] [0%Q] [10 # 1] [0] [0] [] [] [])
    fresh_status fresh_stats default_params.

(** ** The primal variables of the bounds ([SCIPsdpiGetPrimalBoundVars]) *)

Section PrimalBoundVars.

Variable B : SDPISOLVER.
Variable I : SDPISOLVER_INFO B.
Implicit Type s : SCIP_SDPI B.

(** the function of the backend with the same name; it returns its return
    code and the two arrays *)
Variable SCIPsdpiSolverGetPrimalBoundVars :
  solver B -> list Q -> list Q -> SCIP_RETCODE * (list Q * list Q).

(** the results are the two arrays and [*success] *)
Definition SCIPsdpiGetPrimalBoundVars s (lbvals ubvals : list Q)
    : Outcome (list Q * list Q * bool) :=
  let zeros :=
    Arr.for_range 0 (nvars (vars s))
      (fun i '(l, u) => (Arr.set l i 0%Q, Arr.set u i 0%Q)) (lbvals, ubvals) in
  let t := status s in
  if negb (solved t) then Returns SCIP_OKAY (lbvals, ubvals, false)
  else if allfixed t then
    (* if all variables are fixed, we return 0 as primal solution *)
    Returns SCIP_OKAY (fst zeros, snd zeros, true)
  else if infeasible t then Returns SCIP_OKAY (lbvals, ubvals, false)
  else
    match solvedonevarsdp t with
    | SCIP_ONEVAR_INFEASIBLE =>
        (* fill in dual variables for single constraint *)
        if (feastol (par s) <? onevarsdpcertval t)%Q then
          Returns SCIP_OKAY
            (fst zeros, Arr.set (snd zeros) (onevarsdpidx t) (onevarsdpcertval t), true)
        else if (onevarsdpcertval t <? - feastol (par s))%Q then
          Returns SCIP_OKAY
            (Arr.set (fst zeros) (onevarsdpidx t) (- onevarsdpcertval t)%Q, snd zeros, true)
        else Returns SCIP_OKAY (fst zeros, snd zeros, true)
    | SCIP_ONEVAR_OPTIMAL =>
        (* we only solve 1-d SDPs for nonnegative objective coefficient *)
        if negb (- feastol (par s) <=? Arr.get 0%Q (obj (vars s)) (onevarsdpidx t))%Q
        then AssertionFails
        else if (REALABS (onevarsdpoptval t - Arr.get 0%Q (sdpilb (prep s)) (onevarsdpidx t))
                 <? feastol (par s))%Q
        then
          (* the primal variable is equal to the objective *)
          Returns SCIP_OKAY
            (Arr.set (fst zeros) (onevarsdpidx t)
               (Arr.get 0%Q (obj (vars s)) (onevarsdpidx t)), snd zeros, true)
        else Returns SCIP_OKAY (fst zeros, snd zeros, true)
    | SCIP_ONEVAR_UNSOLVED =>
        if SCIPsdpiSolverIsPrimalInfeasible I (sdpisolver s) then
          Returns SCIP_OKAY (lbvals, ubvals, false)
        else if negb (SCIPsdpiSolverIsDualInfeasible B (sdpisolver s)
                      || SCIPsdpiSolverIsDualFeasible I (sdpisolver s))
        then AssertionFails
        else
          let '(retcode, (l, u)) :=
            SCIPsdpiSolverGetPrimalBoundVars (sdpisolver s) lbvals ubvals in
          Returns SCIP_OKAY (l, u, match retcode with SCIP_OKAY => true | _ => false end)
    end.

End PrimalBoundVars.

(** ** The map between SCIP variables and SDP indices ([SdpVarmapper.c])

    A SCIP variable is identified by its address.  The hashmap of SCIP
    with integer images is modelled as a finite map; its functions
    [SCIPhashmapExists], [SCIPhashmapInsertInt], [SCIPhashmapSetImageInt],
    [SCIPhashmapRemove] and [SCIPhashmapGetImageInt] belong to SCIP.  The
    capture and release of variables is not modelled. *)

Module SdpVarmapper.

Abbreviation SCIP_VAR := Z (only parsing).

Definition SCIP_HASHMAP := SCIP_VAR -> option Z.

Definition INT_MAX : Z := 2147483647.

Definition SCIPhashmapExists (h : SCIP_HASHMAP) (origin : SCIP_VAR) : bool :=
  match h origin with Some _ => true | None => false end.

(** the origin must not be in the map yet *)
Definition SCIPhashmapInsertInt (h : SCIP_HASHMAP) (origin : SCIP_VAR) (image : Z)
    : SCIP_HASHMAP :=
  fun v => if v =? origin then Some image else h v.

(** inserts the origin or changes its image *)
Definition SCIPhashmapSetImageInt (h : SCIP_HASHMAP) (origin : SCIP_VAR) (image : Z)
    : SCIP_HASHMAP :=
  fun v => if v =? origin then Some image else h v.

Definition SCIPhashmapRemove (h : SCIP_HASHMAP) (origin : SCIP_VAR) : SCIP_HASHMAP :=
  fun v => if v =? origin then None else h v.

Definition SCIPhashmapGetImageInt (h : SCIP_HASHMAP) (origin : SCIP_VAR) : Z :=
  match h origin with Some image => image | None => INT_MAX end.

(** [SCIPreallocBlockMemoryArray]: the array gets [newsize] entries and keeps
    the entries that fit *)
Definition realloc (a : list SCIP_VAR) (newsize : Z) : list SCIP_VAR :=
  firstn (Z.to_nat newsize) a ++ repeat 0 (Z.to_nat newsize - length a).

Record Sdpvarmapper := mkSdpvarmapper {
  sdptoscip : list SCIP_VAR;
  sciptosdp : SCIP_HASHMAP;
  nvars : Z }.

(** [SCIPsdpVarmapperCreate] with [size > 0] *)
Definition SCIPsdpVarmapperCreate : Sdpvarmapper :=
  mkSdpvarmapper [] (fun _ => None) 0.

Definition SCIPsdpVarmapperAddVars (m : Sdpvarmapper) (nvars' : Z) (vars : list SCIP_VAR)
    : Sdpvarmapper :=
  if nvars' =? 0 then m
  else
    let allocsize := nvars m + nvars' in
    let m0 := mkSdpvarmapper (realloc (sdptoscip m) allocsize) (sciptosdp m) (nvars m) in
    let '(m1, reallocneeded) :=
      Arr.for_range 0 nvars'
        (fun i '(m, reallocneeded) =>
           let var := Arr.get 0 vars i in
           (* make sure, that there are no duplicates in the lists *)
           if negb (SCIPhashmapExists (sciptosdp m) var) then
             (mkSdpvarmapper (Arr.set (sdptoscip m) (nvars m) var)
                (SCIPhashmapInsertInt (sciptosdp m) var (nvars m)) (nvars m + 1),
              reallocneeded)
           else (m, true))
        (m0, false) in
    if reallocneeded
    then mkSdpvarmapper (realloc (sdptoscip m1) (nvars m1)) (sciptosdp m1) (nvars m1)
    else m1.

(** the loop [for (i = nvars - 1; i >= pos; i--)] makes [nvars - pos]
    passes; the pass [k] has [i = nvars - 1 - k] *)
Definition SCIPsdpVarmapperInsertVar (m : Sdpvarmapper) (var : SCIP_VAR) (pos : Z)
    : Sdpvarmapper :=
  if negb (SCIPhashmapExists (sciptosdp m) var) then
    if pos =? nvars m then (* add it to the end *)
      SCIPsdpVarmapperAddVars m 1 [var]
    else
      let m0 := mkSdpvarmapper (realloc (sdptoscip m) (nvars m + 1)) (sciptosdp m) (nvars m) in
      (* move all variables after pos one spot to the right to make room for the new one *)
      let m1 :=
        Arr.for_range 0 (nvars m - pos)
          (fun k m' =>
             let i := nvars m - 1 - k in
             let a := Arr.set (sdptoscip m') (i + 1) (Arr.get 0 (sdptoscip m') i) in
             mkSdpvarmapper a
               (SCIPhashmapSetImageInt (sciptosdp m') (Arr.get 0 a (i + 1)) (i + 1))
               (nvars m'))
          m0 in
      mkSdpvarmapper (Arr.set (sdptoscip m1) pos var)
        (SCIPhashmapInsertInt (sciptosdp m1) var pos) (nvars m1 + 1)
  else m.

Definition SCIPsdpVarmapperGetNVars (m : Sdpvarmapper) : Z := nvars m.

Definition SCIPsdpVarmapperExistsSCIPvar (m : Sdpvarmapper) (var : SCIP_VAR) : bool :=
  SCIPhashmapExists (sciptosdp m) var.

Definition SCIPsdpVarmapperGetSdpIndex (m : Sdpvarmapper) (var : SCIP_VAR) : Z :=
  SCIPhashmapGetImageInt (sciptosdp m) var.

Definition SCIPsdpVarmapperGetSCIPvar (m : Sdpvarmapper) (ind : Z) : SCIP_VAR :=
  Arr.get 0 (sdptoscip m) ind.

Definition SCIPsdpVarmapperRemoveSdpIndex (m : Sdpvarmapper) (ind : Z) : Sdpvarmapper :=
  let var := Arr.get 0 (sdptoscip m) ind in
  let m0 := mkSdpvarmapper (sdptoscip m) (SCIPhashmapRemove (sciptosdp m) var) (nvars m) in
  (* shift all entries of the sdptoscip-array behind ind one to the left and update their
     sciptosdp-entries *)
  let m1 :=
    Arr.for_range (ind + 1) (nvars m)
      (fun i m' =>
         let a := Arr.set (sdptoscip m') (i - 1) (Arr.get 0 (sdptoscip m') i) in
         mkSdpvarmapper a
           (SCIPhashmapSetImageInt (sciptosdp m') (Arr.get 0 a (i - 1)) (i - 1))
           (nvars m'))
      m0 in
  mkSdpvarmapper (realloc (sdptoscip m1) (nvars m1 - 1)) (sciptosdp m1) (nvars m1 - 1).

(** the array and the hashmap describe the same one-to-one map *)
Definition consistent (m : Sdpvarmapper) : Prop :=
  nvars m = Z.of_nat (length (sdptoscip m)) /\
  (forall i, 0 <= i < nvars m -> sciptosdp m (Arr.get 0 (sdptoscip m) i) = Some i) /\
  (forall var i, sciptosdp m var = Some i ->
     0 <= i < nvars m /\ Arr.get 0 (sdptoscip m) i = var).

(** two mappers with the same content *)
Definition same_map (m m' : Sdpvarmapper) : Prop :=
  nvars m' = nvars m /\ sdptoscip m' = sdptoscip m /\
  forall var, sciptosdp m' var = sciptosdp m var.

End SdpVarmapper.

(** * Properties *)

Unset Implicit Arguments.

(** ** Loops *)

Lemma for_loop_invariant (S : Type) (P : S -> Prop) (body : Z -> S -> S) :
  (forall i s, P s -> P (body i s)) ->
  forall n i s, P s -> P (Arr.for_loop n i body s).
Proof.
  intros Hbody n; induction n as [|n IH]; intros i s Hs; simpl; auto.
Qed.

Lemma for_range_invariant (S : Type) (P : S -> Prop) (body : Z -> S -> S) lo hi s :
  (forall i s, P s -> P (body i s)) -> P s -> P (Arr.for_range lo hi body s).
Proof.
  intros Hbody Hs; unfold Arr.for_range; apply for_loop_invariant; assumption.
Qed.

(** ** Mutation and the result flags *)

Section MutationFlags.

Variable B : SDPISOLVER.
Implicit Type s : SCIP_SDPI B.

Lemma DelLPRows_flags s firstrow lastrow :
  let s' := SCIPsdpiDelLPRows s firstrow lastrow in
  solved (status s') = false /\ infeasible (status s') = false /\
  allfixed (status s') = false /\ penalty (status s') = penalty (status s).
Proof.
  unfold SCIPsdpiDelLPRows.
  destruct ((firstrow =? 0) && (lastrow =? nlpcons (lp s) - 1)); cbn.
  - repeat split.
  - destruct (Arr.for_range _ _ _ _) as [[lhs1 rhs1] beg1]; cbn. repeat split.
Qed.

Lemma DelLPRowset_penalty s dstat :
  penalty (status (fst (SCIPsdpiDelLPRowset s dstat))) = penalty (status s).
Proof.
  unfold SCIPsdpiDelLPRowset.
  set (body := fun (i : Z) '(s0, dstat0, deletedrows) => _).
  assert (H : penalty (status (fst (fst (Arr.for_range 0 (nlpcons (lp s)) body (s, dstat, 0)))))
              = penalty (status s)).
  { apply for_range_invariant with
      (P := fun x : SCIP_SDPI B * list Z * Z => penalty (status (fst (fst x))) = penalty (status s)).
    - intros i [[s0 d0] k] H0; unfold body; cbn in *.
      destruct (Arr.get 0 d0 i =? 1); cbn; auto.
      rewrite <- H0. apply (DelLPRows_flags s0 (i - k) (i - k)).
    - reflexivity. }
  destruct (Arr.for_range 0 (nlpcons (lp s)) body (s, dstat, 0)) as [[s1 d1] k1].
  cbn in *. exact H.
Qed.

End MutationFlags.

(** C1 (as amended): every call of the mutation API except
    [SCIPsdpiAddLPRows] with [nrows = 0] (which returns at once and changes
    nothing) sets [solved] to false; [SCIPsdpiDelLPRows],
    [SCIPsdpiDelLPRowset], [SCIPsdpiChgBounds] and [SCIPsdpiChgLPLhRhSides]
    also set [infeasible] and [allfixed] to false; [SCIPsdpiAddLPRows] with
    [nrows <> 0] sets [infeasible] to false and keeps [allfixed];
    [SCIPsdpiChgObj] keeps [infeasible] and [allfixed]; and no mutator changes
    [penalty]. *)
Theorem mutation_resets_flags (B : SDPISOLVER) (m : Mutation) (s : SCIP_SDPI B) :
  let s' := mutate m s in
  penalty (status s') = penalty (status s) /\
  match m with
  | MutAddLPRows nrows _ _ _ _ _ _ =>
      if nrows =? 0 then s' = s
      else solved (status s') = false /\ infeasible (status s') = false /\
           allfixed (status s') = allfixed (status s)
  | MutChgObj _ _ _ =>
      solved (status s') = false /\ infeasible (status s') = infeasible (status s) /\
      allfixed (status s') = allfixed (status s)
  | _ =>
      solved (status s') = false /\ infeasible (status s') = false /\
      allfixed (status s') = false
  end.
Proof.
  destruct m; cbn -[SCIPsdpiDelLPRows SCIPsdpiDelLPRowset].
  - unfold SCIPsdpiAddLPRows. destruct (nrows =? 0); [split; reflexivity|].
    destruct (nlpcons (lp s) =? 0); cbn; repeat split.
  - pose proof (DelLPRows_flags B s firstrow lastrow) as H; cbn zeta in H. tauto.
  - split; [apply DelLPRowset_penalty|].
    unfold SCIPsdpiDelLPRowset.
    destruct (Arr.for_range _ _ _ _) as [[s1 d1] k1]; cbn. repeat split.
  - repeat split.
  - repeat split.
  - repeat split.
Qed.

(** C1 (as stated) fails: adding zero rows to a solved problem leaves
    [solved] (and [penalty]) set. *)
Lemma mutation_resets_flags_counterexample :
  let s' := mutate (MutAddLPRows 0 [] [] 0 [] [] []) three_rows_solved in
  ~ (solved (status s') = false /\ infeasible (status s') = false /\
     allfixed (status s') = false /\ penalty (status s') = false).
Proof.
  cbn. intros [H _]. discriminate H.
Qed.

(** ** Deleting a range of LP rows *)

(** C10: on the three-row problem, deleting row 0 should leave rows 1 and 2
    with three nonzeros; the code leaves one nonzero and rows that are not
    the original ones. *)
Theorem DelLPRows_first_row_of_three :
  let l' := lp (SCIPsdpiDelLPRows three_rows 0 0) in
  nlpcons l' = 2 /\ lpnnonz l' = 1 /\
  lpbeg l' = [1; 3; 3] /\ lpind l' = [1; 0; 1; 1] /\
  lp_rows l' <> [lp_row (lp three_rows) 1; lp_row (lp three_rows) 2].
Proof.
  vm_compute. repeat split; try reflexivity. intro H; discriminate H.
Qed.

(** ** Arrays and comparisons *)

Lemma set_nat_length (A : Type) (a : list A) n v : length (Arr.set_nat a n v) = length a.
Proof.
  revert n; induction a as [|x a IH]; intros [|n]; simpl; auto.
Qed.

Lemma set_length (A : Type) (a : list A) i v : length (Arr.set a i v) = length a.
Proof.
  unfold Arr.set; destruct (i <? 0); auto using set_nat_length.
Qed.

Lemma nth_set_nat_same (A : Type) (d : A) (a : list A) n v :
  (n < length a)%nat -> nth n (Arr.set_nat a n v) d = v.
Proof.
  revert n; induction a as [|x a IH]; intros [|n] H; simpl in *; try lia; auto.
  apply IH; lia.
Qed.

Lemma nth_set_nat_other (A : Type) (d : A) (a : list A) n m v :
  n <> m -> nth m (Arr.set_nat a n v) d = nth m a d.
Proof.
  revert n m; induction a as [|x a IH]; intros [|n] [|m] H; simpl; auto; try lia.
Qed.

Lemma get_set_same (A : Type) (d : A) (a : list A) i v :
  0 <= i < Z.of_nat (length a) -> Arr.get d (Arr.set a i v) i = v.
Proof.
  intros H; unfold Arr.get, Arr.set.
  destruct (Z.ltb_spec i 0); [lia|]. apply nth_set_nat_same; lia.
Qed.

Lemma get_set_other (A : Type) (d : A) (a : list A) i j v :
  i <> j -> Arr.get d (Arr.set a i v) j = Arr.get d a j.
Proof.
  intros H; unfold Arr.get, Arr.set.
  destruct (Z.ltb_spec j 0); auto.
  destruct (Z.ltb_spec i 0); auto.
  apply nth_set_nat_other; lia.
Qed.

Lemma Qltb_true x y : (x <? y)%Q = true <-> (x < y)%Q.
Proof.
  unfold Qltb; rewrite negb_true_iff, <- not_true_iff_false, Qle_bool_iff.
  split; [apply Qnot_le_lt | apply Qlt_not_le].
Qed.

Lemma Qltb_false x y : (x <? y)%Q = false <-> (y <= x)%Q.
Proof.
  unfold Qltb; rewrite negb_false_iff; apply Qle_bool_iff.
Qed.

Lemma Qleb_true x y : (x <=? y)%Q = true <-> (x <= y)%Q.
Proof. apply Qle_bool_iff. Qed.

Lemma Qleb_false x y : (x <=? y)%Q = false <-> (y < x)%Q.
Proof.
  unfold Qleb; rewrite <- not_true_iff_false, Qle_bool_iff.
  split; [apply Qnot_le_lt | apply Qlt_not_le].
Qed.

Lemma Qltb_spec x y : reflect (x < y)%Q (x <? y)%Q.
Proof.
  destruct (x <? y)%Q eqn:E; constructor.
  - now apply Qltb_true.
  - apply Qltb_false in E. now apply Qle_not_lt.
Qed.

Lemma Qleb_spec x y : reflect (x <= y)%Q (x <=? y)%Q.
Proof.
  destruct (x <=? y)%Q eqn:E; constructor.
  - now apply Qleb_true.
  - apply Qleb_false in E. now apply Qlt_not_le.
Qed.


(** ** Rows with a single free variable *)

Section SingletonRow.

Variables (inf eps ftol : Q) (isint : list bool) (l : LPDATA).

Lemma singleton_lb_cases (a lhs rhs : Q) :
  ((0 < a)%Q -> (- inf < lhs)%Q -> singleton_lb inf a lhs rhs = (lhs / a)%Q) /\
  ((0 < a)%Q -> (lhs <= - inf)%Q -> singleton_lb inf a lhs rhs = (- inf)%Q) /\
  ((a <= 0)%Q -> (rhs < inf)%Q -> singleton_lb inf a lhs rhs = (rhs / a)%Q) /\
  ((a <= 0)%Q -> (inf <= rhs)%Q -> singleton_lb inf a lhs rhs = (- inf)%Q).
Proof.
  unfold singleton_lb.
  destruct (Qltb_spec 0 a), (Qltb_spec (- inf) lhs), (Qltb_spec rhs inf);
    repeat split; intros; try reflexivity; exfalso; lra.
Qed.

Lemma singleton_ub_cases (a lhs rhs : Q) :
  ((0 < a)%Q -> (rhs < inf)%Q -> singleton_ub inf a lhs rhs = (rhs / a)%Q) /\
  ((0 < a)%Q -> (inf <= rhs)%Q -> singleton_ub inf a lhs rhs = inf) /\
  ((a <= 0)%Q -> (- inf < lhs)%Q -> singleton_ub inf a lhs rhs = (lhs / a)%Q) /\
  ((a <= 0)%Q -> (lhs <= - inf)%Q -> singleton_ub inf a lhs rhs = inf).
Proof.
  unfold singleton_ub.
  destruct (Qltb_spec 0 a), (Qltb_spec (- inf) lhs), (Qltb_spec rhs inf);
    repeat split; intros; try reflexivity; exfalso; lra.
Qed.

Lemma prepare_row_unfold (i : Z) (p : PassState) :
  p_returned p = false ->
  let w := init_row (p_prep p) i (p_sdpilpnnonz p) in
  let c := scan_row eps l (p_prep p) (p_sdpilpnnonz p) i in
  let lhs := row_lhs_after inf l i (sc_rowconst c) in
  let rhs := row_rhs_after inf l i (sc_rowconst c) in
  prepare_row inf eps ftol isint l i p =
    if 2 <=? sc_nrownonz c then prepare_row_many inf eps isint i p w c lhs rhs
    else if sc_nrownonz c =? 1 then prepare_row_single inf eps l i p w c lhs rhs
    else prepare_row_empty ftol p w c lhs rhs.
Proof.
  intros H; unfold prepare_row; rewrite H; reflexivity.
Qed.

(** C6 (as amended): a row that after substituting the fixed variables has
    exactly one free variable, with coefficient [a] and residual sides [lhs]
    and [rhs], is removed and turned into the candidate bounds [lhs / a] and
    [rhs / a] for [a > 0] ([rhs / a] and [lhs / a] otherwise; an infinite side
    gives the candidate minus or plus infinity); a candidate is recorded only
    if it improves the current bound by more than [epsilon], together with the
    signed row index; the pass declares the problem infeasible exactly when
    the new upper bound is below the new lower bound by more than [epsilon];
    and otherwise a fixing is reported when the bounds differ by less than
    [epsilon]. *)
Theorem singleton_row_becomes_bound (i : Z) (p : PassState) :
  let w := p_prep p in
  let c := scan_row eps l w (p_sdpilpnnonz p) i in
  let col := Arr.get 0 (lpind l) (sc_nonzind c) in
  let a := Arr.get 0%Q (lpval l) (sc_nonzind c) in
  let lhs := row_lhs_after inf l i (sc_rowconst c) in
  let rhs := row_rhs_after inf l i (sc_rowconst c) in
  p_returned p = false ->
  sc_nrownonz c = 1 ->
  0 <= i < Z.of_nat (length (sdpilpindchanges w)) ->
  0 <= col < Z.of_nat (length (sdpilb w)) ->
  0 <= col < Z.of_nat (length (sdpiub w)) ->
  0 <= col < Z.of_nat (length (sdpilbrowidx w)) ->
  0 <= col < Z.of_nat (length (sdpiubrowidx w)) ->
  singleton_effect eps i p (prepare_row inf eps ftol isint l i p) col a
    (singleton_lb inf a lhs rhs) (singleton_ub inf a lhs rhs).
Proof.
  intros w c col a lhs rhs Hret Hone Hi Hlb Hub Hlbi Hubi.
  rewrite prepare_row_unfold by assumption.
  fold w c. rewrite Hone. change (2 <=? 1) with false. change (1 =? 1) with true.
  cbv iota.
  unfold prepare_row_single, singleton_effect, init_row.
  cbn [sdpilb sdpiub sdpilbrowidx sdpiubrowidx sdpilpindchanges sdpilplhs sdpilprhs sdpilpbeg p_prep].
  fold w col a lhs rhs.
  set (candlb := singleton_lb inf a lhs rhs).
  set (candub := singleton_ub inf a lhs rhs).
  set (oldlb := Arr.get 0%Q (sdpilb w) col).
  set (oldub := Arr.get 0%Q (sdpiub w) col).
  destruct (Qltb_spec (oldlb + eps) candlb) as [Hl|Hl];
  destruct (Qltb_spec candub (oldub - eps)) as [Hu|Hu];
  rewrite ?get_set_same by assumption;
  fold oldlb oldub.
  all: match goal with
       | |- context [Qltb ?x ?y] => destruct (Qltb_spec x y) as [Hinf|Hinf]
       end;
       [| match goal with
          | |- context [Qltb (REALABS ?x) ?y] =>
              unfold REALABS; destruct (Qltb_spec (Qabs x) y) as [Hfix|Hfix]
          end ];
       cbn [p_prep p_nsdpilpcons p_sdpilpnnonz p_fixingsfound p_infeasible p_returned
            sdpilb sdpiub sdpilbrowidx sdpiubrowidx sdpilpindchanges];
       rewrite ?get_set_same by assumption; fold oldlb oldub.
  all: repeat match goal with |- _ /\ _ => split end;
       try reflexivity; try (intros; exfalso; lra); try tauto.
  all: try (intros v Hv; rewrite ?get_set_other by congruence; split; reflexivity).
  all: try (intros _; split; [reflexivity|];
            split; intros Ha;
            match goal with
            | |- context [Qltb ?x ?y] => destruct (Qltb_spec x y)
            end; try reflexivity; exfalso; lra).
  all: try (split; [discriminate | intros; exfalso; lra]).
Qed.
End SingletonRow.

(** the row [x0 + x1 >= 3] with [x1] fixed to 1 is a row with one free
    variable, and the theorem applies to it *)
Lemma singleton_row_witness :
  let inf := inject_Z (10 ^ 20) in
  let eps := 1 # 1000000000 in
  let ftol := 1 # 1000000 in
  let p := mkPassState one_row_prep 0 0 false false false in
  let c := scan_row eps one_row_lp one_row_prep 0 0 in
  singleton_effect eps 0 p (prepare_row inf eps ftol [false; false] one_row_lp 0 p)
    0 (1 # 1)
    (singleton_lb inf (1 # 1) (row_lhs_after inf one_row_lp 0 (sc_rowconst c))
       (row_rhs_after inf one_row_lp 0 (sc_rowconst c)))
    (singleton_ub inf (1 # 1) (row_lhs_after inf one_row_lp 0 (sc_rowconst c))
       (row_rhs_after inf one_row_lp 0 (sc_rowconst c))).
Proof.
  intros inf eps ftol p c.
  apply (singleton_row_becomes_bound inf eps ftol [false; false] one_row_lp 0 p);
    vm_compute; try reflexivity; split; congruence.
Defined.

(** the scenario of the specification: [x0 + x1 >= 3] with [x1] fixed to 1
    becomes the bound [x0 >= 2], obtained from the left-hand side of row 0 *)
Lemma row_with_fixed_variable_becomes_bound :
  let '(s', nnz, fixingsfound) := prepareLPData one_row in
  (Arr.get 0%Q (sdpilb (prep s')) 0 == 2 # 1)%Q /\
  (Arr.get 0%Q (sdpiub (prep s')) 0 == 10 # 1)%Q /\
  sdpilbrowidx (prep s') = [-1; 0] /\
  sdpilpindchanges (prep s') = [-1] /\
  nactivelpcons (lp s') = 0 /\ nnz = 0 /\
  fixingsfound = false /\ infeasible (status s') = false.
Proof.
  vm_compute. repeat split; reflexivity.
Qed.

(** C6 (as stated) fails: the comparison that declares infeasibility uses
    [epsilon], not [feastol].  With the default tolerances the row
    [x0 <= 5 - 1e-7] on [x0 >= 5] is declared infeasible although the upper
    bound is below the lower bound by less than [feastol]; with
    [epsilon = 1e-3] the row [x0 <= 5 - 1e-4] is not declared infeasible
    although the upper bound is below the lower bound by more than
    [feastol]. *)
Lemma singleton_row_feastol_counterexample :
  let inf := inject_Z (10 ^ 20) in
  let ftol := 1 # 1000000 in
  let p := mkPassState upper_row_prep 0 0 false false false in
  let p1 := prepare_row inf (1 # 1000000000) ftol [false]
              (upper_row_lp ((5 # 1) - (1 # 10000000))) 0 p in
  let p2 := prepare_row inf (1 # 1000) ftol [false]
              (upper_row_lp ((5 # 1) - (1 # 10000))) 0 p in
  ((Arr.get 0%Q (sdpilb (p_prep p1)) 0 - ftol <= Arr.get 0%Q (sdpiub (p_prep p1)) 0)%Q /\
   p_infeasible p1 = true) /\
  ((Arr.get 0%Q (sdpiub (p_prep p2)) 0 < Arr.get 0%Q (sdpilb (p_prep p2)) 0 - ftol)%Q /\
   p_infeasible p2 = false /\ p_fixingsfound p2 = true).
Proof.
  vm_compute. repeat split; congruence.
Qed.

(** ** Running the preprocessing pass a second time *)

Lemma for_loop_rel (S T : Type) (R : S -> T -> Prop) (f : Z -> S -> S) (g : Z -> T -> T) :
  (forall i s t, R s t -> R (f i s) (g i t)) ->
  forall n i s t, R s t -> R (Arr.for_loop n i f s) (Arr.for_loop n i g t).
Proof.
  intros H n; induction n as [|n IH]; intros i s t Hst; simpl; auto.
Qed.

Lemma set_nat_out_of_range (A : Type) (a : list A) n v :
  (length a <= n)%nat -> Arr.set_nat a n v = a.
Proof.
  revert n; induction a as [|x a IH]; intros [|n] H; simpl in *; auto; try lia.
  f_equal; apply IH; lia.
Qed.

Lemma set_out_of_range (A : Type) (a : list A) i v :
  ~ (0 <= i < Z.of_nat (length a)) -> Arr.set a i v = a.
Proof.
  intros H; unfold Arr.set. destruct (Z.ltb_spec i 0); auto.
  apply set_nat_out_of_range; lia.
Qed.

Section SecondPass.

Variables (inf eps ftol : Q) (isint : list bool) (l : LPDATA).
Hypothesis eps_nonneg : (0 <= eps)%Q.

Local Abbreviation row := (prepare_row inf eps ftol isint l).
Local Abbreviation fixed := (fixed_in eps).

(** the scan of a row *)

Lemma scan_row_free w nnz i :
  let c := scan_row eps l w nnz i in
  0 <= sc_nrownonz c /\
  (0 < sc_nrownonz c -> fixed w (Arr.get 0 (lpind l) (sc_nonzind c)) = false).
Proof.
  unfold scan_row.
  apply for_range_invariant with
    (P := fun c => 0 <= sc_nrownonz c /\
       (0 < sc_nrownonz c -> fixed w (Arr.get 0 (lpind l) (sc_nonzind c)) = false)).
  - intros j c [H1 H2]. unfold scan_step.
    destruct (isFixed_in eps (sdpilb w) (sdpiub w) (Arr.get 0 (lpind l) j)) eqn:E; cbn.
    + split; assumption.
    + split; [lia | intros _; exact E].
  - cbn. split; [lia | lia].
Qed.

Lemma scan_row_agree w w' nnz nnz' i :
  (forall v, fixed w v = fixed w' v) ->
  (forall v, fixed w v = true -> Arr.get 0%Q (sdpilb w) v = Arr.get 0%Q (sdpilb w') v) ->
  scan_agree (scan_row eps l w nnz i) (scan_row eps l w' nnz' i).
Proof.
  intros Hf Hv. unfold scan_row, Arr.for_range.
  apply for_loop_rel with (R := scan_agree).
  - intros j c c' (H1 & H2 & H3). unfold scan_step.
    specialize (Hf (Arr.get 0 (lpind l) j)). specialize (Hv (Arr.get 0 (lpind l) j)).
    unfold fixed_in in Hf, Hv. rewrite <- Hf.
    destruct (isFixed_in eps (sdpilb w) (sdpiub w) (Arr.get 0 (lpind l) j)); cbn;
      unfold scan_agree; cbn.
    + rewrite H1, H2, H3, Hv by reflexivity. auto.
    + rewrite H1. auto.
  - unfold scan_agree; cbn; auto.
Qed.

(** one row only tightens bounds of free variables *)

Lemma get_set_cases (A : Type) (d : A) (a : list A) i j v :
  Arr.get d (Arr.set a i v) j = v /\ i = j \/
  Arr.get d (Arr.set a i v) j = Arr.get d a j.
Proof.
  destruct (Z.eq_dec i j) as [->|Hne].
  - destruct (Z_lt_dec j 0); [right; now rewrite set_out_of_range by lia|].
    destruct (Z_lt_dec j (Z.of_nat (length a))).
    + left; split; [apply get_set_same; lia | reflexivity].
    + right; now rewrite set_out_of_range by lia.
  - right; now apply get_set_other.
Qed.

Lemma pass_le_refl p : pass_le eps p p.
Proof.
  unfold pass_le, bounds_le, frozen; repeat split; auto; try apply Qle_refl.
Qed.

Lemma fixed_mono w w' v : bounds_le w w' -> fixed w v = true -> fixed w' v = true.
Proof.
  unfold fixed_in, isFixed_in; intros H. specialize (H v). rewrite !Qleb_true. lra.
Qed.

Lemma pass_le_trans p q r : pass_le eps p q -> pass_le eps q r -> pass_le eps p r.
Proof.
  intros ([L1 L1'] & B1 & F1 & I1 & X1 & R1) ([L2 L2'] & B2 & F2 & I2 & X2 & R2).
  unfold pass_le; repeat split.
  - congruence.
  - congruence.
  - destruct (B1 v), (B2 v); lra.
  - destruct (B1 v), (B2 v); lra.
  - destruct (F1 v H) as [<- _]. apply F2. eapply fixed_mono; eauto.
  - destruct (F1 v H) as [_ <-]. apply F2. eapply fixed_mono; eauto.
  - auto.
  - auto.
  - intros H. destruct (R2 H) as [H'|H']; auto. destruct (R1 H'); auto.
Qed.

Lemma row_unfold (i : Z) (p : PassState) :
  p_returned p = false ->
  let w := init_row (p_prep p) i (p_sdpilpnnonz p) in
  let c := scan_row eps l (p_prep p) (p_sdpilpnnonz p) i in
  let lhs := row_lhs_after inf l i (sc_rowconst c) in
  let rhs := row_rhs_after inf l i (sc_rowconst c) in
  row i p =
    if 2 <=? sc_nrownonz c then prepare_row_many inf eps isint i p w c lhs rhs
    else if sc_nrownonz c =? 1 then prepare_row_single inf eps l i p w c lhs rhs
    else prepare_row_empty ftol p w c lhs rhs.
Proof.
  intros H; unfold row, prepare_row; rewrite H; reflexivity.
Qed.

Lemma row_returned i p : p_returned p = true -> row i p = p.
Proof. intros H; unfold row, prepare_row; rewrite H; reflexivity. Qed.

Lemma prepare_row_le i p : pass_le eps p (row i p).
Proof.
  destruct (p_returned p) eqn:Hret.
  - rewrite row_returned by assumption. apply pass_le_refl.
  - rewrite row_unfold by assumption. cbv zeta.
    set (c := scan_row eps l (p_prep p) (p_sdpilpnnonz p) i).
    destruct (2 <=? sc_nrownonz c) eqn:E2; [|destruct (sc_nrownonz c =? 1) eqn:E1].
    + unfold prepare_row_many.
      destruct (negb _ || negb _); unfold pass_le, bounds_le, frozen; cbn;
        repeat split; auto; try apply Qle_refl; discriminate.
    + (* a single free variable *)
      pose proof (scan_row_free (p_prep p) (p_sdpilpnnonz p) i) as [_ Hfree].
      fold c in Hfree. apply Z.eqb_eq in E1. rewrite E1 in Hfree.
      specialize (Hfree ltac:(lia)).
      unfold prepare_row_single.
      set (col := Arr.get 0 (lpind l) (sc_nonzind c)) in *.
      set (a := Arr.get 0%Q (lpval l) (sc_nonzind c)).
      set (lb' := singleton_lb inf a _ _). set (ub' := singleton_ub inf a _ _).
      cbn [init_row sdpilb sdpiub sdpilbrowidx sdpiubrowidx sdpilpindchanges sdpilplhs
           sdpilprhs sdpilpbeg].
      set (lbs := if (_ <? lb')%Q then _ else _).
      set (ubs := if (ub' <? _)%Q then _ else _).
      assert (Hlbs : forall v,
        (Arr.get 0%Q (sdpilb (p_prep p)) v <= Arr.get 0%Q lbs v)%Q /\
        (v <> col -> Arr.get 0%Q lbs v = Arr.get 0%Q (sdpilb (p_prep p)) v)).
      { intros v; subst lbs.
        destruct (Qltb_spec (Arr.get 0%Q (sdpilb (p_prep p)) col + eps) lb') as [Hl|Hl].
        - split.
          + destruct (get_set_cases Q 0%Q (sdpilb (p_prep p)) col v lb') as [[-> <-] | ->]; lra.
          + intros Hv; apply get_set_other; congruence.
        - split; [apply Qle_refl | reflexivity]. }
      assert (Hubs : forall v,
        (Arr.get 0%Q ubs v <= Arr.get 0%Q (sdpiub (p_prep p)) v)%Q /\
        (v <> col -> Arr.get 0%Q ubs v = Arr.get 0%Q (sdpiub (p_prep p)) v)).
      { intros v; subst ubs.
        destruct (Qltb_spec ub' (Arr.get 0%Q (sdpiub (p_prep p)) col - eps)) as [Hl|Hl].
        - split.
          + destruct (get_set_cases Q 0%Q (sdpiub (p_prep p)) col v ub') as [[-> <-] | ->]; lra.
          + intros Hv; apply get_set_other; congruence.
        - split; [apply Qle_refl | reflexivity]. }
      assert (Hlen : length lbs = length (sdpilb (p_prep p)) /\
                     length ubs = length (sdpiub (p_prep p))).
      { subst lbs ubs; split; match goal with |- context [if ?b then _ else _] =>
          destruct b end; rewrite ?set_length; reflexivity. }
      assert (Hle : forall f i1 r : bool, forall ix jx,
        pass_le eps p (mkPassState
           (mkPREP (Arr.set (sdpilpindchanges (p_prep p)) i (-1))
              (Arr.set (sdpilplhs (p_prep p)) i SCIP_INVALID)
              (Arr.set (sdpilprhs (p_prep p)) i SCIP_INVALID) lbs ubs ix jx
              (Arr.set (sdpilpbeg (p_prep p)) i (p_sdpilpnnonz p)) (sc_ind c) (sc_val c))
           (p_nsdpilpcons p) (p_sdpilpnnonz p) (f || p_fixingsfound p)
           (i1 || p_infeasible p) (r && (i1 || p_infeasible p)))).
      { intros f i1 r ix jx. unfold pass_le, bounds_le, frozen; cbn. repeat split.
        - apply Hlen. - apply Hlen.
        - apply Hlbs. - apply Hubs.
        - apply Hlbs. intros ->. unfold fixed_in in *; congruence.
        - apply Hubs. intros ->. unfold fixed_in in *; congruence.
        - intros ->; apply orb_true_r.
        - intros ->; apply orb_true_r.
        - intros H; apply andb_true_iff in H; tauto. }
      clearbody lbs ubs.
      set (ix := if (_ <? lb')%Q then _ else _).
      set (jx := if (ub' <? _)%Q then _ else _).
      clearbody ix jx.
      destruct (Arr.get 0%Q ubs col <? Arr.get 0%Q lbs col - eps)%Q;
        [|destruct (REALABS (Arr.get 0%Q lbs col - Arr.get 0%Q ubs col) <? eps)%Q].
      * apply (Hle false true true).
      * apply (Hle true false false).
      * apply (Hle false false false).
    + unfold prepare_row_empty.
      destruct (_ || _); unfold pass_le, bounds_le, frozen; cbn;
        repeat split; auto; try apply Qle_refl; discriminate.
Qed.

Lemma loop_le n i p : pass_le eps p (Arr.for_loop n i row p).
Proof.
  revert i p; induction n as [|n IH]; intros i p; simpl.
  - apply pass_le_refl.
  - eapply pass_le_trans; [apply prepare_row_le | apply IH].
Qed.

(** after a row with one free variable the candidates are within [eps] of
    the bounds of its column (or the column lies outside the arrays) *)
Lemma row_single_cand i s :
  p_returned s = false ->
  let c := scan_row eps l (p_prep s) (p_sdpilpnnonz s) i in
  sc_nrownonz c = 1 ->
  let col := Arr.get 0 (lpind l) (sc_nonzind c) in
  let a := Arr.get 0%Q (lpval l) (sc_nonzind c) in
  let lhs := row_lhs_after inf l i (sc_rowconst c) in
  let rhs := row_rhs_after inf l i (sc_rowconst c) in
  ((singleton_lb inf a lhs rhs <= Arr.get 0%Q (sdpilb (p_prep (row i s))) col + eps)%Q \/
   ~ 0 <= col < Z.of_nat (length (sdpilb (p_prep s)))) /\
  ((Arr.get 0%Q (sdpiub (p_prep (row i s))) col - eps <= singleton_ub inf a lhs rhs)%Q \/
   ~ 0 <= col < Z.of_nat (length (sdpiub (p_prep s)))).
Proof.
  intros Hs c Hone col a lhs rhs.
  rewrite row_unfold by assumption. cbv zeta. fold c. rewrite Hone.
  change (2 <=? 1) with false. change (1 =? 1) with true. cbv iota.
  unfold prepare_row_single. fold col a lhs rhs.
  set (lb' := singleton_lb inf a lhs rhs). set (ub' := singleton_ub inf a lhs rhs).
  cbn [init_row sdpilb sdpiub sdpilbrowidx sdpiubrowidx sdpilpindchanges sdpilplhs
       sdpilprhs sdpilpbeg].
  set (lbs := if (_ <? lb')%Q then _ else _).
  set (ubs := if (ub' <? _)%Q then _ else _).
  assert (Hl : (lb' <= Arr.get 0%Q lbs col + eps)%Q \/
               ~ 0 <= col < Z.of_nat (length (sdpilb (p_prep s)))).
  { subst lbs.
    destruct (Qltb_spec (Arr.get 0%Q (sdpilb (p_prep s)) col + eps) lb'); [|left; lra].
    destruct (Z_lt_dec col 0); [right; lia|].
    destruct (Z_lt_dec col (Z.of_nat (length (sdpilb (p_prep s))))); [|right; lia].
    left. rewrite get_set_same by lia. lra. }
  assert (Hu : (Arr.get 0%Q ubs col - eps <= ub')%Q \/
               ~ 0 <= col < Z.of_nat (length (sdpiub (p_prep s)))).
  { subst ubs.
    destruct (Qltb_spec ub' (Arr.get 0%Q (sdpiub (p_prep s)) col - eps)); [|left; lra].
    destruct (Z_lt_dec col 0); [right; lia|].
    destruct (Z_lt_dec col (Z.of_nat (length (sdpiub (p_prep s))))); [|right; lia].
    left. rewrite get_set_same by lia. lra. }
  clearbody lbs ubs.
  set (ix := if (_ <? lb')%Q then _ else _).
  set (jx := if (ub' <? _)%Q then _ else _).
  clearbody ix jx.
  destruct (Arr.get 0%Q ubs col <? Arr.get 0%Q lbs col - eps)%Q;
    [|destruct (REALABS (Arr.get 0%Q lbs col - Arr.get 0%Q ubs col) <? eps)%Q];
    cbn; auto.
Qed.

(** a row without free variables that violates its sides ends the pass *)
Lemma row_empty_infeasible i s :
  p_returned s = false ->
  let c := scan_row eps l (p_prep s) (p_sdpilpnnonz s) i in
  (2 <=? sc_nrownonz c) = false -> (sc_nrownonz c =? 1) = false ->
  (ftol <? row_lhs_after inf l i (sc_rowconst c))%Q
    || (row_rhs_after inf l i (sc_rowconst c) <? - ftol)%Q = true ->
  p_infeasible (row i s) = true.
Proof.
  intros Hs c E2 E1 H. rewrite row_unfold by assumption. cbv zeta. fold c.
  rewrite E2, E1. unfold prepare_row_empty. rewrite H. reflexivity.
Qed.

(** a row of the second pass, run on the final bounds of the first *)
Lemma second_row i s t sn :
  p_returned s = false -> p_returned t = false ->
  pass_le eps (row i s) sn ->
  p_infeasible sn = false ->
  (forall v, fixed (p_prep s) v = fixed (p_prep sn) v) ->
  sdpilb (p_prep t) = sdpilb (p_prep sn) ->
  sdpiub (p_prep t) = sdpiub (p_prep sn) ->
  sdpilb (p_prep (row i t)) = sdpilb (p_prep t) /\
  sdpiub (p_prep (row i t)) = sdpiub (p_prep t) /\
  p_infeasible (row i t) = p_infeasible t /\
  p_fixingsfound (row i t) = p_fixingsfound t /\
  p_returned (row i t) = false.
Proof.
  intros Hs Ht Hle Hinf Hfix Hlb Hub.
  pose proof (prepare_row_le i s) as Hs1.
  pose proof (pass_le_trans _ _ _ Hs1 Hle) as Hsn.
  assert (Hagree : scan_agree (scan_row eps l (p_prep s) (p_sdpilpnnonz s) i)
                              (scan_row eps l (p_prep t) (p_sdpilpnnonz t) i)).
  { apply scan_row_agree.
    - intros v. rewrite Hfix. unfold fixed_in. now rewrite Hlb, Hub.
    - intros v Hv. rewrite Hlb. destruct Hsn as (_ & _ & F & _).
      symmetry; apply (F v Hv). }
  destruct Hagree as (An & Ai & Ac).
  pose proof (row_single_cand i s Hs) as Hcand.
  pose proof (row_empty_infeasible i s Hs) as Hempty.
  pose proof (scan_row_free (p_prep s) (p_sdpilpnnonz s) i) as [_ Hfree].
  rewrite row_unfold by assumption.
  cbv zeta in *.
  set (cs := scan_row eps l (p_prep s) (p_sdpilpnnonz s) i) in *.
  set (ct := scan_row eps l (p_prep t) (p_sdpilpnnonz t) i) in *.
  rewrite <- An, <- Ac.
  destruct (2 <=? sc_nrownonz cs) eqn:E2; [|destruct (sc_nrownonz cs =? 1) eqn:E1].
  - unfold prepare_row_many. destruct (negb _ || negb _); cbn; auto.
  - (* a single free variable *)
    apply Z.eqb_eq in E1. rewrite E1 in Hfree.
    specialize (Hfree ltac:(lia)). specialize (Hcand E1).
    unfold prepare_row_single. rewrite <- Ai.
    set (col := Arr.get 0 (lpind l) (sc_nonzind cs)) in *.
    set (a := Arr.get 0%Q (lpval l) (sc_nonzind cs)) in *.
    set (lb' := singleton_lb inf a _ _) in *. set (ub' := singleton_ub inf a _ _) in *.
    cbn [init_row sdpilb sdpiub sdpilbrowidx sdpiubrowidx sdpilpindchanges sdpilplhs
         sdpilprhs sdpilpbeg].
    (* the free variable is still free at the end of the first pass *)
    assert (Hgap : (eps < Arr.get 0%Q (sdpiub (p_prep sn)) col
                         - Arr.get 0%Q (sdpilb (p_prep sn)) col)%Q).
    { rewrite Hfix in Hfree. unfold fixed_in, isFixed_in in Hfree.
      now apply Qleb_false in Hfree. }
    destruct Hle as ([Ll Lu] & Ble & _). destruct (Ble col) as [Bl Bu].
    destruct Hs1 as ([Ll1 Lu1] & _).
    destruct Hcand as [Hcl Hcu].
    (* the candidates were already taken into account *)
    assert (Hlbs : (if (Arr.get 0%Q (sdpilb (p_prep t)) col + eps <? lb')%Q
                    then Arr.set (sdpilb (p_prep t)) col lb' else sdpilb (p_prep t))
                   = sdpilb (p_prep t)).
    { destruct (Qltb_spec (Arr.get 0%Q (sdpilb (p_prep t)) col + eps) lb') as [Hl|Hl]; auto.
      rewrite Hlb in Hl |- *.
      destruct Hcl as [Hcl|Hcl]; [exfalso; lra|].
      apply set_out_of_range. rewrite Ll, Ll1. exact Hcl. }
    assert (Hubs : (if (ub' <? Arr.get 0%Q (sdpiub (p_prep t)) col - eps)%Q
                    then Arr.set (sdpiub (p_prep t)) col ub' else sdpiub (p_prep t))
                   = sdpiub (p_prep t)).
    { destruct (Qltb_spec ub' (Arr.get 0%Q (sdpiub (p_prep t)) col - eps)) as [Hl|Hl]; auto.
      rewrite Hub in Hl |- *.
      destruct Hcu as [Hcu|Hcu]; [exfalso; lra|].
      apply set_out_of_range. rewrite Lu, Lu1. exact Hcu. }
    rewrite Hlbs, Hubs.
    set (ix := if (_ <? lb')%Q then _ else _).
    set (jx := if (ub' <? _)%Q then _ else _).
    clearbody ix jx.
    rewrite Hlb, Hub.
    destruct (Qltb_spec (Arr.get 0%Q (sdpiub (p_prep sn)) col)
                (Arr.get 0%Q (sdpilb (p_prep sn)) col - eps)) as [H1|H1];
      [exfalso; lra|].
    unfold REALABS.
    destruct (Qltb_spec (Qabs (Arr.get 0%Q (sdpilb (p_prep sn)) col
                               - Arr.get 0%Q (sdpiub (p_prep sn)) col)) eps) as [H2|H2].
    + exfalso. apply Qabs_Qlt_condition in H2. lra.
    + cbn. auto.
  - (* no free variable *)
    unfold prepare_row_empty.
    destruct ((ftol <? _)%Q || (_ <? - ftol)%Q) eqn:E.
    + exfalso. specialize (Hempty eq_refl eq_refl eq_refl).
      destruct Hle as (_ & _ & _ & I & _). rewrite (I Hempty) in Hinf. discriminate.
    + cbn. auto.
Qed.

(** the remaining rows of the second pass change neither bounds nor flags *)
Lemma second_pass_rows n : forall i s t,
  let sn := Arr.for_loop n i row s in
  p_returned s = false -> p_returned t = false ->
  p_infeasible sn = false ->
  (forall v, fixed (p_prep s) v = fixed (p_prep sn) v) ->
  sdpilb (p_prep t) = sdpilb (p_prep sn) ->
  sdpiub (p_prep t) = sdpiub (p_prep sn) ->
  let tn := Arr.for_loop n i row t in
  sdpilb (p_prep tn) = sdpilb (p_prep sn) /\
  sdpiub (p_prep tn) = sdpiub (p_prep sn) /\
  p_infeasible tn = p_infeasible t /\
  p_fixingsfound tn = p_fixingsfound t.
Proof.
  induction n as [|n IH]; intros i s t sn Hs Ht Hinf Hfix Hlb Hub tn.
  - subst sn tn; simpl in *. auto.
  - subst sn tn; simpl in *.
    set (s1 := row i s) in *. set (sn := Arr.for_loop n (i + 1) row s1) in *.
    pose proof (loop_le n (i + 1) s1) as Hle. fold sn in Hle.
    pose proof (prepare_row_le i s) as Hs1. fold s1 in Hs1.
    destruct (second_row i s t sn Hs Ht Hle Hinf Hfix Hlb Hub)
      as (Tl & Tu & Ti & Tf & Tr).
    assert (Hs1r : p_returned s1 = false).
    { destruct (p_returned s1) eqn:E; auto.
      destruct Hs1 as (_ & _ & _ & _ & _ & R). destruct (R E) as [R'|R']; [congruence|].
      destruct Hle as (_ & _ & _ & I & _). rewrite (I R') in Hinf. discriminate. }
    assert (Hfix1 : forall v, fixed (p_prep s1) v = fixed (p_prep sn) v).
    { intros v. destruct (fixed (p_prep s1) v) eqn:E1.
      - symmetry. destruct Hle as (_ & B & _). eapply fixed_mono; eauto.
      - rewrite <- Hfix. destruct (fixed (p_prep s) v) eqn:E0; auto.
        destruct Hs1 as (_ & B & _). rewrite (fixed_mono _ _ _ B E0) in E1. discriminate. }
    destruct (IH (i + 1) s1 (row i t) Hs1r Tr Hinf Hfix1) as (Rl & Ru & Ri & Rf).
    + fold sn. congruence.
    + fold sn. congruence.
    + fold sn in Rl, Ru. repeat split; congruence.
Qed.

End SecondPass.

Lemma get_out_of_range (A : Type) (d : A) (a : list A) i :
  ~ (0 <= i < Z.of_nat (length a)) -> Arr.get d a i = d.
Proof.
  intros H; unfold Arr.get. destruct (Z.ltb_spec i 0); auto.
  apply nth_overflow; lia.
Qed.

(** C7 (as amended): if one run of [prepareLPData] reports no fixing and no
    infeasibility and leaves every variable as fixed or free as it was, a
    second run on the resulting bounds leaves the tightened bounds as they
    are and again reports no fixing and no infeasibility.  (The row
    index-change map and the compacted rows may differ, see the
    counterexample.) *)
Theorem prepareLPData_twice_keeps_bounds (B : SDPISOLVER) (s : SCIP_SDPI B) :
  let r1 := prepareLPData s in
  let s1 := fst (fst r1) in
  let r2 := prepareLPData s1 in
  let s2 := fst (fst r2) in
  (0 <= epsilon (par s))%Q ->
  infeasible (status s) = false ->
  snd r1 = false ->
  infeasible (status s1) = false ->
  (forall v, isFixed s1 v = isFixed s v) ->
  sdpilb (prep s2) = sdpilb (prep s1) /\
  sdpiub (prep s2) = sdpiub (prep s1) /\
  snd r2 = false /\
  infeasible (status s2) = false.
Proof.
  intros r1 s1 r2 s2 Heps Hinf0 Hfix1 Hinf1 Hfixed.
  subst r1 s1 r2 s2. unfold prepareLPData in *. cbn in *.
  unfold isFixed in Hfixed; cbn in Hfixed.
  rewrite Hinf0 in *.
  set (inf := SCIPsdpiSolverInfinity B (sdpisolver s)) in *.
  set (eps := epsilon (par s)) in *. set (ftol := feastol (par s)) in *.
  set (l := lp s) in *. set (nv := nvars (vars s)) in *.
  set (isint := isintegral (vars s)) in *.
  set (p1 := prepare_pass inf eps ftol isint l nv (prep s) false) in *.
  rewrite Hinf1.
  assert (Hpass : forall l',
    nlpcons l' = nlpcons l -> lpnnonz l' = lpnnonz l -> lplhs l' = lplhs l ->
    lprhs l' = lprhs l -> lpbeg l' = lpbeg l -> lpind l' = lpind l -> lpval l' = lpval l ->
    prepare_pass inf eps ftol isint l' nv (p_prep p1) false =
    prepare_pass inf eps ftol isint l nv (p_prep p1) false).
  { intros l' E1 E2 E3 E4 E5 E6 E7. destruct l', l; cbn in *; subst.
    reflexivity. }
  rewrite Hpass by reflexivity. clear Hpass.
  set (p2 := prepare_pass inf eps ftol isint l nv (p_prep p1) false).
  subst p1 p2. unfold prepare_pass in *.
  destruct ((nlpcons l =? 0) || (lpnnonz l =? 0)); cbn in *; [auto|].
  unfold Arr.for_range in *.
  set (s0 := mkPassState _ 0 0 false false false) in Hfix1, Hinf1, Hfixed |- *.
  set (sn := Arr.for_loop (Z.to_nat (nlpcons l - 0)) 0 (prepare_row inf eps ftol isint l) s0)
    in *.
  pose proof (second_pass_rows inf eps ftol isint l Heps (Z.to_nat (nlpcons l - 0)) 0 s0
    (mkPassState
       (mkPREP (sdpilpindchanges (p_prep sn)) (sdpilplhs (p_prep sn)) (sdpilprhs (p_prep sn))
          (sdpilb (p_prep sn)) (sdpiub (p_prep sn))
          (Arr.for_loop (Z.to_nat (nv - 0)) 0 (fun i a => Arr.set a i 0)
             (sdpilbrowidx (p_prep sn)))
          (Arr.for_loop (Z.to_nat (nv - 0)) 0 (fun i a => Arr.set a i 0)
             (sdpiubrowidx (p_prep sn)))
          (sdpilpbeg (p_prep sn)) (sdpilpind (p_prep sn)) (sdpilpval (p_prep sn)))
       0 0 false false false)) as H.
  cbv zeta in H. fold sn in H.
  destruct H as (Hl & Hu & Hi & Hf); auto.
  intros v. symmetry. apply Hfixed.
Qed.

(** the theorem applies to the row [x0 + x1 >= 3] with [x1] fixed to 1 *)
Lemma prepareLPData_twice_witness :
  let s1 := fst (fst (prepareLPData one_row)) in
  let r2 := prepareLPData s1 in
  sdpilb (prep (fst (fst r2))) = sdpilb (prep s1) /\
  sdpiub (prep (fst (fst r2))) = sdpiub (prep s1) /\
  snd r2 = false /\
  infeasible (status (fst (fst r2))) = false.
Proof.
  apply (prepareLPData_twice_keeps_bounds failing_backend one_row).
  - vm_compute; discriminate.
  - reflexivity.
  - reflexivity.
  - reflexivity.
  - intros v. unfold isFixed, isFixed_in.
    destruct (Z.eq_dec v 0) as [->|H0]; [reflexivity|].
    destruct (Z.eq_dec v 1) as [->|H1]; [reflexivity|].
    rewrite !get_out_of_range; [reflexivity| | | |];
      match goal with
      | |- context [length ?a] =>
          let n := eval vm_compute in (length a) in change (length a) with n
      end; lia.
Defined.

(** C7 (as stated) fails: the row [x0 + x1 <= 5] is kept by the first run
    and found redundant by the second one, which sees the bounds [x0 <= 2]
    and [x1 <= 2] of the later rows; the index-change maps differ. *)
Lemma prepareLPData_twice_counterexample :
  let r1 := prepareLPData redundant_row in
  let s1 := fst (fst r1) in
  let r2 := prepareLPData s1 in
  let s2 := fst (fst r2) in
  snd r1 = false /\ infeasible (status s1) = false /\
  sdpilpindchanges (prep s1) = [0; -1; -1] /\
  sdpilpindchanges (prep s2) = [-1; -1; -1] /\
  nactivelpcons (lp s1) = 1 /\ nactivelpcons (lp s2) = 0 /\
  ~ (sdpilb (prep s2) = sdpilb (prep s1) /\
     sdpiub (prep s2) = sdpiub (prep s1) /\
     sdpilpindchanges (prep s2) = sdpilpindchanges (prep s1) /\
     snd r2 = false).
Proof.
  vm_compute. repeat split; try reflexivity.
  intros (_ & _ & H & _). discriminate H.
Qed.

(** a run that narrows a variable to a range of width exactly [epsilon]
    reports no fixing, but the next run treats the variable as fixed and
    tightens further: the bounds of the two runs differ *)
Lemma prepareLPData_after_silent_fixing :
  let r1 := prepareLPData silent_fixing in
  let s1 := fst (fst r1) in
  let s2 := fst (fst (prepareLPData s1)) in
  snd r1 = false /\ infeasible (status s1) = false /\
  isFixed silent_fixing 0 = false /\ isFixed s1 0 = true /\
  sdpiub (prep s1) = [1 # 1000000000; 10 # 1] /\
  sdpiub (prep s2) <> sdpiub (prep s1).
Proof.
  vm_compute. repeat split; try reflexivity. intros H; discriminate H.
Qed.

(** ** The problem identifier across a solve *)

Section SolveFacts.
Variable B : SDPISOLVER.
Implicit Type s : SCIP_SDPI B.

Lemma same_id_refl s : same_id s s.
Proof. unfold same_id; auto. Qed.

Lemma same_id_trans s1 s2 s3 : same_id s1 s2 -> same_id s2 s3 -> same_id s1 s3.
Proof. unfold same_id; intuition congruence. Qed.

Lemma copy_bounds_same_id s : same_id s (copy_bounds s).
Proof.
  unfold copy_bounds.
  apply for_range_invariant with (P := same_id s); [|apply same_id_refl].
  intros v s0 H. destruct (infeasible (status s0)); auto.
  destruct (_ <? _)%Q; exact H.
Qed.

Lemma prepareLPData_same_id s : same_id s (fst (fst (prepareLPData s))).
Proof. unfold prepareLPData, same_id; cbn; auto. Qed.

Lemma prepare_loop_same_id fuel : forall s s' nnz,
  prepare_loop fuel s = Some (s', nnz) -> same_id s s'.
Proof.
  induction fuel as [|fuel IH]; intros s s' nnz H; cbn [prepare_loop] in H; [discriminate|].
  pose proof (prepareLPData_same_id s) as H1.
  destruct (prepareLPData s) as [[s1 n1] f1]; cbn [fst snd] in *.
  destruct (f1 && negb (infeasible (status s1))).
  - eapply same_id_trans; [exact H1 | eapply IH; exact H].
  - injection H as <- <-. exact H1.
Qed.

Lemma checkFixedFeasibilitySdp_sdpid s :
  sdpid (stats (checkFixedFeasibilitySdp s)) = sdpid (stats s) /\
  allfixed (status (checkFixedFeasibilitySdp s)) = allfixed (status s) /\
  sdpisolver (checkFixedFeasibilitySdp s) = sdpisolver s.
Proof.
  unfold checkFixedFeasibilitySdp.
  destruct (_ <? 0); [auto|]. destruct (some_block_infeasible _ _); cbn; auto.
Qed.

Lemma solve_onevar_sdpid s mats idx contr :
  sdpid (stats (solve_onevar s mats idx contr)) = sdpid (stats s) /\
  allfixed (status (solve_onevar s mats idx contr)) = allfixed (status s) /\
  infeasible (status (solve_onevar s mats idx contr)) = infeasible (status s) /\
  penalty (status (solve_onevar s mats idx contr)) = penalty (status s).
Proof.
  unfold solve_onevar. destruct (blocks s) as [|b bs].
  - destruct (_ && _); [|auto]. destruct (_ <=? _)%Q; cbn; auto.
  - destruct (SCIPsolveOneVarSDP _ _ _ _ _ _ _ _ _) as [[objval optval] certval].
    destruct (negb _); [|cbn; auto]. destruct (SCIPsdpiIsInfinity _ _); cbn; auto.
Qed.

Lemma checkSlaterCondition_sdpid s input :
  sdpid (stats (checkSlaterCondition s input)) = sdpid (stats s) /\
  allfixed (status (checkSlaterCondition s input)) = allfixed (status s) /\
  infeasible (status (checkSlaterCondition s input)) = infeasible (status s) /\
  penalty (status (checkSlaterCondition s input)) = penalty (status s) /\
  solved (status (checkSlaterCondition s input)) = solved (status s) /\
  par (checkSlaterCondition s input) = par s.
Proof.
  unfold checkSlaterCondition.
  destruct (checkSlaterSolves _ _ _) as [[sv p] d]; cbn; auto 10.
Qed.

Lemma penalty_step_keeps input fact gfact (st : PenaltyState B) :
  loop_keeps (pl_sdpi st) (pl_sdpi (penalty_step input fact gfact st)).
Proof.
  unfold penalty_step.
  destruct (SCIPsdpiSolverLoadAndSolveWithPenalty _ _ _ _ _ _) as [[sv fo] pb].
  destruct (negb (SCIPsdpiSolverIsAcceptable B sv)); [unfold loop_keeps; cbn; auto 10|].
  set (s2 := if (_ <? _)%Q then _ else _).
  assert (H : loop_keeps (pl_sdpi st) s2).
  { subst s2; destruct (_ <? _)%Q; unfold loop_keeps; cbn; auto 10. }
  clearbody s2.
  destruct (negb fo); [destruct pb|]; cbn; auto.
Qed.

Lemma penalty_loop_keeps input fact gfact fuel : forall st st' : PenaltyState B,
  penalty_loop input fact gfact fuel st = Some st' ->
  loop_keeps (pl_sdpi st) (pl_sdpi st').
Proof.
  induction fuel as [|fuel IH]; intros st st' H; simpl in H.
  - destruct (penalty_continue st); [discriminate|]. injection H as <-.
    unfold loop_keeps; auto 10.
  - destruct (penalty_continue st).
    + apply IH in H. pose proof (penalty_step_keeps input fact gfact st) as H1.
      unfold loop_keeps in *. intuition congruence.
    + injection H as <-. unfold loop_keeps; auto 10.
Qed.

Lemma solve_with_backend_sdpid fuel s mats nnz esc tl s' :
  solve_with_backend fuel s mats nnz esc tl = Some s' ->
  sdpid (stats s') = sdpid (stats s) /\
  allfixed (status s') = allfixed (status s) /\
  (infeasible (status s') = true -> infeasible (status s) = true \/ penalty (status s') = true).
Proof.
  unfold solve_with_backend.
  set (input := solver_input s mats nnz tl).
  set (s1 := if negb (slatercheck (par s) =? 0) then _ else s).
  assert (H1 : loop_keeps s s1).
  { subst s1. destruct (negb _); unfold loop_keeps; [|auto 10].
    pose proof (checkSlaterCondition_sdpid s input). intuition. }
  clearbody s1.
  set (sv := SCIPsdpiSolverLoadAndSolve B (sdpisolver s1) input).
  destruct (negb (SCIPsdpiSolverIsAcceptable B sv) && negb (SCIPsdpiSolverIsTimelimExc B sv)).
  - destruct (SCIPsdpiSolverLoadAndSolveWithPenalty B sv 1 false false input) as [[sv3 fo] pb].
    set (s3 := with_stats _ (with_solver _ _)).
    destruct (_ || _).
    + intros H; injection H as <-. unfold loop_keeps in H1. cbn. intuition congruence.
    + destruct (penalty_loop _ _ _ _ _) as [st|] eqn:E; [|discriminate].
      intros H; injection H as <-.
      apply penalty_loop_keeps in E. cbn [pl_sdpi] in E.
      set (s4 := pl_sdpi st) in *.
      set (s5 := if (_ <? _)%Q then _ else s4).
      assert (H5 : loop_keeps s4 s5).
      { subst s5; destruct (_ <? _)%Q; unfold loop_keeps; cbn; auto 10. }
      clearbody s5.
      set (s6 := if _ && pl_feasorig st then _ else _).
      assert (H6 : sdpid (stats s6) = sdpid (stats s5) /\
                   allfixed (status s6) = allfixed (status s5) /\
                   infeasible (status s6) = infeasible (status s5) /\
                   penalty (status s6) = true).
      { subst s6; destruct (_ && _); cbn; auto. }
      clearbody s6.
      set (s7 := if _ && esc then _ else s6).
      assert (H7 : sdpid (stats s7) = sdpid (stats s6) /\
                   allfixed (status s7) = allfixed (status s6) /\
                   infeasible (status s7) = infeasible (status s6) /\
                   penalty (status s7) = penalty (status s6)).
      { subst s7; destruct (_ && _); [|auto].
        pose proof (checkSlaterCondition_sdpid s6 input). intuition. }
      clearbody s7.
      unfold loop_keeps in *. subst s3. cbn in E.
      intuition congruence.
  - intros H; injection H as <-. unfold loop_keeps in H1. cbn. intuition congruence.
Qed.


Lemma solve_after_preprocessing_sdpid fuel s nnz esc tl s' :
  solve_after_preprocessing fuel s nnz esc tl = Some s' ->
  (allfixed (status s') = true /\
   (SCIP_DEBUG B = true -> sdpid (stats s') = sdpid (stats s) + 1)) \/
  (allfixed (status s') = allfixed (status s) /\
   sdpid (stats s') = sdpid (stats s) + 1 /\
   (infeasible (status s') = true ->
    infeasible (status s) = true \/ penalty (status s') = true)).
Proof.
  unfold solve_after_preprocessing.
  destruct (count_active s) as [[nactivevars activevaridx] fixedvarsobjcontr].
  set (s1 := if nactivevars =? 0 then _ else s).
  destruct (allfixed (status s1)) eqn:Eall.
  - intros H; injection H as <-. left. unfold exit_allfixed.
    destruct (checkFixedFeasibilitySdp_sdpid (with_status (set_allfixed true) s))
      as (Hid & Hall & _).
    set (c := checkFixedFeasibilitySdp _) in *.
    unfold debug_incr_sdpid. split.
    + destruct (SCIP_DEBUG B); cbn; rewrite Hall; reflexivity.
    + intros ->. cbn. rewrite Hid. reflexivity.
  - assert (Hs1 : s1 = s).
    { subst s1. destruct (nactivevars =? 0); [|reflexivity]. cbn in Eall. discriminate. }
    clearbody s1. subst s1.
    set (mats := snd (compConstMatAfterFixings s)).
    set (s2 := if _ && _ then _ else s).
    assert (H2 : sdpid (stats s2) = sdpid (stats s) /\
                 allfixed (status s2) = allfixed (status s) /\
                 infeasible (status s2) = infeasible (status s) /\
                 penalty (status s2) = penalty (status s)).
    { subst s2. destruct (_ && _); [apply solve_onevar_sdpid | auto]. }
    clearbody s2.
    destruct (negb (solved (status s2))).
    + destruct (solve_with_backend fuel s2 mats nnz esc tl) as [s3|] eqn:E; [|discriminate].
      intros H; injection H as <-. apply solve_with_backend_sdpid in E.
      right. cbn. intuition congruence.
    + intros H; injection H as <-. right. cbn. intuition congruence.
Qed.


End SolveFacts.



(** without SCIP_DEBUG the increment written inside [SCIPdebugMessage] is not
    executed: a problem whose bounds cross is reported infeasible and keeps
    its identifier *)
Lemma SCIPsdpiSolve_sdpid_infeasible_bounds :
  let s := SCIPsdpiChgBounds three_rows 1 [0] [5 # 1] [1 # 1] in
  exists s', SCIPsdpiSolve 5 s false 1 = Some s' /\
             infeasible (status s') = true /\ solved (status s') = true /\
             sdpid (stats s') = sdpid (stats s).
Proof.
  eexists. split; [vm_compute; reflexivity|]. repeat split.
Qed.

(** ** Queries before a solve *)




(** ** The feasibility check with the penalty formulation *)

Lemma MAX_is_maximum (x y : Q) :
  (x <= MAX x y)%Q /\ (y <= MAX x y)%Q /\ (MAX x y = x \/ MAX x y = y).
Proof.
  unfold MAX. destruct (Qleb_spec y x) as [H|H]; repeat split; auto; lra.
Qed.



(** ** Termination of the penalty escalation *)

Section Escalation.
Variable B : SDPISOLVER.
Variables (input : SolverInput) (fact gfact : Q).
Variable P : PARAMS.
Variable pen0 gap0 : Q.
Variable n : nat.

Hypothesis fact_nonneg : (0 <= fact)%Q.
Hypothesis gfact_nonneg : (0 <= gfact)%Q.
Hypothesis penalty_reaches :
  (maxpenaltyparam P + epsilon P <= pen0 * Qpow_nat fact (S n))%Q.
Hypothesis gaptol_reaches :
  (gap0 * Qpow_nat gfact (S n) <= (99 # 100) * MIN_GAPTOL)%Q.

Local Abbreviation reached := (escalated fact gfact P pen0 gap0).

Lemma penalty_step_cases (st : PenaltyState B) :
  let st1 := penalty_step input fact gfact st in
  pl_calls st1 = S (pl_calls st) /\
  ((pl_penaltyparam st1 = (pl_penaltyparam st * fact)%Q /\ pl_gaptol st1 = pl_gaptol st) \/
   (pl_penaltyparam st1 = pl_penaltyparam st /\
    pl_gaptol st1 = (pl_gaptol st * gfact)%Q) \/
   (pl_penaltyparam st1 = pl_penaltyparam st /\ pl_gaptol st1 = pl_gaptol st /\
    penalty_continue st1 = false)).
Proof.
  unfold penalty_step.
  destruct (SCIPsdpiSolverLoadAndSolveWithPenalty _ _ _ _ _ _) as [[sv fo] pb].
  destruct (SCIPsdpiSolverIsAcceptable B sv) eqn:Eacc; cbn [negb].
  - set (s2 := if (_ <? _)%Q then _ else _).
    assert (Hsv : sdpisolver s2 = sv) by (subst s2; destruct (_ <? _)%Q; reflexivity).
    clearbody s2.
    destruct fo; cbn [negb]; [|destruct pb]; cbn; split; auto.
    right; right. repeat split. unfold penalty_continue; cbn. rewrite Hsv, Eacc.
    reflexivity.
  - cbn; auto.
Qed.

Lemma escalated_step i j (st : PenaltyState B) :
  reached i j st ->
  let st1 := penalty_step input fact gfact st in
  reached (S i) j st1 \/ reached i (S j) st1 \/
  (reached i j st1 /\ penalty_continue st1 = false).
Proof.
  intros (Hp & Hi & Hj) st1.
  pose proof (penalty_step_keeps B input fact gfact st) as Hk.
  destruct (penalty_step_cases st) as (_ & [[E1 E2]|[[E1 E2]|(E1 & E2 & E3)]]);
    fold st1 in Hk, E1, E2; unfold escalated; destruct Hk as (_ & _ & _ & _ & _ & Hpar);
    rewrite Hpar, E1, E2.
  - left. repeat split; auto. cbn.
    apply Qle_trans with ((pen0 * Qpow_nat fact i) * fact)%Q; [apply Qle_lteq; right; ring|].
    apply Qmult_le_compat_r; assumption.
  - right; left. repeat split; auto. cbn.
    apply Qle_trans with ((gap0 * Qpow_nat gfact j) * gfact)%Q;
      [|apply Qle_lteq; right; ring].
    apply Qmult_le_compat_r; assumption.
  - right; right. repeat split; auto.
Qed.

Lemma escalated_continue i j (st : PenaltyState B) :
  reached i j st -> penalty_continue st = true -> i <> S n /\ j <> S n.
Proof.
  intros (Hp & Hi & Hj) H. unfold penalty_continue in H. rewrite Hp in H.
  apply andb_true_iff in H as [H _]. apply andb_true_iff in H as [H Hg].
  apply andb_true_iff in H as [_ Hpen].
  apply Qltb_true in Hg, Hpen.
  split; intros ->; lra.
Qed.

Lemma penalty_loop_bound (m : nat) : forall i j (st : PenaltyState B) fuel,
  reached i j st -> (i <= S n)%nat -> (j <= S n)%nat ->
  ((S n - i) + (S n - j) = m)%nat -> (m <= fuel)%nat ->
  exists st', penalty_loop input fact gfact fuel st = Some st' /\
              (pl_calls st' <= pl_calls st + (m - 1))%nat /\
              penalty_continue st' = false.
Proof.
  induction m as [|m IH]; intros i j st fuel He Hi Hj Hm Hfuel.
  - assert (i = S n /\ j = S n) as [-> ->] by lia.
    destruct (penalty_continue st) eqn:E.
    + destruct (escalated_continue _ _ _ He E); congruence.
    + exists st. destruct fuel; simpl; rewrite E; repeat split; auto; lia.
  - destruct (penalty_continue st) eqn:E.
    + destruct (escalated_continue _ _ _ He E) as [Hi' Hj'].
      destruct fuel as [|fuel]; [lia|]. simpl. rewrite E.
      destruct (penalty_step_cases st) as (Hc & _).
      destruct (escalated_step i j st He) as [H1|[H1|[H1 H2]]].
      * destruct (IH (S i) j _ fuel H1) as (st' & L & C & D); try lia.
        exists st'. repeat split; auto. lia.
      * destruct (IH i (S j) _ fuel H1) as (st' & L & C & D); try lia.
        exists st'. repeat split; auto. lia.
      * exists (penalty_step input fact gfact st).
        split; [destruct fuel; simpl; rewrite H2; reflexivity|].
        split; [lia | assumption].
    + exists st. destruct fuel; simpl; rewrite E; repeat split; auto; lia.
Qed.

End Escalation.



Lemma Qltb_compat (x x' y y' : Q) :
  (x == x')%Q -> (y == y')%Q -> (x <? y)%Q = (x' <? y')%Q.
Proof.
  intros Hx Hy. destruct (Qltb_spec x y), (Qltb_spec x' y'); auto; exfalso; lra.
Qed.

(** with [maxpenaltyparam = penaltyparam] the factor is 1, and a backend that
    never converges keeps the loop running *)
Lemma equal_penalties_loop_runs (input : SolverInput) (fuel : nat) :
  forall st : PenaltyState failing_backend,
    par (pl_sdpi st) = par equal_penalties ->
    (pl_penaltyparam st == 100000 # 1)%Q ->
    pl_gaptol st = (1 # 10000)%Q ->
    penalty_loop input (penaltyparamfact equal_penalties) (gaptolfact equal_penalties)
      fuel st = None.
Proof.
  induction fuel as [|fuel IH]; intros st Hpar Hpen Hgap.
  - simpl. unfold penalty_continue. rewrite Hpar, Hgap. cbn.
    rewrite (Qltb_compat _ (100000 # 1) _ _ Hpen (Qeq_refl _)). reflexivity.
  - simpl. unfold penalty_continue at 1. rewrite Hpar, Hgap. cbn.
    rewrite (Qltb_compat _ (100000 # 1) _ _ Hpen (Qeq_refl _)).
    change ((100000 # 1 <? (100000 # 1) + (1 # 1000000000))%Q) with true.
    cbn. apply IH.
    + cbn. exact Hpar.
    + cbn. rewrite Hpen. reflexivity.
    + cbn. exact Hgap.
Qed.


(** ** The constant matrices after fixings *)


Lemma same_pos_at_pos x e r c : same_pos x e = true -> at_pos e r c = at_pos x r c.
Proof.
  unfold same_pos, at_pos. intros H. apply andb_true_iff in H as [H1 H2].
  apply Z.eqb_eq in H1, H2. now rewrite H1, H2.
Qed.

Lemma same_pos_entry_pos x e : same_pos x e = true <-> entry_pos x = entry_pos e.
Proof.
  unfold same_pos, entry_pos. rewrite andb_true_iff, !Z.eqb_eq. split.
  - intros [-> ->]; reflexivity.
  - intros H; injection H; auto.
Qed.

Lemma at_pos_entry_pos e r c : at_pos e r c = true <-> entry_pos e = (r, c).
Proof.
  unfold at_pos, entry_pos. rewrite andb_true_iff, !Z.eqb_eq. split.
  - intros [-> ->]; reflexivity.
  - intros H; injection H; auto.
Qed.

Lemma dense_merge_entry e t r c :
  (dense (merge_entry e t) r c == dense t r c + (if at_pos e r c then e_val e else 0))%Q.
Proof.
  induction t as [|x t IH]; simpl.
  - lra.
  - destruct (same_pos x e) eqn:E; simpl.
    + rewrite (same_pos_at_pos x e r c E).
      change (at_pos (mkEntry (e_row x) (e_col x) (e_val x + e_val e)) r c)
        with (at_pos x r c).
      destruct (at_pos x r c); lra.
    + rewrite IH. lra.
Qed.

Lemma dense_fold_merge second : forall first r c,
  (dense (fold_left (fun t e => merge_entry e t) second first) r c
   == dense first r c + dense second r c)%Q.
Proof.
  induction second as [|e second IH]; intros first r c; simpl.
  - lra.
  - rewrite IH, dense_merge_entry. lra.
Qed.

Lemma merge_entry_positions e t p :
  In p (map entry_pos (merge_entry e t)) -> In p (map entry_pos t) \/ p = entry_pos e.
Proof.
  induction t as [|x t IH]; simpl.
  - intros [H|[]]; auto.
  - destruct (same_pos x e); simpl.
    + intros [H|H]; auto.
    + intros [H|H]; auto. destruct (IH H); auto.
Qed.

Lemma merge_entry_unique e t : unique_positions t -> unique_positions (merge_entry e t).
Proof.
  unfold unique_positions. induction t as [|x t IH]; simpl; intros H.
  - constructor; [intros [] | constructor].
  - inversion H as [|? ? Hx Ht]; subst.
    destruct (same_pos x e) eqn:E; simpl.
    + constructor; assumption.
    + constructor; [|auto].
      intros Hin. destruct (merge_entry_positions e t _ Hin) as [H1|H1]; [auto|].
      apply same_pos_entry_pos in H1. congruence.
Qed.

Lemma fold_merge_unique second : forall first,
  unique_positions first ->
  unique_positions (fold_left (fun t e => merge_entry e t) second first).
Proof.
  induction second as [|e second IH]; intros first H; simpl; auto.
  apply IH, merge_entry_unique, H.
Qed.

Lemma drop_small_compat eps x y : (x == y)%Q -> (drop_small eps x == drop_small eps y)%Q.
Proof.
  intros H. unfold drop_small, REALABS.
  rewrite (Qltb_compat eps eps (Qabs x) (Qabs y) (Qeq_refl _)) by (now rewrite H).
  destruct (_ <? _)%Q; [exact H | reflexivity].
Qed.

Lemma dense_absent m r c :
  ~ In (r, c) (map entry_pos m) -> (dense m r c == 0)%Q.
Proof.
  induction m as [|e m IH]; simpl; intros H; [reflexivity|].
  destruct (at_pos e r c) eqn:E.
  - apply at_pos_entry_pos in E. tauto.
  - rewrite IH by tauto. lra.
Qed.

Lemma filter_positions (f : Entry -> bool) m p :
  In p (map entry_pos (filter f m)) -> In p (map entry_pos m).
Proof.
  rewrite !in_map_iff. intros (e & H1 & H2). apply filter_In in H2. exists e; tauto.
Qed.

Lemma filter_unique (f : Entry -> bool) m :
  unique_positions m -> unique_positions (filter f m).
Proof.
  unfold unique_positions. induction m as [|e m IH]; simpl; intros H; auto.
  inversion H as [|? ? Hx Ht]; subst.
  destruct (f e); simpl; auto. constructor; auto.
  intros Hin; apply Hx. eapply filter_positions; eauto.
Qed.

Lemma dense_filter_unique eps m r c :
  unique_positions m ->
  (dense (filter (fun e => (eps <? REALABS (e_val e))%Q) m) r c
   == drop_small eps (dense m r c))%Q.
Proof.
  unfold unique_positions. induction m as [|e m IH]; simpl; intros H.
  - unfold drop_small. destruct (_ <? _)%Q; reflexivity.
  - inversion H as [|? ? Hx Ht]; subst. specialize (IH Ht).
    destruct (at_pos e r c) eqn:E.
    + apply at_pos_entry_pos in E. rewrite E in Hx.
      assert (H0 : (dense m r c == 0)%Q) by (apply dense_absent; exact Hx).
      assert (H1 : (dense (filter (fun e => (eps <? REALABS (e_val e))%Q) m) r c == 0)%Q).
      { apply dense_absent. intros Hin; apply Hx. eapply filter_positions; eauto. }
      rewrite (drop_small_compat eps (e_val e + dense m r c) (e_val e)) by lra.
      unfold drop_small.
      destruct (eps <? REALABS (e_val e))%Q; simpl.
      * apply at_pos_entry_pos in E. rewrite E. lra.
      * exact H1.
    + rewrite (drop_small_compat eps (0 + dense m r c) (dense m r c)) by lra.
      rewrite <- IH.
      destruct (eps <? REALABS (e_val e))%Q; simpl; [rewrite E; lra | reflexivity].
Qed.

Lemma dense_app m1 m2 r c : (dense (m1 ++ m2) r c == dense m1 r c + dense m2 r c)%Q.
Proof.
  induction m1 as [|e m1 IH]; simpl; [lra | rewrite IH; lra].
Qed.

Lemma dense_scaled (f : Q) m r c :
  (dense (map (fun e => mkEntry (e_row e) (e_col e) (- e_val e * f)%Q) m) r c
   == - (f * dense m r c))%Q.
Proof.
  induction m as [|e m IH]; simpl; [lra|]. rewrite IH.
  change (at_pos (mkEntry (e_row e) (e_col e) (- e_val e * f)) r c) with (at_pos e r c).
  destruct (at_pos e r c); lra.
Qed.

Lemma filter_keeps_nonzeros eps m e :
  In e (filter (fun e => (eps <? REALABS (e_val e))%Q) m) -> (eps < Qabs (e_val e))%Q.
Proof.
  intros H. apply filter_In in H as [_ H]. now apply Qltb_true in H.
Qed.

Section Folding.
Variable B : SDPISOLVER.
Implicit Type s : SCIP_SDPI B.

Lemma dense_fixed_nonzeros s bvs r c :
  (dense (flat_map
            (fun bv =>
               if moved_to_const s bv then
                 map (fun e => mkEntry (e_row e) (e_col e)
                                 (- e_val e * Arr.get 0%Q (sdpilb (prep s)) (sdpvar bv))%Q)
                   (sdpnonz bv)
               else []) bvs) r c
   == - fixed_contributions s bvs r c)%Q.
Proof.
  induction bvs as [|bv bvs IH]; simpl; [lra|].
  rewrite dense_app, IH. unfold moved_to_const.
  destruct (_ && _); [rewrite dense_scaled|simpl]; lra.
Qed.

(** C5: for every block whose constant matrix has no two entries at the same
    position, the constant matrix computed by [compConstMatAfterFixings] has
    again unique positions, holds only values of magnitude above [epsilon],
    and at every position equals the original constant matrix minus the sum
    over the block's variables that are fixed to a value of magnitude above
    [epsilon] of (fixed value times coefficient matrix), a result of
    magnitude at most [epsilon] being dropped. *)
Theorem folded_constant_matrix s (k : nat) (b : Block) :
  nth_error (blocks s) k = Some b ->
  unique_positions (sdpconst b) ->
  exists m,
    nth_error (snd (compConstMatAfterFixings s)) k = Some m /\
    unique_positions m /\
    (forall e, In e m -> (epsilon (par s) < Qabs (e_val e))%Q) /\
    forall r c, (dense m r c == drop_small (epsilon (par s)) (folded_constant s b r c))%Q.
Proof.
  intros Hk Hu. unfold compConstMatAfterFixings; cbn [snd].
  rewrite nth_error_map, Hk. cbn [option_map].
  eexists; split; [reflexivity|]. unfold SCIPsdpVarfixerMergeArraysIntoNew.
  split; [|split].
  - apply filter_unique, fold_merge_unique, Hu.
  - intros e. apply filter_keeps_nonzeros.
  - intros r c. rewrite dense_filter_unique by (apply fold_merge_unique, Hu).
    apply drop_small_compat. rewrite dense_fold_merge.
    unfold fixed_nonzeros, folded_constant. rewrite dense_fixed_nonzeros. lra.
Qed.
End Folding.

Lemma folded_constant_matrix_witness :
  exists m,
    nth_error (snd (compConstMatAfterFixings fixed_block)) 0 = Some m /\
    unique_positions m /\
    (forall e, In e m -> (epsilon (par fixed_block) < Qabs (e_val e))%Q) /\
    forall r c,
      (dense m r c ==
       drop_small (epsilon (par fixed_block))
         (folded_constant fixed_block
            (mkBlock 1 [mkBlockVar 0 [mkEntry 0 0 (2 # 1)]] [mkEntry 0 0 (- (1 # 1))]) r c))%Q.
Proof.
  apply (folded_constant_matrix failing_backend fixed_block 0%nat).
  - reflexivity.
  - unfold unique_positions; simpl. constructor; [intros [] | constructor].
Defined.

(** the scenario of the specification: the folded constant matrix is
    [-1 - 2 * 1 = -3] *)
Lemma folded_constant_of_fixed_block :
  compConstMatAfterFixings fixed_block = (1, [[mkEntry 0 0 (- 3 # 1)]]).
Proof. vm_compute. reflexivity. Qed.

(** ** The check of the SDP blocks when all variables are fixed *)

Section DenseMatrix.

Variable size : Z.
Hypothesis size_nonneg : 0 <= size.

Lemma index_in_range r c :
  0 <= r < size -> 0 <= c < size -> 0 <= r * size + c < size * size.
Proof. intros; nia. Qed.

Lemma index_injective r c r' c' :
  0 <= c < size -> 0 <= c' < size ->
  r * size + c = r' * size + c' -> r = r' /\ c = c'.
Proof.
  intros Hc Hc' H.
  assert (r = r').
  { destruct (Z.lt_trichotomy r r') as [Hlt | [Heq | Hgt]]; [exfalso | assumption | exfalso].
    - assert (size <= (r' - r) * size) by nia. lia.
    - assert (size <= (r - r') * size) by nia. lia. }
  subst. split; [reflexivity | lia].
Qed.

Lemma sym_at_cases r0 c0 x r c :
  sym_at (mkEntry r0 c0 x) r c = true <-> (r0 = r /\ c0 = c) \/ (r0 = c /\ c0 = r).
Proof.
  unfold sym_at, at_pos; cbn. rewrite orb_true_iff, !andb_true_iff, !Z.eqb_eq. tauto.
Qed.

Lemma get_set_index (m : list Q) r0 c0 x r c :
  cell_ok size m -> 0 <= r0 < size -> 0 <= c0 < size -> 0 <= r < size -> 0 <= c < size ->
  Arr.get 0%Q (Arr.set m (r0 * size + c0) x) (r * size + c)
  = if (r0 =? r) && (c0 =? c) then x else Arr.get 0%Q m (r * size + c).
Proof.
  intros Hm Hr0 Hc0 Hr Hc.
  destruct ((r0 =? r) && (c0 =? c)) eqn:E.
  - apply andb_true_iff in E as [E1 E2]. apply Z.eqb_eq in E1, E2. subst.
    apply get_set_same. rewrite Hm. apply index_in_range; assumption.
  - apply get_set_other. intros H. apply index_injective in H as [-> ->]; try assumption.
    rewrite !Z.eqb_refl in E. discriminate.
Qed.

Lemma set_cell_ok (m : list Q) i x : cell_ok size m -> cell_ok size (Arr.set m i x).
Proof. unfold cell_ok. now rewrite set_length. Qed.

Lemma assign_cell_ok m r0 c0 x :
  cell_ok size m -> cell_ok size (fullmatrix_assign size m r0 c0 x).
Proof.
  intros H. unfold fullmatrix_assign. destruct (negb _); auto using set_cell_ok.
Qed.

Lemma add_cell_ok m r0 c0 x :
  cell_ok size m -> cell_ok size (fullmatrix_add size m r0 c0 x).
Proof.
  intros H. unfold fullmatrix_add. destruct (negb _); auto using set_cell_ok.
Qed.

Lemma get_assign m r0 c0 x r c :
  cell_ok size m -> 0 <= r0 < size -> 0 <= c0 < size -> 0 <= r < size -> 0 <= c < size ->
  Arr.get 0%Q (fullmatrix_assign size m r0 c0 x) (r * size + c)
  = if sym_at (mkEntry r0 c0 x) r c then x else Arr.get 0%Q m (r * size + c).
Proof.
  intros Hm Hr0 Hc0 Hr Hc. unfold fullmatrix_assign, sym_at, at_pos; cbn.
  destruct (Z.eqb_spec r0 c0) as [->|Hne]; cbn.
  - rewrite get_set_index by assumption.
    rewrite (andb_comm (c0 =? c) (c0 =? r)), orb_diag; reflexivity.
  - rewrite !get_set_index by auto using set_cell_ok.
    destruct (Z.eqb_spec r0 r), (Z.eqb_spec c0 c), (Z.eqb_spec c0 r), (Z.eqb_spec r0 c);
      cbn; try reflexivity.
Qed.

Lemma get_add m r0 c0 x r c :
  cell_ok size m -> 0 <= r0 < size -> 0 <= c0 < size -> 0 <= r < size -> 0 <= c < size ->
  (Arr.get 0%Q (fullmatrix_add size m r0 c0 x) (r * size + c)
   == Arr.get 0%Q m (r * size + c) + (if sym_at (mkEntry r0 c0 x) r c then x else 0))%Q.
Proof.
  intros Hm Hr0 Hc0 Hr Hc. unfold fullmatrix_add, sym_at, at_pos; cbn.
  destruct (Z.eqb_spec r0 c0) as [->|Hne]; cbn.
  - rewrite get_set_index by assumption.
    rewrite (andb_comm (c0 =? c) (c0 =? r)), orb_diag.
    destruct (Z.eqb_spec c0 r), (Z.eqb_spec c0 c); cbn; subst; lra.
  - rewrite !get_set_index by auto using set_cell_ok.
    repeat match goal with
           | |- context [Z.eqb ?a ?b] => destruct (Z.eqb_spec a b); subst
           end; cbn; try lra; congruence.
Qed.


Lemma sym_at_sym_pos e r c :
  sym_at e r c = true -> sym_pos e = (Z.max r c, Z.min r c).
Proof.
  destruct e as [r0 c0 x]. rewrite sym_at_cases. unfold sym_pos; cbn.
  intros [[-> ->] | [-> ->]]; [reflexivity|].
  now rewrite Z.max_comm, Z.min_comm.
Qed.

Lemma sym_dense_no_hit es r c :
  existsb (fun e => sym_at e r c) es = false -> sym_dense es r c = 0%Q.
Proof.
  induction es as [|e es IH]; cbn; [reflexivity|].
  intros H. apply orb_false_iff in H as [He Hes]. rewrite He, (IH Hes). reflexivity.
Qed.

Lemma no_second_hit e es r c :
  NoDup (map sym_pos (e :: es)) -> sym_at e r c = true ->
  existsb (fun e' => sym_at e' r c) es = false.
Proof.
  intros Hnd He. cbn in Hnd. apply NoDup_cons_iff in Hnd as [Hnotin _].
  destruct (existsb _ es) eqn:E; [exfalso | reflexivity].
  apply existsb_exists in E as (e' & Hin & He').
  apply Hnotin. rewrite (sym_at_sym_pos _ _ _ He), <- (sym_at_sym_pos _ _ _ He').
  now apply in_map.
Qed.

(** after the constant entries have been written, the cell holds minus the
    constant matrix where the constant matrix has an entry and is untouched
    elsewhere *)
Lemma get_fold_assign es : forall m r c,
  cell_ok size m -> Forall (entry_in_range size) es -> NoDup (map sym_pos es) ->
  0 <= r < size -> 0 <= c < size ->
  (Arr.get 0%Q
     (fold_left (fun m e => fullmatrix_assign size m (e_row e) (e_col e) (- e_val e)%Q) es m)
     (r * size + c)
   == if existsb (fun e => sym_at e r c) es then - sym_dense es r c
      else Arr.get 0%Q m (r * size + c))%Q.
Proof.
  induction es as [|e es IH]; intros m r c Hm Hes Hnd Hr Hc; cbn [fold_left existsb sym_dense].
  - reflexivity.
  - inversion Hes as [|? ? [Her Hec] Hes']; subst.
    assert (Hnd' : NoDup (map sym_pos es)) by (cbn in Hnd; now apply NoDup_cons_iff in Hnd).
    rewrite IH by auto using assign_cell_ok.
    rewrite get_assign by assumption.
    change (sym_at (mkEntry (e_row e) (e_col e) (- e_val e)) r c) with (sym_at e r c).
    destruct (sym_at e r c) eqn:He; cbn [orb].
    + rewrite (no_second_hit _ _ _ _ Hnd He), (sym_dense_no_hit es r c);
        [lra | exact (no_second_hit _ _ _ _ Hnd He)].
    + destruct (existsb _ es); lra.
Qed.

Lemma get_fold_add es x : forall m r c,
  cell_ok size m -> Forall (entry_in_range size) es ->
  0 <= r < size -> 0 <= c < size ->
  (Arr.get 0%Q
     (fold_left (fun m e => fullmatrix_add size m (e_row e) (e_col e) (x * e_val e)%Q) es m)
     (r * size + c)
   == Arr.get 0%Q m (r * size + c) + x * sym_dense es r c)%Q.
Proof.
  induction es as [|e es IH]; intros m r c Hm Hes Hr Hc; cbn [fold_left sym_dense].
  - lra.
  - inversion Hes as [|? ? [Her Hec] Hes']; subst.
    rewrite IH by auto using add_cell_ok.
    rewrite get_add by assumption.
    change (sym_at (mkEntry (e_row e) (e_col e) (x * e_val e)) r c) with (sym_at e r c).
    destruct (sym_at e r c); lra.
Qed.

Lemma fold_add_cell_ok es x : forall m,
  cell_ok size m ->
  cell_ok size
    (fold_left (fun m e => fullmatrix_add size m (e_row e) (e_col e) (x * e_val e)%Q) es m).
Proof. induction es; cbn; auto using add_cell_ok. Qed.

Lemma fold_assign_cell_ok es : forall m,
  cell_ok size m ->
  cell_ok size
    (fold_left (fun m e => fullmatrix_assign size m (e_row e) (e_col e) (- e_val e)%Q) es m).
Proof. induction es; cbn; auto using assign_cell_ok. Qed.

Lemma zero_cell_ok : cell_ok size (repeat 0%Q (Z.to_nat (size * size))).
Proof. unfold cell_ok. rewrite repeat_length. nia. Qed.

Lemma get_zero (n : nat) i : Arr.get 0%Q (repeat 0%Q n) i = 0%Q.
Proof.
  unfold Arr.get. destruct (i <? 0); [reflexivity|].
  generalize (Z.to_nat i). induction n; intros [|k]; cbn; auto.
Qed.

End DenseMatrix.

Section FixedCheck.

Variable B : SDPISOLVER.
Implicit Type s : SCIP_SDPI B.

(** the matrix handed to the eigenvalue computation is minus the constant
    matrix plus the contributions of the variables not skipped *)
Lemma fullmatrix_cells s b r c :
  block_well_formed b ->
  0 <= r < sdpblocksize b -> 0 <= c < sdpblocksize b ->
  (Arr.get 0%Q (fullmatrix s b) (r * sdpblocksize b + c) == reconstructed s b r c)%Q.
Proof.
  intros (Hsize & Hconst & Hvars & Hnd) Hr Hc.
  unfold fullmatrix, reconstructed.
  set (size := sdpblocksize b) in *.
  set (m1 := fold_left _ (sdpconst b) _).
  assert (Hm1 : cell_ok size m1) by (apply fold_assign_cell_ok, zero_cell_ok; assumption).
  assert (H1 : (Arr.get 0%Q m1 (r * size + c) == - sym_dense (sdpconst b) r c)%Q).
  { subst m1. rewrite get_fold_assign by auto using zero_cell_ok.
    destruct (existsb _ _) eqn:E; [reflexivity|].
    rewrite get_zero, (sym_dense_no_hit _ _ _ E). reflexivity. }
  rewrite <- H1. clear H1. clearbody m1.
  revert m1 Hm1. induction (sdpblockvars b) as [|bv bvs IH]; intros m1 Hm1;
    cbn [fold_left kept_contributions].
  - lra.
  - inversion Hvars as [|? ? Hbv Hvars']; subst.
    destruct (REALABS _ <? _)%Q.
    + rewrite IH by assumption. lra.
    + rewrite IH by auto using fold_add_cell_ok.
      rewrite get_fold_add by assumption. lra.
Qed.

Lemma some_block_infeasible_iff s bs :
  some_block_infeasible s bs = true <->
  Exists (fun b => (SCIPlapackComputeIthEigenvalue B (sdpblocksize b) (fullmatrix s b)
                    < - feastol (par s))%Q) bs.
Proof.
  induction bs as [|b bs IH]; cbn [some_block_infeasible].
  - split; [discriminate | intros H; inversion H].
  - destruct (Qltb_spec (SCIPlapackComputeIthEigenvalue B (sdpblocksize b) (fullmatrix s b))
                (- feastol (par s))) as [Hlt | Hge].
    + split; [intros _; now left | reflexivity].
    + rewrite IH. split; [now right | intros H; inversion H; subst; [contradiction | assumption]].
Qed.

Lemma maxsize_bounds (bs : list Block) : forall m0,
  let m := fold_left (fun m b => if m <? sdpblocksize b then sdpblocksize b else m) bs m0 in
  m0 <= m /\ Forall (fun b => sdpblocksize b <= m) bs.
Proof.
  induction bs as [|b bs IH]; intros m0; cbn [fold_left].
  - split; [lia | constructor].
  - specialize (IH (if m0 <? sdpblocksize b then sdpblocksize b else m0)).
    cbv zeta in IH. destruct IH as [IH1 IH2].
    destruct (Z.ltb_spec m0 (sdpblocksize b)); (split; [lia | constructor; [lia | assumption]]).
Qed.

Lemma checkFixedFeasibilitySdp_verdict s :
  infeasible (status s) = false ->
  Forall (fun b => 0 <= sdpblocksize b) (blocks s) ->
  (infeasible (status (checkFixedFeasibilitySdp s)) = true <-> negative_block s (fullmatrix s)).
Proof.
  intros Hinf Hsizes. unfold checkFixedFeasibilitySdp, negative_block.
  rewrite <- some_block_infeasible_iff.
  destruct (Z.ltb_spec (fold_left (fun m b => if m <? sdpblocksize b then sdpblocksize b else m)
                          (blocks s) (-1)) 0) as [Hneg | _].
  - destruct (blocks s) as [|b bs]; [rewrite Hinf; reflexivity|].
    exfalso. inversion Hsizes; subst.
    pose proof (maxsize_bounds (b :: bs) (-1)) as [_ H]. cbv zeta in H.
    inversion H; subst. lia.
  - destruct (some_block_infeasible s (blocks s)); cbn; [tauto | rewrite Hinf; tauto].
Qed.

Lemma exit_allfixed_status s :
  allfixed (status (exit_allfixed s)) = true /\
  solved (status (exit_allfixed s)) = true /\
  sdpisolver (exit_allfixed s) = SCIPsdpiSolverIncreaseCounter B (sdpisolver s) /\
  infeasible (status (exit_allfixed s))
  = infeasible (status (checkFixedFeasibilitySdp (with_status (set_allfixed true) s))).
Proof.
  unfold exit_allfixed, checkFixedFeasibilitySdp, debug_incr_sdpid.
  destruct (SCIP_DEBUG B), (_ <? 0); cbn; auto;
    match goal with |- context [some_block_infeasible ?a ?b] =>
      destruct (some_block_infeasible a b) end; cbn; auto.
Qed.

End FixedCheck.

(** C3 (as amended): when no variable is active after preprocessing (and no
    infeasibility has been found), the matrix checked for each block is minus
    the constant matrix plus the sum over the variables of the block whose
    fixed value has magnitude at least [epsilon] of (fixed value times
    coefficient matrix);
    the call returns with [allfixed] and [solved] set, the backend has only
    had its counter increased, and the instance is declared infeasible
    exactly when LAPACK reports for some block a smallest eigenvalue below
    [- feastol]. *)
Theorem allfixed_fast_path (B : SDPISOLVER) (s : SCIP_SDPI B) (fuel : nat) (lpnnonz' : Z)
    (enforceslatercheck : bool) (timelimit : Q) :
  fst (fst (count_active s)) = 0 ->
  infeasible (status s) = false ->
  Forall block_well_formed (blocks s) ->
  (forall b r c, In b (blocks s) ->
     0 <= r < sdpblocksize b -> 0 <= c < sdpblocksize b ->
     (Arr.get 0%Q (fullmatrix s b) (r * sdpblocksize b + c) == reconstructed s b r c)%Q) /\
  exists s',
    solve_after_preprocessing fuel s lpnnonz' enforceslatercheck timelimit = Some s' /\
    allfixed (status s') = true /\
    solved (status s') = true /\
    sdpisolver s' = SCIPsdpiSolverIncreaseCounter B (sdpisolver s) /\
    (infeasible (status s') = true <-> negative_block s (fullmatrix s)).
Proof.
  intros Hnone Hinf Hwf. split.
  - intros b r c Hb Hr Hc. apply fullmatrix_cells; [|assumption..].
    rewrite Forall_forall in Hwf. now apply Hwf.
  - unfold solve_after_preprocessing.
    destruct (count_active s) as [[n idx] contr]. cbn in Hnone. subst n.
    cbn. eexists. split; [reflexivity|].
    destruct (exit_allfixed_status B s) as (Hall & Hsolved & Hsolver & Hverdict).
    split; [exact Hall|]. split; [exact Hsolved|]. split; [exact Hsolver|].
    rewrite Hverdict.
    apply (checkFixedFeasibilitySdp_verdict B (with_status (set_allfixed true) s)).
    + exact Hinf.
    + cbn. eapply Forall_impl; [|exact Hwf]. intros b Hb. apply Hb.
Qed.

Lemma allfixed_fast_path_witness :
  (forall b r c, In b (blocks fixed_block) ->
     0 <= r < sdpblocksize b -> 0 <= c < sdpblocksize b ->
     (Arr.get 0%Q (fullmatrix fixed_block b) (r * sdpblocksize b + c)
      == reconstructed fixed_block b r c)%Q) /\
  exists s',
    solve_after_preprocessing 0 fixed_block 0 false 1 = Some s' /\
    allfixed (status s') = true /\
    solved (status s') = true /\
    sdpisolver s' = SCIPsdpiSolverIncreaseCounter failing_backend (sdpisolver fixed_block) /\
    (infeasible (status s') = true <-> negative_block fixed_block (fullmatrix fixed_block)).
Proof.
  apply (allfixed_fast_path failing_backend fixed_block 0%nat 0 false 1%Q).
  - reflexivity.
  - reflexivity.
  - repeat constructor; cbn; try lia; intros [].
Defined.

(** the matrix of [fixed_block] is [(3)] and the instance is feasible *)
Lemma allfixed_fast_path_of_fixed_block :
  map (fullmatrix fixed_block) (blocks fixed_block) = [[3%Q]] /\
  exists s',
    solve_after_preprocessing 0 fixed_block 0 false 1 = Some s' /\
    infeasible (status s') = false /\ solved (status s') = true.
Proof. split; [reflexivity | eexists; split; [reflexivity | split; reflexivity]]. Qed.

(** C3 (as stated) fails: a variable fixed to a value below [epsilon] is
    left out of the matrix: the matrix of the specification is [(-2e-6)], with smallest eigenvalue
    below [- feastol = -1e-6], while the code checks the matrix [(0)] and
    reports the instance as feasible *)
Lemma allfixed_fast_path_counterexample :
  fst (fst (count_active tiny_fixing)) = 0 /\
  infeasible (status tiny_fixing) = false /\
  Forall block_well_formed (blocks tiny_fixing) /\
  Forall (fun b => (Arr.get 0 (reconstructed_spec_matrix tiny_fixing b) 0 == - (1 # 500000))%Q)
    (blocks tiny_fixing) /\
  Forall (fun b => (Arr.get 0 (fullmatrix tiny_fixing b) 0 == 0)%Q) (blocks tiny_fixing) /\
  negative_block tiny_fixing (reconstructed_spec_matrix tiny_fixing) /\
  exists s',
    solve_after_preprocessing 0 tiny_fixing 0 false 1 = Some s' /\
    infeasible (status s') = false.
Proof.
  split; [reflexivity|]. split; [reflexivity|].
  split; [repeat constructor; cbn; lia|].
  split; [repeat constructor|]. split; [repeat constructor|].
  split; [left; vm_compute; reflexivity|].
  eexists; split; reflexivity.
Qed.


(** ** Solution information after a change of the problem *)

Section StaleQueries.

Variable B : SDPISOLVER.
Variable I : SDPISOLVER_INFO B.
Implicit Type s : SCIP_SDPI B.

Lemma mutate_unsolved m s : changes_problem m -> solved (status (mutate m s)) = false.
Proof.
  destruct m; cbn -[SCIPsdpiDelLPRows SCIPsdpiDelLPRowset]; intros Hm.
  - unfold SCIPsdpiAddLPRows. destruct (Z.eqb_spec nrows 0); [contradiction|].
    destruct (nlpcons (lp s) =? 0); reflexivity.
  - apply (DelLPRows_flags B s firstrow lastrow).
  - unfold SCIPsdpiDelLPRowset.
    destruct (Arr.for_range _ _ _ _) as [[s1 d1] k1]; reflexivity.
  - reflexivity.
  - reflexivity.
  - reflexivity.
Qed.

Lemma mutate_flags m s :
  match m with
  | MutAddLPRows _ _ _ _ _ _ _ | MutChgObj _ _ _ => True
  | _ => infeasible (status (mutate m s)) = false /\ allfixed (status (mutate m s)) = false
  end.
Proof.
  destruct m; cbn -[SCIPsdpiDelLPRows SCIPsdpiDelLPRowset]; auto.
  - split; apply (DelLPRows_flags B s firstrow lastrow).
  - unfold SCIPsdpiDelLPRowset.
    destruct (Arr.for_range _ _ _ _) as [[s1 d1] k1]; split; reflexivity.
Qed.

(** X1: after every mutation that changes the problem, no stale solution
    information is handed out: the queries guarded by CHECK_IF_SOLVED and
    CHECK_IF_SOLVED_BOOL answer "no" or return [SCIP_LPERROR], the internal
    status is -1 and the setting used is "unsolved"; after deleting rows or
    changing bounds or sides the two unguarded queries
    [SCIPsdpiIsAcceptable] and [SCIPsdpiIsTimelimExc] answer "no" as well. *)
Theorem queries_after_mutation (m : Mutation) s (pf df : bool) (objval : Q) :
  changes_problem m ->
  let s' := mutate m s in
  SCIPsdpiWasSolved s' = false /\
  SCIPsdpiSolvedOrig s' = false /\
  SCIPsdpiHavePrimalSol I s' = false /\
  SCIPsdpiFeasibilityKnown I s' = false /\
  SCIPsdpiGetSolFeasibility I s' pf df = (SCIP_LPERROR, (pf, df)) /\
  SCIPsdpiIsPrimalUnbounded I s' = false /\
  SCIPsdpiIsPrimalInfeasible I s' = false /\
  SCIPsdpiIsPrimalFeasible I s' = false /\
  SCIPsdpiIsDualUnbounded I s' = false /\
  SCIPsdpiIsDualInfeasible s' = false /\
  SCIPsdpiIsDualFeasible I s' = false /\
  SCIPsdpiIsConverged I s' = false /\
  SCIPsdpiIsObjlimExc I s' = false /\
  SCIPsdpiIsIterlimExc I s' = false /\
  SCIPsdpiIsOptimal s' = false /\
  SCIPsdpiGetInternalStatus I s' = -1 /\
  SCIPsdpiSettingsUsed I s' = SCIP_SDPSOLVERSETTING_UNSOLVED /\
  SCIPsdpiGetObjval s' objval = Returns SCIP_LPERROR objval /\
  match m with
  | MutAddLPRows _ _ _ _ _ _ _ | MutChgObj _ _ _ => True
  | _ => SCIPsdpiIsAcceptable s' = false /\ SCIPsdpiIsTimelimExc s' = false
  end.
Proof.
  intros Hm s'. pose proof (mutate_unsolved m s Hm) as Hs. fold s' in Hs.
  pose proof (mutate_flags m s) as Hf. fold s' in Hf.
  unfold SCIPsdpiWasSolved, SCIPsdpiSolvedOrig, SCIPsdpiHavePrimalSol,
    SCIPsdpiFeasibilityKnown, SCIPsdpiGetSolFeasibility, SCIPsdpiIsPrimalUnbounded,
    SCIPsdpiIsPrimalInfeasible, SCIPsdpiIsPrimalFeasible, SCIPsdpiIsDualUnbounded,
    SCIPsdpiIsDualInfeasible, SCIPsdpiIsDualFeasible, SCIPsdpiIsConverged,
    SCIPsdpiIsObjlimExc, SCIPsdpiIsIterlimExc, SCIPsdpiIsOptimal,
    SCIPsdpiGetInternalStatus, SCIPsdpiSettingsUsed, SCIPsdpiGetObjval,
    SCIPsdpiIsAcceptable, SCIPsdpiIsTimelimExc.
  rewrite Hs. cbn [negb andb].
  repeat (split; [reflexivity|]).
  destruct m; try exact Logic.I; destruct Hf as [-> ->]; split; reflexivity.
Qed.

(** X2: [SCIPsdpiIsAcceptable] tests the flags [infeasible] and [allfixed]
    before [solved], and [SCIPsdpiAddLPRows] and [SCIPsdpiChgObj] do not reset
    [allfixed]: after rows have been added to, or the objective changed of, a
    problem whose last solve found all variables fixed, the problem counts as
    unsolved and still as acceptable. *)
Theorem acceptable_after_mutation s (nrows : Z) (lhs rhs : list Q) (nnonz : Z)
    (beg ind : list Z) (val : list Q) (nvars' : Z) (ind' : list Z) (obj' : list Q) :
  nrows <> 0 ->
  allfixed (status s) = true ->
  let s1 := SCIPsdpiAddLPRows s nrows lhs rhs nnonz beg ind val in
  let s2 := SCIPsdpiChgObj s nvars' ind' obj' in
  SCIPsdpiWasSolved s1 = false /\ SCIPsdpiIsAcceptable s1 = true /\
  SCIPsdpiWasSolved s2 = false /\ SCIPsdpiIsAcceptable s2 = true.
Proof.
  intros Hn Hall. cbv zeta. unfold SCIPsdpiIsAcceptable, SCIPsdpiWasSolved.
  split; [|split; [|split]].
  - exact (mutate_unsolved (MutAddLPRows nrows lhs rhs nnonz beg ind val) s Hn).
  - unfold SCIPsdpiAddLPRows. destruct (Z.eqb_spec nrows 0); [contradiction|].
    destruct (nlpcons (lp s) =? 0); cbn; rewrite Hall; reflexivity.
  - reflexivity.
  - cbn. rewrite Hall. destruct (infeasible (status s)); reflexivity.
Qed.

(** X3: when the interface itself has decided the result (infeasibility
    found while preparing, all variables fixed, or the one-variable problem
    solved), its answers are consistent: the primal is unbounded exactly when
    it is feasible and the dual infeasible, the dual is feasible exactly when
    it is not infeasible, [SCIPsdpiGetSolFeasibility] returns the answers of
    [SCIPsdpiIsPrimalFeasible] and [SCIPsdpiIsDualFeasible], the problem is
    optimal exactly when both are feasible, and the solve counts as
    converged and acceptable with no limit reached. *)
Theorem decided_status_consistent s (pf df : bool) :
  decided s = true ->
  SCIPsdpiIsPrimalUnbounded I s = SCIPsdpiIsPrimalFeasible I s && SCIPsdpiIsDualInfeasible s /\
  SCIPsdpiIsDualFeasible I s = negb (SCIPsdpiIsDualInfeasible s) /\
  SCIPsdpiIsPrimalInfeasible I s = false /\
  SCIPsdpiIsDualUnbounded I s = false /\
  SCIPsdpiGetSolFeasibility I s pf df
  = (SCIP_OKAY, (SCIPsdpiIsPrimalFeasible I s, SCIPsdpiIsDualFeasible I s)) /\
  SCIPsdpiIsOptimal s = SCIPsdpiIsPrimalFeasible I s && SCIPsdpiIsDualFeasible I s /\
  SCIPsdpiIsConverged I s = true /\
  SCIPsdpiIsAcceptable s = true /\
  SCIPsdpiIsObjlimExc I s = false /\
  SCIPsdpiIsIterlimExc I s = false /\
  SCIPsdpiIsTimelimExc s = false /\
  SCIPsdpiGetInternalStatus I s = 0.
Proof.
  unfold decided, SCIPsdpiIsPrimalUnbounded, SCIPsdpiIsPrimalFeasible,
    SCIPsdpiIsDualInfeasible, SCIPsdpiIsDualFeasible, SCIPsdpiIsPrimalInfeasible,
    SCIPsdpiIsDualUnbounded, SCIPsdpiGetSolFeasibility, SCIPsdpiIsOptimal,
    SCIPsdpiIsConverged, SCIPsdpiIsAcceptable, SCIPsdpiIsObjlimExc, SCIPsdpiIsIterlimExc,
    SCIPsdpiIsTimelimExc, SCIPsdpiGetInternalStatus, onevar_solved.
  destruct (solved (status s)), (infeasible (status s)), (allfixed (status s)),
    (solvedonevarsdp (status s)); cbn; intros H; try discriminate H;
    repeat split; reflexivity.
Qed.

End StaleQueries.

Lemma queries_after_mutation_witness :
  let s' := mutate (MutChgBounds 1 [0] [1%Q] [2%Q]) three_rows_solved in
  SCIPsdpiIsOptimal s' = false /\ SCIPsdpiIsAcceptable s' = false /\
  SCIPsdpiGetObjval s' 0 = Returns SCIP_LPERROR 0%Q.
Proof.
  pose proof (queries_after_mutation failing_backend (silent_info failing_backend)
                (MutChgBounds 1 [0] [1%Q] [2%Q]) three_rows_solved false false 0%Q Logic.I)
    as H.
  cbv zeta in *. repeat split; apply H.
Defined.

Lemma acceptable_after_mutation_witness :
  let s1 := SCIPsdpiAddLPRows fixed_block_solved 1 [0%Q] [1%Q] 1 [0] [0] [1%Q] in
  SCIPsdpiWasSolved s1 = false /\ SCIPsdpiIsAcceptable s1 = true.
Proof.
  pose proof (acceptable_after_mutation failing_backend fixed_block_solved
                1 [0%Q] [1%Q] 1 [0] [0] [1%Q] 0 [] []) as H.
  cbv zeta in *. split; apply H; (discriminate || reflexivity).
Defined.

Lemma decided_status_consistent_witness :
  SCIPsdpiIsOptimal fixed_block_solved = true /\
  SCIPsdpiGetSolFeasibility (silent_info failing_backend) fixed_block_solved false false
  = (SCIP_OKAY, (true, true)).
Proof.
  pose proof (decided_status_consistent failing_backend (silent_info failing_backend)
                fixed_block_solved false false) as H.
  split.
  - transitivity (SCIPsdpiIsPrimalFeasible (silent_info failing_backend) fixed_block_solved
                  && SCIPsdpiIsDualFeasible (silent_info failing_backend) fixed_block_solved);
      [apply H; reflexivity | reflexivity].
  - transitivity (SCIP_OKAY,
                  (SCIPsdpiIsPrimalFeasible (silent_info failing_backend) fixed_block_solved,
                   SCIPsdpiIsDualFeasible (silent_info failing_backend) fixed_block_solved));
      [apply H; reflexivity | reflexivity].
Defined.

(** ** What a solve leaves of the problem and of its statistics *)

Section SolveFrame.

Variable B : SDPISOLVER.
Implicit Type s : SCIP_SDPI B.

Local Ltac frame := unfold solve_frame, same_problem, same_counts; cbn; auto 20.
Local Ltac frame_trans :=
  unfold solve_frame, same_problem, same_counts in *; cbn in *; intuition congruence.

Lemma solve_frame_refl s : solve_frame s s.
Proof. frame. Qed.

Lemma solve_frame_trans s1 s2 s3 : solve_frame s1 s2 -> solve_frame s2 s3 -> solve_frame s1 s3.
Proof. intros H1 H2. frame_trans. Qed.

Lemma copy_bounds_frame s : solve_frame s (copy_bounds s).
Proof.
  unfold copy_bounds.
  apply for_range_invariant with (P := solve_frame s); [|apply solve_frame_refl].
  intros v s0 H. destruct (infeasible (status s0)); auto.
  destruct (_ <? _)%Q; frame_trans.
Qed.

Lemma prepareLPData_frame s : solve_frame s (fst (fst (prepareLPData s))).
Proof. unfold prepareLPData. frame. Qed.

Lemma prepare_loop_frame fuel : forall s s' nnz,
  prepare_loop fuel s = Some (s', nnz) -> solve_frame s s'.
Proof.
  induction fuel as [|fuel IH]; intros s s' nnz H; cbn [prepare_loop] in H; [discriminate|].
  pose proof (prepareLPData_frame s) as H1.
  destruct (prepareLPData s) as [[s1 n1] f1]; cbn [fst snd] in *.
  destruct (f1 && negb (infeasible (status s1))).
  - eapply solve_frame_trans; [exact H1 | eapply IH; exact H].
  - injection H as <- <-. exact H1.
Qed.

Lemma checkFixedFeasibilitySdp_frame s : solve_frame s (checkFixedFeasibilitySdp s).
Proof.
  unfold checkFixedFeasibilitySdp.
  destruct (_ <? 0); [apply solve_frame_refl|].
  destruct (some_block_infeasible _ _); frame.
Qed.

Lemma checkSlaterCondition_frame s input : solve_frame s (checkSlaterCondition s input).
Proof.
  unfold checkSlaterCondition.
  destruct (checkSlaterSolves _ _ _) as [[sv p] d]. frame.
Qed.

Lemma penalty_step_frame input fact gfact (st : PenaltyState B) :
  solve_frame (pl_sdpi st) (pl_sdpi (penalty_step input fact gfact st)).
Proof.
  unfold penalty_step.
  destruct (SCIPsdpiSolverLoadAndSolveWithPenalty _ _ _ _ _ _) as [[sv fo] pb].
  destruct (negb (SCIPsdpiSolverIsAcceptable B sv)); [frame|].
  set (s2 := if (_ <? _)%Q then _ else _).
  assert (H : solve_frame (pl_sdpi st) s2).
  { subst s2; destruct (_ <? _)%Q; frame. }
  clearbody s2.
  destruct (negb fo); [destruct pb|]; cbn; auto; frame_trans.
Qed.

Lemma penalty_loop_frame input fact gfact fuel : forall st st' : PenaltyState B,
  penalty_loop input fact gfact fuel st = Some st' ->
  solve_frame (pl_sdpi st) (pl_sdpi st').
Proof.
  induction fuel as [|fuel IH]; intros st st' H; simpl in H.
  - destruct (penalty_continue st); [discriminate|]. injection H as <-.
    apply solve_frame_refl.
  - destruct (penalty_continue st).
    + apply IH in H. eapply solve_frame_trans; [apply penalty_step_frame | exact H].
    + injection H as <-. apply solve_frame_refl.
Qed.

Lemma solve_with_backend_frame fuel s mats nnz esc tl s' :
  solve_with_backend fuel s mats nnz esc tl = Some s' -> solve_frame s s'.
Proof.
  unfold solve_with_backend.
  set (input := solver_input s mats nnz tl).
  set (s1 := if negb (slatercheck (par s) =? 0) then _ else s).
  assert (H1 : solve_frame s s1).
  { subst s1. destruct (negb _); [apply checkSlaterCondition_frame | apply solve_frame_refl]. }
  clearbody s1.
  set (sv := SCIPsdpiSolverLoadAndSolve B (sdpisolver s1) input).
  destruct (negb (SCIPsdpiSolverIsAcceptable B sv) && negb (SCIPsdpiSolverIsTimelimExc B sv)).
  - destruct (SCIPsdpiSolverLoadAndSolveWithPenalty B sv 1 false false input) as [[sv3 fo] pb].
    set (s3 := with_stats _ (with_solver _ _)).
    assert (H3 : solve_frame s s3) by (subst s3; frame_trans).
    clearbody s3.
    destruct (_ || _).
    + intros H; injection H as <-. frame_trans.
    + destruct (penalty_loop _ _ _ _ _) as [st|] eqn:E; [|discriminate].
      intros H; injection H as <-.
      apply penalty_loop_frame in E. cbn [pl_sdpi penalty_start] in E.
      set (s4 := pl_sdpi st) in *.
      set (s5 := if (_ <? _)%Q then _ else s4).
      assert (H5 : solve_frame s4 s5) by (subst s5; destruct (_ <? _)%Q; frame).
      clearbody s5.
      set (s6 := if _ && pl_feasorig st then _ else _).
      assert (H6 : solve_frame s5 s6) by (subst s6; destruct (_ && _); frame).
      clearbody s6.
      set (s7 := if _ && esc then _ else s6).
      assert (H7 : solve_frame s6 s7).
      { subst s7; destruct (_ && _);
          [apply checkSlaterCondition_frame | apply solve_frame_refl]. }
      clearbody s7 s4.
      eauto using solve_frame_trans.
  - intros H; injection H as <-. frame_trans.
Qed.

End SolveFrame.

Section SolveEnds.

Variable B : SDPISOLVER.
Implicit Type s : SCIP_SDPI B.

Local Ltac backend_trans :=
  unfold same_backend in *; cbn in *; intuition congruence.

Lemma same_backend_refl s : same_backend s s.
Proof. unfold same_backend; auto 10. Qed.

Lemma same_backend_trans s1 s2 s3 :
  same_backend s1 s2 -> same_backend s2 s3 -> same_backend s1 s3.
Proof. intros H1 H2. backend_trans. Qed.

Lemma copy_bounds_backend s : same_backend s (copy_bounds s).
Proof.
  unfold copy_bounds.
  apply for_range_invariant with (P := same_backend s); [|apply same_backend_refl].
  intros v s0 H. destruct (infeasible (status s0)); auto.
  destruct (_ <? _)%Q; backend_trans.
Qed.

Lemma prepareLPData_backend s : same_backend s (fst (fst (prepareLPData s))).
Proof. unfold prepareLPData, same_backend; cbn; auto 10. Qed.

Lemma prepare_loop_backend fuel : forall s s' nnz,
  prepare_loop fuel s = Some (s', nnz) -> same_backend s s'.
Proof.
  induction fuel as [|fuel IH]; intros s s' nnz H; cbn [prepare_loop] in H; [discriminate|].
  pose proof (prepareLPData_backend s) as H1.
  destruct (prepareLPData s) as [[s1 n1] f1]; cbn [fst snd] in *.
  destruct (f1 && negb (infeasible (status s1))).
  - eapply same_backend_trans; [exact H1 | eapply IH; exact H].
  - injection H as <- <-. exact H1.
Qed.

Lemma checkFixedFeasibilitySdp_backend s : same_backend s (checkFixedFeasibilitySdp s).
Proof.
  unfold checkFixedFeasibilitySdp.
  destruct (_ <? 0); [apply same_backend_refl|].
  destruct (some_block_infeasible _ _); unfold same_backend; cbn; auto 10.
Qed.

(** the one-variable solver either stores a result and counts it, or leaves
    everything but the certificate value as it is *)
Lemma solve_onevar_cases s mats idx contr :
  let s' := solve_onevar s mats idx contr in
  solve_frame s s' /\ same_backend s s' /\ infeasible (status s') = infeasible (status s)
  \/
  same_problem s s' /\
  ninfeasible (stats s') = ninfeasible (stats s) /\
  nallfixed (stats s') = nallfixed (stats s) /\
  nonevarsdp (stats s') = nonevarsdp (stats s) + 1 /\
  sdpisolver s' = sdpisolver s /\
  solved (status s') = true /\ infeasible (status s') = infeasible (status s) /\
  allfixed (status s') = allfixed (status s) /\ penalty (status s') = penalty (status s) /\
  solvedonevarsdp (status s') <> SCIP_ONEVAR_UNSOLVED.
Proof.
  unfold solve_onevar. cbv zeta. destruct (blocks s) as [|b bs] eqn:Eb.
  - destruct (_ && _).
    + right. destruct (_ <=? _)%Q; unfold same_problem; cbn; rewrite ?Eb;
        repeat split; auto; discriminate.
    + left. split; [apply solve_frame_refl|]. split; [apply same_backend_refl | reflexivity].
  - destruct (SCIPsolveOneVarSDP _ _ _ _ _ _ _ _ _) as [[objval optval] certval].
    destruct (negb _).
    + right. destruct (SCIPsdpiIsInfinity _ _); unfold same_problem; cbn; rewrite ?Eb;
        repeat split; auto; discriminate.
    + left. unfold solve_frame, same_problem, same_counts, same_backend; cbn; rewrite ?Eb.
      auto 30.
Qed.

End SolveEnds.

Section SolveOutcome.

Variable B : SDPISOLVER.
Implicit Type s : SCIP_SDPI B.

Lemma prepared_step s x y :
  prepared s x -> solve_frame x y -> same_backend x y -> prepared s y.
Proof.
  unfold prepared, solve_frame, same_problem, same_counts, same_backend.
  intros Hx Hf Hb. intuition congruence.
Qed.

Lemma exit_infeasible_end s x :
  prepared s x -> infeasible (status x) = true ->
  same_problem s (exit_infeasible x) /\ SolveEnd s (exit_infeasible x).
Proof.
  unfold prepared, same_problem. intros Hx Hi.
  unfold exit_infeasible, debug_incr_sdpid.
  split.
  - destruct (SCIP_DEBUG B); cbn; intuition congruence.
  - apply EndInfeasible; destruct (SCIP_DEBUG B); cbn; intuition congruence.
Qed.

Lemma exit_allfixed_end s x :
  prepared s x -> same_problem s (exit_allfixed x) /\ SolveEnd s (exit_allfixed x).
Proof.
  intros Hx. unfold exit_allfixed.
  pose proof (checkFixedFeasibilitySdp_frame B (with_status (set_allfixed true) x)) as Hf.
  pose proof (checkFixedFeasibilitySdp_backend B (with_status (set_allfixed true) x)) as Hb.
  set (c := checkFixedFeasibilitySdp _) in *. clearbody c.
  unfold prepared, solve_frame, same_problem, same_counts, same_backend in *.
  cbn in Hf, Hb. unfold debug_incr_sdpid.
  split.
  - destruct (SCIP_DEBUG B); cbn; intuition congruence.
  - apply EndAllFixed; destruct (SCIP_DEBUG B); cbn; intuition congruence.
Qed.

Lemma solve_after_preprocessing_end fuel s x nnz esc tl s' :
  prepared s x -> infeasible (status x) = false ->
  solve_after_preprocessing fuel x nnz esc tl = Some s' ->
  same_problem s s' /\ SolveEnd s s'.
Proof.
  intros Hx Hi. unfold solve_after_preprocessing.
  destruct (count_active x) as [[nactivevars activevaridx] fixedvarsobjcontr].
  set (x1 := if nactivevars =? 0 then _ else x).
  destruct (allfixed (status x1)) eqn:Eall.
  - intros H; injection H as <-. apply exit_allfixed_end; exact Hx.
  - assert (Hx1 : x1 = x).
    { subst x1. destruct (nactivevars =? 0); [|reflexivity]. cbn in Eall. discriminate. }
    clearbody x1. subst x1.
    set (mats := snd (compConstMatAfterFixings x)).
    set (x2 := if _ && _ then _ else x).
    assert (H2 : solve_frame x x2 /\ same_backend x x2 /\
                 infeasible (status x2) = infeasible (status x)
                 \/
                 same_problem x x2 /\
                 ninfeasible (stats x2) = ninfeasible (stats x) /\
                 nallfixed (stats x2) = nallfixed (stats x) /\
                 nonevarsdp (stats x2) = nonevarsdp (stats x) + 1 /\
                 sdpisolver x2 = sdpisolver x /\
                 solved (status x2) = true /\
                 infeasible (status x2) = infeasible (status x) /\
                 allfixed (status x2) = allfixed (status x) /\
                 penalty (status x2) = penalty (status x) /\
                 solvedonevarsdp (status x2) <> SCIP_ONEVAR_UNSOLVED).
    { subst x2. destruct (_ && _).
      - apply solve_onevar_cases.
      - left. split; [apply solve_frame_refl|]. split; [apply same_backend_refl|reflexivity]. }
    clearbody x2.
    destruct H2 as [(Hf & Hb & Hi2) | H2].
    + pose proof (prepared_step s x x2 Hx Hf Hb) as Hx2.
      assert (Hs : solved (status x2) = false) by (unfold prepared in Hx2; tauto).
      rewrite Hs. cbn [negb].
      destruct (solve_with_backend fuel x2 mats nnz esc tl) as [x3|] eqn:E; [|discriminate].
      intros H; injection H as <-.
      pose proof (solve_with_backend_frame B fuel x2 mats nnz esc tl x3 E) as Hf3.
      apply solve_with_backend_sdpid in E. destruct E as (_ & Hall & _).
      unfold prepared, solve_frame, same_problem, same_counts in *.
      split; [cbn; intuition congruence|].
      apply EndBackend; cbn; intuition congruence.
    + destruct H2 as (Hp & Hn1 & Hn2 & Hn3 & Hsv & Hs & Hi2 & Ha & Hpen & Ho).
      rewrite Hs. cbn [negb]. intros H; injection H as <-.
      unfold prepared, same_problem in *.
      split; [cbn; intuition congruence|].
      apply EndOneVar; cbn; intuition congruence.
Qed.

(** every returning call of [SCIPsdpiSolve] keeps the problem data and ends
    in one of the five ways of [SolveEnd] *)
Lemma SCIPsdpiSolve_ends fuel s esc tl s' :
  SCIPsdpiSolve fuel s esc tl = Some s' -> same_problem s s' /\ SolveEnd s s'.
Proof.
  unfold SCIPsdpiSolve.
  destruct (tl <=? 0)%Q.
  - intros H; injection H as <-. split.
    + unfold same_problem; cbn; auto 20.
    + apply EndTimelimit; reflexivity.
  - set (s0 := solve_reset s).
    assert (H0 : prepared s s0).
    { unfold prepared, same_problem; subst s0; cbn; auto 30. }
    clearbody s0.
    pose proof (prepared_step s s0 _ H0 (copy_bounds_frame B s0) (copy_bounds_backend B s0))
      as H1.
    set (s1 := copy_bounds s0) in *. clearbody s1.
    destruct (infeasible (status s1)) eqn:Ei1.
    + intros H; injection H as <-. apply exit_infeasible_end; assumption.
    + destruct (prepare_loop fuel s1) as [[s2 nnz]|] eqn:Ep; [|discriminate].
      pose proof (prepared_step s s1 s2 H1 (prepare_loop_frame B fuel s1 s2 nnz Ep)
                    (prepare_loop_backend B fuel s1 s2 nnz Ep)) as H2.
      destruct (infeasible (status s2)) eqn:Ei2.
      * intros H; injection H as <-. apply exit_infeasible_end; assumption.
      * apply solve_after_preprocessing_end; assumption.
Qed.

End SolveOutcome.

(** X4: a call of [SCIPsdpiSolve] never changes the problem: the variables
    with their objective and bounds, the SDP blocks, the parameters and the
    LP rows are the same afterwards (the preprocessing works on the copies
    [sdpilb], [sdpiub], [sdpilp...]); of the LP part only [nactivelpcons] is
    written. *)
Theorem SCIPsdpiSolve_keeps_problem (B : SDPISOLVER) (fuel : nat) (s s' : SCIP_SDPI B)
    (enforceslatercheck : bool) (timelimit : Q) :
  SCIPsdpiSolve fuel s enforceslatercheck timelimit = Some s' ->
  vars s' = vars s /\ blocks s' = blocks s /\ par s' = par s /\
  lp s' = (let l := lp s in
           mkLPDATA (nlpcons l) (lplhs l) (lprhs l) (nactivelpcons (lp s')) (lpnnonz l)
             (lpbeg l) (lpind l) (lpval l)) /\
  lp_rows (lp s') = lp_rows (lp s).
Proof.
  intros H. apply SCIPsdpiSolve_ends in H. destruct H as [H _].
  unfold same_problem in H.
  destruct H as (Hv & Hb & Hp & H1 & H2 & H3 & H4 & H5 & H6 & H7).
  repeat (split; [assumption|]).
  assert (Hlp : lp s' = (let l := lp s in
           mkLPDATA (nlpcons l) (lplhs l) (lprhs l) (nactivelpcons (lp s')) (lpnnonz l)
             (lpbeg l) (lpind l) (lpval l))).
  { destruct (lp s'), (lp s); cbn in *; subst; reflexivity. }
  split; [exact Hlp|]. rewrite Hlp. reflexivity.
Qed.

Lemma SCIPsdpiSolve_keeps_problem_witness :
  exists s', SCIPsdpiSolve 5 one_row false 1 = Some s' /\ vars s' = vars one_row /\
             lp_rows (lp s') = lp_rows (lp one_row).
Proof.
  destruct (SCIPsdpiSolve 5 one_row false 1) as [s'|] eqn:E;
    [|vm_compute in E; discriminate E].
  exists s'. split; [reflexivity|].
  pose proof (SCIPsdpiSolve_keeps_problem failing_backend 5 one_row s' false 1 E) as H.
  split; apply H.
Defined.

(** X5: the three counters of [SCIPsdpiGetStatistics] classify the calls of
    [SCIPsdpiSolve]: a returning call increases at most one of them, by one.
    [ninfeasible] counts the calls that found crossing bounds or an
    infeasible LP row while preparing, [nallfixed] those with all variables
    fixed, [nonevarsdp] those decided by the one-variable solver; in these
    three cases the problem counts as solved and the backend has solved
    nothing (at most its counter was increased).  Otherwise no counter
    changes. *)
Theorem SCIPsdpiSolve_statistics (B : SDPISOLVER) (fuel : nat) (s s' : SCIP_SDPI B)
    (enforceslatercheck : bool) (timelimit : Q) :
  SCIPsdpiSolve fuel s enforceslatercheck timelimit = Some s' ->
  let '(ninf, nfix, none) := SCIPsdpiGetStatistics s in
  (SCIPsdpiGetStatistics s' = (ninf + 1, nfix, none) /\
   solved (status s') = true /\ infeasible (status s') = true /\
   allfixed (status s') = false /\
   sdpisolver s' = SCIPsdpiSolverIncreaseCounter B (sdpisolver s))
  \/
  (SCIPsdpiGetStatistics s' = (ninf, nfix + 1, none) /\
   solved (status s') = true /\ allfixed (status s') = true /\
   sdpisolver s' = SCIPsdpiSolverIncreaseCounter B (sdpisolver s))
  \/
  (SCIPsdpiGetStatistics s' = (ninf, nfix, none + 1) /\
   solved (status s') = true /\ infeasible (status s') = false /\
   allfixed (status s') = false /\ onevar_solved (status s') = true /\
   sdpisolver s' = sdpisolver s)
  \/
  (SCIPsdpiGetStatistics s' = (ninf, nfix, none) /\
   allfixed (status s') = false /\ onevar_solved (status s') = false).
Proof.
  intros H. apply SCIPsdpiSolve_ends in H. destruct H as [_ H].
  unfold SCIPsdpiGetStatistics, onevar_solved.
  destruct H as [Hst Hsv Hs Hi Ha Hp Ho Hv
                |H1 H2 H3 Hsv Hs Hi Ha Hp Ho Hv
                |H1 H2 H3 Hsv Hs Ha Hp Ho Hv
                |H1 H2 H3 Hsv Hs Hi Ha Hp Ho
                |H1 H2 H3 Ha Ho Hv].
  - right; right; right. rewrite Hst, Ha, Ho. cbn. auto.
  - left. rewrite H1, H2, H3. auto.
  - right; left. rewrite H1, H2, H3. auto.
  - right; right; left. rewrite H1, H2, H3.
    destruct (solvedonevarsdp (status s')); [contradiction|auto 10..].
  - right; right; right. rewrite H1, H2, H3, Ha, Ho. auto.
Qed.

Lemma SCIPsdpiSolve_statistics_witness :
  exists s', SCIPsdpiSolve 5 one_row false 1 = Some s' /\
             SCIPsdpiGetStatistics s' = (0, 0, 1).
Proof.
  destruct (SCIPsdpiSolve 5 one_row false 1) as [s'|] eqn:E;
    [|vm_compute in E; discriminate E].
  exists s'. split; [reflexivity|].
  pose proof (SCIPsdpiSolve_statistics failing_backend 5 one_row s' false 1 E) as H.
  cbn in H. destruct H as [H|[H|[H|H]]].
  - exfalso. destruct H as (_ & _ & H & _). vm_compute in E. injection E as <-. discriminate H.
  - exfalso. destruct H as (_ & _ & H & _). vm_compute in E. injection E as <-. discriminate H.
  - apply H.
  - exfalso. destruct H as (_ & _ & H). vm_compute in E. injection E as <-. discriminate H.
Defined.

(** X6: [SCIPsdpiFeasibilityKnown] compares the objective value
    [onevarsdpobjval] (and not the status [solvedonevarsdp]) with
    [SCIP_ONEVAR_UNSOLVED = 0]; after a solve that did not go through the
    one-variable solver this value is [SCIP_INVALID = 1e99], so that for every
    problem that counts as solved the answer is "yes", whatever the backend
    reports. *)
Theorem FeasibilityKnown_after_solve (B : SDPISOLVER) (I : SDPISOLVER_INFO B) (fuel : nat)
    (s s' : SCIP_SDPI B) (enforceslatercheck : bool) (timelimit : Q) :
  SCIPsdpiSolve fuel s enforceslatercheck timelimit = Some s' ->
  solved (status s') = true ->
  solvedonevarsdp (status s') = SCIP_ONEVAR_UNSOLVED ->
  SCIPsdpiFeasibilityKnown I s' = true.
Proof.
  intros H Hs Ho. apply SCIPsdpiSolve_ends in H. destruct H as [_ H].
  unfold SCIPsdpiFeasibilityKnown. rewrite Hs. cbn [negb].
  destruct H as [Hst Hsv Hs' Hi Ha Hp Ho' Hv
                |H1 H2 H3 Hsv Hs' Hi Ha Hp Ho' Hv
                |H1 H2 H3 Hsv Hs' Ha Hp Ho' Hv
                |H1 H2 H3 Hsv Hs' Hi Ha Hp Ho'
                |H1 H2 H3 Ha Ho' Hv].
  - congruence.
  - rewrite Hi. reflexivity.
  - rewrite Ha. destruct (infeasible (status s')); reflexivity.
  - contradiction.
  - rewrite Hv, Ha. change (inject_Z 0 <? SCIP_INVALID)%Q with true.
    destruct (infeasible (status s')); reflexivity.
Qed.

(** ** The lower bound on the objective *)



(** ** Parameters *)

Section ParameterFacts.

Variable B : SDPISOLVER.
Variable I : SDPISOLVER_INFO B.
Implicit Type s : SCIP_SDPI B.

(** X8: a floating point parameter stored in the interface (epsilon, gap
    and feasibility tolerance, the two penalty parameters and the adjustment
    factor) is read back as it was set, whether the backend knows the
    parameter or not; the other such parameters, the integer parameters, the
    problem and the status of the last solve stay as they are.  A parameter
    that is not a floating point parameter is refused with
    [SCIP_PARAMETERUNKNOWN] and nothing changes. *)
Theorem Realpar_round_trip s (type : SCIP_SDPPARAM) (dval d0 : Q) :
  (interface_realpar type = true ->
   forall code s', SCIPsdpiSetRealpar I s type dval = Returns code s' ->
     SCIPsdpiGetRealpar I s' type d0 = Returns SCIP_OKAY dval /\
     (forall type', interface_realpar type' = true -> param_eqb type' type = false ->
        SCIPsdpiGetRealpar I s' type' d0 = SCIPsdpiGetRealpar I s type' d0) /\
     (forall type' i0, interface_intpar type' = true ->
        SCIPsdpiGetIntpar I s' type' i0 = SCIPsdpiGetIntpar I s type' i0) /\
     vars s' = vars s /\ blocks s' = blocks s /\ lp s' = lp s /\ status s' = status s) /\
  (interface_realpar type = false -> solver_realpar type = false ->
   SCIPsdpiSetRealpar I s type dval = Returns SCIP_PARAMETERUNKNOWN s /\
   SCIPsdpiGetRealpar I s type d0 = Returns SCIP_PARAMETERUNKNOWN d0).
Proof.
  split.
  - intros Ht code s' H.
    assert (Hs : par s' = match type with
                          | SCIP_SDPPAR_EPSILON => set_epsilon dval (par s)
                          | SCIP_SDPPAR_GAPTOL => set_gaptol dval (par s)
                          | SCIP_SDPPAR_FEASTOL => set_feastol dval (par s)
                          | SCIP_SDPPAR_PENALTYPARAM => set_penaltyparam dval (par s)
                          | SCIP_SDPPAR_MAXPENALTYPARAM => set_maxpenaltyparam dval (par s)
                          | _ => set_peninfeasadjust dval (par s)
                          end /\
                 vars s' = vars s /\ blocks s' = blocks s /\ lp s' = lp s /\
                 status s' = status s).
    { destruct type; try discriminate Ht; cbn in H;
        try (destruct (SCIPsdpiSolverSetRealpar I _ _ _) as [[] sv]; cbn in H;
             try discriminate H);
        injection H as _ <-; cbn; auto. }
    destruct Hs as (Hp & Hv & Hb & Hl & Hst).
    split; [|split; [|split]].
    + destruct type; try discriminate Ht; cbn; rewrite Hp; reflexivity.
    + intros type' Ht' Hne.
      destruct type; try discriminate Ht; destruct type'; try discriminate Ht';
        try discriminate Hne; cbn; rewrite Hp; reflexivity.
    + intros type' i0 Ht'.
      destruct type; try discriminate Ht; destruct type'; try discriminate Ht';
        cbn; rewrite Hp; reflexivity.
    + auto.
  - intros Ht Hs. destruct type; try discriminate Ht; try discriminate Hs; split; reflexivity.
Qed.

(** X9: the integer parameters stored in the interface ([slatercheck] and
    [npenaltyincr]) are read back as they were set, no value is refused, and
    nothing else changes; in particular the status of the last solve is
    kept. *)
Theorem Intpar_round_trip s (type : SCIP_SDPPARAM) (ival i0 : Z) :
  interface_intpar type = true ->
  exists s',
    SCIPsdpiSetIntpar I s type ival = Returns SCIP_OKAY s' /\
    SCIPsdpiGetIntpar I s' type i0 = Returns SCIP_OKAY ival /\
    (forall type', interface_intpar type' = true -> param_eqb type' type = false ->
       SCIPsdpiGetIntpar I s' type' i0 = SCIPsdpiGetIntpar I s type' i0) /\
    (forall type' d0, interface_realpar type' = true ->
       SCIPsdpiGetRealpar I s' type' d0 = SCIPsdpiGetRealpar I s type' d0) /\
    sdpisolver s' = sdpisolver s /\ vars s' = vars s /\ blocks s' = blocks s /\
    lp s' = lp s /\ status s' = status s.
Proof.
  intros Ht. destruct type; try discriminate Ht; cbn; eexists; (split; [reflexivity|]);
    cbn; (split; [reflexivity|]); (split; [|split; [|auto 10]]).
  all: intros type'; intros; destruct type'; try discriminate; reflexivity.
Qed.

(** X10: after [SCIPsdpiComputeMaxPenaltyparam] the penalty parameter is at
    most the maximal penalty parameter: the maximal one is what the backend
    computed, and the initial one is lowered to it if it was larger. *)
Theorem ComputeMaxPenaltyparam_orders s (penaltyparam' : Q) :
  let '(s', m) := SCIPsdpiComputeMaxPenaltyparam I s penaltyparam' in
  maxpenaltyparam (par s') = m /\
  m = snd (SCIPsdpiSolverComputeMaxPenaltyparam I (sdpisolver s) penaltyparam') /\
  penaltyparam (par s') = MIN (penaltyparam (par s)) m /\
  (penaltyparam (par s') <= maxpenaltyparam (par s'))%Q.
Proof.
  unfold SCIPsdpiComputeMaxPenaltyparam, MIN.
  destruct (SCIPsdpiSolverComputeMaxPenaltyparam I (sdpisolver s) penaltyparam')
    as [sv m]. cbn.
  destruct (Qltb_spec m (penaltyparam (par s))) as [Hlt | Hge]; cbn.
  - repeat split; try reflexivity; [|lra].
    destruct (Qleb_spec (penaltyparam (par s)) m) as [Hle|_]; [lra | reflexivity].
  - repeat split; try reflexivity; [|lra].
    destruct (Qleb_spec (penaltyparam (par s)) m) as [_|Hgt]; [reflexivity | lra].
Qed.

(** X11: the verdicts of [SCIPsdpiSlaterSettings] are sound for the stored
    Slater results: a "with Slater" verdict is only given when the primal and
    the dual Slater condition hold, an "infeasible" verdict only when the
    dual Slater check found infeasibility, and a "no Slater" verdict only
    when one of the two conditions fails.  For a problem solved by the
    backend without penalty whose primal check gave no information, the
    verdict for a failing dual condition is overwritten by "no information"
    (the first [if] of that case has no [else]). *)
Theorem SlaterSettings_sound s (r0 : SCIP_SDPSLATERSETTING) :
  let r := SCIPsdpiSlaterSettings I s r0 in
  (verdict_wslater r = true ->
   primalslater (status s) = SCIP_SDPSLATER_HOLDS /\
   dualslater (status s) = SCIP_SDPSLATER_HOLDS) /\
  (verdict_infeasible r = true -> dualslater (status s) = SCIP_SDPSLATER_INF) /\
  (verdict_noslater r = true ->
   primalslater (status s) = SCIP_SDPSLATER_NOT \/
   dualslater (status s) = SCIP_SDPSLATER_NOT) /\
  (solved (status s) = true -> infeasible (status s) = false ->
   allfixed (status s) = false -> onevar_solved (status s) = false ->
   penalty (status s) = false ->
   primalslater (status s) = SCIP_SDPSLATER_NOINFO ->
   dualslater (status s) = SCIP_SDPSLATER_NOT ->
   r = SCIP_SDPSLATERSETTING_NOINFO).
Proof.
  unfold SCIPsdpiSlaterSettings, slater_unsolved, by_usedsetting. cbv zeta.
  destruct (solved (status s)), (infeasible (status s)), (penalty (status s)),
    (allfixed (status s)), (onevar_solved (status s)),
    (primalslater (status s)), (dualslater (status s));
    cbn;
    try destruct (_ <? _)%Q; cbn;
    try destruct (SCIPsdpiSolverSettingsUsed I (sdpisolver s)); cbn;
    repeat split; intros; try discriminate; auto.
Qed.

End ParameterFacts.

(** ** Writing through an index array and reading ranges *)

Section ScatterLoops.

Variables (A : Type) (d : A).
(** position written and value stored by the pass [i] of the loop *)
Variables (g : Z -> Z) (f : Z -> A).

Local Abbreviation body := (fun (i : Z) (a : list A) => Arr.set a (g i) (f i)).

Lemma scatter_length n : forall i0 a,
  length (Arr.for_loop n i0 body a) = length a.
Proof.
  induction n as [|n IH]; intros i0 a; cbn; [reflexivity|].
  rewrite IH. apply set_length.
Qed.

(** a position that no pass writes keeps its value *)
Lemma scatter_untouched n : forall i0 a j,
  (forall k, i0 <= k < i0 + Z.of_nat n -> g k <> j) ->
  Arr.get d (Arr.for_loop n i0 body a) j = Arr.get d a j.
Proof.
  induction n as [|n IH]; intros i0 a j H; cbn [Arr.for_loop]; [reflexivity|].
  rewrite IH by (intros k Hk; apply H; lia).
  apply get_set_other. apply H. lia.
Qed.

(** the last pass that writes a position decides its value *)
Lemma scatter_last n : forall i0 a k,
  i0 <= k < i0 + Z.of_nat n ->
  0 <= g k < Z.of_nat (length a) ->
  (forall k', k < k' < i0 + Z.of_nat n -> g k' <> g k) ->
  Arr.get d (Arr.for_loop n i0 body a) (g k) = f k.
Proof.
  induction n as [|n IH]; intros i0 a k Hk Hg Hlast; cbn [Arr.for_loop]; [lia|].
  destruct (Z.eq_dec k i0) as [-> | Hne].
  - rewrite scatter_untouched by (intros k' Hk'; apply Hlast; lia).
    apply get_set_same. assumption.
  - apply IH; [lia | rewrite set_length; assumption | intros k' Hk'; apply Hlast; lia].
Qed.

End ScatterLoops.

(** a loop over a pair of arrays that are written independently *)
Lemma for_loop_pair (S T : Type) (F : Z -> S -> S) (G : Z -> T -> T) n : forall i0 x y,
  Arr.for_loop n i0 (fun i '(a, b) => (F i a, G i b)) (x, y)
  = (Arr.for_loop n i0 F x, Arr.for_loop n i0 G y).
Proof.
  induction n as [|n IH]; intros i0 x y; cbn; [reflexivity|]. apply IH.
Qed.

Section DataRoundTrips.

Variable B : SDPISOLVER.
Implicit Type s : SCIP_SDPI B.

Lemma range_ok_true first last n :
  range_ok first last n = true <-> 0 <= first /\ first <= last /\ last < n.
Proof. unfold range_ok. rewrite !andb_true_iff, !Z.leb_le, Z.ltb_lt. tauto. Qed.

(** X12: [SCIPsdpiGetObj] reads back what [SCIPsdpiChgObj] has stored: the
    coefficient of a variable named in the index array is the value given
    with its last occurrence there, and the coefficient of a variable not
    named is unchanged. *)
Theorem ChgObj_GetObj s (n : Z) (ind : list Z) (obj' : list Q) (v : Z) (vals : list Q) :
  0 <= v < nvars (vars s) ->
  v < Z.of_nat (length (obj (vars s))) ->
  (0 < length vals)%nat ->
  exists vals',
    SCIPsdpiGetObj (SCIPsdpiChgObj s n ind obj') v v vals = Returns SCIP_OKAY vals' /\
    length vals' = length vals /\
    (forall k, 0 <= k < n -> Arr.get 0 ind k = v ->
       (forall k', k < k' < n -> Arr.get 0 ind k' <> v) ->
       Arr.get 0%Q vals' 0 = Arr.get 0%Q obj' k) /\
    ((forall k, 0 <= k < n -> Arr.get 0 ind k <> v) ->
     Arr.get 0%Q vals' 0 = Arr.get 0%Q (obj (vars s)) v).
Proof.
  intros Hv Hcap Hvals. unfold SCIPsdpiGetObj.
  assert (Hr : range_ok v v (nvars (vars (SCIPsdpiChgObj s n ind obj'))) = true).
  { apply range_ok_true. cbn. lia. }
  rewrite Hr. cbn [negb]. eexists. split; [reflexivity|].
  unfold Arr.for_range. rewrite !Z.sub_0_r.
  replace (v - v + 1) with 1 by lia.
  split; [apply scatter_length|].
  rewrite (scatter_last Q 0%Q (fun i => i)
             (fun i => Arr.get 0%Q (obj (vars (SCIPsdpiChgObj s n ind obj'))) (v + i)))
    by (cbn; lia).
  rewrite Z.add_0_r. cbn [SCIPsdpiChgObj vars with_vars with_status with_stats obj].
  unfold Arr.for_range. rewrite Z.sub_0_r.
  split.
  - intros k Hk Hind Hlast. rewrite <- Hind.
    apply (scatter_last Q 0%Q (fun i => Arr.get 0 ind i) (fun i => Arr.get 0%Q obj' i)).
    + lia.
    + rewrite Hind. lia.
    + intros k' Hk'. rewrite Hind. apply Hlast. lia.
  - intros Hnone.
    apply (scatter_untouched Q 0%Q (fun i => Arr.get 0 ind i) (fun i => Arr.get 0%Q obj' i)).
    intros k Hk. apply Hnone. lia.
Qed.

(** X13: [SCIPsdpiGetBounds] reads back what [SCIPsdpiChgBounds] has
    stored: the bounds of a variable named in the index array are those given
    with its last occurrence there, and the bounds of a variable not named
    are unchanged. *)
Theorem ChgBounds_GetBounds s (n : Z) (ind : list Z) (lb' ub' : list Q) (v : Z)
    (lbs ubs : list Q) :
  0 <= v < nvars (vars s) ->
  v < Z.of_nat (length (lb (vars s))) ->
  v < Z.of_nat (length (ub (vars s))) ->
  (0 < length lbs)%nat -> (0 < length ubs)%nat ->
  exists lbs' ubs',
    SCIPsdpiGetBounds (SCIPsdpiChgBounds s n ind lb' ub') v v lbs ubs
    = Returns SCIP_OKAY (lbs', ubs') /\
    (forall k, 0 <= k < n -> Arr.get 0 ind k = v ->
       (forall k', k < k' < n -> Arr.get 0 ind k' <> v) ->
       Arr.get 0%Q lbs' 0 = Arr.get 0%Q lb' k /\ Arr.get 0%Q ubs' 0 = Arr.get 0%Q ub' k) /\
    ((forall k, 0 <= k < n -> Arr.get 0 ind k <> v) ->
     Arr.get 0%Q lbs' 0 = Arr.get 0%Q (lb (vars s)) v /\
     Arr.get 0%Q ubs' 0 = Arr.get 0%Q (ub (vars s)) v).
Proof.
  intros Hv Hcl Hcu Hl Hu. unfold SCIPsdpiGetBounds.
  assert (Hr : range_ok v v (nvars (vars (SCIPsdpiChgBounds s n ind lb' ub'))) = true).
  { apply range_ok_true. cbn. lia. }
  rewrite Hr. cbn [negb].
  unfold Arr.for_range. rewrite !Z.sub_0_r.
  replace (v - v + 1) with 1 by lia.
  rewrite (for_loop_pair _ _
             (fun i l => Arr.set l i (Arr.get 0%Q (lb (vars (SCIPsdpiChgBounds s n ind lb' ub')))
                                        (v + i)))
             (fun i u => Arr.set u i (Arr.get 0%Q (ub (vars (SCIPsdpiChgBounds s n ind lb' ub')))
                                        (v + i)))).
  eexists. eexists. split; [reflexivity|].
  rewrite (scatter_last Q 0%Q (fun i => i)
             (fun i => Arr.get 0%Q (lb (vars (SCIPsdpiChgBounds s n ind lb' ub'))) (v + i)))
    by (cbn; lia).
  rewrite (scatter_last Q 0%Q (fun i => i)
             (fun i => Arr.get 0%Q (ub (vars (SCIPsdpiChgBounds s n ind lb' ub'))) (v + i)))
    by (cbn; lia).
  rewrite Z.add_0_r.
  cbn [SCIPsdpiChgBounds invalidate vars with_vars with_status with_stats lb ub].
  unfold Arr.for_range. rewrite Z.sub_0_r.
  split.
  - intros k Hk Hind Hlast. rewrite <- Hind. split.
    + apply (scatter_last Q 0%Q (fun i => Arr.get 0 ind i) (fun i => Arr.get 0%Q lb' i));
        [lia | rewrite Hind; lia | intros k' Hk'; rewrite Hind; apply Hlast; lia].
    + apply (scatter_last Q 0%Q (fun i => Arr.get 0 ind i) (fun i => Arr.get 0%Q ub' i));
        [lia | rewrite Hind; lia | intros k' Hk'; rewrite Hind; apply Hlast; lia].
  - intros Hnone. split.
    + apply (scatter_untouched Q 0%Q (fun i => Arr.get 0 ind i) (fun i => Arr.get 0%Q lb' i)).
      intros k Hk. apply Hnone. lia.
    + apply (scatter_untouched Q 0%Q (fun i => Arr.get 0 ind i) (fun i => Arr.get 0%Q ub' i)).
      intros k Hk. apply Hnone. lia.
Qed.

(** X14: [SCIPsdpiGetLhSides] and [SCIPsdpiGetRhSides] store at the
    positions [firstrow .. lastrow] of the array handed in the sides of the
    rows [0 .. lastrow - firstrow] (the two indices of the copy loop are
    exchanged): the sides of the rows asked for are returned only for
    [firstrow = 0].  The other positions of the array are not written. *)
Theorem GetSides_positions s (firstrow lastrow : Z) (lhss rhss : list Q) :
  0 <= firstrow -> firstrow <= lastrow -> lastrow < nlpcons (lp s) ->
  lastrow < Z.of_nat (length lhss) -> lastrow < Z.of_nat (length rhss) ->
  exists lhss' rhss',
    SCIPsdpiGetLhSides s firstrow lastrow lhss = Returns SCIP_OKAY lhss' /\
    SCIPsdpiGetRhSides s firstrow lastrow rhss = Returns SCIP_OKAY rhss' /\
    (forall i, 0 <= i <= lastrow - firstrow ->
       Arr.get 0%Q lhss' (firstrow + i) = Arr.get 0%Q (lplhs (lp s)) i /\
       Arr.get 0%Q rhss' (firstrow + i) = Arr.get 0%Q (lprhs (lp s)) i) /\
    (forall j, j < firstrow \/ lastrow < j ->
       Arr.get 0%Q lhss' j = Arr.get 0%Q lhss j /\
       Arr.get 0%Q rhss' j = Arr.get 0%Q rhss j).
Proof.
  intros H0 H1 H2 Hl Hr. unfold SCIPsdpiGetLhSides, SCIPsdpiGetRhSides.
  assert (Hok : range_ok firstrow lastrow (nlpcons (lp s)) = true)
    by (apply range_ok_true; lia).
  rewrite Hok. cbn [negb]. eexists. eexists.
  split; [reflexivity|]. split; [reflexivity|].
  unfold Arr.for_range. rewrite Z.sub_0_r.
  split.
  - intros i Hi. split.
    + apply (scatter_last Q 0%Q (fun i => firstrow + i)
               (fun i => Arr.get 0%Q (lplhs (lp s)) i)); lia.
    + apply (scatter_last Q 0%Q (fun i => firstrow + i)
               (fun i => Arr.get 0%Q (lprhs (lp s)) i)); lia.
  - intros j Hj. split.
    + apply (scatter_untouched Q 0%Q (fun i => firstrow + i)
               (fun i => Arr.get 0%Q (lplhs (lp s)) i)); lia.
    + apply (scatter_untouched Q 0%Q (fun i => firstrow + i)
               (fun i => Arr.get 0%Q (lprhs (lp s)) i)); lia.
Qed.

End DataRoundTrips.

Lemma FeasibilityKnown_after_solve_witness :
  exists s', SCIPsdpiSolve 5 three_rows_accepting false 1 = Some s' /\
             SCIPsdpiSolverFeasibilityKnown (silent_info accepting_backend) (sdpisolver s')
             = false /\
             SCIPsdpiFeasibilityKnown (silent_info accepting_backend) s' = true.
Proof.
  destruct (SCIPsdpiSolve 5 three_rows_accepting false 1) as [s'|] eqn:E;
    [|vm_compute in E; discriminate E].
  exists s'. split; [reflexivity|]. split; [reflexivity|].
  apply (FeasibilityKnown_after_solve accepting_backend (silent_info accepting_backend)
           5 three_rows_accepting s' false 1 E).
  - vm_compute in E. injection E as <-. reflexivity.
  - vm_compute in E. injection E as <-. reflexivity.
Defined.

(** the backend does not know the parameter, and the value is stored all the
    same *)
Lemma Realpar_round_trip_witness :
  exists s',
    SCIPsdpiSetRealpar (silent_info failing_backend) three_rows_solved SCIP_SDPPAR_FEASTOL
      (1 # 1000) = Returns SCIP_PARAMETERUNKNOWN s' /\
    SCIPsdpiGetRealpar (silent_info failing_backend) s' SCIP_SDPPAR_FEASTOL 0
    = Returns SCIP_OKAY (1 # 1000)%Q /\
    status s' = status three_rows_solved.
Proof.
  eexists. split; [reflexivity|].
  pose proof (Realpar_round_trip failing_backend (silent_info failing_backend)
                three_rows_solved SCIP_SDPPAR_FEASTOL (1 # 1000)%Q 0%Q) as [R _].
  specialize (R eq_refl _ _ eq_refl). split; apply R.
Defined.

Lemma Intpar_round_trip_witness :
  exists s',
    SCIPsdpiSetIntpar (silent_info failing_backend) three_rows SCIP_SDPPAR_NPENALTYINCR 3
    = Returns SCIP_OKAY s' /\
    SCIPsdpiGetIntpar (silent_info failing_backend) s' SCIP_SDPPAR_NPENALTYINCR 0
    = Returns SCIP_OKAY 3.
Proof.
  destruct (Intpar_round_trip failing_backend (silent_info failing_backend) three_rows
              SCIP_SDPPAR_NPENALTYINCR 3 0 eq_refl) as (s' & H1 & H2 & _).
  exists s'. split; assumption.
Defined.

Lemma SlaterSettings_sound_witness :
  SCIPsdpiSlaterSettings (silent_info accepting_backend)
    (with_status (fun t => set_slater SCIP_SDPSLATER_NOINFO SCIP_SDPSLATER_NOT
                             (set_solved true t)) three_rows_accepting)
    SCIP_SDPSLATERSETTING_STABLEWSLATER
  = SCIP_SDPSLATERSETTING_NOINFO.
Proof.
  apply (SlaterSettings_sound accepting_backend (silent_info accepting_backend)
           (with_status (fun t => set_slater SCIP_SDPSLATER_NOINFO SCIP_SDPSLATER_NOT
                                    (set_solved true t)) three_rows_accepting)
           SCIP_SDPSLATERSETTING_STABLEWSLATER); reflexivity.
Defined.

Lemma ChgObj_GetObj_witness :
  exists vals',
    SCIPsdpiGetObj (SCIPsdpiChgObj three_rows 2 [1; 1] [7 # 1; 9 # 1]) 1 1 [0%Q]
    = Returns SCIP_OKAY vals' /\
    Arr.get 0%Q vals' 0 = (9 # 1)%Q.
Proof.
  destruct (ChgObj_GetObj failing_backend three_rows 2 [1; 1] [7 # 1; 9 # 1]%Q 1 [0%Q])
    as (vals' & H1 & _ & H2 & _); [cbn; lia | cbn; lia | cbn; lia |].
  exists vals'. split; [exact H1|].
  apply (H2 1); [lia | reflexivity | intros k' Hk'; lia].
Defined.

Lemma ChgBounds_GetBounds_witness :
  exists lbs' ubs',
    SCIPsdpiGetBounds (SCIPsdpiChgBounds three_rows 1 [0] [2 # 1] [3 # 1]) 0 0 [0%Q] [0%Q]
    = Returns SCIP_OKAY (lbs', ubs') /\
    Arr.get 0%Q lbs' 0 = (2 # 1)%Q /\ Arr.get 0%Q ubs' 0 = (3 # 1)%Q.
Proof.
  destruct (ChgBounds_GetBounds failing_backend three_rows 1 [0] [2 # 1]%Q [3 # 1]%Q 0
              [0%Q] [0%Q])
    as (lbs' & ubs' & H1 & H2 & _); [cbn; lia..|].
  exists lbs', ubs'. split; [exact H1|].
  apply (H2 0); [lia | reflexivity | intros k' Hk'; lia].
Defined.

(** asked for the sides of the rows 1 and 2 of the three-row problem, the
    call returns those of the rows 0 and 1 *)
Lemma GetSides_positions_witness :
  exists lhss' rhss',
    SCIPsdpiGetLhSides three_rows 1 2 [0%Q; 0%Q; 0%Q] = Returns SCIP_OKAY lhss' /\
    SCIPsdpiGetRhSides three_rows 1 2 [0%Q; 0%Q; 0%Q] = Returns SCIP_OKAY rhss' /\
    Arr.get 0%Q lhss' 1 = Arr.get 0%Q (lplhs (lp three_rows)) 0 /\
    Arr.get 0%Q rhss' 2 = Arr.get 0%Q (lprhs (lp three_rows)) 1.
Proof.
  destruct (GetSides_positions failing_backend three_rows 1 2 [0%Q; 0%Q; 0%Q]
              [0%Q; 0%Q; 0%Q])
    as (lhss' & rhss' & H1 & H2 & H3 & _); [cbn; lia..|].
  exists lhss', rhss'. split; [exact H1|]. split; [exact H2|]. split.
  - apply (H3 0). lia.
  - apply (H3 1). lia.
Defined.

(** ** Solving the cleared problem *)

(** X15: after [SCIPsdpiClear] the problem has no variables, blocks or rows,
    and a solve of it (with time left) ends at once with all variables fixed:
    the problem counts as solved to optimality with objective value 0 and
    the backend has solved nothing. *)
Theorem solve_after_clear (B : SDPISOLVER) (I : SDPISOLVER_INFO B) (s : SCIP_SDPI B)
    (fuel : nat) (enforceslatercheck : bool) (timelimit objval : Q) :
  (0 < timelimit)%Q ->
  let c := SCIPsdpiClear I s in
  SCIPsdpiGetNVars c = 0 /\ SCIPsdpiGetNSDPBlocks c = 0 /\ SCIPsdpiGetNLPRows c = 0 /\
  SCIPsdpiGetLPNNonz c = 0 /\ lp_rows (lp c) = [] /\ status c = status s /\
  exists s',
    SCIPsdpiSolve (S fuel) c enforceslatercheck timelimit = Some s' /\
    SCIPsdpiIsOptimal s' = true /\
    SCIPsdpiGetObjval s' objval = Returns SCIP_OKAY 0%Q /\
    sdpisolver s'
    = SCIPsdpiSolverIncreaseCounter B (SCIPsdpiSolverResetCounter I (sdpisolver s)).
Proof.
  intros Htl. cbv zeta. repeat (split; [reflexivity|]).
  unfold SCIPsdpiSolve. apply Qleb_false in Htl. rewrite Htl.
  cbn. unfold exit_allfixed, checkFixedFeasibilitySdp, debug_incr_sdpid,
    SCIPsdpiIsOptimal, SCIPsdpiGetObjval. cbn.
  destruct (SCIP_DEBUG B); eexists; (split; [reflexivity|]); repeat split; reflexivity.
Qed.

Lemma solve_after_clear_witness :
  exists s',
    SCIPsdpiSolve 1 (SCIPsdpiClear (silent_info failing_backend) three_rows_solved) false 1
    = Some s' /\
    SCIPsdpiIsOptimal s' = true.
Proof.
  destruct (solve_after_clear failing_backend (silent_info failing_backend) three_rows_solved
              0 false 1 0) as (_ & _ & _ & _ & _ & _ & s' & H1 & H2 & _); [reflexivity|].
  exists s'. split; assumption.
Defined.


(** ** Crossing bounds *)

Section CrossingBounds.

Variable B : SDPISOLVER.
Implicit Type s : SCIP_SDPI B.

Local Abbreviation copy_body :=
  (fun (v : Z) (s : SCIP_SDPI B) =>
     if infeasible (status s) then s
     else
       let lbv := Arr.get 0%Q (lb (vars s)) v in
       let ubv := Arr.get 0%Q (ub (vars s)) v in
       let s1 := with_prep (fun w =>
                   mkPREP (sdpilpindchanges w) (sdpilplhs w) (sdpilprhs w)
                     (Arr.set (sdpilb w) v lbv) (Arr.set (sdpiub w) v ubv)
                     (sdpilbrowidx w) (sdpiubrowidx w) (sdpilpbeg w) (sdpilpind w)
                     (sdpilpval w)) s in
       if (ubv <? lbv - feastol (par s))%Q then with_status (set_infeasible true) s1 else s1).

Lemma copy_loop_crossing s n : forall i0 (x : SCIP_SDPI B),
  vars x = vars s -> par x = par s ->
  (infeasible (status (Arr.for_loop n i0 copy_body x)) = true <->
   infeasible (status x) = true \/ exists v, i0 <= v < i0 + Z.of_nat n /\ crossing s v).
Proof.
  induction n as [|n IH]; intros i0 x Hv Hp; cbn [Arr.for_loop].
  - split; [auto|]. intros [H|(v & Hr & _)]; [exact H | lia].
  - destruct (infeasible (status x)) eqn:Ei.
    + rewrite IH by assumption. rewrite Ei. split; auto.
    + destruct (Qltb_spec (Arr.get 0%Q (ub (vars x)) i0)
                  (Arr.get 0%Q (lb (vars x)) i0 - feastol (par x))) as [Hc|Hc].
      * rewrite IH by assumption. cbn. split; [intros _|auto].
        right. exists i0. split; [lia|]. unfold crossing. rewrite <- Hv, <- Hp. exact Hc.
      * rewrite IH by assumption. cbn. rewrite Ei. split.
        -- intros [H|(v & Hr & Hx)]; [discriminate|]. right. exists v. split; [lia|exact Hx].
        -- intros [H|(v & Hr & Hx)]; [discriminate|].
           destruct (Z.eq_dec v i0) as [->|Hne].
           ++ exfalso. unfold crossing in Hx. rewrite <- Hv, <- Hp in Hx. lra.
           ++ right. exists v. split; [lia|exact Hx].
Qed.

Lemma copy_bounds_crossing s :
  infeasible (status s) = false ->
  (infeasible (status (copy_bounds s)) = true <->
   exists v, 0 <= v < nvars (vars s) /\ crossing s v).
Proof.
  intros Hi. unfold copy_bounds, Arr.for_range.
  rewrite (copy_loop_crossing s) by reflexivity. rewrite Hi, Z.sub_0_r.
  split.
  - intros [H|(v & Hr & Hx)]; [discriminate|]. exists v. split; [lia|exact Hx].
  - intros (v & Hr & Hx). right. exists v. split; [lia|exact Hx].
Qed.

(** X16: if the bounds of some variable cross by more than [feastol], a call
    of [SCIPsdpiSolve] with a positive time limit returns without any
    preprocessing pass and without a backend solve: the problem counts as
    solved and infeasible, [ninfeasible] is increased, the dual is reported
    infeasible and the objective value is plus infinity. *)
Theorem crossing_bounds_infeasible (I : SDPISOLVER_INFO B) (fuel : nat) s
    (enforceslatercheck : bool) (timelimit objval : Q) (v : Z) :
  (0 < timelimit)%Q ->
  0 <= v < nvars (vars s) ->
  crossing s v ->
  exists s',
    SCIPsdpiSolve fuel s enforceslatercheck timelimit = Some s' /\
    solved (status s') = true /\ infeasible (status s') = true /\
    allfixed (status s') = false /\
    ninfeasible (stats s') = ninfeasible (stats s) + 1 /\
    sdpisolver s' = SCIPsdpiSolverIncreaseCounter B (sdpisolver s) /\
    SCIPsdpiIsDualInfeasible s' = true /\
    SCIPsdpiIsOptimal s' = false /\
    SCIPsdpiGetObjval s' objval = Returns SCIP_OKAY (SCIPsdpiInfinity s').
Proof.
  intros Htl Hv Hx. unfold SCIPsdpiSolve.
  apply Qleb_false in Htl. rewrite Htl.
  assert (Hc : infeasible (status (copy_bounds (solve_reset s))) = true).
  { apply copy_bounds_crossing; [reflexivity|]. exists v. split; [exact Hv|exact Hx]. }
  rewrite Hc. eexists. split; [reflexivity|].
  pose proof (copy_bounds_backend B (solve_reset s)) as Hb.
  pose proof (copy_bounds_frame B (solve_reset s)) as Hf.
  set (c := copy_bounds (solve_reset s)) in *. clearbody c.
  unfold same_backend, solve_frame, same_counts in *. cbn in Hb, Hf.
  destruct Hb as (Hsv & Hst & Hs & Hp & Ha & Ho & Hov).
  unfold SCIPsdpiIsDualInfeasible, SCIPsdpiIsOptimal, SCIPsdpiGetObjval, SCIPsdpiInfinity,
    exit_infeasible, debug_incr_sdpid.
  destruct (SCIP_DEBUG B); cbn; rewrite ?Hc, ?Ha, ?Hst, ?Hsv; cbn; repeat split; reflexivity.
Qed.

End CrossingBounds.

Lemma crossing_bounds_infeasible_witness :
  exists s',
    SCIPsdpiSolve 0 crossing_bounds false 1 = Some s' /\
    infeasible (status s') = true /\
    SCIPsdpiGetObjval s' 0 = Returns SCIP_OKAY (inject_Z (10 ^ 20)).
Proof.
  destruct (crossing_bounds_infeasible failing_backend (silent_info failing_backend) 0
              crossing_bounds false 1 0 0)
    as (s' & H1 & _ & H2 & _ & _ & _ & _ & _ & H3);
    [reflexivity | cbn; lia | reflexivity |].
  exists s'. split; [exact H1|]. split; [exact H2|exact H3].
Defined.

(** ** The objective value of the solution handed out *)

(** an invariant that depends on the position of the loop *)
Lemma for_loop_indexed (T : Type) (P : Z -> T -> Prop) (body : Z -> T -> T) n : forall i0 x,
  (forall i y, i0 <= i < i0 + Z.of_nat n -> P i y -> P (i + 1) (body i y)) ->
  P i0 x -> P (i0 + Z.of_nat n) (Arr.for_loop n i0 body x).
Proof.
  induction n as [|n IH]; intros i0 x Hstep H0; cbn [Arr.for_loop].
  - replace (i0 + Z.of_nat 0) with i0 by lia. exact H0.
  - replace (i0 + Z.of_nat (S n)) with (i0 + 1 + Z.of_nat n) by lia.
    apply IH.
    + intros i y Hi. apply Hstep. lia.
    + apply Hstep; [lia | exact H0].
Qed.

Lemma sum_loop_ext (f g : Z -> Q) n : forall i0 (a a' : Q),
  (forall v, i0 <= v < i0 + Z.of_nat n -> (f v == g v)%Q) -> (a == a')%Q ->
  (Arr.for_loop n i0 (fun v acc => (acc + f v)%Q) a
   == Arr.for_loop n i0 (fun v acc => (acc + g v)%Q) a')%Q.
Proof.
  induction n as [|n IH]; intros i0 a a' H Ha; cbn [Arr.for_loop]; [exact Ha|].
  apply IH; [intros v Hv; apply H; lia|].
  rewrite Ha, (H i0) by lia. reflexivity.
Qed.

Section ReportedObjective.

Variable B : SDPISOLVER.
Implicit Type s : SCIP_SDPI B.

(** the solution vector handed out when all variables are fixed *)
Lemma fixedvalues_get s (d : list Q) :
  nvars (vars s) <= Z.of_nat (length d) ->
  let d' := Arr.for_range 0 (nvars (vars s))
              (fun v a => Arr.set a v (Arr.get 0%Q (sdpilb (prep s)) v)) d in
  length d' = length d /\
  (forall v, 0 <= v < nvars (vars s) -> Arr.get 0%Q d' v = Arr.get 0%Q (sdpilb (prep s)) v) /\
  (forall v, v < 0 \/ nvars (vars s) <= v -> Arr.get 0%Q d' v = Arr.get 0%Q d v).
Proof.
  intros Hcap. cbv zeta. unfold Arr.for_range. rewrite Z.sub_0_r.
  split; [apply scatter_length|]. split.
  - intros v Hv.
    apply (scatter_last Q 0%Q (fun i => i) (fun i => Arr.get 0%Q (sdpilb (prep s)) i)); lia.
  - intros v Hv.
    apply (scatter_untouched Q 0%Q (fun i => i) (fun i => Arr.get 0%Q (sdpilb (prep s)) i)).
    lia.
Qed.

(** X17: when all variables are fixed (and the fixed point is feasible),
    [SCIPsdpiGetDualSol] hands out the fixed values as the solution, leaves
    the rest of the array as it is, and the objective value it returns, the
    one of [SCIPsdpiGetObjval], is the objective of that solution. *)
Theorem allfixed_dual_solution s (objval : Q) (dualsol : list Q) :
  solved (status s) = true -> infeasible (status s) = false ->
  allfixed (status s) = true ->
  nvars (vars s) <= Z.of_nat (length dualsol) ->
  exists objval' dualsol',
    SCIPsdpiGetDualSol s (Some objval) (Some dualsol)
    = Returns SCIP_OKAY (Some objval', Some dualsol') /\
    SCIPsdpiGetObjval s objval = Returns SCIP_OKAY objval' /\
    length dualsol' = length dualsol /\
    (forall v, 0 <= v < nvars (vars s) ->
       Arr.get 0%Q dualsol' v = Arr.get 0%Q (sdpilb (prep s)) v) /\
    (forall v, v < 0 \/ nvars (vars s) <= v ->
       Arr.get 0%Q dualsol' v = Arr.get 0%Q dualsol v) /\
    (objval' == objective_at s dualsol')%Q.
Proof.
  intros Hs Hi Ha Hcap.
  unfold SCIPsdpiGetDualSol, SCIPsdpiGetObjval. rewrite Hs, Hi, Ha. cbn [negb].
  eexists. eexists. split; [reflexivity|]. split; [reflexivity|].
  destruct (fixedvalues_get s dualsol Hcap) as (Hlen & Hin & Hout).
  split; [exact Hlen|]. split; [exact Hin|]. split; [exact Hout|].
  unfold objective_at, Arr.for_range.
  apply sum_loop_ext; [|reflexivity].
  intros v Hv. rewrite Hin by lia. apply Qmult_comm.
Qed.

(** the two loops over the variables, run together *)
Lemma count_active_objective s (y : list Q) :
  (forall v, 0 <= v < nvars (vars s) -> isFixed s v = true ->
     Arr.get 0%Q y v = Arr.get 0%Q (sdpilb (prep s)) v) ->
  0 <= nvars (vars s) ->
  let '(n, idx, contr) := count_active s in
  count_invariant s y (nvars (vars s)) (n, idx, contr, objective_at s y).
Proof.
  intros Hy Hn.
  unfold count_active, objective_at, Arr.for_range. rewrite Z.sub_0_r.
  set (cbody := fun (v : Z) '(n, idx, contr) => _).
  set (obody := fun (v : Z) (acc : Q) => _).
  pose proof (for_loop_pair _ _ cbody obody (Z.to_nat (nvars (vars s))) 0 (0, -1, 0%Q) 0%Q)
    as Hpair.
  pose proof (for_loop_indexed _
                (fun i (st : Z * Z * Q * Q) =>
                   count_invariant s y i (fst (fst (fst st)), snd (fst (fst st)),
                                          snd (fst st), snd st))
                (fun i '(a, b) => (cbody i a, obody i b))
                (Z.to_nat (nvars (vars s))) 0 (0, -1, 0%Q, 0%Q)) as Hinv.
  rewrite Hpair in Hinv. cbn [fst snd] in Hinv.
  replace (0 + Z.of_nat (Z.to_nat (nvars (vars s)))) with (nvars (vars s)) in Hinv by lia.
  destruct (Arr.for_loop _ 0 cbody _) as [[n idx] contr]. cbn [fst snd] in Hinv.
  apply Hinv; clear Hinv Hpair.
  - intros i [[[n0 idx0] contr0] acc0] Hi. cbn [fst snd]. subst cbody obody. cbn beta iota.
    unfold count_invariant.
    destruct (isFixed s i) eqn:Ef; cbn [negb fst snd].
    + rewrite (Hy i) by (try assumption; lia).
      intros [[-> Hacc] | [(-> & Hidx & Hfix & Hacc) | Hge]].
      * left. split; [reflexivity | lra].
      * right; left. split; [reflexivity|]. split; [lia|]. split; [assumption | lra].
      * right; right. exact Hge.
    + intros [[-> Hacc] | [(-> & Hidx & Hfix & Hacc) | Hge]].
      * right; left. split; [reflexivity|]. split; [lia|]. split; [assumption | lra].
      * right; right. lia.
      * right; right. lia.
  - left. split; reflexivity.
Qed.

End ReportedObjective.

Section OneVariableLP.

Variable B : SDPISOLVER.
Implicit Type s : SCIP_SDPI B.


(** two variables that are not fixed are both counted *)
Lemma count_active_two s (a b : Z) :
  0 <= a < b -> b < nvars (vars s) ->
  isFixed s a = false -> isFixed s b = false ->
  2 <= fst (fst (count_active s)).
Proof.
  intros Hab Hb Hfa Hfb.
  unfold count_active, Arr.for_range. rewrite Z.sub_0_r.
  set (cbody := fun (v : Z) '(n, idx, contr) => _).
  pose proof (for_loop_indexed _
                (fun i (st : Z * Z * Q) =>
                   0 <= fst (fst st) /\ (a < i -> 1 <= fst (fst st)) /\
                   (b < i -> 2 <= fst (fst st)))
                cbody (Z.to_nat (nvars (vars s))) 0 (0, -1, 0%Q)) as Hinv.
  cbv beta in Hinv.
  replace (0 + Z.of_nat (Z.to_nat (nvars (vars s)))) with (nvars (vars s)) in Hinv by lia.
  destruct Hinv as (_ & _ & H2); [| cbn; lia | exact (H2 Hb)].
  intros i [[n0 i0] c0] Hi (Hn0 & Ha1 & Hb1). cbn [fst snd] in *.
  subst cbody. cbn beta iota.
  destruct (isFixed s i) eqn:Ef; cbn [negb fst snd].
  - assert (a <> i) by congruence. assert (b <> i) by congruence. repeat split; intros; lia.
  - repeat split; intros; lia.
Qed.


End OneVariableLP.

Lemma allfixed_dual_solution_witness :
  exists objval' dualsol',
    SCIPsdpiGetDualSol fixed_block_solved (Some 0%Q) (Some [7 # 1; 7 # 1])
    = Returns SCIP_OKAY (Some objval', Some dualsol') /\
    (objval' == objective_at fixed_block_solved dualsol')%Q.
Proof.
  destruct (allfixed_dual_solution _ fixed_block_solved 0%Q [7 # 1; 7 # 1])
    as (o & d & Hd & _ & _ & _ & _ & Ho);
    [reflexivity | reflexivity | reflexivity | vm_compute; discriminate |].
  exists o, d. split; assumption.
Defined.



(** ** Adding and deleting LP rows *)

Lemma for_loop_ext (T : Type) (F G : Z -> T -> T) n : forall i0 x,
  (forall i y, i0 <= i < i0 + Z.of_nat n -> F i y = G i y) ->
  Arr.for_loop n i0 F x = Arr.for_loop n i0 G x.
Proof.
  induction n as [|n IH]; intros i0 x H; cbn [Arr.for_loop]; [reflexivity|].
  rewrite (H i0) by lia. apply IH. intros i y Hi. apply H. lia.
Qed.

Lemma for_range_ext (T : Type) (F G : Z -> T -> T) lo hi x :
  (forall i y, lo <= i < hi -> F i y = G i y) ->
  Arr.for_range lo hi F x = Arr.for_range lo hi G x.
Proof.
  intros H. unfold Arr.for_range. apply for_loop_ext. intros i y Hi. apply H. lia.
Qed.

Lemma for_loop_triple (S T U : Type) (F : Z -> S -> S) (G : Z -> T -> T) (H : Z -> U -> U) n :
  forall i0 x y z,
  Arr.for_loop n i0 (fun i '(a, b, c) => (F i a, G i b, H i c)) (x, y, z)
  = (Arr.for_loop n i0 F x, Arr.for_loop n i0 G y, Arr.for_loop n i0 H z).
Proof.
  induction n as [|n IH]; intros i0 x y z; cbn; [reflexivity|]. apply IH.
Qed.

Section ArrayCopies.

Variables (A : Type) (d : A).

Lemma ensure_length (a : list A) n :
  Z.of_nat (length (Arr.ensure d a n)) = Z.max (Z.of_nat (length a)) n.
Proof.
  unfold Arr.ensure. rewrite length_app, repeat_length. lia.
Qed.

Lemma get_ensure (a : list A) n i : Arr.get d (Arr.ensure d a n) i = Arr.get d a i.
Proof.
  unfold Arr.get, Arr.ensure. destruct (i <? 0); [reflexivity|].
  destruct (Nat.lt_ge_cases (Z.to_nat i) (length a)) as [Hlt | Hge].
  - apply app_nth1. exact Hlt.
  - rewrite app_nth2 by exact Hge. rewrite (nth_overflow a) by exact Hge.
    apply nth_repeat.
Qed.

Lemma copy_length (dst src : list A) off n :
  length (Arr.copy d dst off src n) = length dst.
Proof.
  unfold Arr.copy, Arr.for_range.
  apply (scatter_length A (fun i => off + i) (fun i => Arr.get d src i)).
Qed.

Lemma get_copy (dst src : list A) off n i :
  0 <= off -> off + n <= Z.of_nat (length dst) -> 0 <= i < n ->
  Arr.get d (Arr.copy d dst off src n) (off + i) = Arr.get d src i.
Proof.
  intros Hoff Hlen Hi. unfold Arr.copy, Arr.for_range. rewrite Z.sub_0_r.
  apply (scatter_last A d (fun i => off + i) (fun i => Arr.get d src i)); lia.
Qed.

Lemma get_copy_other (dst src : list A) off n j :
  j < off \/ off + n <= j ->
  Arr.get d (Arr.copy d dst off src n) j = Arr.get d dst j.
Proof.
  intros Hj. unfold Arr.copy, Arr.for_range. rewrite Z.sub_0_r.
  apply (scatter_untouched A d (fun i => off + i) (fun i => Arr.get d src i)). lia.
Qed.

(** the loop [a[i - k] = a[i]] for [i = i0 .. i0 + n - 1] moves a stretch
    of the array [k] places down *)
Lemma shift_down_length (k : Z) n : forall i0 (a : list A),
  length (Arr.for_loop n i0 (fun i a => Arr.set a (i - k) (Arr.get d a i)) a) = length a.
Proof.
  induction n as [|n IH]; intros i0 a; cbn [Arr.for_loop]; [reflexivity|].
  rewrite IH. apply set_length.
Qed.

Lemma shift_down (k : Z) n : forall i0 (a : list A) j,
  0 < k -> 0 <= i0 - k -> i0 + Z.of_nat n <= Z.of_nat (length a) ->
  Arr.get d (Arr.for_loop n i0 (fun i a => Arr.set a (i - k) (Arr.get d a i)) a) j
  = if (i0 - k <=? j) && (j <? i0 - k + Z.of_nat n) then Arr.get d a (j + k)
    else Arr.get d a j.
Proof.
  induction n as [|n IH]; intros i0 a j Hk H0 Hlen; cbn [Arr.for_loop].
  - replace ((i0 - k <=? j) && (j <? i0 - k + Z.of_nat 0)) with false; [reflexivity|].
    symmetry. apply andb_false_iff.
    destruct (Z.leb_spec (i0 - k) j); [right; apply Z.ltb_ge; lia | left; reflexivity].
  - rewrite IH by (rewrite ?set_length; lia).
    destruct (Z.leb_spec (i0 + 1 - k) j); destruct (Z.ltb_spec j (i0 + 1 - k + Z.of_nat n));
      destruct (Z.leb_spec (i0 - k) j); destruct (Z.ltb_spec j (i0 - k + Z.of_nat (S n)));
      cbn [andb]; try lia; try (apply get_set_other; lia).
    assert (j = i0 - k) as -> by lia.
    rewrite get_set_same by lia. f_equal. lia.
Qed.

End ArrayCopies.

Section LPRows.

Variable B : SDPISOLVER.
Implicit Type s : SCIP_SDPI B.

(** a row read from the storage depends on the entries of the row only *)
Lemma lp_row_ext (l l' : LPDATA) (i : Z) :
  Arr.get 0%Q (lplhs l) i = Arr.get 0%Q (lplhs l') i ->
  Arr.get 0%Q (lprhs l) i = Arr.get 0%Q (lprhs l') i ->
  Arr.get 0 (lpbeg l) i = Arr.get 0 (lpbeg l') i ->
  lp_nextbeg l i = lp_nextbeg l' i ->
  (forall j, Arr.get 0 (lpbeg l) i <= j < lp_nextbeg l i ->
     Arr.get 0 (lpind l) j = Arr.get 0 (lpind l') j /\
     Arr.get 0%Q (lpval l) j = Arr.get 0%Q (lpval l') j) ->
  lp_row l i = lp_row l' i.
Proof.
  intros Hl Hr Hb Hn Hnz. unfold lp_row. rewrite <- Hl, <- Hr, <- Hb, <- Hn.
  f_equal. f_equal. apply for_range_ext. intros j acc Hj.
  destruct (Hnz j Hj) as [-> ->]. reflexivity.
Qed.

(** X19: the rows added to an empty LP part are the rows read back: the
    LP part then has [nrows] rows and [nnonz] nonzeros and, if the row
    starts given lie within [0 .. nnonz], each row has the sides and the
    nonzeros it was given. *)
Theorem AddLPRows_to_empty s (nrows : Z) (lhs rhs : list Q) (nnonz : Z) (beg ind : list Z)
    (val : list Q) :
  nlpcons (lp s) = 0 -> 0 < nrows -> 0 <= nnonz ->
  (forall i, 0 <= i < nrows -> 0 <= Arr.get 0 beg i <= nnonz) ->
  let l' := lp (SCIPsdpiAddLPRows s nrows lhs rhs nnonz beg ind val) in
  nlpcons l' = nrows /\ lpnnonz l' = nnonz /\ nactivelpcons l' = -1 /\
  lp_rows l' = lp_rows (rows_given nrows lhs rhs nnonz beg ind val).
Proof.
  intros Hempty Hrows Hnnonz Hbeg. cbv zeta. unfold SCIPsdpiAddLPRows.
  destruct (Z.eqb_spec nrows 0) as [|_]; [lia|].
  rewrite Hempty. cbn [Z.eqb].
  cbn [lp with_stats with_status with_lp ensureLPDataMemory nlpcons lpnnonz nactivelpcons
       lplhs lprhs lpbeg lpind lpval].
  split; [reflexivity|]. split; [reflexivity|]. split; [reflexivity|].
  unfold lp_rows, rows_given. cbn [nlpcons]. f_equal.
  apply for_range_ext. intros i acc Hi. f_equal.
  assert (Hget : forall (A : Type) (d : A) (a src : list A) n k,
            0 <= k < n ->
            Arr.get d (Arr.copy d (Arr.ensure d a n) 0 src n) k = Arr.get d src k).
  { intros A d a src n k Hk.
    change k with (0 + k) at 1. apply get_copy; [lia | | exact Hk].
    rewrite ensure_length. lia. }
  assert (Hnext : forall l, nlpcons l = nrows -> lpnnonz l = nnonz ->
            (forall k, 0 <= k < nrows -> Arr.get 0 (lpbeg l) k = Arr.get 0 beg k) ->
            lp_nextbeg l i = if i =? nrows - 1 then nnonz else Arr.get 0 beg (i + 1)).
  { intros l Hn Hz Hb. unfold lp_nextbeg. rewrite Hn, Hz.
    destruct (Z.eqb_spec i (nrows - 1)); [reflexivity|]. apply Hb. lia. }
  apply lp_row_ext; cbn [lplhs lprhs lpbeg lpind lpval].
  - apply Hget, Hi.
  - apply Hget, Hi.
  - apply Hget, Hi.
  - rewrite !Hnext; try reflexivity.
    intros k Hk. cbn [lpbeg]. apply Hget, Hk.
  - rewrite Hnext; [| reflexivity | reflexivity | intros k Hk; cbn [lpbeg]; apply Hget, Hk].
    rewrite Hget by exact Hi. intros j Hj.
    assert (0 <= j < nnonz).
    { pose proof (Hbeg i Hi).
      destruct (Z.eqb_spec i (nrows - 1)); [lia|].
      pose proof (Hbeg (i + 1)). lia. }
    split; apply Hget; assumption.
Qed.

(** X20: rows added to a non-empty LP part are appended: the rows and
    nonzeros stored before keep their entries, the sides given are stored
    from position [nlpcons] on and the nonzeros given from position
    [lpnnonz] on.  The row starts given are stored as they are, without
    the offset [lpnnonz] of the nonzeros. *)
Theorem AddLPRows_appends s (nrows : Z) (lhs rhs : list Q) (nnonz : Z) (beg ind : list Z)
    (val : list Q) :
  0 < nlpcons (lp s) -> 0 <= lpnnonz (lp s) -> 0 < nrows -> 0 <= nnonz ->
  let l := lp s in
  let l' := lp (SCIPsdpiAddLPRows s nrows lhs rhs nnonz beg ind val) in
  nlpcons l' = nlpcons l + nrows /\ lpnnonz l' = lpnnonz l + nnonz /\
  (forall i, i < nlpcons l ->
     Arr.get 0%Q (lplhs l') i = Arr.get 0%Q (lplhs l) i /\
     Arr.get 0%Q (lprhs l') i = Arr.get 0%Q (lprhs l) i /\
     Arr.get 0 (lpbeg l') i = Arr.get 0 (lpbeg l) i) /\
  (forall j, j < lpnnonz l ->
     Arr.get 0 (lpind l') j = Arr.get 0 (lpind l) j /\
     Arr.get 0%Q (lpval l') j = Arr.get 0%Q (lpval l) j) /\
  (forall i, 0 <= i < nrows ->
     Arr.get 0%Q (lplhs l') (nlpcons l + i) = Arr.get 0%Q lhs i /\
     Arr.get 0%Q (lprhs l') (nlpcons l + i) = Arr.get 0%Q rhs i /\
     Arr.get 0 (lpbeg l') (nlpcons l + i) = Arr.get 0 beg i) /\
  (forall j, 0 <= j < nnonz ->
     Arr.get 0 (lpind l') (lpnnonz l + j) = Arr.get 0 ind j /\
     Arr.get 0%Q (lpval l') (lpnnonz l + j) = Arr.get 0%Q val j).
Proof.
  intros Hn Hz Hrows Hnnonz. cbv zeta. unfold SCIPsdpiAddLPRows.
  destruct (Z.eqb_spec nrows 0) as [|_]; [lia|].
  destruct (Z.eqb_spec (nlpcons (lp s)) 0) as [|_]; [lia|].
  cbn [lp with_stats with_status with_lp ensureLPDataMemory nlpcons lpnnonz nactivelpcons
       lplhs lprhs lpbeg lpind lpval].
  split; [reflexivity|]. split; [reflexivity|].
  unfold Arr.for_range. rewrite Z.sub_0_r.
  split; [|split; [|split]].
  - intros i Hi. rewrite !get_copy_other by lia. rewrite !get_ensure. auto.
  - intros j Hj. split.
    + rewrite (scatter_untouched Z 0 (fun i => lpnnonz (lp s) + i) (fun i => Arr.get 0 ind i))
        by (intros; lia).
      apply get_ensure.
    + rewrite (scatter_untouched Q 0%Q (fun i => lpnnonz (lp s) + i)
                 (fun i => Arr.get 0%Q val i)) by (intros; lia).
      apply get_ensure.
  - intros i Hi.
    repeat split; apply get_copy; try lia; rewrite ensure_length; lia.
  - intros j Hj. split.
    + apply (scatter_last Z 0 (fun i => lpnnonz (lp s) + i) (fun i => Arr.get 0 ind i));
        rewrite ?ensure_length; lia.
    + apply (scatter_last Q 0%Q (fun i => lpnnonz (lp s) + i) (fun i => Arr.get 0%Q val i));
        rewrite ?ensure_length; lia.
Qed.

End LPRows.

Section DeleteRows.

Variable B : SDPISOLVER.
Implicit Type s : SCIP_SDPI B.

(** where the row at position [i] after the deletion of the rows
    [firstrow .. lastrow] was stored before *)
Lemma DelLPRows_rows s (firstrow lastrow : Z) :
  0 <= firstrow -> firstrow <= lastrow -> lastrow < nlpcons (lp s) ->
  nlpcons (lp s) <= Z.of_nat (length (lplhs (lp s))) ->
  nlpcons (lp s) <= Z.of_nat (length (lprhs (lp s))) ->
  let l := lp s in
  let l' := lp (SCIPsdpiDelLPRows s firstrow lastrow) in
  let deletedrows := lastrow - firstrow + 1 in
  nlpcons l' = nlpcons l - deletedrows /\
  length (lplhs l') = length (lplhs l) /\
  length (lprhs l') = length (lprhs l) /\
  forall i, 0 <= i < nlpcons l' ->
    Arr.get 0%Q (lplhs l') i
    = Arr.get 0%Q (lplhs l) (if i <? firstrow then i else i + deletedrows) /\
    Arr.get 0%Q (lprhs l') i
    = Arr.get 0%Q (lprhs l) (if i <? firstrow then i else i + deletedrows).
Proof.
  intros H0 H1 H2 Hlhs Hrhs. cbv zeta. unfold SCIPsdpiDelLPRows.
  destruct ((firstrow =? 0) && (lastrow =? nlpcons (lp s) - 1)) eqn:Ew.
  - apply andb_true_iff in Ew. destruct Ew as [Ef El].
    apply Z.eqb_eq in Ef, El. cbn. repeat split; try lia.
  - unfold Arr.for_range. rewrite for_loop_triple.
    cbn [lp invalidate with_stats with_status with_lp nlpcons lplhs lprhs].
    split; [reflexivity|].
    split; [apply shift_down_length|]. split; [apply shift_down_length|].
    intros i Hi.
    rewrite !shift_down by lia.
    replace (lastrow + 1 - (lastrow - firstrow + 1)) with firstrow by lia.
    destruct (Z.leb_spec firstrow i); destruct (Z.ltb_spec i firstrow); try lia;
      destruct (Z.ltb_spec i (firstrow + Z.of_nat (Z.to_nat (nlpcons (lp s) - (lastrow + 1)))));
      try lia; cbn [andb]; split; reflexivity.
Qed.

(** X21: [SCIPsdpiDelLPRows] keeps the sides of the rows that remain:
    the rows before [firstrow] stay where they are and the rows after
    [lastrow] move down by the number of deleted rows.  The number of rows
    is reduced by the number of deleted rows, the status of the last solve
    is discarded and the array of nonzero values is not touched. *)
Theorem DelLPRows_keeps_sides s (firstrow lastrow : Z) :
  0 <= firstrow -> firstrow <= lastrow -> lastrow < nlpcons (lp s) ->
  nlpcons (lp s) <= Z.of_nat (length (lplhs (lp s))) ->
  nlpcons (lp s) <= Z.of_nat (length (lprhs (lp s))) ->
  let l := lp s in
  let s' := SCIPsdpiDelLPRows s firstrow lastrow in
  let deletedrows := lastrow - firstrow + 1 in
  nlpcons (lp s') = nlpcons l - deletedrows /\
  nactivelpcons (lp s') = -1 /\
  lpval (lp s') = lpval l /\
  solved (status s') = false /\ infeasible (status s') = false /\
  allfixed (status s') = false /\
  (forall i, 0 <= i < firstrow ->
     Arr.get 0%Q (lplhs (lp s')) i = Arr.get 0%Q (lplhs l) i /\
     Arr.get 0%Q (lprhs (lp s')) i = Arr.get 0%Q (lprhs l) i) /\
  (forall i, lastrow < i < nlpcons l ->
     Arr.get 0%Q (lplhs (lp s')) (i - deletedrows) = Arr.get 0%Q (lplhs l) i /\
     Arr.get 0%Q (lprhs (lp s')) (i - deletedrows) = Arr.get 0%Q (lprhs l) i).
Proof.
  intros H0 H1 H2 Hlhs Hrhs. cbv zeta.
  destruct (DelLPRows_rows s firstrow lastrow H0 H1 H2 Hlhs Hrhs) as (Hn & _ & _ & Hrows).
  split; [exact Hn|].
  assert (Hrest : nactivelpcons (lp (SCIPsdpiDelLPRows s firstrow lastrow)) = -1 /\
                  lpval (lp (SCIPsdpiDelLPRows s firstrow lastrow)) = lpval (lp s) /\
                  solved (status (SCIPsdpiDelLPRows s firstrow lastrow)) = false /\
                  infeasible (status (SCIPsdpiDelLPRows s firstrow lastrow)) = false /\
                  allfixed (status (SCIPsdpiDelLPRows s firstrow lastrow)) = false).
  { unfold SCIPsdpiDelLPRows.
    destruct ((firstrow =? 0) && (lastrow =? nlpcons (lp s) - 1)).
    - cbn. repeat split; reflexivity.
    - destruct (Arr.for_range _ _ _ _) as [[lhs1 rhs1] beg1]. cbn. repeat split; reflexivity. }
  destruct Hrest as (Ha & Hv & Hs & Hi & Hf).
  repeat (split; [assumption|]). split.
  - intros i Hi'. destruct (Hrows i) as [Hl Hr]; [lia|].
    destruct (Z.ltb_spec i firstrow); [|lia]. split; assumption.
  - intros i Hi'. destruct (Hrows (i - (lastrow - firstrow + 1))) as [Hl Hr]; [lia|].
    destruct (Z.ltb_spec (i - (lastrow - firstrow + 1)) firstrow); [lia|].
    replace (i - (lastrow - firstrow + 1) + (lastrow - firstrow + 1)) with i in * by lia.
    split; assumption.
Qed.

End DeleteRows.

Lemma for_loop_snoc (T : Type) (F : Z -> T -> T) n : forall i0 x,
  Arr.for_loop (S n) i0 F x = F (i0 + Z.of_nat n) (Arr.for_loop n i0 F x).
Proof.
  induction n as [|n IH]; intros i0 x.
  - cbn. rewrite Z.add_0_r. reflexivity.
  - change (Arr.for_loop (S (S n)) i0 F x) with (Arr.for_loop (S n) (i0 + 1) F (F i0 x)).
    rewrite IH. cbn [Arr.for_loop]. f_equal. lia.
Qed.

Lemma marked_before_next (dstat : list Z) (i : Z) :
  0 <= i ->
  marked_before dstat (i + 1)
  = if Arr.get 0 dstat i =? 1 then marked_before dstat i + 1 else marked_before dstat i.
Proof.
  intros Hi. unfold marked_before, Arr.for_range.
  replace (Z.to_nat (i + 1 - 0)) with (S (Z.to_nat (i - 0))) by lia.
  rewrite for_loop_snoc. replace (0 + Z.of_nat (Z.to_nat (i - 0))) with i by lia.
  reflexivity.
Qed.

Section DeleteRowset.

Variable B : SDPISOLVER.
Implicit Type s : SCIP_SDPI B.

(** what the loop of [SCIPsdpiDelLPRowset] has done before the row [i] *)
Local Abbreviation rowset_invariant s dstat :=
  (fun (i : Z) (st : SCIP_SDPI B * list Z * Z) =>
     let '(sc, dc, del) := st in
     del = marked_before dstat i /\ 0 <= del <= i /\
     nlpcons (lp sc) = nlpcons (lp s) - del /\
     length dc = length dstat /\
     length (lplhs (lp sc)) = length (lplhs (lp s)) /\
     length (lprhs (lp sc)) = length (lprhs (lp s)) /\
     (forall j, i <= j -> Arr.get 0 dc j = Arr.get 0 dstat j) /\
     (forall j, 0 <= j < i ->
        (Arr.get 0 dstat j = 1 -> Arr.get 0 dc j = -1) /\
        (Arr.get 0 dstat j <> 1 ->
         Arr.get 0 dc j = j - marked_before dstat j /\
         0 <= Arr.get 0 dc j < i - del /\
         Arr.get 0%Q (lplhs (lp sc)) (Arr.get 0 dc j) = Arr.get 0%Q (lplhs (lp s)) j /\
         Arr.get 0%Q (lprhs (lp sc)) (Arr.get 0 dc j) = Arr.get 0%Q (lprhs (lp s)) j)) /\
     (forall j, i <= j < nlpcons (lp s) ->
        Arr.get 0%Q (lplhs (lp sc)) (j - del) = Arr.get 0%Q (lplhs (lp s)) j /\
        Arr.get 0%Q (lprhs (lp sc)) (j - del) = Arr.get 0%Q (lprhs (lp s)) j)).

(** X22: [SCIPsdpiDelLPRowset] deletes exactly the rows marked with 1 in
    [dstat]: the number of rows is reduced by the number of marked rows, a
    marked row gets the entry -1, and a row that is kept gets as entry its
    new position, its old position minus the number of marked rows before
    it, at which its two sides are stored. *)
Theorem DelLPRowset_positions s (dstat : list Z) :
  nlpcons (lp s) <= Z.of_nat (length dstat) ->
  nlpcons (lp s) <= Z.of_nat (length (lplhs (lp s))) ->
  nlpcons (lp s) <= Z.of_nat (length (lprhs (lp s))) ->
  let s' := fst (SCIPsdpiDelLPRowset s dstat) in
  let dstat' := snd (SCIPsdpiDelLPRowset s dstat) in
  nlpcons (lp s') = nlpcons (lp s) - marked_before dstat (nlpcons (lp s)) /\
  length dstat' = length dstat /\
  (forall j, nlpcons (lp s) <= j -> Arr.get 0 dstat' j = Arr.get 0 dstat j) /\
  forall i, 0 <= i < nlpcons (lp s) ->
    (Arr.get 0 dstat i = 1 -> Arr.get 0 dstat' i = -1) /\
    (Arr.get 0 dstat i <> 1 ->
     Arr.get 0 dstat' i = i - marked_before dstat i /\
     0 <= Arr.get 0 dstat' i < nlpcons (lp s') /\
     Arr.get 0%Q (lplhs (lp s')) (Arr.get 0 dstat' i) = Arr.get 0%Q (lplhs (lp s)) i /\
     Arr.get 0%Q (lprhs (lp s')) (Arr.get 0 dstat' i) = Arr.get 0%Q (lprhs (lp s)) i).
Proof.
  intros Hd Hlhs Hrhs. cbv zeta. unfold SCIPsdpiDelLPRowset, Arr.for_range.
  rewrite Z.sub_0_r.
  destruct (Z_lt_le_dec (nlpcons (lp s)) 0) as [Hneg | Hnn].
  { (* no row *)
    replace (Z.to_nat (nlpcons (lp s))) with 0%nat by lia. cbn.
    unfold marked_before, Arr.for_range.
    replace (Z.to_nat (nlpcons (lp s) - 0)) with 0%nat by lia. cbn.
    repeat split; try lia. }
  set (body := fun (i : Z) '(s, dstat, deletedrows) => _).
  pose proof (for_loop_indexed _ (rowset_invariant s dstat) body
                (Z.to_nat (nlpcons (lp s))) 0 (s, dstat, 0)) as Hinv.
  replace (0 + Z.of_nat (Z.to_nat (nlpcons (lp s)))) with (nlpcons (lp s)) in Hinv by lia.
  destruct (Arr.for_loop _ 0 body _) as [[s1 dstat1] del1].
  cbn [fst snd invalidate with_stats with_status lp].
  destruct Hinv as (Hdel & Hrange & Hn & Hlen & _ & _ & Hrest & Hdone & _).
  - (* one pass of the loop *)
    clear s1 dstat1 del1.
    intros i [[sc dc] del] Hi (Hdel & Hrange & Hn & Hlen & Hll & Hlr & Hrest & Hdone & Htodo).
    subst body. cbn beta iota.
    rewrite (Hrest i) by lia.
    rewrite marked_before_next by lia.
    destruct (Z.eqb_spec (Arr.get 0 dstat i) 1) as [Hmark | Hkeep].
    + (* the row is deleted *)
      destruct (DelLPRows_rows B sc (i - del) (i - del)) as (Hn' & Hll' & Hlr' & Hrows);
        try lia.
      replace (i - del - (i - del) + 1) with 1 in * by lia.
      split; [lia|]. split; [lia|]. split; [lia|].
      split; [rewrite set_length; exact Hlen|].
      split; [congruence|]. split; [congruence|].
      split; [intros j Hj; rewrite get_set_other by lia; apply Hrest; lia|].
      split.
      * intros j Hj. destruct (Z.eq_dec j i) as [-> | Hne].
        -- split; [|congruence]. intros _. apply get_set_same. lia.
        -- rewrite get_set_other by congruence.
           destruct (Hdone j) as [Hm Hk]; [lia|]. split; [exact Hm|].
           intros Hkj. destruct (Hk Hkj) as (Hp & Hpr & Hl & Hr).
           split; [exact Hp|]. split; [lia|].
           destruct (Hrows (Arr.get 0 dc j)) as [Hl' Hr']; [lia|].
           destruct (Z.ltb_spec (Arr.get 0 dc j) (i - del)); [|lia].
           split; congruence.
      * intros j Hj. destruct (Hrows (j - (del + 1))) as [Hl' Hr']; [lia|].
        destruct (Z.ltb_spec (j - (del + 1)) (i - del)); [lia|].
        replace (j - (del + 1) + 1) with (j - del) in * by lia.
        destruct (Htodo j) as [Hl Hr]; [lia|]. split; congruence.
    + (* the row is kept *)
      split; [exact Hdel|]. split; [lia|]. split; [exact Hn|].
      split; [rewrite set_length; exact Hlen|].
      split; [exact Hll|]. split; [exact Hlr|].
      split; [intros j Hj; rewrite get_set_other by lia; apply Hrest; lia|].
      split.
      * intros j Hj. destruct (Z.eq_dec j i) as [-> | Hne].
        -- split; [congruence|]. intros _.
           rewrite get_set_same by lia.
           split; [congruence|]. split; [lia|]. apply Htodo. lia.
        -- rewrite get_set_other by congruence.
           destruct (Hdone j) as [Hm Hk]; [lia|]. split; [exact Hm|].
           intros Hkj. destruct (Hk Hkj) as (Hp & Hpr & Hl & Hr).
           split; [exact Hp|]. split; [lia|]. split; assumption.
      * intros j Hj. apply Htodo. lia.
  - (* before the first pass *)
    unfold marked_before, Arr.for_range. cbn.
    repeat split; try lia; rewrite Z.sub_0_r; reflexivity.
  - split; [lia|]. split; [exact Hlen|]. split; [exact Hrest|].
    intros i Hi. destruct (Hdone i Hi) as [Hm Hk]. split; [exact Hm|].
    intros Hki. destruct (Hk Hki) as (Hp & Hpr & Hl & Hr).
    split; [exact Hp|]. split; [lia|]. split; assumption.
Qed.

End DeleteRowset.

Lemma AddLPRows_to_empty_witness :
  let l' := lp (SCIPsdpiAddLPRows fixed_block 2 [1 # 1; 2 # 1] [5 # 1; 6 # 1] 3
                  [0; 1] [0; 0; 1] [1 # 1; 2 # 1; 3 # 1]) in
  nlpcons l' = 2 /\ lpnnonz l' = 3 /\ nactivelpcons l' = -1 /\
  lp_rows l' = lp_rows (rows_given 2 [1 # 1; 2 # 1] [5 # 1; 6 # 1] 3
                          [0; 1] [0; 0; 1] [1 # 1; 2 # 1; 3 # 1]).
Proof.
  apply (AddLPRows_to_empty failing_backend fixed_block); [reflexivity | lia | lia |].
  intros i Hi. assert (i = 0 \/ i = 1) as [-> | ->] by lia; vm_compute; split; discriminate.
Defined.

Lemma AddLPRows_appends_witness :
  let l' := lp (SCIPsdpiAddLPRows three_rows 1 [7 # 1] [8 # 1] 1 [0] [1] [9 # 1]) in
  nlpcons l' = 4 /\ lpnnonz l' = 5 /\ Arr.get 0 (lpbeg l') 3 = 0 /\
  Arr.get 0%Q (lpval l') 4 = (9 # 1)%Q.
Proof.
  destruct (AddLPRows_appends failing_backend three_rows 1 [7 # 1] [8 # 1] 1 [0] [1] [9 # 1])
    as (Hn & Hz & _ & _ & Hrow & Hnz); [vm_compute; reflexivity | vm_compute; discriminate | lia | lia |].
  split; [exact Hn|]. split; [exact Hz|].
  split; [apply (Hrow 0); lia | apply (Hnz 0); lia].
Defined.

Lemma DelLPRows_keeps_sides_witness :
  let s' := SCIPsdpiDelLPRows three_rows 0 0 in
  nlpcons (lp s') = 2 /\
  Arr.get 0%Q (lplhs (lp s')) 0 = (2 # 1)%Q /\ Arr.get 0%Q (lprhs (lp s')) 1 = (30 # 1)%Q.
Proof.
  destruct (DelLPRows_keeps_sides failing_backend three_rows 0 0)
    as (Hn & _ & _ & _ & _ & _ & _ & Hrows); [lia | lia | vm_compute; reflexivity | vm_compute; discriminate | vm_compute; discriminate |].
  split; [exact Hn|].
  split; [apply (Hrows 1) | apply (Hrows 2)]; vm_compute; split; reflexivity.
Defined.

Lemma DelLPRowset_positions_witness :
  let s' := fst (SCIPsdpiDelLPRowset three_rows [0; 1; 0]) in
  let dstat' := snd (SCIPsdpiDelLPRowset three_rows [0; 1; 0]) in
  nlpcons (lp s') = 2 /\ Arr.get 0 dstat' 1 = -1 /\ Arr.get 0 dstat' 2 = 1 /\
  Arr.get 0%Q (lplhs (lp s')) 1 = (3 # 1)%Q.
Proof.
  destruct (DelLPRowset_positions failing_backend three_rows [0; 1; 0])
    as (Hn & _ & _ & Hrows); [vm_compute; discriminate | vm_compute; discriminate | vm_compute; discriminate |].
  split; [exact Hn|].
  destruct (Hrows 1) as [Hm _]; [vm_compute; split; [discriminate | reflexivity]|].
  destruct (Hrows 2) as [_ Hk]; [vm_compute; split; [discriminate | reflexivity]|].
  destruct Hk as (Hp & _ & Hl & _); [vm_compute; discriminate|].
  split; [apply Hm; reflexivity|]. split; [exact Hp|].
  rewrite Hp in Hl. exact Hl.
Defined.


(** ** What the preprocessing of the LP rows leaves alone *)

Section TightenLocal.

Variables (inf eps : Q) (isint : list bool) (lbs ubs : list Q) (off : Z).

(** the original row and what the loop has done to it after some passes;
    [k] passes remain and [i] is the position of the loop *)
Variables (vals : list Q) (inds : list Z) (nnonz : Z) (lhs rhs : Q).

Local Abbreviation tighten_invariant :=
  (fun (k : nat) (i : Z) (t : TightenState) =>
     0 <= i /\ i + Z.of_nat k = t_nnonz t /\ t_nnonz t <= nnonz /\
     length (t_vals t) = length vals /\ length (t_inds t) = length inds /\
     0 <= t_nchgcoefs t /\ nnonz - t_nnonz t <= t_nchgcoefs t /\
     t_nchgcoefs t <= nnonz - Z.of_nat k /\
     (forall j, j < off \/ off + nnonz <= j ->
        Arr.get 0%Q (t_vals t) j = Arr.get 0%Q vals j /\
        Arr.get 0 (t_inds t) j = Arr.get 0 inds j) /\
     (t_nchgcoefs t = 0 ->
      t_vals t = vals /\ t_inds t = inds /\ t_nnonz t = nnonz /\
      t_lhs t = lhs /\ t_rhs t = rhs)).

Lemma tighten_apply_invariant k i t newval lbnd ubnd keep :
  tighten_invariant (S k) i t ->
  let '(t', advance) := tighten_apply inf off t i newval lbnd ubnd keep in
  tighten_invariant k (if advance then i + 1 else i) t'.
Proof.
  intros (Hi & Hk & Hn & Hlv & Hli & Hc0 & Hc1 & Hc2 & Hout & _).
  unfold tighten_apply. destruct keep; cbn [t_vals t_inds t_nnonz t_nchgcoefs t_lhs t_rhs].
  - repeat split; try lia; try (rewrite set_length; assumption); try assumption.
    + rewrite get_set_other by lia. apply Hout, H.
    + apply Hout, H.
  - repeat split; try lia; try (rewrite set_length; assumption).
    + rewrite get_set_other by lia. apply Hout, H.
    + rewrite get_set_other by lia. apply Hout, H.
Qed.

Lemma tighten_step_invariant k i t :
  tighten_invariant (S k) i t ->
  let '(t', advance) := tighten_step inf eps isint lbs ubs off t i in
  tighten_invariant k (if advance then i + 1 else i) t'.
Proof.
  intros Hinv.
  assert (Hskip : tighten_invariant k (i + 1) t).
  { destruct Hinv as (Hi & Hk & Hn & Hlv & Hli & Hc0 & Hc1 & Hc2 & Hout & Hsame).
    repeat split; try lia; try assumption; try (apply Hout; assumption);
      apply Hsame; assumption. }
  unfold tighten_step.
  repeat match goal with
         | |- context [if ?b then _ else _] =>
             lazymatch b with
             | context [tighten_apply] => fail
             | _ => destruct b
             end
         end;
    try exact Hskip; apply tighten_apply_invariant; exact Hinv.
Qed.

Lemma tighten_loop_invariant k : forall i t,
  tighten_invariant k i t ->
  tighten_invariant 0%nat (t_nnonz (tighten_loop inf eps isint lbs ubs off k i t))
    (tighten_loop inf eps isint lbs ubs off k i t).
Proof.
  induction k as [|k IH]; intros i t Hinv; cbn [tighten_loop].
  - destruct Hinv as (Hi & Hk & Hn & Hlv & Hli & Hc0 & Hc1 & Hc2 & Hout & Hsame).
    repeat split; try lia; try assumption; try (apply Hout; assumption);
      apply Hsame; assumption.
  - pose proof (tighten_step_invariant k i t Hinv) as Hstep.
    destruct (tighten_step inf eps isint lbs ubs off t i) as [t' advance].
    apply IH, Hstep.
Qed.

(** the row handed in is an invariant state before the first pass *)
Lemma tighten_invariant_start minact maxact minq maxq :
  0 <= nnonz ->
  tighten_invariant (Z.to_nat nnonz) 0
    (mkTightenState vals inds nnonz lhs rhs minact maxact minq maxq 0).
Proof.
  intros Hn. cbn. repeat split; try lia; reflexivity.
Qed.

End TightenLocal.

(** X24: [tightenRowCoefs] works within the row it is given: the entries
    of the two arrays outside the positions [off .. off + nnonz - 1] of the
    row are not changed and the arrays keep their lengths.  The number of
    nonzeros does not grow, it shrinks by at most the number of changed
    coefficients, at most one coefficient is changed per nonzero, and a
    call that reports no changed coefficient has left the row as it was. *)
Theorem tightenRowCoefs_within_row (inf eps : Q) (isint : list bool) (lbs ubs : list Q)
    (off : Z) (vals : list Q) (inds : list Z) (nnonz : Z) (lhs rhs : Q) :
  0 <= nnonz ->
  let r := tightenRowCoefs inf eps isint lbs ubs off vals inds nnonz lhs rhs in
  length (rowvals r) = length vals /\ length (rowinds r) = length inds /\
  0 <= nchgcoefs r <= nnonz /\
  nnonz - nchgcoefs r <= rownnonz r <= nnonz /\
  (forall j, j < off \/ off + nnonz <= j ->
     Arr.get 0%Q (rowvals r) j = Arr.get 0%Q vals j /\
     Arr.get 0 (rowinds r) j = Arr.get 0 inds j) /\
  (nchgcoefs r = 0 ->
   rowvals r = vals /\ rowinds r = inds /\ rownnonz r = nnonz /\
   rowlhs r = lhs /\ rowrhs r = rhs).
Proof.
  intros Hn. cbv zeta. unfold tightenRowCoefs.
  assert (Hsame : forall lr rr,
            let r := mkTightenResult vals inds nnonz lhs rhs lr rr 0 in
            length (rowvals r) = length vals /\ length (rowinds r) = length inds /\
            0 <= nchgcoefs r <= nnonz /\
            nnonz - nchgcoefs r <= rownnonz r <= nnonz /\
            (forall j, j < off \/ off + nnonz <= j ->
               Arr.get 0%Q (rowvals r) j = Arr.get 0%Q vals j /\
               Arr.get 0 (rowinds r) j = Arr.get 0 inds j) /\
            (nchgcoefs r = 0 ->
             rowvals r = vals /\ rowinds r = inds /\ rownnonz r = nnonz /\
             rowlhs r = lhs /\ rowrhs r = rhs)).
  { intros lr rr. cbn. repeat split; lia. }
  repeat match goal with
         | |- context [if ?b then _ else _] =>
             lazymatch b with
             | context [tighten_loop] => fail
             | _ => destruct b
             end
         end;
    try apply Hsame.
  all: cbn [rowvals rowinds rownnonz rowlhs rowrhs nchgcoefs].
  all: match goal with
       | |- context [tighten_loop _ _ _ _ _ _ ?k ?i ?t] =>
           pose proof (tighten_loop_invariant inf eps isint lbs ubs off
                         vals inds nnonz lhs rhs k i t
                         (tighten_invariant_start off vals inds nnonz lhs rhs _ _ _ _ Hn))
             as Hinv;
           destruct Hinv as (_ & Hk & Hle & Hlv & Hli & Hc0 & Hc1 & Hc2 & Hout & Hzero)
       end.
  all: repeat split; try lia; try assumption; try (apply Hout; assumption);
    apply Hzero; assumption.
Qed.

Lemma tightenRowCoefs_within_row_witness :
  let r := tightenRowCoefs (inject_Z (10 ^ 20)) (1 # 1000000) [true; true]
             [0%Q; 0%Q] [1 # 1; 1 # 1] 1 [9 # 1; 3 # 1; 3 # 1; 9 # 1] [0; 0; 1; 1] 2
             (1 # 1) (inject_Z (10 ^ 20)) in
  length (rowvals r) = 4%nat /\ length (rowinds r) = 4%nat /\
  0 <= nchgcoefs r <= 2 /\
  2 - nchgcoefs r <= rownnonz r <= 2 /\
  (forall j, j < 1 \/ 1 + 2 <= j ->
     Arr.get 0%Q (rowvals r) j = Arr.get 0%Q [9 # 1; 3 # 1; 3 # 1; 9 # 1] j /\
     Arr.get 0 (rowinds r) j = Arr.get 0 [0; 0; 1; 1] j) /\
  (nchgcoefs r = 0 ->
   rowvals r = [9 # 1; 3 # 1; 3 # 1; 9 # 1] /\ rowinds r = [0; 0; 1; 1] /\
   rownnonz r = 2 /\ rowlhs r = (1 # 1)%Q /\ rowrhs r = inject_Z (10 ^ 20)).
Proof.
  apply (tightenRowCoefs_within_row (inject_Z (10 ^ 20)) (1 # 1000000) [true; true]
           [0%Q; 0%Q] [1 # 1; 1 # 1] 1 [9 # 1; 3 # 1; 3 # 1; 9 # 1] [0; 0; 1; 1] 2
           (1 # 1) (inject_Z (10 ^ 20))); lia.
Defined.

(** X23: one run of [prepareLPData] only tightens the working bounds: no
    lower bound decreases and no upper bound increases, the bounds of a
    variable that was fixed before the run are not changed, and a problem
    marked infeasible stays so.  The variables, the SDP blocks, the
    parameters and the stored LP rows are not modified. *)
Theorem prepareLPData_only_tightens (B : SDPISOLVER) (s : SCIP_SDPI B) :
  (0 <= epsilon (par s))%Q ->
  let s1 := fst (fst (prepareLPData s)) in
  (vars s1 = vars s /\ blocks s1 = blocks s /\ par s1 = par s /\
   sdpisolver s1 = sdpisolver s /\ lp_rows (lp s1) = lp_rows (lp s)) /\
  (length (sdpilb (prep s1)) = length (sdpilb (prep s)) /\
   length (sdpiub (prep s1)) = length (sdpiub (prep s))) /\
  (forall v,
     (Arr.get 0%Q (sdpilb (prep s)) v <= Arr.get 0%Q (sdpilb (prep s1)) v)%Q /\
     (Arr.get 0%Q (sdpiub (prep s1)) v <= Arr.get 0%Q (sdpiub (prep s)) v)%Q) /\
  (forall v, isFixed s v = true ->
     Arr.get 0%Q (sdpilb (prep s1)) v = Arr.get 0%Q (sdpilb (prep s)) v /\
     Arr.get 0%Q (sdpiub (prep s1)) v = Arr.get 0%Q (sdpiub (prep s)) v) /\
  (infeasible (status s) = true -> infeasible (status s1) = true).
Proof.
  intros Heps. cbv zeta. unfold prepareLPData. cbn [fst].
  cbn [vars blocks par sdpisolver lp prep status set_infeasible infeasible].
  split; [repeat split; reflexivity|].
  unfold prepare_pass.
  destruct ((nlpcons (lp s) =? 0) || (lpnnonz (lp s) =? 0)).
  - cbn [p_prep p_infeasible]. repeat split; try reflexivity; try apply Qle_refl. auto.
  - match goal with
    | |- context [Arr.for_range 0 (nlpcons (lp s)) ?f ?p0] =>
        pose proof (loop_le (SCIPsdpiInfinity s) (epsilon (par s)) (feastol (par s))
                      (isintegral (vars s)) (lp s) Heps
                      (Z.to_nat (nlpcons (lp s) - 0)) 0 p0) as Hle;
        change (Arr.for_range 0 (nlpcons (lp s)) f p0)
          with (Arr.for_loop (Z.to_nat (nlpcons (lp s) - 0)) 0 f p0)
    end.
    destruct Hle as (Hlen & Hb & Hfr & Hinf & _). cbn [p_prep sdpilb sdpiub p_infeasible] in *.
    split; [exact Hlen|]. split; [exact Hb|]. split; [|exact Hinf].
    intros v Hv. apply Hfr. exact Hv.
Qed.

Lemma prepareLPData_only_tightens_witness :
  let s1 := fst (fst (prepareLPData one_row)) in
  (vars s1 = vars one_row /\ blocks s1 = blocks one_row /\ par s1 = par one_row /\
   sdpisolver s1 = sdpisolver one_row /\ lp_rows (lp s1) = lp_rows (lp one_row)) /\
  (length (sdpilb (prep s1)) = length (sdpilb (prep one_row)) /\
   length (sdpiub (prep s1)) = length (sdpiub (prep one_row))) /\
  (forall v,
     (Arr.get 0%Q (sdpilb (prep one_row)) v <= Arr.get 0%Q (sdpilb (prep s1)) v)%Q /\
     (Arr.get 0%Q (sdpiub (prep s1)) v <= Arr.get 0%Q (sdpiub (prep one_row)) v)%Q) /\
  (forall v, isFixed one_row v = true ->
     Arr.get 0%Q (sdpilb (prep s1)) v = Arr.get 0%Q (sdpilb (prep one_row)) v /\
     Arr.get 0%Q (sdpiub (prep s1)) v = Arr.get 0%Q (sdpiub (prep one_row)) v) /\
  (infeasible (status one_row) = true -> infeasible (status s1) = true).
Proof.
  apply (prepareLPData_only_tightens failing_backend one_row). vm_compute. discriminate.
Defined.

(** ** The index map of the LP rows *)

Section IndexMap.

Variables (inf eps ftol : Q) (isint : list bool) (l : LPDATA).

(** what one row does to the index map and to the number of rows kept *)
Lemma prepare_row_index (i : Z) (p : PassState) :
  p_returned p = false ->
  0 <= i < Z.of_nat (length (sdpilpindchanges (p_prep p))) ->
  let p' := prepare_row inf eps ftol isint l i p in
  length (sdpilpindchanges (p_prep p')) = length (sdpilpindchanges (p_prep p)) /\
  (forall j, j <> i ->
     Arr.get 0 (sdpilpindchanges (p_prep p')) j = Arr.get 0 (sdpilpindchanges (p_prep p)) j) /\
  (p_returned p' = true -> p_infeasible p' = true) /\
  ((p_nsdpilpcons p' = p_nsdpilpcons p + 1 /\
    Arr.get 0 (sdpilpindchanges (p_prep p')) i = i - p_nsdpilpcons p) \/
   (p_nsdpilpcons p' = p_nsdpilpcons p /\
    Arr.get 0 (sdpilpindchanges (p_prep p')) i = -1)).
Proof.
  intros Hret Hi. cbv zeta. rewrite row_unfold by exact Hret. cbv zeta.
  set (c := scan_row eps l (p_prep p) (p_sdpilpnnonz p) i).
  assert (Hremoved : forall (w' : PREP) (n : Z) (f inf' r : bool),
            sdpilpindchanges w' = Arr.set (sdpilpindchanges (p_prep p)) i (-1) ->
            (r = true -> inf' = true) ->
            let p' := mkPassState w' (p_nsdpilpcons p) n f inf' r in
            length (sdpilpindchanges (p_prep p')) = length (sdpilpindchanges (p_prep p)) /\
            (forall j, j <> i ->
               Arr.get 0 (sdpilpindchanges (p_prep p')) j
               = Arr.get 0 (sdpilpindchanges (p_prep p)) j) /\
            (p_returned p' = true -> p_infeasible p' = true) /\
            ((p_nsdpilpcons p' = p_nsdpilpcons p + 1 /\
              Arr.get 0 (sdpilpindchanges (p_prep p')) i = i - p_nsdpilpcons p) \/
             (p_nsdpilpcons p' = p_nsdpilpcons p /\
              Arr.get 0 (sdpilpindchanges (p_prep p')) i = -1))).
  { intros w' n f inf' r Hw Hr. cbn. rewrite Hw.
    split; [apply set_length|].
    split; [intros j Hj; apply get_set_other; congruence|].
    split; [exact Hr|]. right. split; [reflexivity|]. apply get_set_same. exact Hi. }
  destruct (2 <=? sc_nrownonz c); [|destruct (sc_nrownonz c =? 1)].
  - unfold prepare_row_many. destruct (negb _ || negb _).
    + cbn. rewrite !set_length.
      split; [reflexivity|].
      split; [intros j Hj; rewrite !get_set_other by congruence; reflexivity|].
      split; [discriminate|]. left. split; [reflexivity|].
      apply get_set_same. rewrite set_length. exact Hi.
    + apply Hremoved; [reflexivity | discriminate].
  - unfold prepare_row_single.
    repeat match goal with
           | |- context [if ?b then mkPassState _ _ _ _ _ _ else _] => destruct b
           end;
      apply Hremoved; try reflexivity; try discriminate.
  - unfold prepare_row_empty. destruct (_ || _);
      apply Hremoved; try reflexivity; try discriminate.
Qed.

End IndexMap.

(** X25: when [prepareLPData] has gone through a non-empty LP part
    without finding it infeasible, [sdpilpindchanges] and [nactivelpcons]
    describe a compaction of the rows: a row is either removed (entry -1) or
    its entry is the number of rows removed before it, so that the kept rows
    get, in their order, exactly the positions [0 .. nactivelpcons - 1]. *)
Theorem prepareLPData_index_map (B : SDPISOLVER) (s : SCIP_SDPI B) :
  0 < nlpcons (lp s) -> lpnnonz (lp s) <> 0 ->
  nlpcons (lp s) <= Z.of_nat (length (sdpilpindchanges (prep s))) ->
  let s1 := fst (fst (prepareLPData s)) in
  infeasible (status s1) = false ->
  let kept := fun i => Arr.get 0 (sdpilpindchanges (prep s1)) i <> -1 in
  let pos := fun i => i - Arr.get 0 (sdpilpindchanges (prep s1)) i in
  0 <= nactivelpcons (lp s1) <= nlpcons (lp s) /\
  (forall i, 0 <= i < nlpcons (lp s) -> kept i ->
     0 <= Arr.get 0 (sdpilpindchanges (prep s1)) i /\ 0 <= pos i < nactivelpcons (lp s1)) /\
  (forall i j, 0 <= i -> i < j -> j < nlpcons (lp s) -> kept i -> kept j -> pos i < pos j) /\
  (forall q, 0 <= q < nactivelpcons (lp s1) ->
     exists i, 0 <= i < nlpcons (lp s) /\ kept i /\ pos i = q).
Proof.
  intros Hrows Hnz Hlen. cbv zeta. unfold prepareLPData. cbn [fst].
  cbn [lp prep status set_infeasible infeasible nactivelpcons].
  unfold prepare_pass.
  destruct (Z.eqb_spec (nlpcons (lp s)) 0) as [|_]; [lia|].
  destruct (Z.eqb_spec (lpnnonz (lp s)) 0) as [|_]; [contradiction|]. cbn [orb].
  set (row := prepare_row _ _ _ _ _).
  set (p0 := mkPassState _ 0 0 false _ false).
  unfold Arr.for_range. rewrite Z.sub_0_r.
  pose proof (for_loop_indexed _
                (fun i p =>
                   (p_returned p = true -> p_infeasible p = true) /\
                   (p_returned p = false ->
                    length (sdpilpindchanges (p_prep p))
                    = length (sdpilpindchanges (prep s)) /\
                    0 <= p_nsdpilpcons p <= i /\
                    (forall j, 0 <= j < i -> Arr.get 0 (sdpilpindchanges (p_prep p)) j <> -1 ->
                       0 <= Arr.get 0 (sdpilpindchanges (p_prep p)) j /\
                       0 <= j - Arr.get 0 (sdpilpindchanges (p_prep p)) j < p_nsdpilpcons p) /\
                    (forall j j', 0 <= j -> j < j' -> j' < i ->
                       Arr.get 0 (sdpilpindchanges (p_prep p)) j <> -1 ->
                       Arr.get 0 (sdpilpindchanges (p_prep p)) j' <> -1 ->
                       j - Arr.get 0 (sdpilpindchanges (p_prep p)) j
                       < j' - Arr.get 0 (sdpilpindchanges (p_prep p)) j') /\
                    (forall q, 0 <= q < p_nsdpilpcons p ->
                       exists j, 0 <= j < i /\
                         Arr.get 0 (sdpilpindchanges (p_prep p)) j <> -1 /\
                         j - Arr.get 0 (sdpilpindchanges (p_prep p)) j = q)))
                row (Z.to_nat (nlpcons (lp s))) 0 p0) as Hinv.
  cbv beta in Hinv.
  replace (0 + Z.of_nat (Z.to_nat (nlpcons (lp s)))) with (nlpcons (lp s)) in Hinv by lia.
  destruct Hinv as [Hret Hmap].
  - (* one row *)
    intros i p Hi [Hret Hmap].
    destruct (p_returned p) eqn:Er.
    + subst row. unfold prepare_row. rewrite Er. rewrite Er. split; [exact Hret | discriminate].
    + destruct (Hmap eq_refl) as (Hl & Hn & Hpos & Hmono & Hsurj).
      destruct (prepare_row_index (SCIPsdpiInfinity s) (epsilon (par s)) (feastol (par s))
                  (isintegral (vars s)) (lp s) i p Er) as (Hl' & Hother & Hret' & Hcase);
        [lia|].
      fold row in Hl', Hother, Hret', Hcase.
      split; [exact Hret'|]. intros _.
      split; [congruence|].
      assert (Hold : forall j, 0 <= j < i ->
                Arr.get 0 (sdpilpindchanges (p_prep (row i p))) j
                = Arr.get 0 (sdpilpindchanges (p_prep p)) j)
        by (intros j Hj; apply Hother; lia).
      destruct Hcase as [[Hn' Hi'] | [Hn' Hi']]; rewrite Hn'.
      * (* the row is kept *)
        split; [lia|]. split; [|split].
        -- intros j Hj Hk. destruct (Z.eq_dec j i) as [-> | Hne].
           ++ rewrite Hi'. lia.
           ++ rewrite Hold in * by lia. specialize (Hpos j ltac:(lia) Hk). lia.
        -- intros j j' H0 Hjj Hj' Hk Hk'. destruct (Z.eq_dec j' i) as [-> | Hne].
           ++ rewrite Hi'. rewrite Hold in * by lia. specialize (Hpos j ltac:(lia) Hk). lia.
           ++ rewrite !Hold in * by lia. apply Hmono; try assumption; lia.
        -- intros q Hq. destruct (Z.eq_dec q (p_nsdpilpcons p)) as [-> | Hne].
           ++ exists i. rewrite Hi'. repeat split; lia.
           ++ destruct (Hsurj q) as (j & Hj & Hk & Hp); [lia|].
              exists j. rewrite Hold by lia. repeat split; try assumption; lia.
      * (* the row is removed *)
        split; [lia|]. split; [|split].
        -- intros j Hj Hk. destruct (Z.eq_dec j i) as [-> | Hne]; [contradiction|].
           rewrite Hold in * by lia. apply Hpos; [lia | exact Hk].
        -- intros j j' H0 Hjj Hj' Hk Hk'.
           destruct (Z.eq_dec j' i) as [-> | Hne]; [contradiction|].
           rewrite !Hold in * by lia. apply Hmono; try assumption; lia.
        -- intros q Hq. destruct (Hsurj q Hq) as (j & Hj & Hk & Hp).
           exists j. rewrite Hold by lia. repeat split; try assumption; lia.
  - (* before the first row *)
    subst p0. cbn. split; [discriminate|]. intros _.
    repeat split; intros; lia.
  - intros Hfeas.
    destruct (p_returned (Arr.for_loop _ 0 row p0)) eqn:Er;
      [rewrite (Hret eq_refl) in Hfeas; discriminate|].
    destruct (Hmap eq_refl) as (_ & Hn & Hpos & Hmono & Hsurj).
    split; [lia|]. split; [exact Hpos|]. split; [exact Hmono | exact Hsurj].
Qed.

Lemma prepareLPData_index_map_witness :
  let s1 := fst (fst (prepareLPData (copy_bounds three_rows))) in
  nactivelpcons (lp s1) = 1 /\
  exists i, 0 <= i < 3 /\ (Arr.get 0 (sdpilpindchanges (prep s1)) i <> -1) /\
            i - Arr.get 0 (sdpilpindchanges (prep s1)) i = 0.
Proof.
  split; [reflexivity|].
  destruct (prepareLPData_index_map failing_backend (copy_bounds three_rows)) as (_ & _ & _ & Hsurj);
    [reflexivity | discriminate | vm_compute; discriminate | reflexivity |].
  apply (Hsurj 0). vm_compute. split; [discriminate | reflexivity].
Defined.


(** ** The clock *)

Lemma walltime_eq (s u s' u' : Z) :
  s = s' -> u = u' -> (walltime2sec s u == walltime2sec s' u')%Q.
Proof. intros -> ->. reflexivity. Qed.

Lemma walltime2sec_sub (s1 u1 s0 u0 : Z) :
  (walltime2sec (s1 - s0) (u1 - u0) == walltime2sec s1 u1 - walltime2sec s0 u0)%Q.
Proof.
  unfold walltime2sec, Z.sub. rewrite !inject_Z_plus, !inject_Z_opp. ring.
Qed.

Lemma walltime2sec_carry (s u : Z) :
  (walltime2sec (s - 1) (u + 1000000) == walltime2sec s u)%Q.
Proof.
  unfold walltime2sec, Z.sub. rewrite !inject_Z_plus, !inject_Z_opp.
  change (inject_Z 1) with 1%Q. change (inject_Z 1000000) with (1000000 # 1)%Q. field.
Qed.

(** X26: a clock that is not running, started at one reading of the time
    and stopped at a later one, holds the time between the two readings:
    for the wall clock the difference of the two times of day, with a
    microsecond counter between 0 and 1000000 (both included), and for the
    CPU clock the difference of the two tick counts divided by the ticks
    per second.  Reading the running clock at the second reading gives the
    same time, and after the stop the clock is not running again. *)
Theorem clock_measures_elapsed_time (cps : Z) (clck : SDPI_CLOCK) (tp0 tp1 tp : timeval)
    (utime0 utime1 utime : Z) :
  nruns clck = 0 -> timeval_ok tp0 -> timeval_ok tp1 ->
  let running := SDPIclockStart clck tp0 utime0 in
  let stopped := SDPIclockStop running tp1 utime1 in
  nruns running = 1 /\ nruns stopped = 0 /\
  clocktype stopped = clocktype clck /\
  (SDPIclockGetTime cps running tp1 utime1 == SDPIclockGetTime cps stopped tp utime)%Q /\
  match clocktype clck with
  | SDPI_CLOCKTYPE_WALL =>
      (SDPIclockGetTime cps stopped tp utime == timeval_seconds tp1 - timeval_seconds tp0)%Q /\
      0 <= wallclock_usec stopped <= 1000000
  | SDPI_CLOCKTYPE_CPU =>
      (SDPIclockGetTime cps stopped tp utime == cputime2sec cps (utime1 - utime0))%Q
  end.
Proof.
  intros Hn [H0 H0'] [H1 H1']. cbv zeta.
  unfold SDPIclockStart, SDPIclockStop, SDPIclockGetTime, timeval_seconds.
  destruct (clocktype clck) eqn:Et.
  - (* wall clock *)
    destruct (Z.ltb_spec 0 (tv_usec tp0)) as [Hpos | Hzero];
      cbn [clocktype nruns wallclock_sec wallclock_usec cpuclock_user];
      rewrite Hn; change (0 + 1 =? 0) with false; cbv iota;
      match goal with
      | |- context [1000000 <? ?x] => destruct (Z.ltb_spec 1000000 x) as [Hc | Hc]
      end;
      cbn [clocktype nruns wallclock_sec wallclock_usec cpuclock_user];
      change (0 + 1 - 1 =? 0) with true; cbv iota;
      (split; [reflexivity|]); (split; [reflexivity|]); (split; [reflexivity|]);
      (split; [apply walltime_eq; lia|]); (split; [|lia]);
      rewrite <- walltime2sec_sub;
      first [ apply walltime_eq; lia
            | rewrite <- (walltime2sec_carry (tv_sec tp1 - tv_sec tp0));
              apply walltime_eq; lia ].
  - (* CPU clock *)
    cbn [clocktype nruns wallclock_sec wallclock_usec cpuclock_user].
    rewrite Hn. change (0 + 1 =? 0) with false. change (0 + 1 - 1 =? 0) with true. cbv iota.
    repeat split; try reflexivity.
    unfold cputime2sec. replace (- utime0 + utime1) with (utime1 - utime0) by lia.
    reflexivity.
Qed.

Lemma clock_measures_elapsed_time_witness :
  let running := SDPIclockStart (SDPIclockCreate 0 0 0) (mkTimeval 10 500000) 0 in
  let stopped := SDPIclockStop running (mkTimeval 12 500000) 0 in
  nruns running = 1 /\ nruns stopped = 0 /\
  clocktype stopped = SDPI_CLOCKTYPE_WALL /\
  (SDPIclockGetTime 100 running (mkTimeval 12 500000) 0
   == SDPIclockGetTime 100 stopped (mkTimeval 0 0) 0)%Q /\
  (SDPIclockGetTime 100 stopped (mkTimeval 0 0) 0
   == timeval_seconds (mkTimeval 12 500000) - timeval_seconds (mkTimeval 10 500000))%Q /\
  0 <= wallclock_usec stopped <= 1000000.
Proof.
  apply (clock_measures_elapsed_time 100 (SDPIclockCreate 0 0 0) (mkTimeval 10 500000)
           (mkTimeval 12 500000) (mkTimeval 0 0) 0 0 0);
    [reflexivity | unfold timeval_ok; cbn; lia | unfold timeval_ok; cbn; lia].
Defined.

(** ** Empty rows and columns of the SDP blocks *)

Lemma count_below_bounds (f : Z -> bool) n : 0 <= count_below f n <= Z.of_nat n.
Proof.
  induction n as [|n IH]; cbn [count_below]; [lia|]. destruct (f (Z.of_nat n)); lia.
Qed.

(** if all indices are counted, all satisfy the predicate *)
Lemma count_below_full (f : Z -> bool) n :
  count_below f n = Z.of_nat n -> forall i, 0 <= i < Z.of_nat n -> f i = true.
Proof.
  induction n as [|n IH]; cbn [count_below]; intros Hc i Hi; [lia|].
  pose proof (count_below_bounds f n) as Hb.
  destruct (f (Z.of_nat n)) eqn:Ef; [|lia].
  destruct (Z.eq_dec i (Z.of_nat n)) as [-> | Hne]; [exact Ef|].
  apply IH; lia.
Qed.

Lemma count_below_ext (f g : Z -> bool) n :
  (forall i, 0 <= i < Z.of_nat n -> f i = g i) -> count_below f n = count_below g n.
Proof.
  induction n as [|n IH]; cbn [count_below]; intros H; [reflexivity|].
  rewrite IH by (intros i Hi; apply H; lia). rewrite (H (Z.of_nat n)) by lia. reflexivity.
Qed.

(** one more index satisfies the predicate *)
Lemma count_below_add (f g : Z -> bool) (k : Z) n :
  0 <= k < Z.of_nat n -> f k = false -> g k = true ->
  (forall i, i <> k -> g i = f i) ->
  count_below g n = count_below f n + 1.
Proof.
  induction n as [|n IH]; cbn [count_below]; intros Hk Hf Hg Hother; [lia|].
  destruct (Z.eq_dec k (Z.of_nat n)) as [-> | Hne].
  - rewrite Hf, Hg.
    rewrite (count_below_ext g f) by (intros i Hi; apply Hother; lia). lia.
  - rewrite IH by (try assumption; lia). rewrite (Hother (Z.of_nat n)) by congruence. lia.
Qed.

Section Marking.

Variable size : nat.

(** the array of a block while its indices are looked for: the entries are
    1 (found) or -1, and [nfound] counts the entries 1 *)
Local Abbreviation found ind := (fun i => Arr.get 0 ind i =? 1).

Local Abbreviation marking st :=
  (length (fst st) = size /\
   (forall i, 0 <= i < Z.of_nat size -> Arr.get 0 (fst st) i = 1 \/ Arr.get 0 (fst st) i = -1) /\
   snd st = count_below (found (fst st)) size).

Lemma mark_index_spec (st : list Z * Z) (k : Z) :
  marking st -> 0 <= k < Z.of_nat size ->
  marking (mark_index st k) /\
  forall i, 0 <= i < Z.of_nat size ->
    found (fst (mark_index st k)) i = found (fst st) i || (k =? i).
Proof.
  intros (Hlen & Hval & Hn) Hk. unfold mark_index.
  destruct (Z.eqb_spec (Arr.get 0 (fst st) k) (-1)) as [Hfree | Hfound]; cbn [fst snd].
  - split; [split; [|split]|].
    + rewrite set_length. exact Hlen.
    + intros i Hi. destruct (Z.eq_dec k i) as [-> | Hne].
      * left. apply get_set_same. lia.
      * rewrite get_set_other by exact Hne. apply Hval, Hi.
    + rewrite Hn. symmetry.
      apply (count_below_add _ _ k); [exact Hk | | |].
      * rewrite Hfree. reflexivity.
      * rewrite get_set_same by lia. reflexivity.
      * intros i Hne. rewrite get_set_other by congruence. reflexivity.
    + intros i Hi. destruct (Z.eqb_spec k i) as [-> | Hne].
      * rewrite get_set_same by lia. rewrite orb_true_r. reflexivity.
      * rewrite get_set_other by exact Hne. rewrite orb_false_r. reflexivity.
  - split; [repeat split; assumption|].
    intros i Hi. destruct (Z.eqb_spec k i) as [-> | Hne]; [|rewrite orb_false_r; reflexivity].
    destruct (Hval i Hi) as [-> | Hc]; [reflexivity | contradiction].
Qed.

(** leaving the loop early does not change what is found *)
Lemma marking_full (st : list Z * Z) :
  marking st -> snd st = Z.of_nat size ->
  forall i, 0 <= i < Z.of_nat size -> found (fst st) i = true.
Proof.
  intros (_ & _ & Hn) Hfull. apply count_below_full. congruence.
Qed.

Lemma mark_nonzeros_spec (es : list Entry) : forall st,
  marking st -> Forall (entry_in_range (Z.of_nat size)) es ->
  marking (mark_nonzeros (Z.of_nat size) es st) /\
  forall i, 0 <= i < Z.of_nat size ->
    found (fst (mark_nonzeros (Z.of_nat size) es st)) i
    = found (fst st) i || existsb (touches i) es.
Proof.
  induction es as [|e t IH]; intros st Hst Hes; cbn [mark_nonzeros existsb].
  - split; [exact Hst|]. intros i Hi. rewrite orb_false_r. reflexivity.
  - inversion Hes as [|e' t' [Hr Hc] Ht]; subst.
    destruct (mark_index_spec st (e_row e) Hst Hr) as [Hst1 Hf1].
    destruct (mark_index_spec _ (e_col e) Hst1 Hc) as [Hst2 Hf2].
    set (st2 := mark_index (mark_index st (e_row e)) (e_col e)) in *.
    assert (Hstep : forall i, 0 <= i < Z.of_nat size ->
              found (fst st2) i = found (fst st) i || touches i e).
    { intros i Hi. rewrite Hf2, Hf1 by exact Hi. unfold touches.
      rewrite orb_assoc. reflexivity. }
    destruct (Z.eqb_spec (snd st2) (Z.of_nat size)) as [Hfull | Hmore].
    + split; [exact Hst2|]. intros i Hi.
      rewrite orb_assoc, <- Hstep by exact Hi.
      rewrite (marking_full st2 Hst2 Hfull i Hi). reflexivity.
    + destruct (IH st2 Hst2 Ht) as [Hst3 Hf3]. split; [exact Hst3|].
      intros i Hi. rewrite Hf3, Hstep by exact Hi. rewrite orb_assoc. reflexivity.
Qed.

End Marking.

Lemma count_below_none (f : Z -> bool) n :
  (forall i, 0 <= i < Z.of_nat n -> f i = false) -> count_below f n = 0.
Proof.
  induction n as [|n IH]; cbn [count_below]; intros H; [reflexivity|].
  rewrite IH by (intros i Hi; apply H; lia). rewrite (H (Z.of_nat n)) by lia. reflexivity.
Qed.

Lemma count_below_next (f : Z -> bool) (i : Z) :
  0 <= i ->
  count_below f (Z.to_nat (i + 1)) = count_below f (Z.to_nat i) + (if f i then 1 else 0).
Proof.
  intros Hi. replace (Z.to_nat (i + 1)) with (S (Z.to_nat i)) by lia.
  cbn [count_below]. rewrite Z2Nat.id by exact Hi. reflexivity.
Qed.

Section BlockIndices.

Variable B : SDPISOLVER.
Implicit Type s : SCIP_SDPI B.

Local Abbreviation found ind := (fun i => Arr.get 0 ind i =? 1).

Section MarkingVariables.

Variable size : nat.

Local Abbreviation marking st :=
  (length (fst st) = size /\
   (forall i, 0 <= i < Z.of_nat size -> Arr.get 0 (fst st) i = 1 \/ Arr.get 0 (fst st) i = -1) /\
   snd st = count_below (found (fst st)) size).

Lemma mark_blockvars_spec s (bvs : list BlockVar) : forall st,
  marking st ->
  Forall (entry_in_range (Z.of_nat size))
    (flat_map (fun bv => if isFixed s (sdpvar bv) then [] else sdpnonz bv) bvs) ->
  marking (mark_blockvars s (Z.of_nat size) bvs st) /\
  forall i, 0 <= i < Z.of_nat size ->
    found (fst (mark_blockvars s (Z.of_nat size) bvs st)) i
    = found (fst st) i
      || existsb (touches i)
           (flat_map (fun bv => if isFixed s (sdpvar bv) then [] else sdpnonz bv) bvs).
Proof.
  induction bvs as [|bv t IH]; intros st Hst Hes; cbn [mark_blockvars flat_map].
  - split; [exact Hst|]. intros i Hi. cbn [existsb]. rewrite orb_false_r. reflexivity.
  - cbn [flat_map] in Hes. apply Forall_app in Hes. destruct Hes as [Hbv Ht].
    set (st1 := if negb (isFixed s (sdpvar bv)) then _ else st).
    assert (H1 : marking st1 /\
                 forall i, 0 <= i < Z.of_nat size ->
                   found (fst st1) i
                   = found (fst st) i
                     || existsb (touches i) (if isFixed s (sdpvar bv) then [] else sdpnonz bv)).
    { subst st1. destruct (isFixed s (sdpvar bv)); cbn [negb].
      - split; [exact Hst|]. intros i Hi. cbn [existsb]. rewrite orb_false_r. reflexivity.
      - apply mark_nonzeros_spec; assumption. }
    destruct H1 as [Hst1 Hf1].
    destruct (Z.eqb_spec (snd st1) (Z.of_nat size)) as [Hfull | Hmore].
    + split; [exact Hst1|]. intros i Hi.
      rewrite existsb_app, orb_assoc, <- Hf1 by exact Hi.
      rewrite (marking_full size st1 Hst1 Hfull i Hi). reflexivity.
    + destruct (IH st1 Hst1 Ht) as [Hst2 Hf2]. split; [exact Hst2|].
      intros i Hi. rewrite Hf2, Hf1 by exact Hi.
      rewrite existsb_app, orb_assoc. reflexivity.
Qed.

End MarkingVariables.

(** the final numbering of the indices of a block *)
Lemma number_indices_spec (size : Z) (ind : list Z) :
  0 <= size <= Z.of_nat (length ind) ->
  (forall i, 0 <= i < size -> Arr.get 0 ind i = 1 \/ Arr.get 0 ind i = -1) ->
  let r := number_indices size ind in
  length (fst r) = length ind /\
  snd r = count_below (fun j => negb (found ind j)) (Z.to_nat size) /\
  (forall i, 0 <= i < size ->
     Arr.get 0 (fst r) i
     = if found ind i then count_below (fun j => negb (found ind j)) (Z.to_nat i) else -1) /\
  (forall i, size <= i -> Arr.get 0 (fst r) i = Arr.get 0 ind i).
Proof.
  intros Hsize Hval. cbv zeta. unfold number_indices, Arr.for_range. rewrite Z.sub_0_r.
  set (body := fun (i : Z) '(ind, nremoved) => _).
  pose proof (for_loop_indexed _
                (fun i (st : list Z * Z) =>
                   length (fst st) = length ind /\
                   snd st = count_below (fun j => negb (found ind j)) (Z.to_nat i) /\
                   (forall j, 0 <= j < i ->
                      Arr.get 0 (fst st) j
                      = if found ind j
                        then count_below (fun j => negb (found ind j)) (Z.to_nat j) else -1) /\
                   (forall j, i <= j -> Arr.get 0 (fst st) j = Arr.get 0 ind j))
                body (Z.to_nat size) 0 (ind, 0)) as Hinv.
  cbv beta in Hinv.
  replace (0 + Z.of_nat (Z.to_nat size)) with size in Hinv by lia.
  apply Hinv; clear Hinv.
  - intros i [a n] Hi (Hlen & Hn & Hdone & Hrest). cbn [fst snd] in *.
    subst body. cbn beta iota. rewrite (Hrest i) by lia.
    rewrite count_below_next by lia.
    destruct (Hval i ltac:(lia)) as [Hone | Hfree]; rewrite Hone || rewrite Hfree;
      cbn [Z.eqb Pos.eqb negb fst snd].
    + split; [rewrite set_length; exact Hlen|]. split; [lia|]. split.
      * intros j Hj. destruct (Z.eq_dec j i) as [-> | Hne].
        -- rewrite get_set_same by lia. rewrite Hone. cbn. exact Hn.
        -- rewrite get_set_other by congruence. apply Hdone. lia.
      * intros j Hj. rewrite get_set_other by lia. apply Hrest. lia.
    + split; [exact Hlen|]. split; [lia|]. split.
      * intros j Hj. destruct (Z.eq_dec j i) as [-> | Hne].
        -- rewrite (Hrest i) by lia. rewrite Hfree. reflexivity.
        -- apply Hdone. lia.
      * intros j Hj. apply Hrest. lia.
  - cbn [fst snd]. repeat split; try reflexivity. intros j Hj. lia.
Qed.

End BlockIndices.

Section EmptyRowColsMaps.

Variable B : SDPISOLVER.
Implicit Type s : SCIP_SDPI B.

Local Abbreviation block_at s b := (nth (Z.to_nat b) (blocks s) (mkBlock 0 [] [])).
Local Abbreviation nonzeros_at s sdpconst b :=
  (active_nonzeros s (block_at s b) (Arr.get [] sdpconst b)).

(** one pass of the loop over the blocks, on an array that holds -1 *)
Lemma find_block_spec s (sdpconst : list (list Entry)) (b : Z) (m : IndexMaps) :
  let size := sdpblocksize (block_at s b) in
  let es := nonzeros_at s sdpconst b in
  0 <= size ->
  Z.of_nat (length (Arr.get [] (indchanges m) b)) = size ->
  (forall i, 0 <= i < size -> Arr.get 0 (Arr.get [] (indchanges m) b) i = -1) ->
  Forall (entry_in_range size) es ->
  exists ind',
    find_block s sdpconst b m
    = mkIndexMaps (Arr.set (indchanges m) b ind')
        (Arr.set (nremovedinds m) b (unused_before es size))
        (Arr.set (blockindchanges m) b
           (if unused_before es size =? size then -1 else nremovedblocks m))
        (if unused_before es size =? size then nremovedblocks m + 1 else nremovedblocks m) /\
    forall i, 0 <= i < size ->
      Arr.get 0 ind' i = if existsb (touches i) es then unused_before es i else -1.
Proof.
  cbv zeta. intros Hsize Hlen Hfresh Hes.
  unfold find_block.
  set (blk := block_at s b) in *.
  set (ind0 := Arr.get [] (indchanges m) b) in *.
  assert (Hn : exists n, sdpblocksize blk = Z.of_nat n)
    by (exists (Z.to_nat (sdpblocksize blk)); lia).
  destruct Hn as [n Hn]. rewrite Hn in *. clear Hsize.
  unfold active_nonzeros in *. fold blk in Hes |- *.
  set (vars_es := flat_map (fun bv => if isFixed s (sdpvar bv) then [] else sdpnonz bv)
                    (sdpblockvars blk)) in *.
  pose proof Hes as Hes'. apply Forall_app in Hes'. destruct Hes' as [Hvars Hconst].
  (* the indices found in the variables *)
  assert (H0 : length (fst (ind0, 0)) = n /\
               (forall i, 0 <= i < Z.of_nat n ->
                  Arr.get 0 (fst (ind0, 0)) i = 1 \/ Arr.get 0 (fst (ind0, 0)) i = -1) /\
               snd (ind0, 0) = count_below (fun i => Arr.get 0 (fst (ind0, 0)) i =? 1) n).
  { cbn [fst snd]. split; [lia|]. split; [intros i Hi; right; apply Hfresh; lia|].
    symmetry. apply count_below_none. intros i Hi. rewrite Hfresh by lia. reflexivity. }
  destruct (mark_blockvars_spec B n s (sdpblockvars blk) (ind0, 0) H0 Hvars) as [Hst1 Hf1].
  fold vars_es in Hf1.
  set (st1 := mark_blockvars s (Z.of_nat n) (sdpblockvars blk) (ind0, 0)) in *.
  assert (Hf1' : forall i, 0 <= i < Z.of_nat n ->
            (Arr.get 0 (fst st1) i =? 1) = existsb (touches i) vars_es).
  { intros i Hi. rewrite Hf1 by exact Hi. cbn [fst]. rewrite Hfresh by exact Hi. reflexivity. }
  (* and in the constant matrix *)
  set (st2 := if snd st1 <? Z.of_nat n then _ else st1).
  assert (H2 : (length (fst st2) = n /\
                (forall i, 0 <= i < Z.of_nat n ->
                   Arr.get 0 (fst st2) i = 1 \/ Arr.get 0 (fst st2) i = -1) /\
                snd st2 = count_below (fun i => Arr.get 0 (fst st2) i =? 1) n) /\
               forall i, 0 <= i < Z.of_nat n ->
                 (Arr.get 0 (fst st2) i =? 1)
                 = existsb (touches i) (vars_es ++ Arr.get [] sdpconst b)).
  { subst st2. destruct (Z.ltb_spec (snd st1) (Z.of_nat n)) as [Hless | Hfull].
    - destruct (mark_nonzeros_spec n (Arr.get [] sdpconst b) st1 Hst1 Hconst) as [Hst2 Hf2].
      split; [exact Hst2|].
      intros i Hi. rewrite Hf2, Hf1' by exact Hi. rewrite existsb_app. reflexivity.
    - split; [exact Hst1|]. intros i Hi.
      assert (Hall : snd st1 = Z.of_nat n).
      { destruct Hst1 as (_ & _ & Hc).
        pose proof (count_below_bounds (fun i => Arr.get 0 (fst st1) i =? 1) n). lia. }
      pose proof (marking_full n st1 Hst1 Hall i Hi) as Hfi. cbv beta in Hfi.
      rewrite existsb_app, <- Hf1' by exact Hi. rewrite Hfi. reflexivity. }
  destruct H2 as [(Hlen2 & Hval2 & _) Hf2]. clearbody st2.
  destruct (number_indices_spec (Z.of_nat n) (fst st2)) as (_ & Hc & Hin & _);
    [lia | exact Hval2 |].
  rewrite Nat2Z.id in Hc.
  destruct (number_indices (Z.of_nat n) (fst st2)) as [ind nremoved]. cbn [fst snd] in Hc, Hin.
  assert (Hcount : forall i, 0 <= i <= Z.of_nat n ->
            count_below (fun j => negb (Arr.get 0 (fst st2) j =? 1)) (Z.to_nat i)
            = unused_before (vars_es ++ Arr.get [] sdpconst b) i).
  { intros i Hi. unfold unused_before. apply count_below_ext.
    intros j Hj. rewrite Hf2 by lia. reflexivity. }
  rewrite <- (Nat2Z.id n) in Hc at 1. rewrite (Hcount (Z.of_nat n)) in Hc by lia.
  subst nremoved.
  exists ind. split.
  - destruct (_ =? Z.of_nat n); reflexivity.
  - intros i Hi. rewrite (Hin i Hi), Hf2 by exact Hi. rewrite Hcount by lia. reflexivity.
Qed.

(** the arrays of all blocks hold -1 after the first loop *)
Lemma indchanges_initialised s (ind : list (list Z)) (nb : nat) : forall b0,
  0 <= b0 -> b0 + Z.of_nat nb <= Z.of_nat (length ind) ->
  let ind0 :=
    Arr.for_loop nb b0
      (fun b ind =>
         Arr.set ind b
           (Arr.for_range 0 (sdpblocksize (block_at s b))
              (fun i a => Arr.set a i (-1)) (Arr.get [] ind b)))
      ind in
  length ind0 = length ind /\
  forall b, b0 <= b < b0 + Z.of_nat nb ->
    length (Arr.get [] ind0 b) = length (Arr.get [] ind b) /\
    forall i, 0 <= i < sdpblocksize (block_at s b) ->
      i < Z.of_nat (length (Arr.get [] ind b)) ->
      Arr.get 0 (Arr.get [] ind0 b) i = -1.
Proof.
  intros b0 Hb0 Hlen. cbv zeta.
  set (body := fun (b : Z) (ind : list (list Z)) => _).
  pose proof (for_loop_indexed _
                (fun b (cur : list (list Z)) =>
                   length cur = length ind /\
                   (forall b', b <= b' -> Arr.get [] cur b' = Arr.get [] ind b') /\
                   (forall b', b0 <= b' < b ->
                      length (Arr.get [] cur b') = length (Arr.get [] ind b') /\
                      forall i, 0 <= i < sdpblocksize (block_at s b') ->
                        i < Z.of_nat (length (Arr.get [] ind b')) ->
                        Arr.get 0 (Arr.get [] cur b') i = -1))
                body nb b0 ind) as Hinv.
  cbv beta in Hinv.
  destruct Hinv as (Hl & _ & Hdone).
  - intros b cur Hb (Hl & Hrest & Hdone). subst body. cbv beta.
    split; [rewrite set_length; exact Hl|].
    split; [intros b' Hb'; rewrite get_set_other by lia; apply Hrest; lia|].
    intros b' Hb'. destruct (Z.eq_dec b' b) as [-> | Hne].
    + rewrite get_set_same by lia. rewrite (Hrest b) by lia.
      unfold Arr.for_range. rewrite Z.sub_0_r.
      split; [apply scatter_length|].
      intros i Hi Hi'.
      apply (scatter_last Z 0 (fun i => i) (fun _ => -1)); lia.
    + rewrite get_set_other by congruence. apply Hdone. lia.
  - split; [reflexivity|]. split; [reflexivity|]. intros b' Hb'. lia.
  - split; [exact Hl | exact Hdone].
Qed.

(** X27: [findEmptyRowColsSDP] finds in every block the rows and columns
    that are empty: an index that neither a nonzero of a variable that is
    not fixed nor a nonzero of the constant matrix uses gets the entry -1 in
    [indchanges], every other index the number of unused indices before it;
    [nremovedinds] is the number of unused indices of the block.  A block
    without a used index gets the entry -1 in [blockindchanges], every other
    block the number of such blocks before it, and [nremovedblocks] is
    their number.  (Leaving the search loops when all indices have been
    found does not change the result.) *)
Theorem findEmptyRowColsSDP_maps s (sdpconst : list (list Entry)) (m : IndexMaps) :
  let nsdpblocks := Z.of_nat (length (blocks s)) in
  nsdpblocks <= Z.of_nat (length (indchanges m)) ->
  nsdpblocks <= Z.of_nat (length (nremovedinds m)) ->
  nsdpblocks <= Z.of_nat (length (blockindchanges m)) ->
  (forall b, 0 <= b < nsdpblocks ->
     0 <= sdpblocksize (block_at s b) /\
     Z.of_nat (length (Arr.get [] (indchanges m) b)) = sdpblocksize (block_at s b) /\
     Forall (entry_in_range (sdpblocksize (block_at s b))) (nonzeros_at s sdpconst b)) ->
  let m' := findEmptyRowColsSDP s sdpconst m in
  (0 < nsdpblocks -> nremovedblocks m' = empty_blocks_before s sdpconst nsdpblocks) /\
  forall b, 0 <= b < nsdpblocks ->
    let size := sdpblocksize (block_at s b) in
    let es := nonzeros_at s sdpconst b in
    (forall i, 0 <= i < size ->
       Arr.get 0 (Arr.get [] (indchanges m') b) i
       = if existsb (touches i) es then unused_before es i else -1) /\
    Arr.get 0 (nremovedinds m') b = unused_before es size /\
    Arr.get 0 (blockindchanges m') b
    = if unused_before es size =? size then -1 else empty_blocks_before s sdpconst b.
Proof.
  cbv zeta. intros Hli Hln Hlb Hblocks. unfold findEmptyRowColsSDP.
  destruct (Z.leb_spec (Z.of_nat (length (blocks s))) 0) as [Hnone | Hsome].
  { split; [lia|]. intros b Hb. lia. }
  unfold Arr.for_range. rewrite !Z.sub_0_r. rewrite !Nat2Z.id.
  destruct (indchanges_initialised s (indchanges m) (length (blocks s)) 0) as [Hl0 Hinit];
    [lia | lia |].
  set (ind0 := Arr.for_loop (length (blocks s)) 0 _ (indchanges m)) in *.
  pose proof (for_loop_indexed _
                (fun b (cur : IndexMaps) =>
                   (length (indchanges cur) = length (indchanges m) /\
                    length (nremovedinds cur) = length (nremovedinds m) /\
                    length (blockindchanges cur) = length (blockindchanges m)) /\
                   nremovedblocks cur = empty_blocks_before s sdpconst b /\
                   (forall b', b <= b' ->
                      Arr.get [] (indchanges cur) b' = Arr.get [] ind0 b') /\
                   (forall b', 0 <= b' < b ->
                      (forall i, 0 <= i < sdpblocksize (block_at s b') ->
                         Arr.get 0 (Arr.get [] (indchanges cur) b') i
                         = if existsb (touches i) (nonzeros_at s sdpconst b')
                           then unused_before (nonzeros_at s sdpconst b') i else -1) /\
                      Arr.get 0 (nremovedinds cur) b'
                      = unused_before (nonzeros_at s sdpconst b') (sdpblocksize (block_at s b')) /\
                      Arr.get 0 (blockindchanges cur) b'
                      = if unused_before (nonzeros_at s sdpconst b')
                             (sdpblocksize (block_at s b'))
                           =? sdpblocksize (block_at s b')
                        then -1 else empty_blocks_before s sdpconst b'))
                (find_block s sdpconst) (length (blocks s)) 0
                (mkIndexMaps ind0 (nremovedinds m) (blockindchanges m) 0)) as Hinv.
  cbv beta in Hinv. rewrite Z.add_0_l in Hinv.
  destruct Hinv as (_ & Hnb & _ & Hdone).
  - (* one block *)
    intros b cur Hb ((Hl1 & Hl2 & Hl3) & Hnb & Hrest & Hdone).
    destruct (Hblocks b) as (Hsize & Hlen & Hes); [lia|].
    destruct (Hinit b) as [Hlen0 Hfresh]; [lia|].
    destruct (find_block_spec s sdpconst b cur) as (ind' & Heq & Hind').
    + exact Hsize.
    + rewrite (Hrest b) by lia. rewrite Hlen0. exact Hlen.
    + intros i Hi. rewrite (Hrest b) by lia. apply Hfresh; lia.
    + exact Hes.
    + rewrite Heq. cbn [indchanges nremovedinds blockindchanges nremovedblocks].
      rewrite !set_length.
      split; [repeat split; assumption|].
      split.
      { assert (Hnext : empty_blocks_before s sdpconst (b + 1)
                        = empty_blocks_before s sdpconst b
                          + (if unused_before (nonzeros_at s sdpconst b)
                                  (sdpblocksize (block_at s b))
                                =? sdpblocksize (block_at s b)
                             then 1 else 0))
          by (unfold empty_blocks_before; rewrite count_below_next by lia; reflexivity).
        rewrite Hnext, <- Hnb.
        destruct (_ =? sdpblocksize (block_at s b)); lia. }
      split; [intros b' Hb'; rewrite get_set_other by lia; apply Hrest; lia|].
      intros b' Hb'. destruct (Z.eq_dec b' b) as [-> | Hne].
      * rewrite !get_set_same by lia. rewrite Hnb.
        split; [exact Hind'|]. split; reflexivity.
      * rewrite !get_set_other by congruence. apply Hdone. lia.
  - (* before the first block *)
    cbn [indchanges nremovedinds blockindchanges nremovedblocks].
    split; [repeat split; try reflexivity; exact Hl0|].
    split; [reflexivity|]. split; [reflexivity|]. intros b' Hb'. lia.
  - split; [intros _; exact Hnb|]. intros b Hb. apply Hdone. exact Hb.
Qed.

End EmptyRowColsMaps.

Lemma findEmptyRowColsSDP_maps_witness :
  let m' := findEmptyRowColsSDP sparse_block [[mkEntry 2 2 (1 # 1)]]
              (mkIndexMaps [[0; 0; 0]] [0] [0] 0) in
  nremovedblocks m' = 0 /\
  Arr.get 0 (Arr.get [] (indchanges m') 0) 1 = -1 /\
  Arr.get 0 (Arr.get [] (indchanges m') 0) 2 = 1 /\
  Arr.get 0 (nremovedinds m') 0 = 1 /\
  Arr.get 0 (blockindchanges m') 0 = 0.
Proof.
  destruct (findEmptyRowColsSDP_maps failing_backend sparse_block [[mkEntry 2 2 (1 # 1)]]
              (mkIndexMaps [[0; 0; 0]] [0] [0] 0)) as [Hnb Hblock].
  - vm_compute. discriminate.
  - vm_compute. discriminate.
  - vm_compute. discriminate.
  - intros b Hb. change (Z.of_nat (length (blocks sparse_block))) with 1 in Hb.
    assert (b = 0) as -> by lia.
    split; [vm_compute; discriminate|]. split; [reflexivity|].
    vm_compute. repeat constructor; discriminate.
  - destruct (Hblock 0) as (Hind & Hn & Hb); [vm_compute; split; [discriminate | reflexivity]|].
    split; [apply Hnb; reflexivity|].
    split; [apply (Hind 1); vm_compute; split; [discriminate | reflexivity]|].
    split; [apply (Hind 2); vm_compute; split; [discriminate | reflexivity]|].
    split; [exact Hn | exact Hb].
Defined.


(** ** The primal variables of the bounds after a one-variable LP *)

Section PrimalAfterOneVariableLP.

Variable B : SDPISOLVER.
Variable I : SDPISOLVER_INFO B.
Variable GetPrimalBoundVars : solver B -> list Q -> list Q -> SCIP_RETCODE * (list Q * list Q).
Implicit Type s : SCIP_SDPI B.

(** the state after the solve of an LP with one free variable *)
Lemma onevar_lp_state s (fuel : nat) (lpnnonz' : Z) (enforceslatercheck : bool)
    (timelimit : Q) (idx : Z) (contr : Q) :
  blocks s = [] ->
  solved (status s) = false -> allfixed (status s) = false ->
  infeasible (status s) = false ->
  count_active s = (1, idx, contr) ->
  SCIPsdpiIsInfinity s (Arr.get 0%Q (sdpilb (prep s)) idx) = false ->
  SCIPsdpiIsInfinity s (Arr.get 0%Q (sdpiub (prep s)) idx) = false ->
  exists s',
    solve_after_preprocessing fuel s lpnnonz' enforceslatercheck timelimit = Some s' /\
    vars s' = vars s /\ prep s' = prep s /\ par s' = par s /\
    sdpisolver s' = sdpisolver s /\
    solved (status s') = true /\ allfixed (status s') = false /\
    infeasible (status s') = false /\
    solvedonevarsdp (status s') = SCIP_ONEVAR_OPTIMAL /\
    onevarsdpidx (status s') = idx /\
    onevarsdpoptval (status s')
    = (if (0 <=? Arr.get 0%Q (obj (vars s)) idx)%Q
       then Arr.get 0%Q (sdpilb (prep s)) idx else Arr.get 0%Q (sdpiub (prep s)) idx).
Proof.
  intros Hb Hs Ha Hi Ec Hlb Hub.
  unfold solve_after_preprocessing. rewrite Ec.
  change (1 =? 0) with false. cbv iota. rewrite Ha.
  change (1 =? 1) with true. rewrite Hb. cbn [length Z.of_nat Z.leb andb].
  change (0 <=? 1) with true. cbv iota.
  unfold solve_onevar. rewrite Hb, Hlb, Hub. cbn [negb andb].
  destruct (0 <=? Arr.get 0%Q (obj (vars s)) idx)%Q; cbn [negb]; rewrite ?Hs; cbn [negb];
    eexists; (split; [reflexivity|]); cbn; rewrite ?Ha, ?Hi; repeat split; reflexivity.
Qed.


End PrimalAfterOneVariableLP.



(** ** The map between SCIP variables and SDP indices *)

Section VarmapperFacts.

Import SdpVarmapper.

Lemma realloc_length (a : list SCIP_VAR) (n : Z) :
  0 <= n -> Z.of_nat (length (realloc a n)) = n.
Proof.
  intros Hn. unfold realloc. rewrite length_app, length_firstn, repeat_length. lia.
Qed.

Lemma get_realloc (a : list SCIP_VAR) (n j : Z) :
  0 <= j < n -> j < Z.of_nat (length a) -> Arr.get 0 (realloc a n) j = Arr.get 0 a j.
Proof.
  intros Hj Hlen. unfold Arr.get, realloc. destruct (Z.ltb_spec j 0); [lia|].
  rewrite app_nth1 by (rewrite length_firstn; lia).
  rewrite <- (firstn_skipn (Z.to_nat n) a) at 2.
  rewrite app_nth1 by (rewrite length_firstn; lia). reflexivity.
Qed.

Lemma exists_iff (h : SCIP_HASHMAP) (var : SCIP_VAR) :
  SCIPhashmapExists h var = true <-> exists i, h var = Some i.
Proof.
  unfold SCIPhashmapExists. destruct (h var) as [i|].
  - split; [intros _; exists i; reflexivity | reflexivity].
  - split; [discriminate | intros [i Hi]; discriminate].
Qed.

(** the array of a consistent mapper has no duplicates *)
Lemma consistent_injective (m : Sdpvarmapper) (i j : Z) :
  consistent m -> 0 <= i < nvars m -> 0 <= j < nvars m ->
  Arr.get 0 (sdptoscip m) i = Arr.get 0 (sdptoscip m) j -> i = j.
Proof.
  intros (_ & Hfwd & _) Hi Hj Heq.
  pose proof (Hfwd i Hi) as H1. pose proof (Hfwd j Hj) as H2.
  rewrite Heq in H1. congruence.
Qed.

(** what the loop of [SCIPsdpVarmapperAddVars] has done before the
    variable [i] *)
Local Abbreviation adding m n vars :=
  (fun (i : Z) (st : Sdpvarmapper * bool) =>
     let mc := fst st in
     nvars m <= nvars mc <= nvars m + i /\
     Z.of_nat (length (sdptoscip mc)) = nvars m + n /\
     (snd st = false -> nvars mc = nvars m + i) /\
     (forall j, 0 <= j < nvars mc -> sciptosdp mc (Arr.get 0 (sdptoscip mc) j) = Some j) /\
     (forall var j, sciptosdp mc var = Some j ->
        0 <= j < nvars mc /\ Arr.get 0 (sdptoscip mc) j = var) /\
     (forall var j, sciptosdp m var = Some j -> sciptosdp mc var = Some j) /\
     (forall var, SCIPhashmapExists (sciptosdp mc) var = true <->
        SCIPhashmapExists (sciptosdp m) var = true \/
        exists k, 0 <= k < i /\ Arr.get 0 vars k = var)).

Lemma AddVars_loop (m : Sdpvarmapper) (n : Z) (vars : list SCIP_VAR) :
  consistent m -> 0 < n ->
  let m0 := mkSdpvarmapper (realloc (sdptoscip m) (nvars m + n)) (sciptosdp m) (nvars m) in
  let body :=
    fun (i : Z) '(m, reallocneeded) =>
      let var := Arr.get 0 vars i in
      if negb (SCIPhashmapExists (sciptosdp m) var) then
        (mkSdpvarmapper (Arr.set (sdptoscip m) (nvars m) var)
           (SCIPhashmapInsertInt (sciptosdp m) var (nvars m)) (nvars m + 1),
         reallocneeded)
      else (m, true) in
  adding m n vars n (Arr.for_range 0 n body (m0, false)).
Proof.
  intros (Hlen & Hfwd & Hbwd) Hn m0 body.
  assert (H0 : 0 <= nvars m) by lia.
  unfold Arr.for_range. rewrite Z.sub_0_r.
  pose proof (for_loop_indexed _ (adding m n vars) body (Z.to_nat n) 0 (m0, false)) as Hinv.
  replace (0 + Z.of_nat (Z.to_nat n)) with n in Hinv by lia.
  apply Hinv; clear Hinv.
  - (* one variable *)
    intros i [mc r] Hi (Hnv & Hl & Hr & Hf & Hb & Hold & Hex). cbn [fst snd] in *.
    subst body. cbv beta iota zeta.
    destruct (SCIPhashmapExists (sciptosdp mc) (Arr.get 0 vars i)) eqn:Ee; cbn [negb fst snd].
    + (* it is in the map already *)
      split; [lia|]. split; [exact Hl|]. split; [discriminate|].
      split; [exact Hf|]. split; [exact Hb|]. split; [exact Hold|].
      intros var. rewrite Hex. split.
      * intros [Hm | (k & Hk & Hv)]; [left; exact Hm | right; exists k; split; [lia | exact Hv]].
      * intros [Hm | (k & Hk & Hv)]; [left; exact Hm|].
        destruct (Z.eq_dec k i) as [-> | Hne]; [|right; exists k; split; [lia | exact Hv]].
        subst var. apply Hex. exact Ee.
    + (* it is new *)
      assert (Hnone : sciptosdp mc (Arr.get 0 vars i) = None).
      { unfold SCIPhashmapExists in Ee. destruct (sciptosdp mc _); [discriminate | reflexivity]. }
      cbn [nvars sdptoscip sciptosdp].
      split; [lia|]. split; [rewrite set_length; exact Hl|].
      split; [intros Hr'; specialize (Hr Hr'); lia|].
      split; [|split; [|split]].
      * intros j Hj. unfold SCIPhashmapInsertInt.
        destruct (Z.eq_dec j (nvars mc)) as [-> | Hne].
        -- rewrite get_set_same by lia. rewrite Z.eqb_refl. reflexivity.
        -- rewrite get_set_other by congruence.
           destruct (Z.eqb_spec (Arr.get 0 (sdptoscip mc) j) (Arr.get 0 vars i)) as [Heq | _].
           ++ rewrite <- Heq, Hf in Hnone by lia. discriminate.
           ++ apply Hf. lia.
      * intros var j. unfold SCIPhashmapInsertInt.
        destruct (Z.eqb_spec var (Arr.get 0 vars i)) as [-> | Hne].
        -- intros [= <-]. split; [lia|]. apply get_set_same. lia.
        -- intros Hj. destruct (Hb var j Hj) as [Hrange Hget].
           split; [lia|]. rewrite get_set_other by lia. exact Hget.
      * intros var j Hj. unfold SCIPhashmapInsertInt.
        destruct (Z.eqb_spec var (Arr.get 0 vars i)) as [-> | Hne]; [|apply Hold; exact Hj].
        rewrite (Hold _ _ Hj) in Hnone. discriminate.
      * intros var. unfold SCIPhashmapExists, SCIPhashmapInsertInt.
        destruct (Z.eqb_spec var (Arr.get 0 vars i)) as [-> | Hne].
        -- split; [intros _; right; exists i; split; [lia | reflexivity] | reflexivity].
        -- fold (SCIPhashmapExists (sciptosdp mc) var). rewrite Hex. split.
           ++ intros [Hm | (k & Hk & Hv)];
                [left; exact Hm | right; exists k; split; [lia | exact Hv]].
           ++ intros [Hm | (k & Hk & Hv)]; [left; exact Hm|].
              right. exists k. split; [|exact Hv].
              destruct (Z.eq_dec k i) as [-> | Hki]; [congruence | lia].
  - (* before the first variable *)
    subst m0. cbn [fst snd nvars sdptoscip sciptosdp].
    split; [lia|]. split; [apply realloc_length; lia|]. split; [lia|].
    split; [intros j Hj; rewrite get_realloc by lia; apply Hfwd; exact Hj|].
    split; [intros var j Hj; destruct (Hbwd var j Hj) as [Hr Hg];
            split; [exact Hr | rewrite get_realloc by lia; exact Hg]|].
    split; [auto|].
    intros var. split; [intros Hm; left; exact Hm | intros [Hm | (k & Hk & _)]; [exact Hm | lia]].
Qed.

(** a consistent mapper translates back and forth *)
Lemma consistent_round_trip (m : Sdpvarmapper) :
  consistent m ->
  (forall var, SCIPsdpVarmapperExistsSCIPvar m var = true ->
     0 <= SCIPsdpVarmapperGetSdpIndex m var < SCIPsdpVarmapperGetNVars m /\
     SCIPsdpVarmapperGetSCIPvar m (SCIPsdpVarmapperGetSdpIndex m var) = var) /\
  (forall i, 0 <= i < SCIPsdpVarmapperGetNVars m ->
     SCIPsdpVarmapperExistsSCIPvar m (SCIPsdpVarmapperGetSCIPvar m i) = true /\
     SCIPsdpVarmapperGetSdpIndex m (SCIPsdpVarmapperGetSCIPvar m i) = i).
Proof.
  intros (_ & Hfwd & Hbwd).
  unfold SCIPsdpVarmapperExistsSCIPvar, SCIPsdpVarmapperGetSdpIndex,
    SCIPsdpVarmapperGetSCIPvar, SCIPsdpVarmapperGetNVars, SCIPhashmapExists,
    SCIPhashmapGetImageInt.
  split.
  - intros var Hex. destruct (sciptosdp m var) as [i|] eqn:Ei; [|discriminate].
    apply Hbwd. exact Ei.
  - intros i Hi. rewrite (Hfwd i Hi). split; reflexivity.
Qed.

(** X29: [SCIPsdpVarmapperAddVars] keeps the array and the hashmap of the
    mapper inverse to each other: afterwards the mapper knows exactly the
    variables it knew before and the variables given, a variable given twice
    or known before is not added again, the variables known before keep
    their SDP indices, and every variable is found at its SDP index and
    every SDP index at its variable. *)
Theorem AddVars_keeps_map (m : Sdpvarmapper) (n : Z) (vars : list Z) :
  consistent m -> 0 <= n ->
  let m' := SCIPsdpVarmapperAddVars m n vars in
  consistent m' /\
  nvars m <= nvars m' <= nvars m + n /\
  (forall var, SCIPsdpVarmapperExistsSCIPvar m' var = true <->
     SCIPsdpVarmapperExistsSCIPvar m var = true \/
     exists k, 0 <= k < n /\ Arr.get 0 vars k = var) /\
  (forall var, SCIPsdpVarmapperExistsSCIPvar m var = true ->
     SCIPsdpVarmapperGetSdpIndex m' var = SCIPsdpVarmapperGetSdpIndex m var) /\
  (forall var, SCIPsdpVarmapperExistsSCIPvar m' var = true ->
     SCIPsdpVarmapperGetSCIPvar m' (SCIPsdpVarmapperGetSdpIndex m' var) = var) /\
  (forall i, 0 <= i < SCIPsdpVarmapperGetNVars m' ->
     SCIPsdpVarmapperGetSdpIndex m' (SCIPsdpVarmapperGetSCIPvar m' i) = i).
Proof.
  intros Hm Hn. cbv zeta.
  assert (Hmain : let m' := SCIPsdpVarmapperAddVars m n vars in
            consistent m' /\ nvars m <= nvars m' <= nvars m + n /\
            (forall var, SCIPhashmapExists (sciptosdp m') var = true <->
               SCIPhashmapExists (sciptosdp m) var = true \/
               exists k, 0 <= k < n /\ Arr.get 0 vars k = var) /\
            (forall var j, sciptosdp m var = Some j -> sciptosdp m' var = Some j)).
  { cbv zeta. unfold SCIPsdpVarmapperAddVars.
    destruct (Z.eqb_spec n 0) as [-> | Hne].
    - split; [exact Hm|]. split; [lia|]. split; [|auto].
      intros var. split; [intros H; left; exact H | intros [H | (k & Hk & _)]; [exact H | lia]].
    - pose proof (AddVars_loop m n vars Hm ltac:(lia)) as Hloop. cbv zeta beta in Hloop.
      destruct (Arr.for_range 0 n _ _) as [m1 r]. cbn [fst snd] in Hloop.
      destruct Hloop as (Hnv & Hl & Hr & Hf & Hb & Hold & Hex).
      destruct Hm as (Hlen & _). 
      destruct r.
      + (* the array is shortened *)
        split.
        * unfold consistent. cbn [nvars sdptoscip sciptosdp].
          split; [symmetry; apply realloc_length; lia|].
          split; [intros i Hi; rewrite get_realloc by lia; apply Hf; exact Hi|].
          intros var i Hi. destruct (Hb var i Hi) as [Hrange Hget].
          split; [exact Hrange | rewrite get_realloc by lia; exact Hget].
        * cbn [nvars sdptoscip sciptosdp]. split; [lia|]. split; [exact Hex | exact Hold].
      + split.
        * unfold consistent. specialize (Hr eq_refl).
          split; [lia|]. split; [exact Hf | exact Hb].
        * split; [lia|]. split; [exact Hex | exact Hold]. }
  cbv zeta in Hmain. destruct Hmain as (Hc & Hnv & Hex & Hold).
  destruct (consistent_round_trip _ Hc) as [Hrt1 Hrt2].
  split; [exact Hc|]. split; [exact Hnv|]. split; [exact Hex|].
  split; [|split].
  - intros var Hv. unfold SCIPsdpVarmapperGetSdpIndex, SCIPhashmapGetImageInt.
    apply exists_iff in Hv. destruct Hv as [j Hj]. rewrite (Hold var j Hj), Hj. reflexivity.
  - intros var Hv. apply Hrt1. exact Hv.
  - intros i Hi. apply Hrt2. exact Hi.
Qed.

End VarmapperFacts.

Section VarmapperShifts.

Import SdpVarmapper.

Lemma list_eq_get (a b : list Z) :
  length a = length b ->
  (forall j, 0 <= j < Z.of_nat (length a) -> Arr.get 0 a j = Arr.get 0 b j) -> a = b.
Proof.
  intros Hlen Hget. apply (nth_ext a b 0 0 Hlen).
  intros n Hn. specialize (Hget (Z.of_nat n) ltac:(lia)).
  unfold Arr.get in Hget. destruct (Z.ltb_spec (Z.of_nat n) 0); [lia|].
  rewrite Nat2Z.id in Hget. exact Hget.
Qed.

(** a variable is stored at the index [i] of a consistent mapper exactly
    if the hashmap maps it to [i] *)
Lemma consistent_at (m : Sdpvarmapper) (var i : Z) :
  consistent m -> 0 <= i < nvars m ->
  (var = Arr.get 0 (sdptoscip m) i <-> sciptosdp m var = Some i).
Proof.
  intros (_ & Hfwd & Hbwd) Hi. split.
  - intros ->. apply Hfwd, Hi.
  - intros Hv. symmetry. apply (Hbwd var i Hv).
Qed.

(** the SDP index [ind] is removed: the indices behind it move down *)
Lemma RemoveSdpIndex_spec (m : Sdpvarmapper) (ind : Z) :
  consistent m -> 0 <= ind < nvars m ->
  let m' := SCIPsdpVarmapperRemoveSdpIndex m ind in
  nvars m' = nvars m - 1 /\
  Z.of_nat (length (sdptoscip m')) = nvars m - 1 /\
  (forall j, 0 <= j < nvars m - 1 ->
     Arr.get 0 (sdptoscip m') j = Arr.get 0 (sdptoscip m) (if j <? ind then j else j + 1)) /\
  (forall var, sciptosdp m' var
     = match sciptosdp m var with
       | Some j => if j =? ind then None else if ind <? j then Some (j - 1) else Some j
       | None => None
       end).
Proof.
  intros Hm Hind. cbv zeta. unfold SCIPsdpVarmapperRemoveSdpIndex.
  pose proof Hm as (Hlen & Hfwd & Hbwd).
  set (body := fun (i : Z) (m' : Sdpvarmapper) => _).
  set (m0 := mkSdpvarmapper (sdptoscip m) _ (nvars m)).
  unfold Arr.for_range.
  pose proof (for_loop_indexed _
                (fun i (mc : Sdpvarmapper) =>
                   nvars mc = nvars m /\
                   length (sdptoscip mc) = length (sdptoscip m) /\
                   (forall j, Arr.get 0 (sdptoscip mc) j
                      = Arr.get 0 (sdptoscip m)
                          (if (ind <=? j) && (j <? i - 1) then j + 1 else j)) /\
                   (forall var, sciptosdp mc var
                      = match sciptosdp m var with
                        | Some j => if j =? ind then None
                                    else if (ind <? j) && (j <? i) then Some (j - 1)
                                    else Some j
                        | None => None
                        end))
                body (Z.to_nat (nvars m - (ind + 1))) (ind + 1) m0) as Hinv.
  cbv beta in Hinv.
  replace (ind + 1 + Z.of_nat (Z.to_nat (nvars m - (ind + 1)))) with (nvars m) in Hinv by lia.
  destruct Hinv as (Hn & Hl & Ha & Hh).
  - (* one pass *)
    intros i mc Hi (Hn & Hl & Ha & Hh). subst body. cbv beta zeta.
    cbn [nvars sdptoscip sciptosdp].
    assert (Hcur : Arr.get 0 (sdptoscip mc) i = Arr.get 0 (sdptoscip m) i).
    { rewrite Ha. destruct (Z.leb_spec ind i); destruct (Z.ltb_spec i (i - 1));
        cbn [andb]; try lia; reflexivity. }
    rewrite Hcur, get_set_same by lia.
    split; [exact Hn|]. split; [rewrite set_length; exact Hl|]. split.
    + intros j. destruct (Z.eq_dec j (i - 1)) as [-> | Hne].
      * rewrite get_set_same by lia.
        destruct (Z.leb_spec ind (i - 1)); destruct (Z.ltb_spec (i - 1) (i + 1 - 1));
          cbn [andb]; try lia. f_equal. lia.
      * rewrite get_set_other by congruence. rewrite Ha.
        destruct (Z.leb_spec ind j); destruct (Z.ltb_spec j (i - 1));
          destruct (Z.ltb_spec j (i + 1 - 1)); cbn [andb]; try lia; reflexivity.
    + intros var. unfold SCIPhashmapSetImageInt.
      destruct (Z.eqb_spec var (Arr.get 0 (sdptoscip m) i)) as [Heq | Hne].
      * apply (consistent_at m var i Hm) in Heq; [|lia]. rewrite Heq.
        destruct (Z.eqb_spec i ind); [lia|].
        destruct (Z.ltb_spec ind i); destruct (Z.ltb_spec i (i + 1)); cbn [andb]; try lia.
        reflexivity.
      * rewrite Hh. destruct (sciptosdp m var) as [j|] eqn:Ej; [|reflexivity].
        assert (j <> i).
        { intros ->. apply Hne. apply (consistent_at m var i Hm); [lia | exact Ej]. }
        destruct (Z.eqb_spec j ind); [reflexivity|].
        destruct (Z.ltb_spec ind j); destruct (Z.ltb_spec j i);
          destruct (Z.ltb_spec j (i + 1)); cbn [andb]; try lia; reflexivity.
  - (* before the first pass *)
    subst m0. cbn [nvars sdptoscip sciptosdp].
    split; [reflexivity|]. split; [reflexivity|]. split.
    + intros j. destruct (Z.leb_spec ind j); destruct (Z.ltb_spec j (ind + 1 - 1));
        cbn [andb]; try lia; reflexivity.
    + intros var. unfold SCIPhashmapRemove.
      destruct (Z.eqb_spec var (Arr.get 0 (sdptoscip m) ind)) as [Heq | Hne].
      * apply (consistent_at m var ind Hm) in Heq; [|lia]. rewrite Heq, Z.eqb_refl.
        reflexivity.
      * destruct (sciptosdp m var) as [j|] eqn:Ej; [|reflexivity].
        destruct (Z.eqb_spec j ind) as [-> | Hj].
        -- exfalso. apply Hne. apply (consistent_at m var ind Hm); [lia | exact Ej].
        -- destruct (Z.ltb_spec ind j); destruct (Z.ltb_spec j (ind + 1));
             cbn [andb]; try lia; reflexivity.
  - (* the array is shortened *)
    cbn [nvars sdptoscip sciptosdp]. rewrite Hn.
    split; [reflexivity|]. split; [apply realloc_length; lia|]. split.
    + intros j Hj. rewrite get_realloc by lia. rewrite Ha.
      destruct (Z.leb_spec ind j); destruct (Z.ltb_spec j (nvars m - 1));
        destruct (Z.ltb_spec j ind); cbn [andb]; try lia; reflexivity.
    + intros var. rewrite Hh. destruct (sciptosdp m var) as [j|] eqn:Ej; [|reflexivity].
      destruct (Hbwd var j Ej) as [Hr _].
      destruct (Z.eqb_spec j ind); [reflexivity|].
      destruct (Z.ltb_spec ind j); destruct (Z.ltb_spec j (nvars m));
        cbn [andb]; try lia; reflexivity.
Qed.

(** the variable [var] is inserted at the SDP index [pos]: the indices
    from [pos] on move up *)
Lemma InsertVar_spec (m : Sdpvarmapper) (var pos : Z) :
  consistent m -> sciptosdp m var = None -> 0 <= pos <= nvars m ->
  let m' := SCIPsdpVarmapperInsertVar m var pos in
  nvars m' = nvars m + 1 /\
  Z.of_nat (length (sdptoscip m')) = nvars m + 1 /\
  (forall j, 0 <= j < nvars m + 1 ->
     Arr.get 0 (sdptoscip m') j
     = if j <? pos then Arr.get 0 (sdptoscip m) j
       else if j =? pos then var else Arr.get 0 (sdptoscip m) (j - 1)) /\
  (forall v, sciptosdp m' v
     = if v =? var then Some pos
       else match sciptosdp m v with
            | Some j => if pos <=? j then Some (j + 1) else Some j
            | None => None
            end).
Proof.
  intros Hm Hfresh Hpos. cbv zeta. unfold SCIPsdpVarmapperInsertVar.
  pose proof Hm as (Hlen & Hfwd & Hbwd).
  unfold SCIPhashmapExists. rewrite Hfresh. cbn [negb].
  destruct (Z.eqb_spec pos (nvars m)) as [-> | Hmid].
  - (* at the end *)
    unfold SCIPsdpVarmapperAddVars. change (1 =? 0) with false. cbv iota.
    unfold Arr.for_range. change (Z.to_nat (1 - 0)) with 1%nat. cbn [Arr.for_loop].
    change (Arr.get 0 [var] 0) with var.
    cbn [nvars sdptoscip sciptosdp]. unfold SCIPhashmapExists. rewrite Hfresh. cbn [negb].
    cbn [nvars sdptoscip sciptosdp].
    split; [reflexivity|].
    split; [rewrite set_length; apply realloc_length; lia|]. split.
    + intros j Hj. destruct (Z.ltb_spec j (nvars m)).
      * rewrite get_set_other by lia. apply get_realloc; lia.
      * assert (j = nvars m) as -> by lia. rewrite Z.eqb_refl.
        apply get_set_same. rewrite realloc_length; lia.
    + intros v. unfold SCIPhashmapInsertInt.
      destruct (Z.eqb_spec v var); [reflexivity|].
      destruct (sciptosdp m v) as [j|] eqn:Ej; [|reflexivity].
      destruct (Hbwd v j Ej) as [Hr _]. destruct (Z.leb_spec (nvars m) j); [lia | reflexivity].
  - (* in the middle *)
    set (body := fun (k : Z) (m' : Sdpvarmapper) => _).
    set (m0 := mkSdpvarmapper (realloc (sdptoscip m) (nvars m + 1)) (sciptosdp m) (nvars m)).
    unfold Arr.for_range. rewrite Z.sub_0_r.
    pose proof (for_loop_indexed _
                  (fun k (mc : Sdpvarmapper) =>
                     nvars mc = nvars m /\
                     Z.of_nat (length (sdptoscip mc)) = nvars m + 1 /\
                     (forall j, 0 <= j < nvars m + 1 ->
                        Arr.get 0 (sdptoscip mc) j
                        = if nvars m - k <? j then Arr.get 0 (sdptoscip m) (j - 1)
                          else Arr.get 0 (sdptoscip m0) j) /\
                     (forall v, sciptosdp mc v
                        = match sciptosdp m v with
                          | Some j => if nvars m - 1 - k <? j then Some (j + 1) else Some j
                          | None => None
                          end))
                  body (Z.to_nat (nvars m - pos)) 0 m0) as Hinv.
    cbv beta in Hinv.
    replace (0 + Z.of_nat (Z.to_nat (nvars m - pos))) with (nvars m - pos) in Hinv by lia.
    assert (Ha0 : forall j, 0 <= j < nvars m ->
              Arr.get 0 (sdptoscip m0) j = Arr.get 0 (sdptoscip m) j).
    { intros j Hj. subst m0. cbn [sdptoscip]. apply get_realloc; lia. }
    destruct Hinv as (Hn & Hl & Ha & Hh).
    + (* one pass *)
      intros k mc Hk (Hn & Hl & Ha & Hh). subst body. cbv beta zeta.
      cbn [nvars sdptoscip sciptosdp].
      assert (Hcur : Arr.get 0 (sdptoscip mc) (nvars m - 1 - k)
                     = Arr.get 0 (sdptoscip m) (nvars m - 1 - k)).
      { rewrite Ha by lia. destruct (Z.ltb_spec (nvars m - k) (nvars m - 1 - k)); [lia|].
        apply Ha0. lia. }
      rewrite Hcur, get_set_same by lia.
      split; [exact Hn|]. split; [rewrite set_length; exact Hl|]. split.
      * intros j Hj. destruct (Z.eq_dec j (nvars m - 1 - k + 1)) as [-> | Hne].
        -- rewrite get_set_same by lia.
           destruct (Z.ltb_spec (nvars m - (k + 1)) (nvars m - 1 - k + 1)); [|lia].
           f_equal. lia.
        -- rewrite get_set_other by congruence. rewrite Ha by lia.
           destruct (Z.ltb_spec (nvars m - k) j); destruct (Z.ltb_spec (nvars m - (k + 1)) j);
             try lia; reflexivity.
      * intros v. unfold SCIPhashmapSetImageInt.
        destruct (Z.eqb_spec v (Arr.get 0 (sdptoscip m) (nvars m - 1 - k))) as [Heq | Hne].
        -- apply (consistent_at m v (nvars m - 1 - k) Hm) in Heq; [|lia]. rewrite Heq.
           destruct (Z.ltb_spec (nvars m - 1 - (k + 1)) (nvars m - 1 - k)); [|lia].
           reflexivity.
        -- rewrite Hh. destruct (sciptosdp m v) as [j|] eqn:Ej; [|reflexivity].
           assert (j <> nvars m - 1 - k).
           { intros ->. apply Hne. apply (consistent_at m v _ Hm); [lia | exact Ej]. }
           destruct (Z.ltb_spec (nvars m - 1 - k) j);
             destruct (Z.ltb_spec (nvars m - 1 - (k + 1)) j); try lia; reflexivity.
    + (* before the first pass *)
      subst m0. cbn [nvars sdptoscip sciptosdp].
      split; [reflexivity|]. split; [apply realloc_length; lia|]. split.
      * intros j Hj. destruct (Z.ltb_spec (nvars m - 0) j); [lia | reflexivity].
      * intros v. destruct (sciptosdp m v) as [j|] eqn:Ej; [|reflexivity].
        destruct (Hbwd v j Ej) as [Hr _].
        destruct (Z.ltb_spec (nvars m - 1 - 0) j); [lia | reflexivity].
    + (* the variable is stored *)
      cbn [nvars sdptoscip sciptosdp]. rewrite Hn.
      split; [reflexivity|]. split; [rewrite set_length; exact Hl|]. split.
      * intros j Hj. destruct (Z.eqb_spec j pos) as [-> | Hne].
        -- destruct (Z.ltb_spec pos pos); [lia|]. apply get_set_same. lia.
        -- rewrite get_set_other by congruence. rewrite Ha by lia.
           destruct (Z.ltb_spec (nvars m - (nvars m - pos)) j); destruct (Z.ltb_spec j pos);
             first [lia | reflexivity | apply Ha0; lia].
      * intros v. unfold SCIPhashmapInsertInt.
        destruct (Z.eqb_spec v var); [reflexivity|].
        rewrite Hh. destruct (sciptosdp m v) as [j|]; [|reflexivity].
        destruct (Z.ltb_spec (nvars m - 1 - (nvars m - pos)) j); destruct (Z.leb_spec pos j);
          try lia; reflexivity.
Qed.


End VarmapperShifts.

Lemma AddVars_keeps_map_witness :
  let m' := SdpVarmapper.SCIPsdpVarmapperAddVars SdpVarmapper.SCIPsdpVarmapperCreate 3
              [11; 12; 11] in
  SdpVarmapper.consistent m' /\
  SdpVarmapper.SCIPsdpVarmapperGetSCIPvar m' (SdpVarmapper.SCIPsdpVarmapperGetSdpIndex m' 12)
  = 12.
Proof.
  destruct (AddVars_keeps_map SdpVarmapper.SCIPsdpVarmapperCreate 3 [11; 12; 11])
    as (Hc & _ & Hex & _ & Hrt & _).
  - split; [reflexivity|].
    split; [intros i Hi; cbn in Hi; lia | intros var i Hi; discriminate Hi].
  - lia.
  - split; [exact Hc|]. apply Hrt. apply Hex. right. exists 1. split; [lia | reflexivity].
Defined.

